(** * Graph algorithms of [main.py]: Prim, Bellman-Ford, Floyd-Warshall

    A shallow embedding of the algorithmic core of [src/main.py] and the
    proofs of its specification.
    The reader of the DOT files, the pictures and [main] follow the three
    algorithms, each with its own conventions.

    Modelling conventions.
    - Vertex labels are Python [str] values: [string].
    - Edge weights are Python [int] values: [Z].
    - A number stored in a distance table is either an [int] or the float
      [math.inf]: the type [num].  Python adds an [int] to [math.inf] by
      converting the [int] to a float, which raises [OverflowError] when
      the magnitude of the [int] is [2**1024 - 2**970] or more: [num_add].
      The sum in the extended integers, [num_plus], occurs in statements
      only.
    - A [dict] is a [gmap]; a missing key raises [KeyError].
    - A list indexed by position is a [list]; an index out of range raises
      [IndexError].
    - [heapq] is modelled by the multiset of entries of the heap:
      [heappop] removes the least entry in the order of Python tuples.
    - A [for] loop is a fold; a [while] loop is a fuelled recursion whose
      result is [None] when the fuel runs out. *)

From Stdlib Require Import ZArith Lia List String Ascii Permutation.
From stdpp Require Import base option gmap sets list strings fin_maps sorting
  pretty.

Local Open Scope Z_scope.
#[local] Set Warnings "-clear-no-such-hyp".

(** ** Python values and exceptions *)

Definition edge : Type := string * string * Z.

Inductive num : Type :=
| Int (z : Z)
| inf.

(** The sum in the integers extended by infinity. *)
Definition num_plus (a b : num) : num :=
  match a, b with
  | Int x, Int y => Int (x + y)
  | _, _ => inf
  end.

Definition num_ltb (a b : num) : bool :=
  match a, b with
  | Int x, Int y => x <? y
  | Int _, inf => true
  | inf, _ => false
  end.

(** [min(a, b)] of Python: [b] only when it is strictly smaller. *)
Definition num_min (a b : num) : num :=
  if num_ltb b a then b else a.

Inductive exn : Type :=
| KeyError (k : option string)
| IndexError
| ValueError (msg : string)
| OverflowError.

Inductive result (A : Type) : Type :=
| Ok (a : A)
| Raise (e : exn).
Arguments Ok {A} a.
Arguments Raise {A} e.

#[global] Instance result_ret : MRet result := fun A a => Ok a.
#[global] Instance result_bind : MBind result := fun A B f m =>
  match m with
  | Ok a => f a
  | Raise e => Raise e
  end.

(** An [int] converts to a float when it rounds to a finite one: the
    largest float is [2**1024 - 2**971], and half a unit in its last place
    is [2**970]. *)
Definition float_max : Z := 2 ^ 1024 - 2 ^ 970.

Definition fits (z : Z) : bool := Z.abs z <? float_max.

(** [a + b] of Python: two [int] values add exactly; an [int] added to
    [math.inf], on either side, is converted to a float first. *)
Definition num_add (a b : num) : result num :=
  match a, b with
  | Int x, Int y => Ok (Int (x + y))
  | Int x, inf => if fits x then Ok inf else Raise OverflowError
  | inf, Int y => if fits y then Ok inf else Raise OverflowError
  | inf, inf => Ok inf
  end.

Fixpoint foldM {A S : Type} (f : S → A → result S) (s : S) (l : list A)
  : result S :=
  match l with
  | [] => Ok s
  | x :: l' => s' ← f s x; foldM f s' l'
  end.

(** [d[k]] on a dict. *)
Definition getitem {A : Type} (d : gmap string A) (k : string) : result A :=
  match d !! k with
  | Some a => Ok a
  | None => Raise (KeyError (Some k))
  end.

(** [l[i]] and [l[i] = x] on a list, for a non-negative index. *)
Definition list_get {A : Type} (l : list A) (i : nat) : result A :=
  match l !! i with
  | Some a => Ok a
  | None => Raise IndexError
  end.

Definition list_set {A : Type} (l : list A) (i : nat) (x : A)
  : result (list A) :=
  if decide (i < length l)%nat then Ok (<[i := x]> l) else Raise IndexError.

(** [m[i][j]] and [m[i][j] = x] on a list of rows. *)
Definition mget {A : Type} (m : list (list A)) (i j : nat) : result A :=
  row ← list_get m i; list_get row j.

Definition mset {A : Type} (m : list (list A)) (i j : nat) (x : A)
  : result (list (list A)) :=
  row ← list_get m i; row' ← list_set row j x; list_set m i row'.

(** [{v: x for v in vertices}] *)
Definition dict_const {A : Type} (vertices : list string) (x : A)
  : gmap string A :=
  foldl (fun d v => <[v := x]> d) ∅ vertices.

(** ** Prim *)

Module Prim.

Definition entry : Type := Z * string.

(** Order of the tuples [(w, v)] in the heap. *)
Definition entry_ltb (a b : entry) : bool :=
  (a.1 <? b.1) || ((a.1 =? b.1) && String.ltb a.2 b.2).

Definition heappush (pq : list entry) (x : entry) : list entry := x :: pq.

(** [pop_min x pq] is the least entry of [x :: pq] and the other ones. *)
Fixpoint pop_min (x : entry) (pq : list entry) : entry * list entry :=
  match pq with
  | [] => (x, [])
  | y :: pq' =>
      if entry_ltb y x
      then let '(m, r) := pop_min y pq' in (m, x :: r)
      else let '(m, r) := pop_min x pq' in (m, y :: r)
  end.

Definition heappop (pq : list entry) : option (entry * list entry) :=
  match pq with
  | [] => None
  | x :: pq' => Some (pop_min x pq')
  end.

Abbreviation adjacency := (gmap string (list (string * Z))).

(** [adj[u]] on the [defaultdict(list)]. *)
Definition adj_get (adj : adjacency) (u : string) : list (string * Z) :=
  default [] (adj !! u).

(** [adj[u].append(x)] *)
Definition adj_append (adj : adjacency) (u : string) (x : string * Z)
  : adjacency :=
  <[u := adj_get adj u ++ [x]]> adj.

Definition build_adj (edges : list edge) : adjacency :=
  foldl (fun adj '(u, v, w) => adj_append (adj_append adj u (v, w)) v (u, w))
        ∅ edges.

Record state : Type := State {
  min_weight : gmap string num;
  parent : gmap string (option string);
  pq : list entry;
  in_tree : gset string
}.

(** The body of [for v, w in adj[u]]. *)
Definition relax (u : string) (st : state) (vw : string * Z) : result state :=
  let '(v, w) := vw in
  if decide (v ∈ in_tree st) then Ok st
  else
    mv ← getitem (min_weight st) v;
    if num_ltb (Int w) mv
    then Ok (State (<[v := Int w]> (min_weight st))
                   (<[v := Some u]> (parent st))
                   (heappush (pq st) (w, v))
                   (in_tree st))
    else Ok st.

(** [while pq: ...]; [None] when the fuel runs out. *)
Fixpoint loop (adj : adjacency) (fuel : nat) (st : state)
  : option (result state) :=
  match heappop (pq st) with
  | None => Some (Ok st)
  | Some ((k, u), pq') =>
      match fuel with
      | O => None
      | S fuel' =>
          if decide (u ∈ in_tree st)
          then loop adj fuel' (State (min_weight st) (parent st) pq' (in_tree st))
          else
            match foldM (relax u)
                        (State (min_weight st) (parent st) pq'
                               ({[u]} ∪ in_tree st))
                        (adj_get adj u) with
            | Ok st' => loop adj fuel' st'
            | Raise e => Some (Raise e)
            end
      end
  end.

(** [for v in vertices if parent[v] is not None] *)
Definition mst_of (vertices : list string) (st : state)
  : result (list (string * string * num)) :=
  foldM (fun acc v =>
           p ← getitem (parent st) v;
           match p with
           | None => Ok acc
           | Some pv => mv ← getitem (min_weight st) v; Ok (acc ++ [(pv, v, mv)])
           end) [] vertices.

Definition total_of (vertices : list string) (st : state) : result num :=
  foldM (fun acc v =>
           p ← getitem (parent st) v;
           match p with
           | None => Ok acc
           | Some _ => mv ← getitem (min_weight st) v; num_add acc mv
           end) (Int 0) vertices.

(** What [prim] returns: [[]] or the pair [(mst_edges, total_weight)]. *)
Inductive output : Type :=
| Empty
| Tree (mst_edges : list (string * string * num)) (total_weight : num).

Definition init (vertices : list string) (root : string) : state :=
  State (<[root := Int 0]> (dict_const vertices inf))
        (dict_const vertices None)
        [(0, root)]
        ∅.

Definition prim (fuel : nat) (vertices : list string) (edges : list edge)
  : option (result output) :=
  match vertices with
  | [] => Some (Ok Empty)
  | root :: _ =>
      match loop (build_adj edges) fuel (init vertices root) with
      | None => None
      | Some (Raise e) => Some (Raise e)
      | Some (Ok st) =>
          Some (mst_edges ← mst_of vertices st;
                total_weight ← total_of vertices st;
                Ok (Tree mst_edges total_weight))
      end
  end.

Definition unpack_msg : string :=
  "not enough values to unpack (expected 2, got 0)"%string.

(** [if not is_directed: mst_edges, total_weight = prim(vertices, edges)]
    of [main]: Prim runs on undirected graphs only, [Ok None] says that it
    did not run.  Unpacking the empty list of an empty graph raises. *)
Definition main_prim (fuel : nat) (is_directed : bool)
  (vertices : list string) (edges : list edge)
  : option (result (option (list (string * string * num) * num))) :=
  if is_directed then Some (Ok None)
  else match prim fuel vertices edges with
       | None => None
       | Some (Raise e) => Some (Raise e)
       | Some (Ok Empty) => Some (Raise (ValueError unpack_msg))
       | Some (Ok (Tree mst_edges total_weight)) =>
           Some (Ok (Some (mst_edges, total_weight)))
       end.

End Prim.

(** ** Bellman-Ford *)

Module BF.

Definition tables : Type := gmap string num * gmap string (option string).

(** The body of the relaxation loop; the flag is [updated]. *)
Definition relax (st : tables * bool) (e : edge) : result (tables * bool) :=
  let '(u, v, w) := e in
  du ← getitem st.1.1 u;
  s ← num_add du (Int w);
  dv ← getitem st.1.1 v;
  if num_ltb s dv
  then
    s' ← num_add du (Int w);
    Ok (<[v := s']> st.1.1, <[v := Some u]> st.1.2, true)
  else Ok st.

(** [for _ in range(k)] with its [break]. *)
Fixpoint passes (edges : list edge) (k : nat) (st : tables) : result tables :=
  match k with
  | O => Ok st
  | S k' =>
      match foldM relax (st, false) edges with
      | Raise e => Raise e
      | Ok (st', updated) => if updated then passes edges k' st' else Ok st'
      end
  end.

Definition negative_cycle_msg : string := "Grafo contém ciclo negativo."%string.

Definition check (dist : gmap string num) (_ : unit) (e : edge) : result unit :=
  let '(u, v, w) := e in
  du ← getitem dist u;
  s ← num_add du (Int w);
  dv ← getitem dist v;
  if num_ltb s dv
  then Raise (ValueError negative_cycle_msg)
  else Ok tt.

Definition bellman_ford (vertices : list string) (edges : list edge)
  (source : string) : result tables :=
  let dist := <[source := Int 0]> (dict_const vertices inf) in
  let parent := dict_const vertices None in
  st ← passes edges (length vertices - 1)%nat (dist, parent);
  _ ← foldM (check st.1) tt edges;
  Ok st.

End BF.

(** ** Floyd-Warshall and the reconstruction of paths *)

Module FW.

Definition matrices : Type := list (list num) * list (list (option string)).

(** [{v: i for i, v in enumerate(vertices)}] *)
Definition make_pos (vertices : list string) : gmap string nat :=
  foldl (fun d iv => <[iv.2 := iv.1]> d) ∅
        (zip (seq 0 (length vertices)) vertices).

Definition init_vertex (pos : gmap string nat) (st : matrices) (v : string)
  : result matrices :=
  p ← getitem pos v;
  dist ← mset st.1 p p (Int 0);
  p' ← getitem pos v;
  next_node ← mset st.2 p' p' (Some v);
  Ok (dist, next_node).

Definition init_edge (pos : gmap string nat) (st : matrices) (e : edge)
  : result matrices :=
  let '(u, v, w) := e in
  pu ← getitem pos u;
  pv ← getitem pos v;
  d ← mget st.1 pu pv;
  dist ← mset st.1 pu pv (num_min d (Int w));
  next_node ← mset st.2 pu pv (Some v);
  Ok (dist, next_node).

(** The body of the triple loop. *)
Definition step (k i : nat) (st : matrices) (j : nat) : result matrices :=
  dij ← mget st.1 i j;
  dik ← mget st.1 i k;
  dkj ← mget st.1 k j;
  s ← num_add dik dkj;
  if num_ltb s dij
  then
    s' ← num_add dik dkj;
    dist ← mset st.1 i j s';
    nik ← mget st.2 i k;
    next_node ← mset st.2 i j nik;
    Ok (dist, next_node)
  else Ok st.

Definition row_loop (n k : nat) (st : matrices) (i : nat) : result matrices :=
  foldM (step k i) st (seq 0 n).

Definition mid_loop (n : nat) (st : matrices) (k : nat) : result matrices :=
  foldM (row_loop n k) st (seq 0 n).

Definition floyd_warshall (vertices : list string) (edges : list edge)
  : result (list (list num) * gmap string nat * list (list (option string))) :=
  let n := length vertices in
  let pos := make_pos vertices in
  let dist := replicate n (replicate n inf) in
  let next_node := replicate n (replicate n (@None string)) in
  st ← foldM (init_vertex pos) (dist, next_node) vertices;
  st ← foldM (init_edge pos) st edges;
  st ← foldM (mid_loop n) st (seq 0 n);
  Ok (st.1, pos, st.2).

(** [next_node[pos[u]][pos[v]]]: the row is taken before [pos[v]] is
    looked up. *)
Definition successor (pos : gmap string nat)
  (next_node : list (list (option string))) (u v : string)
  : result (option string) :=
  pu ← getitem pos u;
  row ← list_get next_node pu;
  pv ← getitem pos v;
  list_get row pv.

(** [while u != v: ...]; [None] when the fuel runs out.  A successor that
    is [None] is looked up in [pos] by the next iteration, which raises. *)
Fixpoint loop (pos : gmap string nat) (next_node : list (list (option string)))
  (v : string) (fuel : nat) (u : string) (path : list string)
  : option (result (list string)) :=
  if decide (u = v) then Some (Ok path)
  else
    match fuel with
    | O => None
    | S fuel' =>
        match successor pos next_node u v with
        | Raise e => Some (Raise e)
        | Ok None => Some (Raise (KeyError None))
        | Ok (Some u') => loop pos next_node v fuel' u' (path ++ [u'])
        end
    end.

Definition reconstruct_path (fuel : nat) (u v : string)
  (vertices : list string) (pos : gmap string nat)
  (next_node : list (list (option string))) : option (result (list string)) :=
  match successor pos next_node u v with
  | Raise e => Some (Raise e)
  | Ok None => Some (Ok [])
  | Ok (Some _) => loop pos next_node v fuel u [u]
  end.

End FW.

(** * The reader of DOT files

    [read_dot_file] is modelled from the list of lines that [readlines]
    returns; [read_dot_path] puts before it what [open] and [readlines]
    give for the path, the lines or an error.  A [str] is a [string], one
    [ascii] for each character: the model covers the texts whose characters
    are below U+0100.  The builtin [int] on a [str] is a parameter of the
    model. *)

(** ** Methods of [str] *)

Module Str.

(** The characters that [str.strip] removes, below U+0100. *)
Definition isspace (c : ascii) : bool :=
  let n := nat_of_ascii c in
  ((9 <=? n) && (n <=? 13) || (28 <=? n) && (n <=? 32)
   || (n =? 133) || (n =? 160))%nat.

(** [s.replace(c, '')] for a character [c]. *)
Fixpoint remove (c : ascii) (s : string) : string :=
  match s with
  | EmptyString => EmptyString
  | String x s' => if Ascii.eqb x c then remove c s' else String x (remove c s')
  end.

Fixpoint lstrip (s : string) : string :=
  match s with
  | EmptyString => EmptyString
  | String x s' => if isspace x then lstrip s' else s
  end.

Fixpoint rstrip (s : string) : string :=
  match s with
  | EmptyString => EmptyString
  | String x s' =>
      match rstrip s' with
      | EmptyString => if isspace x then EmptyString else String x EmptyString
      | r => String x r
      end
  end.

(** [s.strip()] *)
Definition strip (s : string) : string := rstrip (lstrip s).

(** [sub in s] *)
Fixpoint contains (sub s : string) : bool :=
  String.prefix sub s
  || match s with
     | EmptyString => false
     | String _ s' => contains sub s'
     end.

(** The parts of [s] between the occurrences of [sep], found from the
    left: the first part and the other ones.  [skip] characters of an
    occurrence are still to be passed over. *)
Fixpoint split_go (sep : string) (skip : nat) (s : string)
  : string * list string :=
  match s with
  | EmptyString => (EmptyString, [])
  | String x s' =>
      match skip with
      | S k => split_go sep k s'
      | O =>
          if String.prefix sep s
          then (EmptyString,
                let '(p, ps) := split_go sep (String.length sep - 1) s' in
                p :: ps)
          else let '(p, ps) := split_go sep 0 s' in (String x p, ps)
      end
  end.

(** [s.split(sep)] for a separator that is not empty. *)
Definition split (sep s : string) : list string :=
  let '(p, ps) := split_go sep 0 s in p :: ps.

(** [s[:-1]] *)
Fixpoint drop_last (s : string) : string :=
  match s with
  | EmptyString => EmptyString
  | String x s' =>
      match s' with
      | EmptyString => EmptyString
      | String _ _ => String x (drop_last s')
      end
  end.

(** The order of [str]: by the code of the characters. *)
Definition le (a b : string) : Prop := String.leb a b = true.

#[global] Instance le_dec (a b : string) : Decision (le a b) :=
  decide (String.leb a b = true).

(** [sorted(vertices)] on a set of [str]. *)
Definition sorted (vertices : gset string) : list string :=
  merge_sort le (elements vertices).

End Str.

(** ** Outcomes with the exceptions of the reader and of [main] *)

(** [OSError] and [UnicodeDecodeError] come from outside the program:
    [open], [os.mkdir] and [os.chdir] raise the first, [readlines] the
    second.  [RenderError] stands for what [dot.render] raises when it
    cannot write the picture. *)
Inductive failure : Type :=
| Algo (e : exn)
| AttributeError
| AssertionError (msg : string)
| UnboundLocalError (name : string)
| OSError
| UnicodeDecodeError
| RenderError.

Inductive outcome (A : Type) : Type :=
| Done (a : A)
| Fail (e : failure).
Arguments Done {A} a.
Arguments Fail {A} e.

#[global] Instance outcome_ret : MRet outcome := fun A a => Done a.
#[global] Instance outcome_bind : MBind outcome := fun A B f m =>
  match m with
  | Done a => f a
  | Fail e => Fail e
  end.

Definition lift {A : Type} (r : result A) : outcome A :=
  match r with
  | Ok a => Done a
  | Raise e => Fail (Algo e)
  end.

Fixpoint foldO {A S : Type} (f : S → A → outcome S) (s : S) (l : list A)
  : outcome S :=
  match l with
  | [] => Done s
  | x :: l' => s' ← f s x; foldO f s' l'
  end.

(** ** [read_dot_file] *)

Module Dot.

(** An element of the list [line]: a [str], or the list that took its
    place. *)
Inductive cell : Type :=
| CStr (s : string)
| CList.

(** A weight before [int]: the text of a label, or the [int] that stands
    for a missing label. *)
Inductive field : Type :=
| FStr (s : string)
| FInt (z : Z).

(** The tuple [(u, type, v, w)]. *)
Definition raw_edge : Type := string * string * string * field.

(** [line.replace('\n', '').replace(';', '').strip()] *)
Definition clean (line : string) : string :=
  Str.strip (Str.remove ";" (Str.remove "010" line)).

(** [line[i+1].strip().split(' [label=')] and what the branches on its
    length leave at the indices [0] and [1]: with two parts the second one
    loses its last character, otherwise [1] is appended. *)
Definition label_of (s : string) : string * field :=
  let '(v, rest) := Str.split_go " [label=" 0 (Str.strip s) in
  match rest with
  | [] => (v, FInt 1)
  | [w] => (v, FStr (Str.drop_last w))
  | w :: _ :: _ => (v, FStr w)
  end.

(** The body of [for i in range(len(line) - 1)]. *)
Definition edge_step (delimiter : string) (st : list cell * list raw_edge)
  (i : nat) : outcome (list cell * list raw_edge) :=
  match st.1 !! Datatypes.S i with
  | None => Fail (Algo IndexError)
  | Some CList => Fail AttributeError
  | Some (CStr s) =>
      let '(v, w) := label_of s in
      let line := <[Datatypes.S i := CList]> st.1 in
      match line !! i with
      | None => Fail (Algo IndexError)
      | Some CList => Fail AttributeError
      | Some (CStr u) =>
          Done (line, st.2 ++ [(Str.strip u, delimiter, v, w)])
      end
  end.

(** The body of [for line in content]. *)
Definition line_edges (delimiter : string) (edges : list raw_edge)
  (line : list string) : outcome (list raw_edge) :=
  st ← foldO (edge_step delimiter) (map CStr line, edges)
             (seq 0 (length line - 1));
  Done st.2.

Definition mismatch_msg : string :=
  "Graph type and edges connections in file don't match."%string.

Section Reader.
Variable int : string → result Z.

(** [int(w)] *)
Definition int_of (w : field) : result Z :=
  match w with
  | FStr s => int s
  | FInt z => Ok z
  end.

(** The body of [for u, type, v, w in edges]. *)
Definition collect (is_directed : bool) (st : list edge * gset string)
  (r : raw_edge) : outcome (list edge * gset string) :=
  let '(u, type, v, w) := r in
  z ← lift (int_of w);
  let edges_list := st.1 ++ [(u, v, z)] in
  let vertices := {[u]} ∪ {[v]} ∪ st.2 in
  edges_list ←
    (if bool_decide (type = "--"%string) && negb is_directed
     then z' ← lift (int_of w); Done (edges_list ++ [(v, u, z')])
     else Done edges_list);
  if bool_decide (type = "--"%string) && is_directed
     || bool_decide (type = "->"%string) && negb is_directed
  then Fail (AssertionError mismatch_msg)
  else Done (edges_list, vertices).

(** [read_dot_file], from the lines of the file. *)
Definition read_dot_file (content : list string)
  : outcome (bool * list edge * list string) :=
  match content with
  | [] => Fail (Algo IndexError)
  | header :: _ =>
      let is_directed := Str.contains "digraph" header in
      let delimiter := (if is_directed then "->" else "--")%string in
      let content :=
        map (fun line => Str.split delimiter (clean line))
            (take (length content - 2) (tail content)) in
      edges ← foldO (line_edges delimiter) [] content;
      st ← foldO (collect is_directed) ([], ∅) edges;
      Done (is_directed, st.1, Str.sorted st.2)
  end.

(** [read_dot_file(path)], from what [open] and [readlines] give for the
    path: the lines of the file, or the error that they raise. *)
Definition read_dot_path (file : outcome (list string))
  : outcome (bool * list edge * list string) :=
  content ← file; read_dot_file content.

End Reader.
End Dot.


(** * The pictures

    The functions that draw with [graphviz] are modelled by the pictures
    that they hand over to [render]: the kind of the graph, its nodes and
    its edges with their attributes, in the order of the calls, and the
    name of the file.  The comment of a picture and what is printed are
    left out.  [graphviz] says whether the module could be imported;
    without it the functions return at once.  Whether [render] writes the
    picture is a matter of the program that calls them: [Main.world]. *)

Module Viz.

Inductive kind : Type :=
| Digraph
| Graph.

Definition attrs : Type := list (string * string).

(** [dot.node(name, ...)] and [dot.edge(tail_name, head_name, ...)] with
    their keyword arguments. *)
Record node : Type := Node {
  node_name : string;
  node_attrs : attrs
}.

Record drawn : Type := Drawn {
  tail_name : string;
  head_name : string;
  edge_attrs : attrs
}.

Record picture : Type := Picture {
  pic_kind : kind;
  pic_nodes : list node;
  pic_edges : list drawn;
  pic_file : string
}.

(** [str(w)] on a weight of Prim. *)
Definition str_num (w : num) : string :=
  match w with
  | Int z => pretty z
  | inf => "inf"
  end.

(** [(path[k], path[k + 1]) for k in range(len(path) - 1)] *)
Definition steps (path : list string) : list (string * string) :=
  zip path (tail path).

(** A loop whose body may fail or run out of fuel. *)
Fixpoint foldF {A S : Type} (f : S → A → option (result S)) (s : S)
  (l : list A) : option (result S) :=
  match l with
  | [] => Some (Ok s)
  | x :: l' =>
      match f s x with
      | None => None
      | Some (Raise e) => Some (Raise e)
      | Some (Ok s') => foldF f s' l'
      end
  end.

Section Graphviz.
Variable graphviz : bool.

Definition generate_graph (is_directed : bool) (edges : list edge)
  (output_path : string) : option picture :=
  if graphviz
  then Some (Picture (if is_directed then Digraph else Graph) []
               (map (fun e : edge =>
                       let '(u, v, w) := e in
                       Drawn u v [("label", pretty w)]%string) edges)
               output_path)
  else None.

Definition visualize_mst (mst_edges : list (string * string * num))
  (name : string) : option picture :=
  if graphviz
  then Some (Picture Graph []
               (map (fun e : string * string * num =>
                       let '(u, v, w) := e in
                       Drawn u v [("label", str_num w)]%string) mst_edges)
               name)
  else None.

(** [used]: the pairs [(p, v)] of the items [v: p] of [parent] with a
    [p] that is not [None]. *)
Definition used_of (parent : gmap string (option string))
  : gset (string * string) :=
  map_fold (fun v p used =>
              match p with
              | Some p' => {[ (p', v) ]} ∪ used
              | None => used
              end) ∅ parent.

Definition visualize_bellman_paths (edges : list edge)
  (parent : gmap string (option string)) (source : string) (name : string)
  : option picture :=
  if graphviz
  then
    let used := used_of parent in
    Some (Picture Digraph []
            (map (fun e : edge =>
                    let '(u, v, w) := e in
                    let color :=
                      (if decide ((u, v) ∈ used) then "red" else "gray")
                        %string in
                    let penwidth :=
                      (if decide ((u, v) ∈ used) then "2" else "1")%string in
                    Drawn u v [("label", pretty w); ("color", color);
                               ("penwidth", penwidth)]%string) edges)
            name)
  else None.

(** The body of [for j, target in enumerate(vertices)]. *)
Definition used_step (fuel : nat) (vertices : list string)
  (dist : list (list num)) (pos : gmap string nat)
  (next_node : list (list (option string))) (i : nat) (source : string)
  (used_edges : gset (string * string)) (jt : nat * string)
  : option (result (gset (string * string))) :=
  let '(j, target) := jt in
  if decide (source = target) then Some (Ok used_edges)
  else
    match mget dist i j with
    | Raise e => Some (Raise e)
    | Ok inf => Some (Ok used_edges)
    | Ok (Int _) =>
        match FW.reconstruct_path fuel source target vertices pos next_node
        with
        | None => None
        | Some (Raise e) => Some (Raise e)
        | Some (Ok path) =>
            Some (Ok (foldl (fun used p => {[ p ]} ∪ used) used_edges
                            (steps path)))
        end
    end.

(** The body of [for i, source in enumerate(vertices)]. *)
Definition source_step (fuel : nat) (vertices : list string)
  (edges : list edge) (dist : list (list num)) (pos : gmap string nat)
  (next_node : list (list (option string))) (name_prefix : string)
  (pics : list picture) (ix : nat * string)
  : option (result (list picture)) :=
  let '(i, source) := ix in
  match foldF (used_step fuel vertices dist pos next_node i source) ∅
              (zip (seq 0 (length vertices)) vertices) with
  | None => None
  | Some (Raise e) => Some (Raise e)
  | Some (Ok used_edges) =>
      Some (Ok (pics ++ [
        Picture Digraph
          [Node source [("color", "red"); ("style", "filled");
                        ("fillcolor", "#ffcccc")]%string]
          (map (fun e : edge =>
                  let '(u, v, w) := e in
                  if decide ((u, v) ∈ used_edges)
                  then Drawn u v [("label", pretty w); ("color", "green");
                                  ("penwidth", "2")]%string
                  else Drawn u v [("label", pretty w); ("color", "gray");
                                  ("penwidth", "1")]%string) edges)
          (name_prefix ++ "_" ++ source)%string]))
  end.

Definition visualize_floyd_paths_per_source (fuel : nat)
  (vertices : list string) (edges : list edge) (dist : list (list num))
  (pos : gmap string nat) (next_node : list (list (option string)))
  (name_prefix : string) : option (result (list picture)) :=
  if graphviz
  then foldF (source_step fuel vertices edges dist pos next_node name_prefix)
             [] (zip (seq 0 (length vertices)) vertices)
  else Some (Ok []).

End Graphviz.
End Viz.

(** * The program

    [main] as [python main.py <file>] runs it, from the lines of the
    file: first without [--plot], then with it.  What it prints is not
    modelled, the lookups that the printing makes are.  Under [--plot] the
    directories that [main] makes and the pictures that it renders depend
    on what is outside the program: a [world]. *)

Module Main.

(** What the three algorithms have computed when [main] returns. *)
Record summary : Type := Summary {
  is_directed : bool;
  vertices : list string;
  edges : list edge;
  mst : option (list (string * string * num) * num);
  bf : option BF.tables;
  fw : list (list num) * gmap string nat * list (list (option string))
}.

(** [for v in vertices: print(... dist[v] ... parent[v] ...)] *)
Definition print_paths (vertices : list string) (st : BF.tables)
  : result unit :=
  foldM (fun _ v => _ ← getitem st.1 v; _ ← getitem st.2 v; Ok tt)
        tt vertices.

(** The [try] around Bellman-Ford: [except ValueError] catches the error
    of the negative cycle, [None] says so. *)
Definition try_bellman_ford (vertices : list string) (edges : list edge)
  (source : string) : result (option BF.tables) :=
  match (st ← BF.bellman_ford vertices edges source;
         _ ← print_paths vertices st;
         Ok st) with
  | Ok st => Ok (Some st)
  | Raise (ValueError _) => Ok None
  | Raise e => Raise e
  end.

(** The rows of the matrix: [dist[i][pos[v]]] for every [i] and [v]. *)
Definition print_matrix (vertices : list string) (dist : list (list num))
  (pos : gmap string nat) : result unit :=
  foldM (fun _ i =>
           foldM (fun _ v =>
                    row ← list_get dist i;
                    p ← getitem pos v;
                    _ ← list_get row p;
                    Ok tt) tt vertices)
        tt (seq 0 (length vertices)).

Definition main (int : string → result Z) (fuel : nat)
  (content : list string) : option (outcome summary) :=
  match Dot.read_dot_file int content with
  | Fail e => Some (Fail e)
  | Done (is_directed, edges, vertices) =>
      match Prim.main_prim fuel is_directed vertices edges with
      | None => None
      | Some (Raise e) => Some (Fail (Algo e))
      | Some (Ok mst) =>
          Some (lift (source ← list_get vertices 0;
                      bf ← try_bellman_ford vertices edges source;
                      r ← FW.floyd_warshall vertices edges;
                      _ ← print_matrix vertices r.1.1 r.1.2;
                      Ok (Summary is_directed vertices edges mst bf r)))
      end
  end.

(** What [main] meets outside the program under [--plot]: whether the
    directories of the output are there, or can be made, and entered, and
    whether [dot.render] renders a picture. *)
Record world : Type := World {
  enters : bool;
  renders : Viz.picture → bool
}.

(** The call of a function that draws: the picture is rendered when the
    module [graphviz] is there. *)
Definition rendered (w : world) (p : option Viz.picture)
  : outcome (list Viz.picture) :=
  match p with
  | None => Done []
  | Some pic => if renders w pic then Done [pic] else Fail RenderError
  end.

(** A loop whose body may fail, in the program or outside, or run out of
    fuel. *)
Fixpoint foldFO {A S : Type} (f : S → A → option (outcome S)) (s : S)
  (l : list A) : option (outcome S) :=
  match l with
  | [] => Some (Done s)
  | x :: l' =>
      match f s x with
      | None => None
      | Some (Fail e) => Some (Fail e)
      | Some (Done s') => foldFO f s' l'
      end
  end.

(** [visualize_floyd_paths_per_source] as [main] runs it: the picture of a
    source is rendered before the next source is looked at. *)
Definition plot_floyd (w : world) (graphviz : bool) (fuel : nat)
  (vertices : list string) (edges : list edge) (dist : list (list num))
  (pos : gmap string nat) (next_node : list (list (option string)))
  (name_prefix : string) : option (outcome (list Viz.picture)) :=
  if graphviz
  then
    foldFO (fun pics ix =>
              match Viz.source_step fuel vertices edges dist pos next_node
                      name_prefix pics ix with
              | None => None
              | Some (Raise e) => Some (Fail (Algo e))
              | Some (Ok pics') =>
                  Some (if forallb (renders w) (drop (length pics) pics')
                        then Done pics' else Fail RenderError)
              end)
           [] (zip (seq 0 (length vertices)) vertices)
  else Some (Done []).

(** The part of [main] under [if plot:], after the run that [s] sums up:
    the pictures that it renders, in this order, after it has made and
    entered the directory of the output.  [base] is the name of the file
    without its extension, and [source] is [vertices[0]], as the run has
    bound it.  A name that the run has left without a value raises
    [UnboundLocalError] when a call reads it. *)
Definition plot (w : world) (graphviz : bool) (fuel : nat) (base : string)
  (s : summary) : option (outcome (list Viz.picture)) :=
  if negb (enters w) then Some (Fail OSError)
  else
    match (
      graph ← rendered w (Viz.generate_graph graphviz (is_directed s)
                            (edges s) base);
      tree ← (if negb (is_directed s)
              then match mst s with
                   | Some (mst_edges, _) =>
                       rendered w (Viz.visualize_mst graphviz mst_edges
                                     "mst_tree")
                   | None => Fail (UnboundLocalError "mst_edges")
                   end
              else Done []);
      paths ← match bf s with
              | Some (_, parent) =>
                  source ← lift (list_get (vertices s) 0);
                  rendered w (Viz.visualize_bellman_paths graphviz (edges s)
                                parent source "bellman_paths")
              | None => Fail (UnboundLocalError "parent")
              end;
      Done (graph ++ tree ++ paths)) with
    | Fail e => Some (Fail e)
    | Done pics =>
        match plot_floyd w graphviz fuel (vertices s) (edges s) (fw s).1.1
                (fw s).1.2 (fw s).2 "floyd_paths" with
        | None => None
        | Some r => Some (more ← r; Done (pics ++ more))
        end
    end.

(** [main] as [python main.py <file> --plot] runs it. *)
Definition main_plot (int : string → result Z) (w : world) (graphviz : bool)
  (fuel : nat) (base : string) (content : list string)
  : option (outcome (summary * list Viz.picture)) :=
  match main int fuel content with
  | None => None
  | Some (Fail e) => Some (Fail e)
  | Some (Done s) =>
      match plot w graphviz fuel base s with
      | None => None
      | Some r => Some (pics ← r; Done (s, pics))
      end
  end.

End Main.


(** ** The scenarios of the specification *)

Definition abc_vertices : list string := ["A"; "B"; "C"]%string.
Definition abc_edges : list edge :=
  [("A", "B", 1); ("B", "A", 1); ("B", "C", 2); ("C", "B", 2);
   ("A", "C", 4); ("C", "A", 4)]%string.

Definition neg_edges : list edge :=
  [("A", "B", 1); ("B", "C", -3); ("C", "A", 1)]%string.

(** The decimal numerals without sign, a part of what [int] reads. *)
Fixpoint decimal (acc : Z) (s : string) : result Z :=
  match s with
  | EmptyString => Ok acc
  | String c s' =>
      let n := Z.of_nat (nat_of_ascii c) in
      if (48 <=? n) && (n <=? 57) then decimal (10 * acc + (n - 48)) s'
      else Raise (ValueError "invalid literal for int() with base 10")
  end.

Definition int_decimal (s : string) : result Z :=
  match s with
  | EmptyString => Raise (ValueError "invalid literal for int() with base 10")
  | _ => decimal 0 s
  end.

(** The same with a sign. *)
Definition int_signed (s : string) : result Z :=
  match s with
  | String "-" r => z ← int_decimal r; Ok (- z)
  | _ => int_decimal s
  end.

Definition triangle_dot : list string :=
  ["graph G {"; "  A -- B [label=1];"; "  B -- C [label=2];"; "  A -- C;";
   "}"]%string.

(** The file of [neg_edges]. *)
Definition neg_dot : list string :=
  ["digraph G {"; "  A -> B [label=1];"; "  B -> C [label=-3];";
   "  C -> A [label=1];"; "}"]%string.


(** ** Walks of a graph and their weight *)

Local Open Scope Z_scope.

Definition src (e : edge) : string := e.1.1.
Definition tgt (e : edge) : string := e.1.2.
Definition wt (e : edge) : Z := e.2.

(** [walk edges a es b]: the edges [es], all of the graph, lead from [a] to
    [b] one after the other. *)
Fixpoint walk (edges : list edge) (a : string) (es : list edge) (b : string)
  : Prop :=
  match es with
  | [] => a = b
  | e :: es' => e ∈ edges ∧ src e = a ∧ walk edges (tgt e) es' b
  end.

Definition weight (es : list edge) : Z := foldr (fun e s => wt e + s) 0 es.

(** The vertices a walk from [a] visits, in order. *)
Definition verts (a : string) (es : list edge) : list string :=
  a :: map tgt es.

Definition reachable (edges : list edge) (a b : string) : Prop :=
  ∃ es, walk edges a es b.

Definition negative_cycle_from (edges : list edge) (s : string) : Prop :=
  ∃ c es, reachable edges s c ∧ walk edges c es c ∧ weight es < 0.

Definition negative_cycle (edges : list edge) : Prop :=
  ∃ c es, walk edges c es c ∧ weight es < 0.

(** The endpoints of every edge are vertices of the graph. *)
Definition closed_edges (vertices : list string) (edges : list edge) : Prop :=
  Forall (fun e => src e ∈ vertices ∧ tgt e ∈ vertices) edges.

(** Every weight converts to a float. *)
Definition float_weights (edges : list edge) : Prop :=
  Forall (fun e => fits (wt e) = true) edges.

(** The largest magnitude of a weight. *)
Definition max_abs (edges : list edge) : Z :=
  foldr (fun e m => Z.max (Z.abs (wt e)) m) 0 edges.

(** The weights are small for the number of vertices: six times over for
    every vertex they stay below the magnitude that converts to a float. *)
Definition float_small (vertices : list string) (edges : list edge) : Prop :=
  6 ^ Z.of_nat (length vertices) * max_abs edges < float_max.

Lemma closed_edges_elem vertices edges e :
  closed_edges vertices edges → e ∈ edges →
  src e ∈ vertices ∧ tgt e ∈ vertices.
Proof. unfold closed_edges. rewrite Forall_forall. auto. Qed.

Lemma closed_edges_elem' vertices edges :
  closed_edges vertices edges →
  ∀ e, e ∈ edges → src e ∈ vertices ∧ tgt e ∈ vertices.
Proof. intros H e. by apply closed_edges_elem. Qed.

(** [d] is the least weight of a walk from [a] to [b]; [inf] when there is
    none. *)
Definition min_walk_weight (edges : list edge) (a b : string) (d : num)
  : Prop :=
  match d with
  | Int z => (∃ es, walk edges a es b ∧ weight es = z)
             ∧ ∀ es, walk edges a es b → z ≤ weight es
  | inf => ¬ reachable edges a b
  end.

Definition num_le (a b : num) : Prop := num_ltb b a = false.

Ltac num_cases :=
  unfold num_le, num_min in *;
  repeat match goal with
         | x : num |- _ => destruct x
         end;
  simpl in *;
  repeat match goal with
         | H : (_ <? _) = true |- _ => apply Z.ltb_lt in H
         | H : (_ <? _) = false |- _ => apply Z.ltb_ge in H
         | |- (_ <? _) = true => apply Z.ltb_lt
         | |- (_ <? _) = false => apply Z.ltb_ge
         end;
  try congruence; try lia.

Lemma num_le_refl a : num_le a a.
Proof. num_cases. Qed.

Lemma num_le_trans a b c : num_le a b → num_le b c → num_le a c.
Proof. intros; num_cases. Qed.

Lemma num_ltb_le a b : num_ltb a b = true → num_le a b.
Proof. intros; num_cases. Qed.

Lemma num_le_add_r a b c : num_le a b → num_le (num_plus a c) (num_plus b c).
Proof. intros; num_cases. Qed.

(** What [num_add] returns is the sum. *)
Lemma num_add_Ok a b s : num_add a b = Ok s → s = num_plus a b.
Proof.
  destruct a as [x|], b as [y|]; simpl; try destruct (fits _); congruence.
Qed.

Lemma num_add_int x y : num_add (Int x) (Int y) = Ok (Int (x + y)).
Proof. done. Qed.

(** A weight is added to every distance when it converts to a float. *)
Lemma num_add_weight a w :
  num_add a (Int w) = Ok (num_plus a (Int w))
  ∨ (num_add a (Int w) = Raise OverflowError ∧ fits w = false).
Proof. destruct a as [x|]; simpl; destruct (fits w); auto. Qed.

Lemma num_add_cases a b :
  num_add a b = Ok (num_plus a b) ∨ num_add a b = Raise OverflowError.
Proof.
  destruct a as [x|], b as [y|]; simpl; try destruct (fits _); auto.
Qed.

Lemma num_add_fits a w :
  fits w = true → num_add a (Int w) = Ok (num_plus a (Int w)).
Proof. intros Hw. destruct (num_add_weight a w) as [?|[_ ?]]; congruence. Qed.

Section Walks.
Context (edges : list edge).

Lemma walk_app a es1 b es2 c :
  walk edges a es1 b → walk edges b es2 c → walk edges a (es1 ++ es2) c.
Proof.
  revert a. induction es1 as [|e es1 IH]; simpl; intros a.
  - intros ->. done.
  - intros (? & ? & ?) ?. eauto.
Qed.

Lemma walk_app_inv a es1 es2 c :
  walk edges a (es1 ++ es2) c →
  ∃ b, walk edges a es1 b ∧ walk edges b es2 c.
Proof.
  revert a. induction es1 as [|e es1 IH]; simpl; intros a.
  - eauto.
  - intros (? & ? & H). destruct (IH _ H) as (b & ? & ?). eauto.
Qed.

Lemma walk_edge e : e ∈ edges → walk edges (src e) [e] (tgt e).
Proof. simpl. auto. Qed.

Lemma walk_snoc a es b e :
  walk edges a es b → e ∈ edges → src e = b →
  walk edges a (es ++ [e]) (tgt e).
Proof. intros H1 H2 <-. eapply walk_app; eauto using walk_edge. Qed.

Lemma weight_app es1 es2 : weight (es1 ++ es2) = weight es1 + weight es2.
Proof. induction es1; simpl; lia. Qed.

Lemma reachable_refl a : reachable edges a a.
Proof. by exists []. Qed.

Lemma reachable_trans a b c :
  reachable edges a b → reachable edges b c → reachable edges a c.
Proof. intros [es1 ?] [es2 ?]. exists (es1 ++ es2). eauto using walk_app. Qed.

(** A walk that visits [x] splits there. *)
Lemma walk_split a es b x :
  walk edges a es b → x ∈ verts a es →
  ∃ p q pre, es = p ++ q ∧ walk edges a p x ∧ walk edges x q b
             ∧ verts a es = pre ++ verts x q.
Proof.
  revert a. induction es as [|e es IH]; intros a Hw Hx.
  - apply list_elem_of_singleton in Hx as ->. simpl in Hw. subst.
    exists [], [], []. done.
  - unfold verts in Hx. apply elem_of_cons in Hx as [->|Hx].
    + exists [], (e :: es), []. done.
    + destruct Hw as (He & Hs & Hw).
      destruct (IH _ Hw Hx) as (p & q & pre & -> & Hp & Hq & Hv).
      exists (e :: p), q, (a :: pre). split_and!; try done.
      unfold verts in *. simpl. by rewrite <- Hv.
Qed.

Lemma walk_verts_closed vertices a es b :
  closed_edges vertices edges → a ∈ vertices → walk edges a es b →
  ∀ x, x ∈ verts a es → x ∈ vertices.
Proof.
  intros Hc. pose proof (closed_edges_elem' _ _ Hc) as Hc'. clear Hc.
  rename Hc' into Hc. revert a.
  induction es as [|e es IH]; intros a Ha Hw x Hx.
  - by apply list_elem_of_singleton in Hx as ->.
  - destruct Hw as (He & Hs & Hw).
    unfold verts in Hx. apply elem_of_cons in Hx as [->|Hx]; first done.
    apply (IH (tgt e)); [by apply Hc | done | done].
Qed.

Lemma walk_end_closed vertices a es b :
  closed_edges vertices edges → a ∈ vertices → walk edges a es b →
  b ∈ vertices.
Proof.
  intros Hc. pose proof (closed_edges_elem' _ _ Hc) as Hc'. clear Hc.
  rename Hc' into Hc. revert a.
  induction es as [|e es IH]; simpl; intros a Ha Hw.
  - by subst.
  - destruct Hw as (He & Hs & Hw).
    apply (IH (tgt e)); [by apply Hc | done].
Qed.

(** Without a negative cycle in reach, cutting the cycles of a walk gives
    a walk that is not heavier and repeats no vertex. *)
Lemma walk_simple s a es b :
  (∀ c cyc, reachable edges s c → walk edges c cyc c → 0 ≤ weight cyc) →
  reachable edges s a → walk edges a es b →
  ∃ es', walk edges a es' b ∧ weight es' ≤ weight es ∧ NoDup (verts a es').
Proof.
  intros Hcyc. revert a. induction es as [|e es IH]; intros a Ha Hw.
  - exists []. split_and!; try done. unfold verts; simpl.
    apply NoDup_singleton.
  - destruct Hw as (He & Hs & Hw).
    assert (reachable edges s (tgt e)) as Ht.
    { eapply reachable_trans; first done. exists [e]. subst a.
      by apply walk_edge. }
    destruct (IH _ Ht Hw) as (es' & Hw' & Hle & Hnd).
    destruct (decide (a ∈ verts (tgt e) es')) as [Hin|Hin].
    + destruct (walk_split _ _ _ _ Hw' Hin)
        as (p & q & pre & -> & Hp & Hq & Hv).
      exists q. split_and!; try done.
      * assert (0 ≤ weight (e :: p)) as Hc.
        { apply (Hcyc a); first done. simpl. done. }
        rewrite weight_app in Hle. simpl in *. lia.
      * rewrite Hv in Hnd. by apply NoDup_app in Hnd as (_ & _ & ?).
    + exists (e :: es'). split_and!.
      * simpl. done.
      * simpl. lia.
      * unfold verts in *. simpl. apply NoDup_cons. done.
Qed.

Lemma simple_walk_length vertices a es b :
  closed_edges vertices edges → a ∈ vertices → walk edges a es b →
  NoDup (verts a es) → (length es ≤ length vertices - 1)%nat.
Proof.
  intros Hc Ha Hw Hnd.
  assert (verts a es ⊆+ vertices) as Hsub.
  { apply NoDup_submseteq; first done.
    intros x Hx. eapply walk_verts_closed; eauto. }
  apply submseteq_length in Hsub. unfold verts in Hsub. simpl in Hsub.
  rewrite length_map in Hsub. lia.
Qed.
End Walks.

(** ** Dictionaries *)

Definition dget (d : gmap string num) (v : string) : num :=
  default inf (d !! v).

Lemma lookup_foldl_insert {A : Type} (x : A) (l : list string)
    (d : gmap string A) (v : string) :
  foldl (fun d v => <[v := x]> d) d l !! v
  = if decide (v ∈ l) then Some x else d !! v.
Proof.
  revert d. induction l as [|y l IH]; intros d; simpl.
  - done.
  - rewrite IH. destruct (decide (v = y)) as [->|Hne].
    + rewrite lookup_insert_eq.
      rewrite (decide_True (P := y ∈ y :: l)) by apply list_elem_of_here.
      by destruct (decide (y ∈ l)).
    + rewrite lookup_insert_ne by done.
      destruct (decide (v ∈ l)) as [Hin|Hin].
      * rewrite decide_True; first done. by apply list_elem_of_further.
      * rewrite decide_False; first done.
        intros [->|?]%elem_of_cons; done.
Qed.

Lemma lookup_dict_const {A : Type} (x : A) (l : list string) (v : string) :
  dict_const l x !! v = if decide (v ∈ l) then Some x else None.
Proof. unfold dict_const. by rewrite lookup_foldl_insert, lookup_empty. Qed.

Lemma foldM_cons {A S : Type} (f : S → A → result S) s x l :
  foldM f s (x :: l) = f s x ≫= fun s' => foldM f s' l.
Proof. done. Qed.

Lemma getitem_Some {A : Type} (d : gmap string A) k a :
  d !! k = Some a → getitem d k = Ok a.
Proof. unfold getitem. by intros ->. Qed.

(** ** Bellman-Ford: invariants of the relaxation *)

Section BellmanFord.
Context (vertices : list string) (edges : list edge) (source : string).
Hypothesis Hclosed : closed_edges vertices edges.

Definition relaxable (dist : gmap string num) (e : edge) : bool :=
  num_ltb (num_plus (dget dist (src e)) (Int (wt e))) (dget dist (tgt e)).

Definition stable_on (l : list edge) (dist : gmap string num) : Prop :=
  ∀ e, e ∈ l → relaxable dist e = false.

Record inv (st : BF.tables) : Prop := Inv {
  inv_keys : ∀ v, v ∈ vertices → is_Some (st.1 !! v);
  inv_source : num_le (dget st.1 source) (Int 0);
  inv_sound : ∀ v d, st.1 !! v = Some (Int d) →
                ∃ es, walk edges source es v ∧ weight es = d;
  inv_parent : ∀ v, v ∈ vertices → st.1 !! v = Some inf →
                 st.2 !! v = Some None
}.

Lemma inv_init :
  inv (<[source := Int 0]> (dict_const vertices inf),
       dict_const vertices None).
Proof.
  split; simpl.
  - intros v Hv. destruct (decide (source = v)) as [->|Hne].
    + rewrite lookup_insert_eq. eauto.
    + rewrite lookup_insert_ne, lookup_dict_const by done.
      rewrite decide_True by done. eauto.
  - unfold dget. rewrite lookup_insert_eq. simpl. apply num_le_refl.
  - intros v d. destruct (decide (source = v)) as [->|Hne].
    + rewrite lookup_insert_eq. intros [= <-]. by exists [].
    + rewrite lookup_insert_ne, lookup_dict_const by done.
      by case_decide.
  - intros v Hv _. rewrite lookup_dict_const. by rewrite decide_True.
Qed.

Lemma relax_cases st b e :
  inv st → e ∈ edges →
  (∃ st' b',
     BF.relax (st, b) e = Ok (st', b') ∧ inv st'
     ∧ (∀ v, num_le (dget st'.1 v) (dget st.1 v))
     ∧ num_le (dget st'.1 (tgt e))
              (num_plus (dget st.1 (src e)) (Int (wt e)))
     ∧ (relaxable st.1 e = false → st' = st ∧ b' = b)
     ∧ (relaxable st.1 e = true → b' = true))
  ∨ (BF.relax (st, b) e = Raise OverflowError ∧ fits (wt e) = false).
Proof.
  intros Hinv He. destruct e as [[u v] w]. destruct st as [dist parent].
  destruct (closed_edges_elem _ _ _ Hclosed He) as [Hu Hv]. simpl in Hu, Hv.
  destruct (inv_keys _ Hinv u Hu) as [du Hdu].
  destruct (inv_keys _ Hinv v Hv) as [dv Hdv]. simpl in Hdu, Hdv.
  unfold BF.relax, relaxable, src, tgt, wt, dget. simpl.
  rewrite (getitem_Some _ _ _ Hdu). simpl.
  destruct (num_add_weight du w) as [Hs|[Hs Hw]]; rewrite Hs; simpl;
    last by right.
  left. rewrite (getitem_Some _ _ _ Hdv). simpl. rewrite Hdu, Hdv. simpl.
  destruct (num_ltb (num_plus du (Int w)) dv) eqn:Hlt.
  - eexists _, _. split; first done. split_and!.
    + split; simpl.
      * intros x Hx. destruct (decide (v = x)) as [->|Hne].
        -- rewrite lookup_insert_eq. eauto.
        -- rewrite lookup_insert_ne by done. by apply (inv_keys _ Hinv).
      * pose proof (inv_source _ Hinv) as Hsrc. simpl in Hsrc.
        unfold dget in *.
        destruct (decide (v = source)) as [->|Hne].
        -- rewrite lookup_insert_eq. simpl. rewrite Hdv in Hsrc.
           simpl in Hsrc.
           eapply num_le_trans; last done. by apply num_ltb_le.
        -- by rewrite lookup_insert_ne.
      * intros x d. destruct (decide (v = x)) as [->|Hne].
        -- rewrite lookup_insert_eq. intros [= Hd].
           destruct du as [zu|]; simpl in Hd; last done.
           injection Hd as <-.
           destruct (inv_sound _ Hinv u zu Hdu) as (es & Hwk & Hwt).
           exists (es ++ [(u, x, w)]). split.
           ++ by apply (walk_snoc edges source es u (u, x, w)).
           ++ rewrite weight_app. simpl. unfold wt. simpl. lia.
        -- rewrite lookup_insert_ne by done. apply (inv_sound _ Hinv).
      * intros x Hx. destruct (decide (v = x)) as [->|Hne].
        -- rewrite lookup_insert_eq. intros [= Hd].
           destruct du; simpl in *; done.
        -- rewrite !lookup_insert_ne by done. by apply (inv_parent _ Hinv).
    + intros x. simpl. unfold dget. destruct (decide (v = x)) as [->|Hne].
      * rewrite lookup_insert_eq, Hdv. simpl. by apply num_ltb_le.
      * rewrite lookup_insert_ne by done. apply num_le_refl.
    + simpl. rewrite lookup_insert_eq. simpl. apply num_le_refl.
    + done.
    + done.
  - eexists _, _. split; first done. split_and!; try done.
    + intros x. apply num_le_refl.
    + simpl. by rewrite Hdv.
Qed.

Lemma pass_cases l : ∀ st b,
  inv st → l ⊆ edges →
  (∃ st' b',
     foldM BF.relax (st, b) l = Ok (st', b') ∧ inv st'
     ∧ (∀ v, num_le (dget st'.1 v) (dget st.1 v))
     ∧ (∀ e, e ∈ l →
          num_le (dget st'.1 (tgt e))
                 (num_plus (dget st.1 (src e)) (Int (wt e))))
     ∧ (stable_on l st.1 → st' = st ∧ b' = b)
     ∧ (b' = false → b = false ∧ stable_on l st.1))
  ∨ (foldM BF.relax (st, b) l = Raise OverflowError ∧ ¬ float_weights l).
Proof.
  induction l as [|e l IH]; intros st b Hinv Hsub.
  - left. exists st, b. simpl. split_and!; try done.
    + intros v. apply num_le_refl.
    + intros e He. by apply elem_of_nil in He.
    + intros ->. split; first done. intros e He. by apply elem_of_nil in He.
  - assert (e ∈ edges) as He by (apply Hsub; apply list_elem_of_here).
    assert (l ⊆ edges) as Hl.
    { intros x Hx. apply Hsub. by apply list_elem_of_further. }
    destruct (relax_cases st b e Hinv He)
      as [(st1 & b1 & Hr & Hinv1 & Hmono1 & Hle1 & Hsame1 & Hupd1)|[Hr Hw]].
    2:{ right. simpl. rewrite Hr. split; first done.
        intros Hf. apply Forall_cons in Hf as [Hf _]. congruence. }
    destruct (IH st1 b1 Hinv1 Hl)
      as [(st2 & b2 & Hf & Hinv2 & Hmono2 & Hle2 & Hsame2 & Hupd2)|[Hf Hw]].
    2:{ right. simpl. rewrite Hr. simpl. split; first done.
        intros Hfl. by apply Forall_cons in Hfl as [_ Hfl]. }
    left. exists st2, b2. simpl. rewrite Hr. simpl. split; first done.
    split_and!; try done.
    + intros v. eapply num_le_trans; [apply Hmono2 | apply Hmono1].
    + intros x [->|Hx]%elem_of_cons.
      * eapply num_le_trans; [apply Hmono2 | apply Hle1].
      * eapply num_le_trans; first by apply Hle2.
        apply num_le_add_r, Hmono1.
    + intros Hst.
      destruct Hsame1 as [-> ->]; first by apply Hst, list_elem_of_here.
      apply Hsame2. intros x Hx. by apply Hst, list_elem_of_further.
    + intros Hb2. destruct (Hupd2 Hb2) as [Hb1 Hst1].
      destruct (relaxable st.1 e) eqn:Hrel.
      { rewrite (Hupd1 eq_refl) in Hb1. done. }
      destruct (Hsame1 eq_refl) as [-> ->]. split; first done.
      intros x [->|Hx]%elem_of_cons; first done. by apply Hst1.
Qed.

(** After [k] full passes the table is below every walk of at most [k]
    edges. *)
Definition lower (k : nat) (dist : gmap string num) : Prop :=
  ∀ v es, walk edges source es v → (length es ≤ k)%nat →
          num_le (dget dist v) (Int (weight es)).

Lemma lower_init (st : BF.tables) : inv st → lower 0 st.1.
Proof.
  intros Hinv v es Hw Hlen. destruct es; simpl in *; last lia.
  subst. apply (inv_source _ Hinv).
Qed.

Lemma lower_step k (st st' : BF.tables) :
  inv st' → lower k st.1 →
  (∀ e, e ∈ edges →
     num_le (dget st'.1 (tgt e))
            (num_plus (dget st.1 (src e)) (Int (wt e)))) →
  lower (S k) st'.1.
Proof.
  intros Hinv Hlow Hle v es Hw Hlen.
  destruct es as [|e es _] using rev_ind.
  - simpl in Hw. subst. apply (inv_source _ Hinv).
  - apply walk_app_inv in Hw as (u & Hw1 & (He & Hs & Ht)).
    simpl in Ht. subst. rewrite length_app in Hlen. simpl in Hlen.
    eapply num_le_trans; first by apply Hle.
    rewrite weight_app. simpl.
    assert (num_le (dget st.1 (src e)) (Int (weight es))) as Hdu.
    { apply Hlow; [done | lia]. }
    replace (Int (weight es + (wt e + 0)))
      with (num_plus (Int (weight es)) (Int (wt e)))
      by (simpl; f_equal; lia).
    by apply num_le_add_r.
Qed.

Lemma passes_cases k : ∀ st k0,
  inv st → lower k0 st.1 →
  (∃ st', BF.passes edges k st = Ok st' ∧ inv st'
          ∧ (stable_on edges st'.1 ∨ lower (k0 + k) st'.1))
  ∨ (BF.passes edges k st = Raise OverflowError ∧ ¬ float_weights edges).
Proof.
  induction k as [|k IH]; intros st k0 Hinv Hlow.
  - left. exists st. simpl. split_and!; try done. right.
    by rewrite Nat.add_0_r.
  - destruct (pass_cases edges st false Hinv (reflexivity _))
      as [(st1 & b1 & Hf & Hinv1 & Hmono & Hle & Hsame & Hupd)|[Hf Hw]].
    2:{ right. simpl. by rewrite Hf. }
    simpl. rewrite Hf. destruct b1.
    + destruct (IH st1 (S k0) Hinv1) as [(st2 & Hp & Hinv2 & Hres)|Herr].
      { eapply lower_step; eauto. }
      2:{ by right. }
      left. exists st2. split_and!; try done.
      by replace (k0 + S k)%nat with (S k0 + k)%nat by lia.
    + destruct (Hupd eq_refl) as [_ Hst].
      destruct (Hsame Hst) as [-> _].
      left. exists st. split_and!; try done. by left.
Qed.

Lemma stable_walk dist es : ∀ a b,
  stable_on edges dist → walk edges a es b →
  num_le (dget dist b) (num_plus (dget dist a) (Int (weight es))).
Proof.
  induction es as [|e es IH]; intros a b Hst Hw.
  - simpl in Hw. subst. simpl. destruct (dget dist b); num_cases.
  - destruct Hw as (He & Hs & Hw). subst a.
    specialize (IH _ _ Hst Hw). specialize (Hst e He).
    unfold relaxable in Hst. simpl.
    destruct (dget dist b), (dget dist (tgt e)), (dget dist (src e));
      num_cases.
Qed.

Lemma stable_lower (st : BF.tables) v es :
  inv st → stable_on edges st.1 → walk edges source es v →
  num_le (dget st.1 v) (Int (weight es)).
Proof.
  intros Hinv Hst Hw. pose proof (stable_walk _ _ _ _ Hst Hw) as H.
  pose proof (inv_source _ Hinv) as Hs.
  destruct (dget st.1 v), (dget st.1 source); num_cases.
Qed.

Lemma stable_no_negative_cycle (st : BF.tables) :
  inv st → stable_on edges st.1 → ¬ negative_cycle_from edges source.
Proof.
  intros Hinv Hst (c & es & [p Hp] & Hc & Hneg).
  pose proof (stable_lower _ _ _ Hinv Hst Hp) as H1.
  pose proof (stable_walk _ _ _ _ Hst Hc) as H2.
  destruct (dget st.1 c); num_cases.
Qed.

Lemma no_negative_cycle_from_weight :
  ¬ negative_cycle_from edges source →
  ∀ c cyc, reachable edges source c → walk edges c cyc c → 0 ≤ weight cyc.
Proof.
  intros Hno c cyc Hr Hc. destruct (Z_lt_le_dec (weight cyc) 0); last done.
  destruct Hno. by exists c, cyc.
Qed.

Lemma lower_stable (st : BF.tables) :
  source ∈ vertices → ¬ negative_cycle_from edges source →
  inv st → lower (length vertices - 1) st.1 → stable_on edges st.1.
Proof.
  intros Hsrc Hno Hinv Hlow e He. unfold relaxable.
  destruct (num_ltb _ _) eqn:Hlt; last done. exfalso.
  destruct (st.1 !! src e) as [[du|]|] eqn:Hdu;
    unfold dget in Hlt; rewrite Hdu in Hlt; simpl in Hlt; try done.
  destruct (inv_sound _ Hinv _ _ Hdu) as (p & Hp & Hwp).
  pose proof (walk_snoc edges _ _ _ e Hp He eq_refl) as Hw.
  destruct (walk_simple edges source source _ _
              (no_negative_cycle_from_weight Hno)
              (reachable_refl edges source) Hw)
    as (es' & Hw' & Hle & Hnd).
  pose proof (simple_walk_length edges vertices _ _ _ Hclosed Hsrc Hw' Hnd)
    as Hlen.
  pose proof (Hlow _ _ Hw' Hlen) as Hd.
  rewrite weight_app in Hle. simpl in Hle. unfold dget in Hd.
  destruct (st.1 !! tgt e) as [[dv|]|]; num_cases.
Qed.

(** The loop of the check returns, finds an edge to relax, or overflows. *)
Lemma check_cases dist l :
  (∀ v, v ∈ vertices → is_Some (dist !! v)) → l ⊆ edges →
  (foldM (BF.check dist) tt l = Ok tt ∧ stable_on l dist)
  ∨ (foldM (BF.check dist) tt l = Raise (ValueError BF.negative_cycle_msg)
     ∧ ¬ stable_on l dist)
  ∨ (foldM (BF.check dist) tt l = Raise OverflowError ∧ ¬ float_weights l).
Proof.
  intros Hkeys. induction l as [|e l IH]; intros Hsub.
  - left. split; first done. intros e He. by apply elem_of_nil in He.
  - assert (e ∈ edges) as He by (apply Hsub; apply list_elem_of_here).
    assert (l ⊆ edges) as Hl.
    { intros x Hx. apply Hsub. by apply list_elem_of_further. }
    destruct (closed_edges_elem _ _ _ Hclosed He) as [Hu Hv].
    destruct (Hkeys _ Hu) as [du Hdu]. destruct (Hkeys _ Hv) as [dv Hdv].
    destruct e as [[u v] w]. unfold src, tgt in *. simpl in *.
    rewrite (getitem_Some _ _ _ Hdu). simpl.
    destruct (num_add_weight du w) as [Hs|[Hs Hw]]; rewrite Hs; simpl.
    2:{ right. right. split; first done.
        intros Hf. apply Forall_cons in Hf as [Hf _].
        unfold wt in Hf. simpl in Hf. congruence. }
    rewrite (getitem_Some _ _ _ Hdv). simpl.
    destruct (num_ltb (num_plus du (Int w)) dv) eqn:Hlt.
    + right. left. split; first done. intros Hst.
      specialize (Hst (u, v, w) (list_elem_of_here _ _)).
      unfold relaxable, dget, src, tgt, wt in Hst. simpl in Hst.
      rewrite Hdu, Hdv in Hst. simpl in Hst. congruence.
    + destruct (IH Hl) as [[Hok Hst]|[[Herr Hst]|[Herr Hst]]].
      * left. split; first done.
        intros x [->|Hx]%elem_of_cons; last by apply Hst.
        unfold relaxable, dget, src, tgt, wt. simpl.
        by rewrite Hdu, Hdv.
      * right. left. split; first done. intros Hst'. apply Hst.
        intros x Hx. by apply Hst', list_elem_of_further.
      * right. right. split; first done.
        intros Hf. by apply Forall_cons in Hf as [_ Hf].
Qed.
End BellmanFord.

(** ** Bellman-Ford: the run as a whole *)

Lemma nonneg_weight edges a es b :
  Forall (fun e => 0 ≤ wt e) edges → walk edges a es b → 0 ≤ weight es.
Proof.
  rewrite Forall_forall. intros Hpos. revert a.
  induction es as [|e es IH]; simpl; intros a Hw; first done.
  destruct Hw as (He & _ & Hw). specialize (IH _ Hw).
  specialize (Hpos _ He). simpl in Hpos. lia.
Qed.

Lemma nonneg_no_negative_cycle edges :
  Forall (fun e => 0 ≤ wt e) edges → ¬ negative_cycle edges.
Proof.
  intros Hpos (c & es & Hc & Hneg).
  pose proof (nonneg_weight _ _ _ _ Hpos Hc). lia.
Qed.

Lemma negative_cycle_from_any edges s :
  negative_cycle_from edges s → negative_cycle edges.
Proof. intros (c & es & _ & ? & ?). by exists c, es. Qed.

(** [bellman_ford] on a graph: it returns tables that no edge relaxes, or
    it finds an edge to relax after the passes, or a weight does not
    convert to a float. *)
Lemma bellman_ford_cases vertices edges source :
  closed_edges vertices edges →
  (∃ st, inv vertices edges source st
         ∧ (stable_on edges st.1
            ∨ lower edges source (length vertices - 1) st.1)
         ∧ (BF.bellman_ford vertices edges source = Ok st
            ∧ stable_on edges st.1
            ∨ BF.bellman_ford vertices edges source
              = Raise (ValueError BF.negative_cycle_msg)
              ∧ ¬ stable_on edges st.1))
  ∨ (BF.bellman_ford vertices edges source = Raise OverflowError
     ∧ ¬ float_weights edges).
Proof.
  intros Hclosed. unfold BF.bellman_ford.
  pose proof (inv_init vertices edges source) as Hinit.
  destruct (passes_cases vertices edges source Hclosed
              (length vertices - 1) _ 0%nat Hinit
              (lower_init vertices edges source _ Hinit))
    as [(st & Hp & Hinv & Hres)|[Hp Hw]].
  2:{ right. by rewrite Hp. }
  rewrite Hp. simpl.
  destruct (check_cases vertices edges Hclosed st.1 edges
              (inv_keys _ _ _ _ Hinv) (reflexivity _))
    as [[Hok Hst]|[[Herr Hst]|[Herr Hw]]].
  - left. exists st. rewrite Hok. simpl. split_and!; try done. by left.
  - left. exists st. rewrite Herr. simpl. split_and!; try done. by right.
  - right. by rewrite Herr.
Qed.

Lemma bellman_ford_run vertices edges source :
  closed_edges vertices edges → float_weights edges →
  ∃ st, inv vertices edges source st
        ∧ (stable_on edges st.1
           ∨ lower edges source (length vertices - 1) st.1)
        ∧ (BF.bellman_ford vertices edges source = Ok st
           ∧ stable_on edges st.1
           ∨ BF.bellman_ford vertices edges source
             = Raise (ValueError BF.negative_cycle_msg)
             ∧ ¬ stable_on edges st.1).
Proof.
  intros Hclosed Hfl.
  by destruct (bellman_ford_cases vertices edges source Hclosed)
    as [?|[_ ?]].
Qed.

(** The tables [bellman_ford] returns are those of the invariant, and no
    edge relaxes them. *)
Lemma bellman_ford_returned vertices edges source st :
  closed_edges vertices edges →
  BF.bellman_ford vertices edges source = Ok st →
  inv vertices edges source st ∧ stable_on edges st.1.
Proof.
  intros Hclosed Hbf.
  destruct (bellman_ford_cases vertices edges source Hclosed)
    as [(st' & Hinv & _ & [[Hok Hst]|[Herr _]])|[Herr _]]; try congruence.
  rewrite Hbf in Hok. by injection Hok as ->.
Qed.

Lemma bellman_ford_ok vertices edges source :
  closed_edges vertices edges → float_weights edges → source ∈ vertices →
  ¬ negative_cycle_from edges source →
  ∃ st, BF.bellman_ford vertices edges source = Ok st
        ∧ inv vertices edges source st ∧ stable_on edges st.1.
Proof.
  intros Hclosed Hfl Hsrc Hno.
  destruct (bellman_ford_run vertices edges source Hclosed Hfl)
    as (st & Hinv & Hres & [[Hok Hst]|[Herr Hst]]).
  - by exists st.
  - destruct Hst. destruct Hres as [?|Hlow]; first done.
    by eapply lower_stable.
Qed.

Lemma stable_min_walk_weight vertices edges source st v d :
  inv vertices edges source st → stable_on edges st.1 →
  st.1 !! v = Some d → min_walk_weight edges source v d.
Proof.
  intros Hinv Hst Hd. destruct d as [z|]; simpl.
  - split; first by apply (inv_sound _ _ _ _ Hinv).
    intros es Hw. pose proof (stable_lower _ _ _ _ _ _ Hinv Hst Hw) as Hle.
    unfold dget in Hle. rewrite Hd in Hle. simpl in Hle. num_cases.
  - intros [es Hw].
    pose proof (stable_lower _ _ _ _ _ _ Hinv Hst Hw) as Hle.
    unfold dget in Hle. rewrite Hd in Hle. simpl in Hle. num_cases.
Qed.

(** C2 as the code has it: when every weight converts to a float and no
    negative cycle is in reach of the source, [bellman_ford] returns tables
    where [dist[v]] is the least weight of a walk from the source to [v]:
    [0] at the source, [inf] exactly at the vertices out of reach, whose
    parent is [None]. *)
Theorem bellman_ford_shortest
    (vertices : list string) (edges : list edge) (source : string) :
  closed_edges vertices edges → float_weights edges → source ∈ vertices →
  ¬ negative_cycle_from edges source →
  ∃ dist parent,
    BF.bellman_ford vertices edges source = Ok (dist, parent)
    ∧ dist !! source = Some (Int 0)
    ∧ ∀ v, v ∈ vertices →
        ∃ d, dist !! v = Some d
             ∧ min_walk_weight edges source v d
             ∧ (d = inf ↔ ¬ reachable edges source v)
             ∧ (d = inf → parent !! v = Some None).
Proof.
  intros Hclosed Hfl Hsrc Hno.
  destruct (bellman_ford_ok _ _ _ Hclosed Hfl Hsrc Hno)
    as ([dist parent] & Hok & Hinv & Hst).
  exists dist, parent. split; first done.
  assert (∀ v, v ∈ vertices →
            ∃ d, dist !! v = Some d ∧ min_walk_weight edges source v d)
    as Hmin.
  { intros v Hv. destruct (inv_keys _ _ _ _ Hinv v Hv) as [d Hd].
    exists d. split; first done.
    by apply (stable_min_walk_weight vertices edges source (dist, parent)). }
  split.
  - destruct (Hmin _ Hsrc) as ([z|] & Hd & Hm); simpl in Hm.
    + destruct Hm as [(es & Hw & Hwt) Hle].
      specialize (Hle [] eq_refl). simpl in Hle.
      pose proof (no_negative_cycle_from_weight edges source Hno source es
                    (reachable_refl edges source) Hw).
      rewrite Hd. do 2 f_equal. lia.
    + destruct Hm. apply reachable_refl.
  - intros v Hv. destruct (Hmin _ Hv) as (d & Hd & Hm).
    exists d. split_and!; try done.
    + split; first by intros ->.
      intros Hnr. destruct d as [z|]; last done.
      destruct Hm as [(es & Hw & _) _]. destruct Hnr. by exists es.
    + intros ->. by apply (inv_parent _ _ _ _ Hinv).
Qed.

(** C3 as the code has it: when every weight converts to a float,
    [bellman_ford] raises the error of the negative cycle whenever a
    negative cycle is in reach of the source, and returns its tables
    exactly when there is none. *)
Theorem bellman_ford_negative_cycle
    (vertices : list string) (edges : list edge) (source : string) :
  closed_edges vertices edges → float_weights edges → source ∈ vertices →
  (negative_cycle_from edges source →
   BF.bellman_ford vertices edges source
   = Raise (ValueError BF.negative_cycle_msg))
  ∧ ((∃ st, BF.bellman_ford vertices edges source = Ok st)
     ↔ ¬ negative_cycle_from edges source).
Proof.
  intros Hclosed Hfl Hsrc.
  destruct (bellman_ford_run vertices edges source Hclosed Hfl)
    as (st & Hinv & Hres & Hcases).
  split; [|split].
  - intros Hneg. destruct Hcases as [[Hok Hst]|[Herr Hst]]; last done.
    by destruct (stable_no_negative_cycle _ _ _ _ Hinv Hst).
  - intros [st' Hok']. destruct Hcases as [[Hok Hst]|[Herr Hst]].
    + by eapply stable_no_negative_cycle.
    + congruence.
  - intros Hno.
    destruct (bellman_ford_ok _ _ _ Hclosed Hfl Hsrc Hno) as (st' & ? & _).
    by exists st'.
Qed.

(** C9 as the code has it: [bellman_ford] does not check that the source
    is a vertex.  For a source outside the graph, and weights that convert
    to a float, it returns the distance table with one more key, the source
    at [0], every vertex at [inf] and every parent [None]. *)
Theorem bellman_ford_unknown_source
    (vertices : list string) (edges : list edge) (source : string) :
  closed_edges vertices edges → float_weights edges → source ∉ vertices →
  BF.bellman_ford vertices edges source
  = Ok (<[source := Int 0]> (dict_const vertices inf),
        dict_const vertices None).
Proof.
  intros Hclosed Hfl Hsrc.
  set (st := (<[source := Int 0]> (dict_const vertices inf),
              dict_const vertices (@None string))).
  assert (stable_on edges st.1) as Hst.
  { intros e He. destruct (closed_edges_elem _ _ _ Hclosed He) as [Hu _].
    unfold relaxable, dget, st. simpl.
    rewrite lookup_insert_ne by (intros ->; done).
    rewrite lookup_dict_const, decide_True by done. done. }
  pose proof (inv_init vertices edges source) as Hinv. fold st in Hinv.
  assert (∀ k, BF.passes edges k st = Ok st) as Hpass.
  { intros [|k]; simpl; first done.
    destruct (pass_cases vertices edges source Hclosed edges st false Hinv
                (reflexivity _))
      as [(st1 & b1 & Hf & _ & _ & _ & Hsame & _)|[_ Hw]]; last done.
    destruct (Hsame Hst) as [-> ->]. by rewrite Hf. }
  unfold BF.bellman_ford. fold st. rewrite Hpass. simpl.
  destruct (check_cases vertices edges Hclosed st.1 edges
              (inv_keys _ _ _ _ Hinv) (reflexivity _))
    as [[Hok _]|[[_ Hns]|[_ Hw]]]; try done.
  simpl in Hok. by rewrite Hok.
Qed.

(** ** Matrices as lists of rows *)

Definition shape {A : Type} (n : nat) (m : list (list A)) : Prop :=
  length m = n ∧ Forall (fun r => length r = n) m.

Definition mlookup {A : Type} (m : list (list A)) (i j : nat) : option A :=
  m !! i ≫= fun r => r !! j.

Lemma mget_lookup {A : Type} (m : list (list A)) i j a :
  mlookup m i j = Some a → mget m i j = Ok a.
Proof.
  unfold mlookup, mget, list_get. destruct (m !! i) as [r|]; simpl; last done.
  by intros ->.
Qed.

(** [next_node[pos[u]][pos[v]]] where the three lookups succeed. *)
Lemma successor_lookup pos next_node u v i j s :
  pos !! u = Some i → pos !! v = Some j → mlookup next_node i j = Some s →
  FW.successor pos next_node u v = Ok s.
Proof.
  intros Hi Hj. unfold mlookup, FW.successor, list_get.
  rewrite (getitem_Some _ _ _ Hi). simpl.
  destruct (next_node !! i) as [r|]; simpl; last done.
  rewrite (getitem_Some _ _ _ Hj). simpl. by intros ->.
Qed.

Lemma shape_replicate {A : Type} n (x : A) :
  shape n (replicate n (replicate n x)).
Proof.
  split; first by rewrite length_replicate.
  apply Forall_forall. intros r [-> _]%elem_of_replicate.
  by rewrite length_replicate.
Qed.

Lemma mlookup_replicate {A : Type} n (x : A) i j :
  (i < n)%nat → (j < n)%nat →
  mlookup (replicate n (replicate n x)) i j = Some x.
Proof.
  intros Hi Hj. unfold mlookup. rewrite lookup_replicate_2 by done.
  simpl. by rewrite lookup_replicate_2.
Qed.

Lemma mset_spec {A : Type} n (m : list (list A)) i j x :
  shape n m → (i < n)%nat → (j < n)%nat →
  ∃ m', mset m i j x = Ok m' ∧ shape n m'
        ∧ ∀ i' j', mlookup m' i' j'
                   = if decide (i' = i ∧ j' = j) then Some x
                     else mlookup m i' j'.
Proof.
  intros [Hlen Hrows] Hi Hj.
  destruct (lookup_lt_is_Some_2 m i) as [r Hr]; first lia.
  assert (length r = n) as Hlr.
  { rewrite Forall_forall in Hrows. apply Hrows.
    by eapply list_elem_of_lookup_2. }
  exists (<[i := <[j := x]> r]> m).
  unfold mset, list_get, list_set. rewrite Hr. simpl.
  rewrite decide_True by lia. simpl. rewrite decide_True by lia.
  split; first done. split.
  - split; first by rewrite length_insert.
    apply Forall_insert; first done. by rewrite length_insert.
  - intros i' j'. unfold mlookup.
    destruct (decide (i' = i)) as [->|Hne].
    + rewrite list_lookup_insert_eq by lia. simpl. rewrite Hr. simpl.
      destruct (decide (j' = j)) as [->|Hnej].
      * rewrite list_lookup_insert_eq by lia. by rewrite decide_True.
      * rewrite list_lookup_insert_ne by done.
        rewrite decide_False; first done. intros [_ ?]. done.
    + rewrite list_lookup_insert_ne by done.
      rewrite decide_False; first done. intros [? _]. done.
Qed.

Lemma foldM_prefix_inv {A S : Type} (P : list A → S → Prop)
    (f : S → A → result S) (l : list A) (s : S) :
  P [] s →
  (∀ l1 x l2 s, l = l1 ++ x :: l2 → P l1 s →
     ∃ s', f s x = Ok s' ∧ P (l1 ++ [x]) s') →
  ∃ s', foldM f s l = Ok s' ∧ P l s'.
Proof.
  intros H0 Hstep.
  assert (∀ l2 l1 s, l = l1 ++ l2 → P l1 s →
            ∃ s', foldM f s l2 = Ok s' ∧ P l s') as Hgen.
  { induction l2 as [|x l2 IH]; intros l1 s0 Hl Hs0.
    - exists s0. rewrite app_nil_r in Hl. by subst.
    - destruct (Hstep l1 x l2 s0 Hl Hs0) as (s1 & Hf & Hs1).
      destruct (IH (l1 ++ [x]) s1) as (s2 & Hfl & Hs2); [|done|].
      { by rewrite <- app_assoc. }
      exists s2. simpl. rewrite Hf. done. }
  by apply (Hgen l [] s).
Qed.

(** A loop over [range(len(l))] that follows a loop over [l], as long as
    no sum overflows. *)
Lemma foldM_seq_sim {A S C : Type} (R : S → C → Prop)
    (f : S → nat → result S) (g : C → A → C) (l : list A) (s : S) (c : C) :
  (∀ j x s c, l !! j = Some x → R s c →
     (∃ s', f s j = Ok s' ∧ R s' (g c x)) ∨ f s j = Raise OverflowError) →
  R s c →
  (∃ s', foldM f s (seq 0 (length l)) = Ok s' ∧ R s' (foldl g c l))
  ∨ foldM f s (seq 0 (length l)) = Raise OverflowError.
Proof.
  intros Hstep.
  assert (∀ l2 start s c, (∀ j x, l2 !! j = Some x →
                              l !! (start + j)%nat = Some x) →
            R s c →
            (∃ s', foldM f s (seq start (length l2)) = Ok s'
                   ∧ R s' (foldl g c l2))
            ∨ foldM f s (seq start (length l2)) = Raise OverflowError)
    as Hgen.
  { induction l2 as [|x l2 IH]; intros start s0 c0 Hl HR.
    - left. by exists s0.
    - destruct (Hstep start x s0 c0) as [(s1 & Hf & HR1)|Hf]; [|done| |].
      { rewrite <- (Hl 0%nat x eq_refl). f_equal. lia. }
      2:{ right. simpl. by rewrite Hf. }
      destruct (IH (Datatypes.S start) s1 (g c0 x))
        as [(s2 & Hfl & HR2)|Hfl]; [|done| |].
      { intros j y Hy. rewrite <- (Hl (Datatypes.S j) y Hy). f_equal. lia. }
      + left. exists s2. simpl. rewrite Hf. done.
      + right. simpl. rewrite Hf. done. }
  intros HR. apply (Hgen l 0%nat s c); last done. by intros j x.
Qed.

(** ** The position table *)

Lemma make_pos_aux (l : list string) : ∀ (start : nat) (d : gmap string nat) u,
  NoDup l →
  (∀ i, l !! i = Some u →
     foldl (fun d iv => <[iv.2 := iv.1]> d) d
           (zip (seq start (length l)) l) !! u = Some (start + i)%nat)
  ∧ (u ∉ l →
     foldl (fun d iv => <[iv.2 := iv.1]> d) d
           (zip (seq start (length l)) l) !! u = d !! u).
Proof.
  induction l as [|x l IH]; intros start d u Hnd.
  - split; first done. done.
  - apply NoDup_cons in Hnd as [Hx Hnd]. simpl.
    destruct (IH (Datatypes.S start) (<[x := start]> d) u Hnd) as [IH1 IH2].
    split.
    + intros [|i] Hi; simpl in Hi.
      * injection Hi as ->. rewrite IH2 by done.
        rewrite lookup_insert_eq. f_equal. lia.
      * rewrite (IH1 i Hi). f_equal. lia.
    + intros Hu. apply not_elem_of_cons in Hu as [Hne Hu].
      rewrite IH2 by done. by rewrite lookup_insert_ne.
Qed.

Lemma make_pos_lookup vertices u i :
  NoDup vertices →
  FW.make_pos vertices !! u = Some i ↔ vertices !! i = Some u.
Proof.
  intros Hnd. unfold FW.make_pos.
  destruct (make_pos_aux vertices 0 ∅ u Hnd) as [H1 H2]. split.
  - intros Hp. destruct (decide (u ∈ vertices)) as [Hin|Hout].
    + apply list_elem_of_lookup in Hin as [i' Hi'].
      rewrite (H1 i' Hi') in Hp. simpl in Hp. by injection Hp as <-.
    + rewrite (H2 Hout), lookup_empty in Hp. done.
  - intros Hi. by rewrite (H1 i Hi).
Qed.

(** ** Floyd-Warshall on tables indexed by labels *)

Definition cellfn : Type := string → string → num * option string.

Definition c_diag : cellfn :=
  fun u v => if decide (u = v) then (Int 0, Some v) else (inf, None).

Definition init_edge_fn (c : cellfn) (e : edge) : cellfn :=
  fun u v =>
    if decide (u = src e ∧ v = tgt e)
    then (num_min (c u v).1 (Int (wt e)), Some (tgt e))
    else c u v.

Definition step_fn (m u : string) (c : cellfn) (v : string) : cellfn :=
  if num_ltb (num_plus (c u m).1 (c m v).1) (c u v).1
  then fun u' v' =>
         if decide (u' = u ∧ v' = v)
         then (num_plus (c u m).1 (c m v).1, (c u m).2)
         else c u' v'
  else c.

Definition row_fn (vertices : list string) (m : string) (c : cellfn)
  (u : string) : cellfn :=
  foldl (step_fn m u) c vertices.

Definition mid_fn (vertices : list string) (c : cellfn) (m : string)
  : cellfn :=
  foldl (row_fn vertices m) c vertices.

Definition init_fn (edges : list edge) : cellfn :=
  foldl init_edge_fn c_diag edges.

Definition fw_fn (vertices : list string) (edges : list edge) : cellfn :=
  foldl (mid_fn vertices) (init_fn edges) vertices.

(** The matrices hold the table [c] at the positions of the labels. *)
Definition repr (vertices : list string) (st : FW.matrices) (c : cellfn)
  : Prop :=
  shape (length vertices) st.1 ∧ shape (length vertices) st.2
  ∧ ∀ i j u v, vertices !! i = Some u → vertices !! j = Some v →
               mlookup st.1 i j = Some (c u v).1
               ∧ mlookup st.2 i j = Some (c u v).2.

Section FloydWarshallRun.
Context (vertices : list string) (edges : list edge).
Hypothesis Hnd : NoDup vertices.
Hypothesis Hclosed : closed_edges vertices edges.

Lemma repr_ext st c c' :
  (∀ u v, u ∈ vertices → v ∈ vertices → c u v = c' u v) →
  repr vertices st c → repr vertices st c'.
Proof.
  intros Heq (Hs1 & Hs2 & Hc). split_and!; try done.
  intros i j u v Hi Hj.
  rewrite <- Heq by (by eapply list_elem_of_lookup_2). by apply Hc.
Qed.

Lemma repr_read st c i j u v :
  repr vertices st c → vertices !! i = Some u → vertices !! j = Some v →
  mget st.1 i j = Ok (c u v).1 ∧ mget st.2 i j = Ok (c u v).2.
Proof.
  intros (_ & _ & Hc) Hi Hj. destruct (Hc i j u v Hi Hj) as [H1 H2].
  split; by apply mget_lookup.
Qed.

Lemma repr_update st c i j u v (x : num) (y : option string) :
  repr vertices st c → vertices !! i = Some u → vertices !! j = Some v →
  ∃ D' N', mset st.1 i j x = Ok D' ∧ mset st.2 i j y = Ok N'
    ∧ repr vertices (D', N')
        (fun u' v' => if decide (u' = u ∧ v' = v) then (x, y) else c u' v').
Proof.
  intros (Hs1 & Hs2 & Hc) Hi Hj.
  pose proof (lookup_lt_Some _ _ _ Hi) as Hli.
  pose proof (lookup_lt_Some _ _ _ Hj) as Hlj.
  destruct (mset_spec _ st.1 i j x Hs1 Hli Hlj) as (D' & HD & HsD & HlD).
  destruct (mset_spec _ st.2 i j y Hs2 Hli Hlj) as (N' & HN & HsN & HlN).
  exists D', N'. split_and!; try done.
  unfold repr. simpl. split_and!; try done.
  intros i' j' u' v' Hi' Hj'. rewrite HlD, HlN.
  destruct (Hc i' j' u' v' Hi' Hj') as [H1 H2].
  destruct (decide (i' = i ∧ j' = j)) as [[-> ->]|Hne].
  - rewrite Hi in Hi'. rewrite Hj in Hj'.
    injection Hi' as ->. injection Hj' as ->. by rewrite decide_True.
  - rewrite decide_False; first done. intros [-> ->]. apply Hne.
    split; eapply NoDup_lookup; eauto.
Qed.

Lemma init_vertices_repr :
  ∃ st, foldM (FW.init_vertex (FW.make_pos vertices))
              (replicate (length vertices) (replicate (length vertices) inf),
               replicate (length vertices)
                         (replicate (length vertices) None))
              vertices = Ok st
        ∧ repr vertices st c_diag.
Proof.
  set (P := fun (l1 : list string) (st : FW.matrices) =>
              repr vertices st
                (fun u v => if decide (u = v ∧ u ∈ l1)
                            then (Int 0, Some v) else (inf, None))).
  destruct (foldM_prefix_inv P (FW.init_vertex (FW.make_pos vertices))
              vertices
              (replicate (length vertices) (replicate (length vertices) inf),
               replicate (length vertices)
                         (replicate (length vertices) None)))
    as (st & Hf & HP).
  - split_and!; simpl; try apply shape_replicate.
    intros i j u v Hi Hj.
    rewrite decide_False by (intros [_ Hin]; by apply elem_of_nil in Hin).
    pose proof (lookup_lt_Some _ _ _ Hi). pose proof (lookup_lt_Some _ _ _ Hj).
    by rewrite !mlookup_replicate.
  - intros l1 x l2 st Hl HP.
    assert (vertices !! length l1 = Some x) as Hx.
    { rewrite Hl. by rewrite list_lookup_middle. }
    pose proof (proj2 (make_pos_lookup vertices x _ Hnd) Hx) as Hpos.
    destruct (repr_update st _ _ _ x x (Int 0) (Some x) HP Hx Hx)
      as (D' & N' & HD & HN & Hrepr).
    exists (D', N'). unfold FW.init_vertex.
    rewrite (getitem_Some _ _ _ Hpos). simpl. rewrite HD. simpl.
    rewrite HN. simpl. split; first done.
    eapply repr_ext; last done. intros u v _ _. simpl.
    destruct (decide (u = x ∧ v = x)) as [[-> ->]|Hne].
    + rewrite decide_True; first done. split; first done.
      apply elem_of_app. right. apply list_elem_of_here.
    + destruct (decide (u = v ∧ u ∈ l1)) as [[-> Hin]|Hne1].
      * rewrite decide_True; first done. split; first done.
        apply elem_of_app. by left.
      * rewrite decide_False; first done. intros [-> Hin].
        apply elem_of_app in Hin as [Hin|Hin%list_elem_of_singleton].
        -- by apply Hne1.
        -- by apply Hne.
  - exists st. split; first done. eapply repr_ext; last done.
    intros u v Hu _. simpl. unfold c_diag.
    destruct (decide (u = v)) as [->|Hne].
    + by rewrite decide_True.
    + rewrite decide_False; first done. by intros [? _].
Qed.

Lemma init_edge_repr st c e :
  e ∈ edges → repr vertices st c →
  ∃ st', FW.init_edge (FW.make_pos vertices) st e = Ok st'
         ∧ repr vertices st' (init_edge_fn c e).
Proof.
  intros He Hrepr. destruct (closed_edges_elem _ _ _ Hclosed He) as [Hu Hv].
  destruct e as [[u v] w]. unfold src, tgt in Hu, Hv. simpl in Hu, Hv.
  apply list_elem_of_lookup in Hu as [i Hi].
  apply list_elem_of_lookup in Hv as [j Hj].
  pose proof (proj2 (make_pos_lookup vertices u _ Hnd) Hi) as Hpu.
  pose proof (proj2 (make_pos_lookup vertices v _ Hnd) Hj) as Hpv.
  destruct (repr_read st c i j u v Hrepr Hi Hj) as [Hd _].
  destruct (repr_update st c i j u v (num_min (c u v).1 (Int w)) (Some v)
              Hrepr Hi Hj) as (D' & N' & HD & HN & Hrepr').
  exists (D', N'). unfold FW.init_edge.
  rewrite (getitem_Some _ _ _ Hpu), (getitem_Some _ _ _ Hpv). simpl.
  rewrite Hd. simpl. rewrite HD. simpl. rewrite HN. simpl.
  split; first done. eapply repr_ext; last done.
  intros u' v' _ _. unfold init_edge_fn, src, tgt, wt. simpl.
  destruct (decide (u' = u ∧ v' = v)) as [[-> ->]|Hne]; done.
Qed.

Lemma step_repr st c k i j m u v :
  vertices !! k = Some m → vertices !! i = Some u → vertices !! j = Some v →
  repr vertices st c →
  (∃ st', FW.step k i st j = Ok st' ∧ repr vertices st' (step_fn m u c v))
  ∨ FW.step k i st j = Raise OverflowError.
Proof.
  intros Hk Hi Hj Hrepr.
  destruct (repr_read st c i j u v Hrepr Hi Hj) as [Hdij _].
  destruct (repr_read st c i k u m Hrepr Hi Hk) as [Hdik Hnik].
  destruct (repr_read st c k j m v Hrepr Hk Hj) as [Hdkj _].
  unfold FW.step, step_fn. rewrite Hdij, Hdik, Hdkj. simpl.
  destruct (num_add_cases (c u m).1 (c m v).1) as [Hs|Hs]; rewrite Hs; simpl;
    last by right.
  left. destruct (num_ltb (num_plus (c u m).1 (c m v).1) (c u v).1).
  - destruct (repr_update st c i j u v (num_plus (c u m).1 (c m v).1)
                (c u m).2 Hrepr Hi Hj) as (D' & N' & HD & HN & Hrepr').
    exists (D', N'). rewrite HD. simpl. rewrite Hnik. simpl.
    rewrite HN. simpl. done.
  - by exists st.
Qed.

Lemma mid_loop_repr st c k m :
  vertices !! k = Some m → repr vertices st c →
  (∃ st', FW.mid_loop (length vertices) st k = Ok st'
          ∧ repr vertices st' (mid_fn vertices c m))
  ∨ FW.mid_loop (length vertices) st k = Raise OverflowError.
Proof.
  intros Hk Hrepr. unfold FW.mid_loop, mid_fn.
  apply (foldM_seq_sim (repr vertices)); last done.
  intros i u st1 c1 Hi Hr1. unfold FW.row_loop, row_fn.
  apply (foldM_seq_sim (repr vertices)); last done.
  intros j v st2 c2 Hj Hr2. by apply step_repr.
Qed.

(** [floyd_warshall] returns the matrices of the table, unless a sum
    overflows. *)
Lemma floyd_warshall_cases :
  (∃ dist next_node,
     FW.floyd_warshall vertices edges
     = Ok (dist, FW.make_pos vertices, next_node)
     ∧ repr vertices (dist, next_node) (fw_fn vertices edges))
  ∨ FW.floyd_warshall vertices edges = Raise OverflowError.
Proof.
  unfold FW.floyd_warshall.
  destruct init_vertices_repr as (st0 & Hf0 & Hr0). rewrite Hf0. simpl.
  destruct (foldM_prefix_inv
              (fun l1 st => repr vertices st (foldl init_edge_fn c_diag l1))
              (FW.init_edge (FW.make_pos vertices)) edges st0)
    as (st1 & Hf1 & Hr1); first done.
  { intros l1 e l2 st Hl Hr. rewrite foldl_snoc.
    apply init_edge_repr; last done.
    rewrite Hl. apply elem_of_app. right. apply list_elem_of_here. }
  rewrite Hf1. simpl.
  destruct (foldM_seq_sim (repr vertices) (FW.mid_loop (length vertices))
              (mid_fn vertices) vertices st1 (init_fn edges))
    as [(st2 & Hf2 & Hr2)|Hf2].
  { intros k m st c Hk Hr. by apply mid_loop_repr. }
  { done. }
  - rewrite Hf2. simpl. destruct st2 as [dist next_node].
    left. by exists dist, next_node.
  - rewrite Hf2. by right.
Qed.

(** What [floyd_warshall] returns are the matrices of the table. *)
Lemma floyd_warshall_returned dist pos next_node :
  FW.floyd_warshall vertices edges = Ok (dist, pos, next_node) →
  pos = FW.make_pos vertices
  ∧ repr vertices (dist, next_node) (fw_fn vertices edges).
Proof.
  intros Hfw.
  destruct floyd_warshall_cases as [(dist' & next' & Hfw' & Hrepr)|Hfw'];
    rewrite Hfw' in Hfw; last done.
  by injection Hfw as <- <- <-.
Qed.
End FloydWarshallRun.

(** ** Floyd-Warshall: the position table and the shape of the matrices *)

(** With a label that occurs twice, [pos] keeps one of its positions. *)
Lemma make_pos_fold (l : list string) : ∀ (start : nat) (d : gmap string nat) u,
  (∀ i, foldl (fun d iv => <[iv.2 := iv.1]> d) d
              (zip (seq start (length l)) l) !! u = Some i →
        d !! u = Some i
        ∨ ∃ j, l !! j = Some u ∧ i = (start + j)%nat)
  ∧ (is_Some (d !! u) ∨ u ∈ l →
     is_Some (foldl (fun d iv => <[iv.2 := iv.1]> d) d
                    (zip (seq start (length l)) l) !! u)).
Proof.
  induction l as [|x l IH]; intros start d u.
  - simpl. split; first by left.
    intros [?|Hin]; [done | by apply elem_of_nil in Hin].
  - simpl. destruct (IH (Datatypes.S start) (<[x := start]> d) u) as [IH1 IH2].
    split.
    + intros i Hi. destruct (IH1 i Hi) as [Hd|(j & Hj & ->)].
      * destruct (decide (x = u)) as [->|Hne].
        -- rewrite lookup_insert_eq in Hd. injection Hd as <-.
           right. exists 0%nat. split; [done | lia].
        -- rewrite lookup_insert_ne in Hd by done. by left.
      * right. exists (Datatypes.S j). split; [done | lia].
    + intros Hu. apply IH2. destruct (decide (x = u)) as [->|Hne].
      * left. rewrite lookup_insert_eq. eauto.
      * rewrite lookup_insert_ne by done.
        destruct Hu as [?|[?|?]%elem_of_cons]; [by left | done | by right].
Qed.

Lemma make_pos_Some vertices u i :
  FW.make_pos vertices !! u = Some i → vertices !! i = Some u.
Proof.
  intros Hp. destruct (make_pos_fold vertices 0 ∅ u) as [H1 _].
  destruct (H1 i Hp) as [Hd|(j & Hj & ->)]; last done.
  by rewrite lookup_empty in Hd.
Qed.

Lemma make_pos_is_Some vertices u :
  is_Some (FW.make_pos vertices !! u) ↔ u ∈ vertices.
Proof.
  split.
  - intros [i Hi]. apply make_pos_Some in Hi. by eapply list_elem_of_lookup_2.
  - intros Hu. destruct (make_pos_fold vertices 0 ∅ u) as [_ H2].
    apply H2. by right.
Qed.

Lemma foldM_inv {A S : Type} (P : S → Prop) (f : S → A → result S)
    (l : list A) (s : S) :
  P s → (∀ s x, x ∈ l → P s → ∃ s', f s x = Ok s' ∧ P s') →
  ∃ s', foldM f s l = Ok s' ∧ P s'.
Proof.
  revert s. induction l as [|x l IH]; intros s Hs Hstep; first by exists s.
  destruct (Hstep s x (list_elem_of_here _ _) Hs) as (s1 & Hf & Hs1).
  destruct (IH s1 Hs1) as (s2 & Hfl & Hs2).
  { intros s' y Hy. apply Hstep. by apply list_elem_of_further. }
  exists s2. by rewrite foldM_cons, Hf.
Qed.

Lemma mget_shape {A : Type} n (m : list (list A)) i j :
  shape n m → (i < n)%nat → (j < n)%nat → ∃ a, mget m i j = Ok a.
Proof.
  intros [Hlen Hrows] Hi Hj.
  destruct (lookup_lt_is_Some_2 m i) as [r Hr]; first lia.
  assert (length r = n) as Hlr.
  { rewrite Forall_forall in Hrows. apply Hrows.
    by eapply list_elem_of_lookup_2. }
  destruct (lookup_lt_is_Some_2 r j) as [a Ha]; first lia.
  exists a. apply mget_lookup. unfold mlookup. rewrite Hr. done.
Qed.

Definition shaped (n : nat) (st : FW.matrices) : Prop :=
  shape n st.1 ∧ shape n st.2.

Lemma init_vertex_shaped vertices st v :
  v ∈ vertices → shaped (length vertices) st →
  ∃ st', FW.init_vertex (FW.make_pos vertices) st v = Ok st'
         ∧ shaped (length vertices) st'.
Proof.
  intros Hv [H1 H2].
  destruct (proj2 (make_pos_is_Some vertices v) Hv) as [p Hp].
  pose proof (lookup_lt_Some _ _ _ (make_pos_Some _ _ _ Hp)) as Hlt.
  destruct (mset_spec _ st.1 p p (Int 0) H1 Hlt Hlt) as (D & HD & HsD & _).
  destruct (mset_spec _ st.2 p p (Some v) H2 Hlt Hlt) as (N & HN & HsN & _).
  exists (D, N). unfold FW.init_vertex.
  rewrite (getitem_Some _ _ _ Hp). simpl. rewrite HD. simpl.
  rewrite HN. done.
Qed.

Lemma init_edge_shaped vertices st e :
  src e ∈ vertices → tgt e ∈ vertices → shaped (length vertices) st →
  ∃ st', FW.init_edge (FW.make_pos vertices) st e = Ok st'
         ∧ shaped (length vertices) st'.
Proof.
  intros Hu Hv [H1 H2]. destruct e as [[u v] w]. unfold src, tgt in *.
  simpl in *.
  destruct (proj2 (make_pos_is_Some vertices u) Hu) as [pu Hpu].
  destruct (proj2 (make_pos_is_Some vertices v) Hv) as [pv Hpv].
  pose proof (lookup_lt_Some _ _ _ (make_pos_Some _ _ _ Hpu)) as Hltu.
  pose proof (lookup_lt_Some _ _ _ (make_pos_Some _ _ _ Hpv)) as Hltv.
  destruct (mget_shape _ st.1 pu pv H1 Hltu Hltv) as [d Hd].
  destruct (mset_spec _ st.1 pu pv (num_min d (Int w)) H1 Hltu Hltv)
    as (D & HD & HsD & _).
  destruct (mset_spec _ st.2 pu pv (Some v) H2 Hltu Hltv)
    as (N & HN & HsN & _).
  exists (D, N). unfold FW.init_edge.
  rewrite (getitem_Some _ _ _ Hpu), (getitem_Some _ _ _ Hpv). simpl.
  rewrite Hd. simpl. rewrite HD. simpl. rewrite HN. done.
Qed.

(** ** Floyd-Warshall: the sums stay in range on small weights *)

Lemma max_abs_nonneg edges : 0 ≤ max_abs edges.
Proof. induction edges as [|e l IH]; simpl; lia. Qed.

Lemma max_abs_elem edges e : e ∈ edges → Z.abs (wt e) ≤ max_abs edges.
Proof.
  induction edges as [|x l IH]; first by intros ?%elem_of_nil.
  intros [->|He]%elem_of_cons; simpl; first lia.
  specialize (IH He). lia.
Qed.

Lemma pow6_pos (n : nat) : 1 ≤ 6 ^ Z.of_nat n.
Proof.
  pose proof (Z.pow_pos_nonneg 6 (Z.of_nat n)). lia.
Qed.

Lemma float_small_weights vertices edges :
  float_small vertices edges → float_weights edges.
Proof.
  unfold float_small, float_weights. intros Hsm. apply Forall_forall.
  intros e He. pose proof (max_abs_elem edges e He) as Hle.
  pose proof (pow6_pos (length vertices)).
  unfold fits. apply Z.ltb_lt. nia.
Qed.

Definition num_within (B : Z) (x : num) : Prop :=
  match x with
  | Int d => Z.abs d ≤ B
  | inf => True
  end.

(** The entry at [i], [j], when there is one, is [inf] or at most [B] in
    magnitude. *)
Definition within (B : Z) (D : list (list num)) (i j : nat) : Prop :=
  ∀ x, mlookup D i j = Some x → num_within B x.

Lemma num_within_mono B B' x : B ≤ B' → num_within B x → num_within B' x.
Proof. destruct x; simpl; [lia | done]. Qed.

Lemma num_add_within B a b :
  B < float_max → num_within B a → num_within B b →
  num_add a b = Ok (num_plus a b).
Proof.
  intros HB.
  destruct a as [x|], b as [y|]; simpl; intros Ha Hb; try done.
  - assert (fits x = true) as -> by (apply Z.ltb_lt; lia). done.
  - assert (fits y = true) as -> by (apply Z.ltb_lt; lia). done.
Qed.

Lemma mlookup_shape {A : Type} n (m : list (list A)) i j :
  shape n m → (i < n)%nat → (j < n)%nat → ∃ a, mlookup m i j = Some a.
Proof.
  intros [Hlen Hrows] Hi Hj.
  destruct (lookup_lt_is_Some_2 m i) as [r Hr]; first lia.
  assert (length r = n) as Hlr.
  { rewrite Forall_forall in Hrows. apply Hrows.
    by eapply list_elem_of_lookup_2. }
  destruct (lookup_lt_is_Some_2 r j) as [a Ha]; first lia.
  exists a. unfold mlookup. rewrite Hr. done.
Qed.

Lemma seq_middle n l1 (x : nat) l2 :
  seq 0 n = l1 ++ x :: l2 → x = length l1 ∧ (x < n)%nat.
Proof.
  intros Hl.
  assert (seq 0 n !! length l1 = Some x) as Hx.
  { rewrite Hl. by rewrite list_lookup_middle. }
  apply lookup_seq in Hx. lia.
Qed.

(** The round of the vertex at [k] on entries of magnitude at most [B]:
    an entry the round has not visited yet is within [B]; the entry at
    [k], [k] stays within [2 * B], the row and the column of [k] within
    [3 * B], and every entry within [6 * B]. *)
Record round_inv (n k : nat) (B : Z) (vis : nat → nat → Prop)
    (st : FW.matrices) : Prop := RoundInv {
  ri_shaped : shaped n st;
  ri_all : ∀ i j, within (6 * B) st.1 i j;
  ri_row : ∀ j, within (3 * B) st.1 k j;
  ri_col : ∀ i, within (3 * B) st.1 i k;
  ri_mid : within (2 * B) st.1 k k;
  ri_new : ∀ i j, ¬ vis i j → within B st.1 i j
}.

Lemma round_inv_mono n k B (vis vis' : nat → nat → Prop) st :
  (∀ i j, vis i j → vis' i j) → round_inv n k B vis st →
  round_inv n k B vis' st.
Proof.
  intros Hsub [H1 H2 H3 H4 H5 H6]. split; try done.
  intros i j Hv. apply H6. intros Hv'. by apply Hv, Hsub.
Qed.

Lemma step_bounded n k B vis st i j :
  0 ≤ B → 6 * B < float_max → (k < n)%nat → (i < n)%nat → (j < n)%nat →
  ¬ vis i j → round_inv n k B vis st →
  ∃ st', FW.step k i st j = Ok st'
         ∧ round_inv n k B (fun a b => vis a b ∨ (a = i ∧ b = j)) st'.
Proof.
  intros HB Hmax Hk Hi Hj Hvis [[H1 H2] Hall Hrow Hcol Hmid Hnew].
  destruct (mlookup_shape _ st.1 i j H1 Hi Hj) as [dij Hdij].
  destruct (mlookup_shape _ st.1 i k H1 Hi Hk) as [dik Hdik].
  destruct (mlookup_shape _ st.1 k j H1 Hk Hj) as [dkj Hdkj].
  destruct (mlookup_shape _ st.2 i k H2 Hi Hk) as [nik Hnik].
  unfold FW.step.
  rewrite (mget_lookup _ _ _ _ Hdij), (mget_lookup _ _ _ _ Hdik),
    (mget_lookup _ _ _ _ Hdkj). simpl.
  rewrite (num_add_within (6 * B) dik dkj Hmax (Hall _ _ _ Hdik)
             (Hall _ _ _ Hdkj)). simpl.
  destruct (num_ltb (num_plus dik dkj) dij) eqn:Hlt.
  2:{ exists st. split; first done.
      apply (round_inv_mono n k B vis); first by left. by split. }
  destruct (mset_spec _ st.1 i j (num_plus dik dkj) H1 Hi Hj)
    as (D & HD & HsD & HlD).
  destruct (mset_spec _ st.2 i j nik H2 Hi Hj) as (N & HN & HsN & _).
  exists (D, N). rewrite HD. simpl.
  rewrite (mget_lookup _ _ _ _ Hnik). simpl. rewrite HN. simpl.
  split; first done.
  destruct dik as [a|]; last done. destruct dkj as [b|]; last done.
  simpl in HlD.
  pose proof (Hcol _ _ Hdik) as Ha3. pose proof (Hrow _ _ Hdkj) as Hb3.
  simpl in Ha3, Hb3.
  assert (i = k → Z.abs a ≤ 2 * B ∧ Z.abs b ≤ B) as Hik.
  { intros ->. split; first by apply (Hmid _ Hdik).
    by apply (Hnew _ _ Hvis _ Hdkj). }
  assert (j = k → Z.abs a ≤ B ∧ Z.abs b ≤ 2 * B) as Hjk.
  { intros ->. split; first by apply (Hnew _ _ Hvis _ Hdik).
    by apply (Hmid _ Hdkj). }
  split; simpl.
  - done.
  - intros i' j' x. rewrite HlD. case_decide; last by apply Hall.
    intros [= <-]. simpl. lia.
  - intros j' x. rewrite HlD. case_decide as Heq; last by apply Hrow.
    intros [= <-]. simpl. destruct Heq as [Heq _].
    destruct (Hik (eq_sym Heq)). lia.
  - intros i' x. rewrite HlD. case_decide as Heq; last by apply Hcol.
    intros [= <-]. simpl. destruct Heq as [_ Heq].
    destruct (Hjk (eq_sym Heq)). lia.
  - intros x. rewrite HlD. case_decide as Heq; last by apply Hmid.
    intros [= <-]. simpl. destruct Heq as [Heq1 Heq2].
    destruct (Hik (eq_sym Heq1)). destruct (Hjk (eq_sym Heq2)). lia.
  - intros i' j' Hv x. rewrite HlD. case_decide as Heq.
    + destruct Hv. by right.
    + apply Hnew. intros Hv'. apply Hv. by left.
Qed.

Lemma row_loop_bounded n k B st i :
  0 ≤ B → 6 * B < float_max → (k < n)%nat → (i < n)%nat →
  round_inv n k B (fun a _ => (a < i)%nat) st →
  ∃ st', FW.row_loop n k st i = Ok st'
         ∧ round_inv n k B (fun a _ => (a < S i)%nat) st'.
Proof.
  intros HB Hmax Hk Hi Hinv. unfold FW.row_loop.
  destruct (foldM_prefix_inv
              (fun l1 st => round_inv n k B
                              (fun a b => (a < i)%nat
                                          ∨ (a = i ∧ (b < length l1)%nat)) st)
              (FW.step k i) (seq 0 n) st) as (st' & Hf & Hst').
  - apply (round_inv_mono n k B (fun a _ => (a < i)%nat)); last done.
    intros a b Ha. by left.
  - intros l1 x l2 st1 Hl Hst1.
    destruct (seq_middle n l1 x l2 Hl) as [-> Hx].
    destruct (step_bounded n k B
                (fun a b => (a < i)%nat ∨ (a = i ∧ (b < length l1)%nat))
                st1 i (length l1) HB Hmax Hk Hi Hx)
      as (st2 & Hs & Hst2); [|done|].
    { intros [?|[_ ?]]; lia. }
    exists st2. split; first done.
    eapply round_inv_mono; last done.
    intros a b. rewrite length_app. simpl. lia.
  - exists st'. split; first done.
    eapply round_inv_mono; last done.
    intros a b. simpl. lia.
Qed.

Lemma mid_loop_bounded n B st k :
  0 ≤ B → 6 * B < float_max → (k < n)%nat →
  shaped n st → (∀ i j, within B st.1 i j) →
  ∃ st', FW.mid_loop n st k = Ok st' ∧ shaped n st'
         ∧ ∀ i j, within (6 * B) st'.1 i j.
Proof.
  intros HB Hmax Hk Hs Hall. unfold FW.mid_loop.
  destruct (foldM_prefix_inv
              (fun l1 st => round_inv n k B
                              (fun a _ => (a < length l1)%nat) st)
              (FW.row_loop n k) (seq 0 n) st) as (st' & Hf & Hst').
  - split; try done.
    + intros i j x Hx. eapply num_within_mono; last by eapply Hall. lia.
    + intros j x Hx. eapply num_within_mono; last by eapply Hall. lia.
    + intros i x Hx. eapply num_within_mono; last by eapply Hall. lia.
    + intros x Hx. eapply num_within_mono; last by eapply Hall. lia.
  - intros l1 x l2 st1 Hl Hst1.
    destruct (seq_middle n l1 x l2 Hl) as [-> Hx].
    destruct (row_loop_bounded n k B st1 (length l1) HB Hmax Hk Hx Hst1)
      as (st2 & Hr & Hst2).
    exists st2. split; first done.
    eapply round_inv_mono; last done.
    intros a b. rewrite length_app. simpl. lia.
  - exists st'. split; first done. split; first by apply (ri_shaped _ _ _ _ _ Hst').
    apply (ri_all _ _ _ _ _ Hst').
Qed.

Lemma rounds_bounded n M st :
  0 ≤ M → 6 ^ Z.of_nat n * M < float_max →
  shaped n st → (∀ i j, within M st.1 i j) →
  ∃ st', foldM (FW.mid_loop n) st (seq 0 n) = Ok st' ∧ shaped n st'.
Proof.
  intros HM Hmax Hs Hall.
  destruct (foldM_prefix_inv
              (fun l1 st => shaped n st
                            ∧ ∀ i j, within (6 ^ Z.of_nat (length l1) * M)
                                            st.1 i j)
              (FW.mid_loop n) (seq 0 n) st) as (st' & Hf & Hs' & _).
  - split; first done. simpl. intros i j x Hx.
    eapply num_within_mono; last by eapply Hall. lia.
  - intros l1 k l2 st1 Hl [Hs1 Hall1].
    destruct (seq_middle n l1 k l2 Hl) as [-> Hk].
    assert (6 * (6 ^ Z.of_nat (length l1) * M) ≤ 6 ^ Z.of_nat n * M) as Hle.
    { replace (6 * (6 ^ Z.of_nat (length l1) * M))
        with (6 ^ Z.succ (Z.of_nat (length l1)) * M)
        by (rewrite Z.pow_succ_r by lia; lia).
      apply Z.mul_le_mono_nonneg_r; first done.
      apply Z.pow_le_mono_r; lia. }
    destruct (mid_loop_bounded n (6 ^ Z.of_nat (length l1) * M) st1
                (length l1)) as (st2 & Hm & Hs2 & Hall2); try done.
    { pose proof (pow6_pos (length l1)). nia. }
    { lia. }
    exists st2. split; first done. split; first done.
    intros i j x Hx. rewrite length_app. simpl.
    replace (Z.of_nat (length l1 + 1)) with (Z.succ (Z.of_nat (length l1)))
      by lia.
    rewrite Z.pow_succ_r by lia.
    replace (6 * 6 ^ Z.of_nat (length l1) * M)
      with (6 * (6 ^ Z.of_nat (length l1) * M)) by lia.
    by eapply Hall2.
  - by exists st'.
Qed.

Lemma within_replicate n B i j :
  within B (replicate n (replicate n inf)) i j.
Proof.
  intros x. unfold mlookup.
  destruct (replicate n (replicate n inf) !! i) as [r|] eqn:Hr; last done.
  apply lookup_replicate in Hr as [-> _]. simpl.
  intros [-> _]%lookup_replicate. done.
Qed.

Lemma init_vertex_bounded vertices M st v :
  0 ≤ M → v ∈ vertices →
  shaped (length vertices) st → (∀ i j, within M st.1 i j) →
  ∃ st', FW.init_vertex (FW.make_pos vertices) st v = Ok st'
         ∧ shaped (length vertices) st' ∧ ∀ i j, within M st'.1 i j.
Proof.
  intros HM Hv [H1 H2] Hall.
  destruct (proj2 (make_pos_is_Some vertices v) Hv) as [p Hp].
  pose proof (lookup_lt_Some _ _ _ (make_pos_Some _ _ _ Hp)) as Hlt.
  destruct (mset_spec _ st.1 p p (Int 0) H1 Hlt Hlt) as (D & HD & HsD & HlD).
  destruct (mset_spec _ st.2 p p (Some v) H2 Hlt Hlt) as (N & HN & HsN & _).
  exists (D, N). unfold FW.init_vertex.
  rewrite (getitem_Some _ _ _ Hp). simpl. rewrite HD. simpl.
  rewrite HN. simpl. split_and!; try done.
  intros i j x. rewrite HlD. case_decide; last by apply Hall.
  intros [= <-]. simpl. lia.
Qed.

Lemma init_edge_bounded vertices M st e :
  src e ∈ vertices → tgt e ∈ vertices → Z.abs (wt e) ≤ M →
  shaped (length vertices) st → (∀ i j, within M st.1 i j) →
  ∃ st', FW.init_edge (FW.make_pos vertices) st e = Ok st'
         ∧ shaped (length vertices) st' ∧ ∀ i j, within M st'.1 i j.
Proof.
  intros Hu Hv Hw [H1 H2] Hall. destruct e as [[u v] w].
  unfold src, tgt, wt in *. simpl in *.
  destruct (proj2 (make_pos_is_Some vertices u) Hu) as [pu Hpu].
  destruct (proj2 (make_pos_is_Some vertices v) Hv) as [pv Hpv].
  pose proof (lookup_lt_Some _ _ _ (make_pos_Some _ _ _ Hpu)) as Hltu.
  pose proof (lookup_lt_Some _ _ _ (make_pos_Some _ _ _ Hpv)) as Hltv.
  destruct (mlookup_shape _ st.1 pu pv H1 Hltu Hltv) as [d Hd].
  destruct (mset_spec _ st.1 pu pv (num_min d (Int w)) H1 Hltu Hltv)
    as (D & HD & HsD & HlD).
  destruct (mset_spec _ st.2 pu pv (Some v) H2 Hltu Hltv)
    as (N & HN & HsN & _).
  exists (D, N). unfold FW.init_edge.
  rewrite (getitem_Some _ _ _ Hpu), (getitem_Some _ _ _ Hpv). simpl.
  rewrite (mget_lookup _ _ _ _ Hd). simpl. rewrite HD. simpl. rewrite HN.
  simpl. split_and!; try done.
  intros i j x. rewrite HlD. case_decide; last by apply Hall.
  intros [= <-]. pose proof (Hall _ _ _ Hd) as Hd'.
  unfold num_min. destruct (num_ltb (Int w) d); [done | done].
Qed.

(** On small weights no sum of [floyd_warshall] overflows: it returns two
    matrices of [n] rows of length [n], also when a label occurs twice. *)
Lemma floyd_warshall_returns vertices edges :
  closed_edges vertices edges → float_small vertices edges →
  ∃ dist next_node,
    FW.floyd_warshall vertices edges
    = Ok (dist, FW.make_pos vertices, next_node)
    ∧ shape (length vertices) dist ∧ shape (length vertices) next_node.
Proof.
  intros Hclosed Hsm. pose proof (max_abs_nonneg edges) as HM.
  unfold FW.floyd_warshall.
  destruct (foldM_inv
              (fun st => shaped (length vertices) st
                         ∧ ∀ i j, within (max_abs edges) st.1 i j)
              (FW.init_vertex (FW.make_pos vertices)) vertices
              (replicate (length vertices) (replicate (length vertices) inf),
               replicate (length vertices)
                         (replicate (length vertices) None)))
    as (st0 & Hf0 & Hs0 & Hall0).
  { split; first by split; apply shape_replicate.
    intros i j. apply within_replicate. }
  { intros st v Hv [Hs Hall]. by apply init_vertex_bounded. }
  rewrite Hf0. simpl.
  destruct (foldM_inv
              (fun st => shaped (length vertices) st
                         ∧ ∀ i j, within (max_abs edges) st.1 i j)
              (FW.init_edge (FW.make_pos vertices)) edges st0)
    as (st1 & Hf1 & Hs1 & Hall1); first done.
  { intros st e He [Hs Hall].
    destruct (closed_edges_elem _ _ _ Hclosed He) as [Hu Hv].
    apply init_edge_bounded; try done. by apply max_abs_elem. }
  rewrite Hf1. simpl.
  destruct (rounds_bounded (length vertices) (max_abs edges) st1 HM Hsm Hs1
              Hall1) as (st2 & Hf2 & Hs2a & Hs2b).
  rewrite Hf2. simpl. by exists st2.1, st2.2.
Qed.

(** On small weights [floyd_warshall] returns the matrices of the table. *)
Lemma floyd_warshall_repr vertices edges :
  NoDup vertices → closed_edges vertices edges →
  float_small vertices edges →
  ∃ dist next_node,
    FW.floyd_warshall vertices edges
    = Ok (dist, FW.make_pos vertices, next_node)
    ∧ repr vertices (dist, next_node) (fw_fn vertices edges).
Proof.
  intros Hnd Hclosed Hsm.
  destruct (floyd_warshall_returns vertices edges Hclosed Hsm)
    as (dist & next_node & Hfw & _).
  exists dist, next_node. split; first done.
  by destruct (floyd_warshall_returned vertices edges Hnd Hclosed _ _ _ Hfw).
Qed.

(** ** Floyd-Warshall: a successor is defined where the distance is finite *)

Lemma foldl_inv {A C : Type} (P : C → Prop) (g : C → A → C) (l : list A)
    (c : C) :
  P c → (∀ c x, x ∈ l → P c → P (g c x)) → P (foldl g c l).
Proof.
  revert c. induction l as [|x l IH]; intros c Hc Hg; first done.
  simpl. apply IH.
  - apply Hg; [apply list_elem_of_here | done].
  - intros c' y Hy. apply Hg. by apply list_elem_of_further.
Qed.

Lemma foldl_prefix_inv {A C : Type} (P : list A → C → Prop) (g : C → A → C)
    (l : list A) (c : C) :
  P [] c →
  (∀ l1 x l2 c, l = l1 ++ x :: l2 → P l1 c → P (l1 ++ [x]) (g c x)) →
  P l (foldl g c l).
Proof.
  intros H0 Hstep.
  assert (∀ l2 l1 c, l = l1 ++ l2 → P l1 c → P l (foldl g c l2)) as Hgen.
  { induction l2 as [|x l2 IH]; intros l1 c0 Hl Hc0.
    - rewrite app_nil_r in Hl. by subst.
    - simpl. apply (IH (l1 ++ [x])).
      + by rewrite <- app_assoc.
      + by eapply Hstep. }
  by apply (Hgen l [] c).
Qed.

(** The successor of a cell is [None] exactly when its distance is [inf],
    and the distances of the diagonal are at most [0]. *)
Definition coherent (c : cellfn) : Prop :=
  (∀ u v, (c u v).1 = inf ↔ (c u v).2 = None)
  ∧ ∀ u, num_le (c u u).1 (Int 0).

Lemma coherent_diag : coherent c_diag.
Proof.
  split.
  - intros u v. unfold c_diag. by case_decide.
  - intros u. unfold c_diag. rewrite decide_True by done. apply num_le_refl.
Qed.

Lemma coherent_init_edge c e : coherent c → coherent (init_edge_fn c e).
Proof.
  intros [Hc Hd]. split.
  - intros u v. unfold init_edge_fn. case_decide; last done. simpl.
    split; last done. destruct (c u v).1; num_cases.
    destruct (_ <? _); done.
  - intros u. specialize (Hd u). unfold init_edge_fn.
    case_decide; last done. simpl.
    destruct (c u u).1; unfold num_min; simpl in *; last done.
    destruct (wt e <? z) eqn:Hlt; num_cases.
Qed.

Lemma coherent_step m u c v : coherent c → coherent (step_fn m u c v).
Proof.
  intros [Hc Hd]. unfold step_fn.
  destruct (num_ltb _ _) eqn:Hlt; last done. split.
  - intros u' v'. case_decide; last done. simpl.
    destruct (c u m).1 eqn:Hum; simpl in *; last done.
    destruct (c m v).1 eqn:Hmv; simpl in *; last done.
    split; first done. intros Hn. apply Hc in Hn. congruence.
  - intros u'. specialize (Hd u'). case_decide as Heq; last done. simpl.
    destruct Heq as [-> ->]. eapply num_le_trans; last done.
    by apply num_ltb_le.
Qed.

Lemma coherent_fw vertices edges : coherent (fw_fn vertices edges).
Proof.
  unfold fw_fn, init_fn, mid_fn, row_fn.
  apply foldl_inv.
  - apply foldl_inv; first apply coherent_diag.
    intros c e _. apply coherent_init_edge.
  - intros c m _ Hc. apply foldl_inv; first done.
    intros c1 u _ Hc1. apply foldl_inv; first done.
    intros c2 v _. apply coherent_step.
Qed.

(** C10: in the matrices that [floyd_warshall] returns, [next_node[i][j]]
    is defined exactly where [dist[i][j]] is finite, and every entry of the
    diagonal of [next_node] is defined.  It returns them on every graph of
    small weights. *)
Theorem floyd_warshall_next_defined
    (vertices : list string) (edges : list edge) :
  NoDup vertices → closed_edges vertices edges →
  (float_small vertices edges →
   ∃ r, FW.floyd_warshall vertices edges = Ok r)
  ∧ ∀ dist pos next_node,
      FW.floyd_warshall vertices edges = Ok (dist, pos, next_node) →
      ∀ i j, (i < length vertices)%nat → (j < length vertices)%nat →
        ∃ d s, mlookup dist i j = Some d ∧ mlookup next_node i j = Some s
               ∧ (s ≠ None ↔ d ≠ inf)
               ∧ (i = j → s ≠ None).
Proof.
  intros Hnd Hclosed. split.
  { intros Hsm.
    destruct (floyd_warshall_returns vertices edges Hclosed Hsm)
      as (? & ? & ? & _). eauto. }
  intros dist pos next_node Hfw.
  destruct (floyd_warshall_returned vertices edges Hnd Hclosed _ _ _ Hfw)
    as (_ & _ & _ & Hc).
  intros i j Hi Hj.
  destruct (lookup_lt_is_Some_2 vertices i Hi) as [u Hu].
  destruct (lookup_lt_is_Some_2 vertices j Hj) as [v Hv].
  destruct (Hc i j u v Hu Hv) as [Hd Hs]. simpl in Hd, Hs.
  destruct (coherent_fw vertices edges) as [Hcoh Hdiag].
  eexists _, _. split_and!; try done.
  - specialize (Hcoh u v). split; intros H1 H2; apply H1; by apply Hcoh.
  - intros ->. rewrite Hu in Hv. injection Hv as ->.
    intros Hn. apply Hcoh in Hn. specialize (Hdiag v).
    rewrite Hn in Hdiag. done.
Qed.

(** C6: on the matrices that [floyd_warshall] returns,
    [reconstruct_path(u, u)] is [[u]], and [reconstruct_path(u, v)] is
    empty where the distance is [inf], which is where the successor is
    undefined.  It returns them on every graph of small weights. *)
Theorem reconstruct_path_trivial
    (vertices : list string) (edges : list edge) :
  NoDup vertices → closed_edges vertices edges →
  (float_small vertices edges →
   ∃ r, FW.floyd_warshall vertices edges = Ok r)
  ∧ ∀ dist pos next_node,
      FW.floyd_warshall vertices edges = Ok (dist, pos, next_node) →
      (∀ fuel u, u ∈ vertices →
         FW.reconstruct_path fuel u u vertices pos next_node = Some (Ok [u]))
      ∧ (∀ fuel u v, u ∈ vertices → v ∈ vertices →
           ∃ i j d s, pos !! u = Some i ∧ pos !! v = Some j
             ∧ mlookup dist i j = Some d ∧ mlookup next_node i j = Some s
             ∧ (d = inf ↔ s = None)
             ∧ (d = inf →
                FW.reconstruct_path fuel u v vertices pos next_node
                = Some (Ok []))).
Proof.
  intros Hnd Hclosed. split.
  { intros Hsm.
    destruct (floyd_warshall_returns vertices edges Hclosed Hsm)
      as (? & ? & ? & _). eauto. }
  intros dist pos next_node Hfw.
  destruct (floyd_warshall_returned vertices edges Hnd Hclosed _ _ _ Hfw)
    as (-> & Hrepr).
  destruct (coherent_fw vertices edges) as [Hcoh Hdiag].
  assert (∀ u v, u ∈ vertices → v ∈ vertices →
            ∃ i j, FW.make_pos vertices !! u = Some i
                   ∧ FW.make_pos vertices !! v = Some j
                   ∧ mlookup dist i j = Some (fw_fn vertices edges u v).1
                   ∧ mlookup next_node i j
                     = Some (fw_fn vertices edges u v).2) as Hcell.
  { intros u v [i Hi]%list_elem_of_lookup [j Hj]%list_elem_of_lookup.
    destruct Hrepr as (_ & _ & Hc). destruct (Hc i j u v Hi Hj) as [Hd Hs].
    exists i, j. split_and!; try done; by apply make_pos_lookup. }
  split.
  - intros fuel u Hu. destruct (Hcell u u Hu Hu) as (i & j & Hi & Hj & _ & Hs).
    unfold FW.reconstruct_path.
    rewrite (successor_lookup _ _ _ _ _ _ _ Hi Hj Hs).
    destruct (fw_fn vertices edges u u).2 eqn:Hn.
    + destruct fuel; simpl; by rewrite decide_True.
    + apply Hcoh in Hn. specialize (Hdiag u). rewrite Hn in Hdiag. done.
  - intros fuel u v Hu Hv.
    destruct (Hcell u v Hu Hv) as (i & j & Hi & Hj & Hd & Hs).
    eexists i, j, _, _. split_and!; try done.
    intros Hinf. apply Hcoh in Hinf. unfold FW.reconstruct_path.
    rewrite (successor_lookup _ _ _ _ _ _ _ Hi Hj Hs), Hinf. done.
Qed.

(** ** Floyd-Warshall: one intermediate vertex at a time *)

Definition improves (m : string) (c : cellfn) (u v : string) : bool :=
  num_ltb (num_plus (c u m).1 (c m v).1) (c u v).1.

(** The pass for the intermediate vertex [m], every cell computed from the
    table before the pass. *)
Definition upd (m : string) (c : cellfn) : cellfn :=
  fun u v =>
    if improves m c u v
    then (num_plus (c u m).1 (c m v).1, (c u m).2)
    else c u v.

Lemma upd_col m c u :
  num_ltb (c m m).1 (Int 0) = false → upd m c u m = c u m.
Proof.
  intros Hm. unfold upd, improves.
  destruct (c m m).1, (c u m).1; simpl in *; try done.
  apply Z.ltb_ge in Hm.
  match goal with
  | |- context [?a <? ?b] =>
      replace (a <? b) with false by (symmetry; apply Z.ltb_ge; lia)
  end.
  done.
Qed.

Lemma upd_row m c v :
  num_ltb (c m m).1 (Int 0) = false → upd m c m v = c m v.
Proof.
  intros Hm. unfold upd, improves.
  destruct (c m m).1, (c m v).1; simpl in *; try done.
  apply Z.ltb_ge in Hm.
  match goal with
  | |- context [?a <? ?b] =>
      replace (a <? b) with false by (symmetry; apply Z.ltb_ge; lia)
  end.
  done.
Qed.

Lemma row_fn_upd vertices m c rows u c_cur :
  NoDup vertices → num_ltb (c m m).1 (Int 0) = false → u ∉ rows →
  (∀ u' v', c_cur u' v'
            = if decide (u' ∈ rows ∧ v' ∈ vertices) then upd m c u' v'
              else c u' v') →
  ∀ u' v', row_fn vertices m c_cur u u' v'
           = if decide (u' ∈ rows ++ [u] ∧ v' ∈ vertices) then upd m c u' v'
             else c u' v'.
Proof.
  intros Hnd Hm Hu Hcur. unfold row_fn.
  set (Q := fun (cols : list string) (c1 : cellfn) =>
              ∀ u' v', c1 u' v'
                = if decide ((u' ∈ rows ∧ v' ∈ vertices)
                             ∨ (u' = u ∧ v' ∈ cols))
                  then upd m c u' v' else c u' v').
  assert (Q vertices (foldl (step_fn m u) c_cur vertices)) as HQ.
  { apply foldl_prefix_inv.
    - intros u' v'. rewrite Hcur.
      destruct (decide (u' ∈ rows ∧ v' ∈ vertices)) as [Hin|Hout].
      + rewrite decide_True; [done | by left].
      + rewrite decide_False; first done.
        intros [?|[_ Hn]]; first done. by apply elem_of_nil in Hn.
    - intros cols v l2 c1 Hl HQ.
      assert (v ∉ cols) as Hv.
      { rewrite Hl in Hnd. apply NoDup_app in Hnd as (_ & Hdis & _).
        intros Hin. apply (Hdis v Hin). apply list_elem_of_here. }
      assert (c1 u m = c u m) as Hum.
      { rewrite HQ. case_decide; last done. by apply upd_col. }
      assert (c1 m v = c m v) as Hmv.
      { rewrite HQ. case_decide; last done. by apply upd_row. }
      assert (c1 u v = c u v) as Huv.
      { rewrite HQ. rewrite decide_False; first done.
        intros [[? _]|[_ ?]]; done. }
      intros u' v'. unfold step_fn. rewrite Hum, Hmv, Huv.
      fold (improves m c u v).
      destruct (decide (u' = u ∧ v' = v)) as [[-> ->]|Hne].
      + rewrite decide_True.
        2:{ right. split; first done. apply elem_of_app. right.
            apply list_elem_of_here. }
        unfold upd. destruct (improves m c u v) eqn:Himp.
        * by rewrite decide_True.
        * by apply Huv.
      + transitivity (c1 u' v').
        { destruct (improves m c u v); last done. by rewrite decide_False. }
        rewrite HQ.
        destruct (decide ((u' ∈ rows ∧ v' ∈ vertices) ∨ (u' = u ∧ v' ∈ cols)))
          as [Hin|Hout].
        * rewrite decide_True; first done.
          destruct Hin as [?|[? ?]]; [by left | right].
          split; first done. apply elem_of_app. by left.
        * rewrite decide_False; first done.
          intros [?|[-> Hin]]; first by apply Hout; left.
          apply elem_of_app in Hin as [Hin|Hin%list_elem_of_singleton].
          -- apply Hout. by right.
          -- by apply Hne. }
  intros u' v'. rewrite HQ.
  destruct (decide (u' ∈ rows ++ [u] ∧ v' ∈ vertices)) as [[Hin Hv']|Hout].
  - rewrite decide_True; first done.
    apply elem_of_app in Hin as [Hin|Hin%list_elem_of_singleton];
      [by left | by right].
  - rewrite decide_False; first done.
    intros [[? ?]|[-> ?]]; apply Hout.
    + split; last done. apply elem_of_app. by left.
    + assert (v' ∈ vertices) by done. split; last done.
      apply elem_of_app. right. apply list_elem_of_here.
Qed.

Lemma mid_fn_upd vertices m c :
  NoDup vertices → num_ltb (c m m).1 (Int 0) = false →
  ∀ u v, u ∈ vertices → v ∈ vertices → mid_fn vertices c m u v = upd m c u v.
Proof.
  intros Hnd Hm. unfold mid_fn.
  set (P := fun (rows : list string) (c1 : cellfn) =>
              ∀ u v, c1 u v
                     = if decide (u ∈ rows ∧ v ∈ vertices) then upd m c u v
                       else c u v).
  assert (P vertices (foldl (row_fn vertices m) c vertices)) as H.
  { apply foldl_prefix_inv.
    - intros u v. rewrite decide_False; first done.
      intros [Hn _]. by apply elem_of_nil in Hn.
    - intros rows u l2 c1 Hl Hc1 u' v'. apply row_fn_upd; try done.
      rewrite Hl in Hnd. apply NoDup_app in Hnd as (_ & Hdis & _).
      intros Hin. apply (Hdis u Hin). apply list_elem_of_here. }
  intros u v Hu Hv. rewrite H. by rewrite decide_True.
Qed.

(** ** Walks through a set of intermediate vertices *)

(** The vertices a walk visits strictly between its two ends. *)
Fixpoint inter (es : list edge) : list string :=
  match es with
  | [] => []
  | e :: es' =>
      match es' with
      | [] => []
      | _ :: _ => tgt e :: inter es'
      end
  end.

Lemma inter_cons e es : es ≠ [] → inter (e :: es) = tgt e :: inter es.
Proof. by destruct es. Qed.

Lemma inter_app_walk edges a p m q :
  walk edges a p m → p ≠ [] → q ≠ [] →
  inter (p ++ q) = inter p ++ (m :: inter q).
Proof.
  revert a. induction p as [|e p IH]; intros a Hw Hp Hq; first done.
  destruct Hw as (He & Hs & Hw). destruct p as [|e' p].
  - simpl in Hw. subst m. simpl. by destruct q.
  - specialize (IH _ Hw). rewrite <- !app_comm_cons in *.
    rewrite !inter_cons by done. rewrite IH by done. done.
Qed.

Lemma inter_split edges a es b m :
  walk edges a es b → m ∈ inter es →
  ∃ p q, es = p ++ q ∧ p ≠ [] ∧ q ≠ []
         ∧ walk edges a p m ∧ walk edges m q b
         ∧ (m ∉ inter p) ∧ (inter p ⊆ inter es) ∧ (inter q ⊆ inter es).
Proof.
  revert a. induction es as [|e es IH]; intros a Hw Hm.
  - by apply elem_of_nil in Hm.
  - destruct es as [|e' es]; first by apply elem_of_nil in Hm.
    rewrite inter_cons in * by done. destruct Hw as (He & Hs & Hw).
    destruct (decide (tgt e = m)) as [<-|Hne].
    + exists [e], (e' :: es). split_and!; try done.
      * intros Hn. by apply elem_of_nil in Hn.
      * intros x Hx. by apply elem_of_nil in Hx.
      * intros x Hx. by apply list_elem_of_further.
    + apply elem_of_cons in Hm as [->|Hm]; first done.
      destruct (IH _ Hw Hm) as (p & q & Hpq & Hp & Hq & Hwp & Hwq
                                & Hnp & Hip & Hiq).
      exists (e :: p), q. split_and!; try done.
      * simpl. by rewrite Hpq.
      * rewrite inter_cons by done.
        intros [?|?]%elem_of_cons; [by apply Hne | done].
      * rewrite inter_cons by done.
        intros x [->|Hx]%elem_of_cons; first apply list_elem_of_here.
        apply list_elem_of_further. by apply Hip.
      * intros x Hx. apply list_elem_of_further. by apply Hiq.
Qed.

Lemma inter_verts a es : inter es ⊆ verts a es.
Proof.
  revert a. induction es as [|e es IH]; intros a x Hx.
  - by apply elem_of_nil in Hx.
  - destruct es as [|e' es]; first by apply elem_of_nil in Hx.
    rewrite inter_cons in Hx by done. unfold verts. simpl.
    apply list_elem_of_further.
    apply elem_of_cons in Hx as [->|Hx]; first apply list_elem_of_here.
    by apply (IH (tgt e)).
Qed.

Lemma improves_true m (c : cellfn) u v :
  improves m c u v = true →
  ∃ a b, (c u m).1 = Int a ∧ (c m v).1 = Int b
         ∧ num_ltb (Int (a + b)) (c u v).1 = true.
Proof.
  unfold improves. destruct (c u m).1 as [a|], (c m v).1 as [b|]; try done.
  intros H. by exists a, b.
Qed.

Lemma improves_false m (c : cellfn) u v a b :
  improves m c u v = false → (c u m).1 = Int a → (c m v).1 = Int b →
  num_le (c u v).1 (Int (a + b)).
Proof. unfold improves. intros H Ha Hb. by rewrite Ha, Hb in H. Qed.

Lemma upd_le_old m c u v : num_le (upd m c u v).1 (c u v).1.
Proof.
  unfold upd. destruct (improves m c u v) eqn:Himp; simpl.
  - by apply num_ltb_le.
  - apply num_le_refl.
Qed.

Lemma upd_le_via m c u v :
  num_le (upd m c u v).1 (num_plus (c u m).1 (c m v).1).
Proof.
  unfold upd. destruct (improves m c u v) eqn:Himp; simpl.
  - apply num_le_refl.
  - done.
Qed.

(** ** Floyd-Warshall without negative cycle: the invariant of the passes *)

Section FloydWarshallPaths.
Context (vertices : list string) (edges : list edge).
Hypothesis Hnd : NoDup vertices.
Hypothesis Hclosed : closed_edges vertices edges.
Hypothesis Hcyc : ∀ a cyc, walk edges a cyc a → 0 ≤ weight cyc.

(** After the passes for the vertices [L], the table [c] holds for every
    pair the least weight of a walk through [L], the walk [P u v] has this
    weight, and the successor is the second vertex of [P u v], from which
    the walk goes on as [P] says. *)
Record good (L : list string) (c : cellfn) (P : string → string → list edge)
  : Prop := Good {
  good_none : ∀ u v, u ∈ vertices → v ∈ vertices →
                (c u v).1 = inf → (c u v).2 = None;
  good_diag : ∀ u, u ∈ vertices → c u u = (Int 0, Some u) ∧ P u u = [];
  good_path : ∀ u v d, u ∈ vertices → v ∈ vertices → (c u v).1 = Int d →
                walk edges u (P u v) v ∧ weight (P u v) = d
                ∧ inter (P u v) ⊆ L;
  good_next : ∀ u v d, u ∈ vertices → v ∈ vertices → u ≠ v →
                (c u v).1 = Int d →
                ∃ e, P u v = e :: P (tgt e) v ∧ (c u v).2 = Some (tgt e)
                     ∧ (c (tgt e) v).1 = Int (d - wt e);
  good_lower : ∀ u v es, u ∈ vertices → walk edges u es v → inter es ⊆ L →
                 num_le (c u v).1 (Int (weight es))
}.

Lemma good_head L c P u v d :
  good L c P → u ∈ vertices → v ∈ vertices → u ≠ v → (c u v).1 = Int d →
  ∃ e, P u v = e :: P (tgt e) v ∧ (c u v).2 = Some (tgt e)
       ∧ (c (tgt e) v).1 = Int (d - wt e)
       ∧ e ∈ edges ∧ src e = u ∧ tgt e ∈ vertices
       ∧ walk edges (tgt e) (P (tgt e) v) v.
Proof.
  intros Hg Hu Hv Hne Hd.
  destruct (good_next _ _ _ Hg u v d Hu Hv Hne Hd) as (e & HP & Hn & Hx).
  destruct (good_path _ _ _ Hg u v d Hu Hv Hd) as (Hw & _ & _).
  rewrite HP in Hw. destruct Hw as (He & Hs & Hw).
  exists e. split_and!; try done.
  by apply (closed_edges_elem _ _ _ Hclosed He).
Qed.

Lemma good_mm L c P m :
  good L c P → m ∈ vertices → (c m m).1 = Int 0.
Proof. intros Hg Hm. by rewrite (proj1 (good_diag _ _ _ Hg m Hm)). Qed.

Lemma good_improves_col L c P m u :
  good L c P → m ∈ vertices → improves m c u m = false.
Proof.
  intros Hg Hm. unfold improves. rewrite (good_mm _ _ _ _ Hg Hm).
  destruct (c u m).1; simpl; last done. apply Z.ltb_ge. lia.
Qed.

Lemma good_improves_row L c P m v :
  good L c P → m ∈ vertices → improves m c m v = false.
Proof.
  intros Hg Hm. unfold improves. rewrite (good_mm _ _ _ _ Hg Hm).
  destruct (c m v).1; simpl; last done. apply Z.ltb_ge. lia.
Qed.

Lemma good_improves_diag L c P m u :
  good L c P → m ∈ vertices → u ∈ vertices → improves m c u u = false.
Proof.
  intros Hg Hm Hu. destruct (improves m c u u) eqn:Himp; last done.
  apply improves_true in Himp as (a & b & Ha & Hb & Hlt).
  rewrite (good_mm _ _ _ _ Hg Hu) in Hlt.
  destruct (good_path _ _ _ Hg u m a Hu Hm Ha) as (Hw1 & Hwt1 & _).
  destruct (good_path _ _ _ Hg m u b Hm Hu Hb) as (Hw2 & Hwt2 & _).
  pose proof (Hcyc u _ (walk_app edges _ _ _ _ _ Hw1 Hw2)) as Hc.
  rewrite weight_app in Hc. num_cases.
Qed.

(** Walks from [m] that come back to [m] are not lighter. *)
Lemma good_lower_from L c P m :
  good L c P → m ∈ vertices →
  ∀ k es v, (length es ≤ k)%nat → walk edges m es v → inter es ⊆ L ++ [m] →
            num_le (c m v).1 (Int (weight es)).
Proof.
  intros Hg Hm. induction k as [|k IH]; intros es v Hlen Hw Hin.
  - destruct es; simpl in *; last lia. subst.
    rewrite (good_mm _ _ _ _ Hg Hm). num_cases.
  - destruct (decide (m ∈ inter es)) as [Hmi|Hmi].
    + destruct (inter_split edges _ _ _ _ Hw Hmi)
        as (p & q & -> & Hp & Hq & Hwp & Hwq & _ & _ & Hiq).
      rewrite weight_app. pose proof (Hcyc m p Hwp) as Hc.
      assert (num_le (c m v).1 (Int (weight q))) as Hle.
      { apply IH; try done.
        - rewrite length_app in Hlen. destruct p; simpl in *; [done | lia].
        - intros x Hx. apply Hin. by apply Hiq. }
      destruct (c m v).1; num_cases.
    + apply (good_lower _ _ _ Hg); try done.
      intros x Hx. specialize (Hin x Hx).
      apply elem_of_app in Hin as [?|Heq%list_elem_of_singleton]; first done.
      by subst.
Qed.

Lemma good_lower_upd L c P m u v es :
  good L c P → m ∈ vertices → u ∈ vertices →
  walk edges u es v → inter es ⊆ L ++ [m] →
  num_le (upd m c u v).1 (Int (weight es)).
Proof.
  intros Hg Hm Hu Hw Hin.
  destruct (decide (m ∈ inter es)) as [Hmi|Hmi].
  - destruct (inter_split edges _ _ _ _ Hw Hmi)
      as (p & q & -> & Hp & Hq & Hwp & Hwq & Hnp & Hip & Hiq).
    assert (num_le (c u m).1 (Int (weight p))) as H1.
    { apply (good_lower _ _ _ Hg); try done.
      intros x Hx. pose proof (Hin x (Hip x Hx)) as Hx'.
      apply elem_of_app in Hx' as [?|Heq%list_elem_of_singleton]; first done.
      by subst. }
    assert (num_le (c m v).1 (Int (weight q))) as H2.
    { apply (good_lower_from L c P m Hg Hm (length q)); try done.
      intros x Hx. apply Hin. by apply Hiq. }
    pose proof (upd_le_via m c u v) as H3. rewrite weight_app.
    destruct (upd m c u v).1, (c u m).1, (c m v).1; num_cases.
  - eapply num_le_trans; first apply upd_le_old.
    apply (good_lower _ _ _ Hg); try done.
    intros x Hx. specialize (Hin x Hx).
    apply elem_of_app in Hin as [?|Heq%list_elem_of_singleton]; first done.
    by subst.
Qed.

(** The walks after the pass for [m]. *)
Definition P_upd (m : string) (c : cellfn) (P : string → string → list edge)
  : string → string → list edge :=
  fun u v => if improves m c u v then P u m ++ P m v else P u v.

Lemma good_nonempty L c P u v d :
  good L c P → u ∈ vertices → v ∈ vertices → u ≠ v → (c u v).1 = Int d →
  P u v ≠ [].
Proof.
  intros Hg Hu Hv Hne Hd.
  destruct (good_next _ _ _ Hg u v d Hu Hv Hne Hd) as (e & -> & _). done.
Qed.

Lemma good_second_in L c P u v d e :
  good L c P → u ∈ vertices → v ∈ vertices → (c u v).1 = Int d →
  P u v = e :: P (tgt e) v → P (tgt e) v ≠ [] → tgt e ∈ L.
Proof.
  intros Hg Hu Hv Hd HP Hne.
  destruct (good_path _ _ _ Hg u v d Hu Hv Hd) as (_ & _ & Hin).
  apply Hin. rewrite HP, inter_cons by done. apply list_elem_of_here.
Qed.

Lemma good_next_upd L c P m u v d :
  good L c P → m ∈ vertices → m ∉ L →
  u ∈ vertices → v ∈ vertices → u ≠ v → (upd m c u v).1 = Int d →
  ∃ e, P_upd m c P u v = e :: P_upd m c P (tgt e) v
       ∧ (upd m c u v).2 = Some (tgt e)
       ∧ (upd m c (tgt e) v).1 = Int (d - wt e).
Proof.
  intros Hg Hm HmL Hu Hv Hne Hd. unfold upd, P_upd in *.
  destruct (improves m c u v) eqn:Himp.
  - (* the cell goes through [m] *)
    destruct (improves_true _ _ _ _ Himp) as (a & b & Ha & Hb & Hlt).
    rewrite Ha, Hb in Hd. simpl in Hd. injection Hd as <-.
    assert (u ≠ m) as Hum.
    { intros ->. by rewrite (good_improves_row _ _ _ _ v Hg Hm) in Himp. }
    destruct (good_head _ _ _ _ _ _ Hg Hu Hm Hum Ha)
      as (e & HPm & Hn & Hxm & He & Hs & Hx & Hwx).
    exists e. simpl. split_and!; last first.
    + destruct (decide (tgt e = m)) as [Heq|Hxne].
      * rewrite Heq in *. rewrite (good_improves_row _ _ _ _ v Hg Hm).
        rewrite (good_mm _ _ _ _ Hg Hm) in Hxm. rewrite Hb.
        injection Hxm as Hxm. f_equal. lia.
      * destruct (improves m c (tgt e) v) eqn:Himpx.
        { simpl. rewrite Hxm, Hb. simpl. f_equal. lia. }
        exfalso.
        pose proof (improves_false _ _ _ _ _ _ Himpx Hxm Hb) as Hle.
        destruct (c (tgt e) v).1 as [dxv|] eqn:Hdxv; last done.
        destruct (decide (tgt e = v)) as [Heqv|Hxv].
        -- assert (num_le (c u v).1 (Int (weight [e]))) as Hlow.
           { apply (good_lower _ _ _ Hg); try done.
             intros y Hy. by apply elem_of_nil in Hy. }
           rewrite Heqv in Hdxv. rewrite (good_mm _ _ _ _ Hg Hv) in Hdxv.
           injection Hdxv as <-. simpl in Hlow.
           destruct (c u v).1; num_cases.
        -- pose proof (good_nonempty _ _ _ _ _ _ Hg Hx Hv Hxv Hdxv) as Hnev.
           pose proof (good_nonempty _ _ _ _ _ _ Hg Hx Hm Hxne Hxm) as Hnem.
           pose proof (good_second_in _ _ _ _ _ _ _ Hg Hu Hm Ha HPm Hnem)
             as HxL.
           destruct (good_path _ _ _ Hg _ _ _ Hx Hv Hdxv) as (Hw & Hwt & Hi).
           assert (num_le (c u v).1 (Int (weight (e :: P (tgt e) v))))
             as Hlow.
           { apply (good_lower _ _ _ Hg); try done.
             rewrite inter_cons by done.
             intros y [->|Hy]%elem_of_cons; [done | by apply Hi]. }
           simpl in Hlow. rewrite Hwt in Hlow.
           destruct (c u v).1; num_cases.
    + done.
    + rewrite HPm. simpl. f_equal.
      destruct (decide (tgt e = m)) as [Heq|Hxne].
      * rewrite Heq. rewrite (good_improves_row _ _ _ _ v Hg Hm).
        by rewrite (proj2 (good_diag _ _ _ Hg m Hm)).
      * destruct (improves m c (tgt e) v) eqn:Himpx; first done.
        exfalso.
        pose proof (improves_false _ _ _ _ _ _ Himpx Hxm Hb) as Hle.
        destruct (c (tgt e) v).1 as [dxv|] eqn:Hdxv; last done.
        destruct (decide (tgt e = v)) as [Heqv|Hxv].
        -- assert (num_le (c u v).1 (Int (weight [e]))) as Hlow.
           { apply (good_lower _ _ _ Hg); try done.
             intros y Hy. by apply elem_of_nil in Hy. }
           rewrite Heqv in Hdxv. rewrite (good_mm _ _ _ _ Hg Hv) in Hdxv.
           injection Hdxv as <-. simpl in Hlow.
           destruct (c u v).1; num_cases.
        -- pose proof (good_nonempty _ _ _ _ _ _ Hg Hx Hv Hxv Hdxv) as Hnev.
           pose proof (good_nonempty _ _ _ _ _ _ Hg Hx Hm Hxne Hxm) as Hnem.
           pose proof (good_second_in _ _ _ _ _ _ _ Hg Hu Hm Ha HPm Hnem)
             as HxL.
           destruct (good_path _ _ _ Hg _ _ _ Hx Hv Hdxv) as (Hw & Hwt & Hi).
           assert (num_le (c u v).1 (Int (weight (e :: P (tgt e) v))))
             as Hlow.
           { apply (good_lower _ _ _ Hg); try done.
             rewrite inter_cons by done.
             intros y [->|Hy]%elem_of_cons; [done | by apply Hi]. }
           simpl in Hlow. rewrite Hwt in Hlow.
           destruct (c u v).1; num_cases.
  - (* the cell is kept *)
    destruct (good_head _ _ _ _ _ _ Hg Hu Hv Hne Hd)
      as (e & HP & Hn & Hx & He & Hs & Hxv & Hwx).
    assert (improves m c (tgt e) v = false) as Himpx.
    { destruct (improves m c (tgt e) v) eqn:Himpx; last done. exfalso.
      destruct (improves_true _ _ _ _ Himpx) as (a & b & Ha & Hb & Hlt).
      rewrite Hx in Hlt.
      assert (tgt e ≠ m) as Hxm.
      { intros Heq. rewrite Heq in Himpx.
        by rewrite (good_improves_row _ _ _ _ v Hg Hm) in Himpx. }
      assert (tgt e ≠ v) as Hxne.
      { intros Heq. rewrite Heq in Himpx.
        by rewrite (good_improves_diag _ _ _ _ v Hg Hm Hv) in Himpx. }
      pose proof (good_nonempty _ _ _ _ _ _ Hg Hxv Hv Hxne Hx) as Hnev.
      pose proof (good_nonempty _ _ _ _ _ _ Hg Hxv Hm Hxm Ha) as Hnem.
      pose proof (good_second_in _ _ _ _ _ _ _ Hg Hu Hv Hd HP Hnev) as HxL.
      destruct (good_path _ _ _ Hg _ _ _ Hxv Hm Ha) as (Hw & Hwt & Hi).
      assert (num_le (c u m).1 (Int (weight (e :: P (tgt e) m)))) as Hlow.
      { apply (good_lower _ _ _ Hg); try done.
        rewrite inter_cons by done.
        intros y [->|Hy]%elem_of_cons; [done | by apply Hi]. }
      simpl in Hlow. rewrite Hwt in Hlow.
      destruct (c u m).1 as [a'|] eqn:Ha'; last done.
      pose proof (improves_false _ _ _ _ _ _ Himp Ha' Hb) as Hle.
      rewrite Hd in Hle. num_cases. }
    exists e. rewrite Himpx. done.
Qed.

Lemma good_upd L c P m c' :
  good L c P → m ∈ vertices → m ∉ L →
  (∀ u v, u ∈ vertices → v ∈ vertices → c' u v = upd m c u v) →
  good (L ++ [m]) c' (P_upd m c P).
Proof.
  intros Hg Hm HmL Hc'. split.
  - intros u v Hu Hv. rewrite Hc' by done. unfold upd.
    destruct (improves m c u v) eqn:Himp; simpl.
    + destruct (improves_true _ _ _ _ Himp) as (a & b & -> & -> & _). done.
    + by apply (good_none _ _ _ Hg).
  - intros u Hu. rewrite Hc' by done. unfold upd, P_upd.
    rewrite (good_improves_diag _ _ _ _ _ Hg Hm Hu).
    by apply (good_diag _ _ _ Hg).
  - intros u v d Hu Hv. rewrite Hc' by done. unfold upd, P_upd.
    destruct (improves m c u v) eqn:Himp; simpl.
    + destruct (improves_true _ _ _ _ Himp) as (a & b & Ha & Hb & _).
      rewrite Ha, Hb. simpl. intros [= <-].
      assert (u ≠ m) as Hum.
      { intros ->. by rewrite (good_improves_row _ _ _ _ v Hg Hm) in Himp. }
      assert (m ≠ v) as Hmv.
      { intros <-. by rewrite (good_improves_col _ _ _ _ u Hg Hm) in Himp. }
      destruct (good_path _ _ _ Hg _ _ _ Hu Hm Ha) as (Hw1 & Hwt1 & Hi1).
      destruct (good_path _ _ _ Hg _ _ _ Hm Hv Hb) as (Hw2 & Hwt2 & Hi2).
      split_and!.
      * by eapply walk_app.
      * rewrite weight_app. lia.
      * rewrite (inter_app_walk edges u _ m _ Hw1)
          by (by eapply good_nonempty).
        intros x [Hx|[->|Hx]%elem_of_cons]%elem_of_app.
        -- apply elem_of_app. left. by apply Hi1.
        -- apply elem_of_app. right. apply list_elem_of_here.
        -- apply elem_of_app. left. by apply Hi2.
    + intros Hd. destruct (good_path _ _ _ Hg _ _ _ Hu Hv Hd) as (? & ? & Hi).
      split_and!; try done. intros x Hx. apply elem_of_app. left.
      by apply Hi.
  - intros u v d Hu Hv Hne. rewrite Hc' by done. intros Hd.
    destruct (good_next_upd _ _ _ _ _ _ _ Hg Hm HmL Hu Hv Hne Hd)
      as (e & HP & Hn & Hx).
    assert (tgt e ∈ vertices) as Hxv.
    { unfold upd, P_upd in *. destruct (improves m c u v) eqn:Himp.
      - destruct (improves_true _ _ _ _ Himp) as (a & b & Ha & Hb & _).
        assert (u ≠ m) as Hum.
        { intros ->.
          by rewrite (good_improves_row _ _ _ _ v Hg Hm) in Himp. }
        destruct (good_head _ _ _ _ _ _ Hg Hu Hm Hum Ha)
          as (e' & HPm & Hn' & _ & _ & _ & Hx' & _).
        simpl in Hn. rewrite Hn' in Hn. by injection Hn as <-.
      - destruct (good_head _ _ _ _ _ _ Hg Hu Hv Hne Hd)
          as (e' & HPm & Hn' & _ & _ & _ & Hx' & _).
        rewrite Hn' in Hn. by injection Hn as <-. }
    exists e. rewrite !Hc' by done. done.
  - intros u v es Hu Hw Hin.
    rewrite Hc'; [|done|by eapply walk_end_closed].
    by eapply good_lower_upd.
Qed.

(** The table after the initialisation holds the lightest edge of every
    pair. *)
Definition init_ok (l : list edge) (c : cellfn) : Prop :=
  (∀ u, c u u = (Int 0, Some u))
  ∧ ∀ u v, u ≠ v →
      (c u v = (inf, None) ∧ ∀ e, e ∈ l → ¬ (src e = u ∧ tgt e = v))
      ∨ (∃ e, e ∈ l ∧ src e = u ∧ tgt e = v
              ∧ c u v = (Int (wt e), Some v)
              ∧ ∀ e', e' ∈ l → src e' = u → tgt e' = v → wt e ≤ wt e').

Lemma init_ok_edge l c e :
  e ∈ edges → init_ok l c → init_ok (l ++ [e]) (init_edge_fn c e).
Proof.
  intros He [Hdiag Hoff]. split.
  - intros u. unfold init_edge_fn. case_decide as Heq; last done.
    destruct Heq as [Hs Ht]. rewrite Hdiag. simpl.
    assert (0 ≤ wt e) as Hw.
    { pose proof (Hcyc (src e) [e]) as Hc. simpl in Hc.
      rewrite <- Hs, <- Ht in Hc. specialize (Hc (conj He (conj eq_refl
        eq_refl))). lia. }
    unfold num_min. simpl. rewrite (proj2 (Z.ltb_ge _ _) Hw). by rewrite <- Ht.
  - intros u v Hne. unfold init_edge_fn.
    destruct (decide (u = src e ∧ v = tgt e)) as [[-> ->]|Hneq].
    + right. destruct (Hoff _ _ Hne) as [[Hc Hno]|(e0 & He0 & Hs0 & Ht0
                                                  & Hc & Hmin)].
      * exists e. rewrite Hc. simpl. split_and!; try done.
        -- apply elem_of_app. right. apply list_elem_of_here.
        -- intros e' [Hin|Heq%list_elem_of_singleton]%elem_of_app Hs' Ht'.
           ++ by destruct (Hno e' Hin).
           ++ subst. lia.
      * rewrite Hc. unfold num_min. simpl.
        destruct (wt e <? wt e0) eqn:Hlt.
        -- apply Z.ltb_lt in Hlt. exists e. split_and!; try done.
           ++ apply elem_of_app. right. apply list_elem_of_here.
           ++ intros e' [Hin|Heq%list_elem_of_singleton]%elem_of_app Hs' Ht'.
              ** specialize (Hmin e' Hin Hs' Ht'). lia.
              ** subst. lia.
        -- apply Z.ltb_ge in Hlt. exists e0. split_and!; try done.
           ++ apply elem_of_app. by left.
           ++ intros e' [Hin|Heq%list_elem_of_singleton]%elem_of_app Hs' Ht'.
              ** by apply Hmin.
              ** by subst.
    + destruct (Hoff _ _ Hne) as [[Hc Hno]|(e0 & He0 & Hs0 & Ht0
                                            & Hc & Hmin)].
      * left. split; first done.
        intros e' [Hin|Heq%list_elem_of_singleton]%elem_of_app.
        -- by apply Hno.
        -- subst. intros [? ?]. by apply Hneq.
      * right. exists e0. split_and!; try done.
        -- apply elem_of_app. by left.
        -- intros e' [Hin|Heq%list_elem_of_singleton]%elem_of_app Hs' Ht'.
           ++ by apply Hmin.
           ++ subst. destruct Hneq. done.
Qed.

Lemma init_ok_init : init_ok edges (init_fn edges).
Proof.
  unfold init_fn. apply (foldl_prefix_inv init_ok).
  - split.
    + intros u. unfold c_diag. by rewrite decide_True.
    + intros u v Hne. left. unfold c_diag. rewrite decide_False by done.
      split; first done. intros e He. by apply elem_of_nil in He.
  - intros l1 e l2 c Hl Hok. apply init_ok_edge; last done.
    rewrite Hl. apply elem_of_app. right. apply list_elem_of_here.
Qed.

(** The walks of the initial table: one edge, the lightest of the pair. *)
Definition P_init (u v : string) : list edge :=
  if decide (u = v) then []
  else match (init_fn edges u v).1 with
       | Int d => [(u, v, d)]
       | inf => []
       end.

Lemma good_init : good [] (init_fn edges) P_init.
Proof.
  destruct init_ok_init as [Hdiag Hoff]. split.
  - intros u v _ _ Hinf. destruct (decide (u = v)) as [->|Hne].
    + by rewrite Hdiag in Hinf.
    + destruct (Hoff _ _ Hne) as [[Hc _]|(e & _ & _ & _ & Hc & _)];
        rewrite Hc in *; done.
  - intros u _. split; first done. unfold P_init. by rewrite decide_True.
  - intros u v d _ _ Hd. unfold P_init.
    destruct (decide (u = v)) as [->|Hne].
    + rewrite Hdiag in Hd. injection Hd as <-. split_and!; try done.
    + rewrite Hd.
      destruct (Hoff _ _ Hne) as [[Hc _]|(e & He & Hs & Ht & Hc & _)];
        rewrite Hc in Hd; first done.
      injection Hd as <-. destruct e as [[a b] w].
      unfold src, tgt, wt in *. simpl in *. subst.
      split_and!; try done. simpl. lia.
  - intros u v d _ _ Hne Hd. unfold P_init. rewrite decide_False by done.
    rewrite Hd. exists (u, v, d). unfold tgt, wt. simpl.
    rewrite decide_True by done. split; first done.
    destruct (Hoff _ _ Hne) as [[Hc _]|(e & He & Hs & Ht & Hc & _)];
      rewrite Hc in Hd; first done.
    rewrite Hc, Hdiag. simpl. split; first done. f_equal. lia.
  - intros u v es _ Hw Hin. destruct es as [|e [|e' es]].
    + simpl in Hw. subst. rewrite Hdiag. apply num_le_refl.
    + destruct Hw as (He & Hs & Ht). simpl in Ht. subst.
      destruct (decide (src e = tgt e)) as [Heq|Hne].
      * rewrite Heq, Hdiag. simpl.
        pose proof (Hcyc (src e) [e]) as Hc. simpl in Hc.
        specialize (Hc (conj He (conj eq_refl (eq_sym Heq)))).
        apply Z.ltb_ge. lia.
      * destruct (Hoff _ _ Hne) as [[Hc Hno]|(e0 & He0 & Hs0 & Ht0
                                              & Hc & Hmin)].
        -- by destruct (Hno e He).
        -- rewrite Hc. simpl. specialize (Hmin e He eq_refl eq_refl).
           apply Z.ltb_ge. lia.
    + rewrite inter_cons in Hin by done.
      specialize (Hin (tgt e) (list_elem_of_here _ _)).
      by apply elem_of_nil in Hin.
Qed.

Lemma good_fw : ∃ P, good vertices (fw_fn vertices edges) P.
Proof.
  unfold fw_fn.
  apply (foldl_prefix_inv (fun L c => ∃ P, good L c P)).
  - exists P_init. apply good_init.
  - intros L m l2 c Hl [P Hg].
    assert (m ∈ vertices) as Hm.
    { rewrite Hl. apply elem_of_app. right. apply list_elem_of_here. }
    assert (m ∉ L) as HmL.
    { pose proof Hnd as Hnd'. rewrite Hl in Hnd'.
      apply NoDup_app in Hnd' as (_ & Hdis & _).
      intros Hin. apply (Hdis m Hin). apply list_elem_of_here. }
    exists (P_upd m c P). apply good_upd; try done.
    apply mid_fn_upd; first done.
    by rewrite (good_mm _ _ _ _ Hg Hm).
Qed.
End FloydWarshallPaths.

(** ** The weight of a sequence of vertices *)

(** The weight of the lightest edge from [a] to [b]; [inf] without one. *)
Definition edge_weight (edges : list edge) (a b : string) : num :=
  foldr (fun e acc =>
           if decide (src e = a ∧ tgt e = b) then num_min acc (Int (wt e))
           else acc) inf edges.

Fixpoint path_weight (edges : list edge) (path : list string) : num :=
  match path with
  | a :: rest =>
      match rest with
      | b :: _ => num_plus (edge_weight edges a b) (path_weight edges rest)
      | [] => Int 0
      end
  | [] => Int 0
  end.

Lemma edge_weight_cases edges a b :
  (edge_weight edges a b = inf
   ∧ ∀ e, e ∈ edges → ¬ (src e = a ∧ tgt e = b))
  ∨ (∃ e, e ∈ edges ∧ src e = a ∧ tgt e = b
          ∧ edge_weight edges a b = Int (wt e)
          ∧ ∀ e', e' ∈ edges → src e' = a → tgt e' = b → wt e ≤ wt e').
Proof.
  induction edges as [|x l IH].
  - left. split; first done. intros e He. by apply elem_of_nil in He.
  - simpl. destruct (decide (src x = a ∧ tgt x = b)) as [[Hs Ht]|Hne].
    + right. destruct IH as [[-> Hno]|(e & He & Hse & Hte & -> & Hmin)].
      * exists x. unfold num_min. simpl. split_and!; try done.
        -- apply list_elem_of_here.
        -- intros e' [->|Hin]%elem_of_cons Hs' Ht'; first lia.
           by destruct (Hno e' Hin).
      * unfold num_min. simpl. destruct (wt x <? wt e) eqn:Hlt.
        -- apply Z.ltb_lt in Hlt. exists x. split_and!; try done.
           ++ apply list_elem_of_here.
           ++ intros e' [->|Hin]%elem_of_cons Hs' Ht'; first lia.
              specialize (Hmin e' Hin Hs' Ht'). lia.
        -- apply Z.ltb_ge in Hlt. exists e. split_and!; try done.
           ++ by apply list_elem_of_further.
           ++ intros e' [->|Hin]%elem_of_cons Hs' Ht'; first lia.
              by apply Hmin.
    + destruct IH as [[-> Hno]|(e & He & Hse & Hte & -> & Hmin)].
      * left. split; first done.
        intros e' [->|Hin]%elem_of_cons; [done | by apply Hno].
      * right. exists e. split_and!; try done.
        -- by apply list_elem_of_further.
        -- intros e' [->|Hin]%elem_of_cons Hs' Ht'.
           ++ destruct Hne. done.
           ++ by apply Hmin.
Qed.

Lemma edge_weight_min edges e :
  e ∈ edges →
  (∀ e', e' ∈ edges → src e' = src e → tgt e' = tgt e → wt e ≤ wt e') →
  edge_weight edges (src e) (tgt e) = Int (wt e).
Proof.
  intros He Hmin.
  destruct (edge_weight_cases edges (src e) (tgt e))
    as [[_ Hno]|(e0 & He0 & Hs0 & Ht0 & -> & Hmin0)].
  - by destruct (Hno e He).
  - f_equal. specialize (Hmin e0 He0 Hs0 Ht0).
    specialize (Hmin0 e He eq_refl eq_refl). lia.
Qed.

Lemma unit_weight edges a es b :
  Forall (fun e => wt e = 1) edges → walk edges a es b →
  weight es = Z.of_nat (length es).
Proof.
  rewrite Forall_forall. intros Hone. revert a.
  induction es as [|e es IH]; intros a Hw; first done.
  destruct Hw as (He & _ & Hw). simpl. rewrite (IH _ Hw).
  specialize (Hone e He). simpl in Hone. lia.
Qed.

Lemma min_walk_weight_unique edges a b d1 d2 :
  min_walk_weight edges a b d1 → min_walk_weight edges a b d2 → d1 = d2.
Proof.
  destruct d1 as [z1|], d2 as [z2|]; simpl; try done.
  - intros [(es1 & Hw1 & <-) Hle1] [(es2 & Hw2 & <-) Hle2].
    f_equal. specialize (Hle1 _ Hw2). specialize (Hle2 _ Hw1). lia.
  - intros [(es1 & Hw1 & _) _] Hnr. destruct Hnr. by exists es1.
  - intros Hnr [(es2 & Hw2 & _) _]. destruct Hnr. by exists es2.
Qed.

(** ** Floyd-Warshall without negative cycle: the tables at the end *)

Section FloydWarshallResult.
Context (vertices : list string) (edges : list edge).
Hypothesis Hnd : NoDup vertices.
Hypothesis Hclosed : closed_edges vertices edges.
Context (c : cellfn) (P : string → string → list edge).
Hypothesis Hg : good vertices edges vertices c P.

Lemma good_min_walk_weight u v :
  u ∈ vertices → v ∈ vertices → min_walk_weight edges u v (c u v).1.
Proof.
  intros Hu Hv.
  assert (∀ es, walk edges u es v → num_le (c u v).1 (Int (weight es)))
    as Hlow.
  { intros es Hw. apply (good_lower _ _ _ _ _ Hg); try done.
    intros x Hx. apply (walk_verts_closed edges vertices u es v Hclosed Hu Hw).
    by apply inter_verts. }
  destruct (c u v).1 as [d|] eqn:Hd; simpl.
  - destruct (good_path _ _ _ _ _ Hg u v d Hu Hv Hd) as (Hw & Hwt & _).
    split; first by exists (P u v).
    intros es Hes. specialize (Hlow es Hes). num_cases.
  - intros [es Hes]. specialize (Hlow es Hes). done.
Qed.

Lemma good_suffix v : ∀ k u d,
  (length (P u v) ≤ k)%nat → u ∈ vertices → v ∈ vertices →
  (c u v).1 = Int d →
  ∀ y, y ∈ verts u (P u v) →
       ∃ pre dy, P u v = pre ++ P y v ∧ (c y v).1 = Int dy ∧ y ∈ vertices.
Proof.
  induction k as [|k IH]; intros u d Hlen Hu Hv Hd y Hy.
  - destruct (P u v) eqn:HP; simpl in Hlen; last lia.
    apply list_elem_of_singleton in Hy as ->. exists [], d. by rewrite HP.
  - destruct (decide (y = u)) as [->|Hyu]; first by exists [], d.
    destruct (decide (u = v)) as [->|Hne].
    { rewrite (proj2 (good_diag _ _ _ _ _ Hg v Hv)) in Hy.
      by apply list_elem_of_singleton in Hy. }
    destruct (good_head _ _ Hclosed _ _ _ _ _ _ Hg Hu Hv Hne Hd)
      as (e & HP & _ & Hx & _ & _ & Hxv & _).
    rewrite HP in Hy, Hlen. unfold verts in Hy. simpl in Hy, Hlen.
    apply elem_of_cons in Hy as [?|Hy]; first done.
    destruct (IH (tgt e) _ ltac:(lia) Hxv Hv Hx y Hy)
      as (pre & dy & Hpre & Hdy & Hyv).
    exists (e :: pre), dy. split_and!; try done.
    rewrite HP. simpl. by rewrite <- Hpre.
Qed.

Lemma good_simple v : ∀ k u d,
  (length (P u v) ≤ k)%nat → u ∈ vertices → v ∈ vertices →
  (c u v).1 = Int d → NoDup (verts u (P u v)).
Proof.
  induction k as [|k IH]; intros u d Hlen Hu Hv Hd.
  - destruct (P u v) eqn:HP; simpl in Hlen; last lia.
    apply NoDup_singleton.
  - destruct (decide (u = v)) as [->|Hne].
    { rewrite (proj2 (good_diag _ _ _ _ _ Hg v Hv)). apply NoDup_singleton. }
    destruct (good_head _ _ Hclosed _ _ _ _ _ _ Hg Hu Hv Hne Hd)
      as (e & HP & _ & Hx & _ & _ & Hxv & _).
    rewrite HP. rewrite HP in Hlen. simpl in Hlen.
    unfold verts. simpl. apply NoDup_cons. split.
    + intros Hin.
      destruct (good_suffix v (length (P (tgt e) v)) (tgt e) _
                  (reflexivity _) Hxv Hv Hx u Hin)
        as (pre & du & Hpre & _ & _).
      rewrite HP in Hpre. apply (f_equal length) in Hpre.
      rewrite length_app in Hpre. simpl in Hpre. lia.
    + apply (IH (tgt e) (d - wt e)); try done. lia.
Qed.

Lemma good_length u v d :
  u ∈ vertices → v ∈ vertices → (c u v).1 = Int d →
  (length (P u v) ≤ length vertices - 1)%nat.
Proof.
  intros Hu Hv Hd.
  destruct (good_path _ _ _ _ _ Hg u v d Hu Hv Hd) as (Hw & _ & _).
  apply (simple_walk_length edges vertices u (P u v) v Hclosed Hu Hw).
  by apply (good_simple v (length (P u v)) u d).
Qed.

(** Every edge of the walk [P u v] is the lightest of its pair. *)
Lemma good_path_weight v : ∀ k u d,
  (length (P u v) ≤ k)%nat → u ∈ vertices → v ∈ vertices →
  (c u v).1 = Int d → path_weight edges (verts u (P u v)) = Int d.
Proof.
  induction k as [|k IH]; intros u d Hlen Hu Hv Hd.
  - destruct (P u v) eqn:HP; simpl in Hlen; last lia.
    destruct (good_path _ _ _ _ _ Hg u v d Hu Hv Hd) as (_ & Hwt & _).
    rewrite HP in Hwt. simpl in *. by rewrite Hwt.
  - destruct (decide (u = v)) as [->|Hne].
    { destruct (good_diag _ _ _ _ _ Hg v Hv) as [Hc HP].
      rewrite HP. rewrite Hc in Hd. simpl in *. done. }
    destruct (good_head _ _ Hclosed _ _ _ _ _ _ Hg Hu Hv Hne Hd)
      as (e & HP & _ & Hx & He & Hs & Hxv & Hwx).
    rewrite HP in Hlen. simpl in Hlen.
    specialize (IH (tgt e) (d - wt e) ltac:(lia) Hxv Hv Hx).
    rewrite HP. unfold verts in *. simpl. simpl in IH. rewrite IH.
    rewrite <- Hs. rewrite edge_weight_min; try done.
    + simpl. f_equal. lia.
    + intros e' He' Hs' Ht'.
      assert (num_le (c u v).1 (Int (weight (e' :: P (tgt e) v)))) as Hlow.
      { apply (good_lower _ _ _ _ _ Hg); try done.
        - simpl. rewrite Ht'. split_and!; try done. congruence.
        - intros y Hy. apply inter_verts with (a := u) in Hy.
          apply (walk_verts_closed edges vertices u (e' :: P (tgt e) v) v
                   Hclosed Hu); last done.
          simpl. rewrite Ht'. split_and!; try done. congruence. }
      rewrite Hd in Hlow. simpl in Hlow.
      destruct (good_path _ _ _ _ _ Hg _ _ _ Hxv Hv Hx) as (_ & Hwt & _).
      rewrite Hwt in Hlow. apply Z.ltb_ge in Hlow. lia.
Qed.

Context (dist : list (list num)) (next_node : list (list (option string))).
Hypothesis Hrepr : repr vertices (dist, next_node) c.

Lemma repr_cell u v :
  u ∈ vertices → v ∈ vertices →
  ∃ i j, FW.make_pos vertices !! u = Some i
         ∧ FW.make_pos vertices !! v = Some j
         ∧ mlookup dist i j = Some (c u v).1
         ∧ mlookup next_node i j = Some (c u v).2.
Proof.
  intros [i Hi]%list_elem_of_lookup [j Hj]%list_elem_of_lookup.
  destruct Hrepr as (_ & _ & Hc). destruct (Hc i j u v Hi Hj) as [Hd Hs].
  exists i, j. split_and!; try done; by apply make_pos_lookup.
Qed.

Lemma next_lookup u v :
  u ∈ vertices → v ∈ vertices →
  FW.successor (FW.make_pos vertices) next_node u v = Ok (c u v).2.
Proof.
  intros Hu Hv. destruct (repr_cell u v Hu Hv) as (i & j & Hi & Hj & _ & Hs).
  by apply (successor_lookup _ _ _ _ i j).
Qed.

Lemma walk_follows v : v ∈ vertices → ∀ k u d path fuel,
  (length (P u v) ≤ k)%nat → (k ≤ fuel)%nat → u ∈ vertices →
  (c u v).1 = Int d →
  FW.loop (FW.make_pos vertices) next_node v fuel u path
  = Some (Ok (path ++ map tgt (P u v))).
Proof.
  intros Hv. induction k as [|k IH]; intros u d path fuel Hlen Hfuel Hu Hd.
  - destruct (P u v) eqn:HP; simpl in Hlen; last lia.
    destruct (good_path _ _ _ _ _ Hg u v d Hu Hv Hd) as (Hw & _ & _).
    rewrite HP in Hw. simpl in Hw. subst. rewrite app_nil_r.
    destruct fuel; simpl; by rewrite decide_True.
  - destruct (decide (u = v)) as [->|Hne].
    { rewrite (proj2 (good_diag _ _ _ _ _ Hg v Hv)). rewrite app_nil_r.
      destruct fuel; simpl; by rewrite decide_True. }
    destruct (good_head _ _ Hclosed _ _ _ _ _ _ Hg Hu Hv Hne Hd)
      as (e & HP & Hn & Hx & _ & _ & Hxv & _).
    rewrite HP in Hlen. simpl in Hlen.
    destruct fuel as [|fuel]; first lia. simpl.
    rewrite decide_False by done.
    rewrite (next_lookup u v Hu Hv), Hn.
    rewrite (IH (tgt e) (d - wt e)); try done; try lia.
    rewrite HP. simpl. by rewrite <- app_assoc.
Qed.

Lemma reconstruct_path_good u v d fuel :
  u ∈ vertices → v ∈ vertices → (c u v).1 = Int d →
  (length vertices - 1 ≤ fuel)%nat →
  FW.reconstruct_path fuel u v vertices (FW.make_pos vertices) next_node
  = Some (Ok (verts u (P u v))).
Proof.
  intros Hu Hv Hd Hfuel. unfold FW.reconstruct_path.
  rewrite (next_lookup u v Hu Hv).
  assert (is_Some (c u v).2) as [x Hx].
  { destruct (decide (u = v)) as [->|Hne].
    - rewrite (proj1 (good_diag _ _ _ _ _ Hg v Hv)). eauto.
    - destruct (good_head _ _ Hclosed _ _ _ _ _ _ Hg Hu Hv Hne Hd)
        as (e & _ & Hn & _). eauto. }
  rewrite Hx.
  rewrite (walk_follows v Hv (length (P u v)) u d); try done.
  pose proof (good_length u v d Hu Hv Hd). lia.
Qed.

Lemma reconstruct_path_none u v fuel :
  u ∈ vertices → v ∈ vertices → (c u v).1 = inf →
  FW.reconstruct_path fuel u v vertices (FW.make_pos vertices) next_node
  = Some (Ok []).
Proof.
  intros Hu Hv Hd. unfold FW.reconstruct_path.
  rewrite (next_lookup u v Hu Hv).
  by rewrite (good_none _ _ _ _ _ Hg u v Hu Hv Hd).
Qed.
End FloydWarshallResult.

Lemma walk_last edges a es b :
  walk edges a es b → last (verts a es) = Some b.
Proof.
  revert a. induction es as [|e es IH]; intros a Hw.
  - simpl in Hw. by subst.
  - destruct Hw as (_ & _ & Hw). specialize (IH _ Hw).
    unfold verts in *. simpl in *. done.
Qed.

Lemma no_negative_cycle_weight edges :
  ¬ negative_cycle edges →
  ∀ a cyc, walk edges a cyc a → 0 ≤ weight cyc.
Proof.
  intros Hno a cyc Hc. destruct (Z_lt_le_dec (weight cyc) 0); last done.
  destruct Hno. by exists a, cyc.
Qed.

(** What [floyd_warshall] returns on a graph without negative cycle. *)
Lemma floyd_warshall_good vertices edges dist pos next_node :
  NoDup vertices → closed_edges vertices edges → ¬ negative_cycle edges →
  FW.floyd_warshall vertices edges = Ok (dist, pos, next_node) →
  ∃ c P,
    pos = FW.make_pos vertices
    ∧ repr vertices (dist, next_node) c
    ∧ good vertices edges vertices c P.
Proof.
  intros Hnd Hclosed Hno Hfw.
  destruct (floyd_warshall_returned vertices edges Hnd Hclosed _ _ _ Hfw)
    as [-> Hrepr].
  destruct (good_fw vertices edges Hnd Hclosed
              (no_negative_cycle_weight edges Hno)) as [P Hg].
  by exists (fw_fn vertices edges), P.
Qed.

Lemma floyd_warshall_small vertices edges :
  closed_edges vertices edges → float_small vertices edges →
  ∃ r, FW.floyd_warshall vertices edges = Ok r.
Proof.
  intros Hclosed Hsm.
  destruct (floyd_warshall_returns vertices edges Hclosed Hsm)
    as (? & ? & ? & _). eauto.
Qed.

(** The successors towards [v] keep the labels of [S], none of which is
    [v]: a walk that enters [S] goes round a cycle. *)
Definition cycles_within (pos : gmap string nat)
  (next_node : list (list (option string))) (v : string)
  (S : string → Prop) : Prop :=
  ∀ x, S x → x ≠ v ∧ ∃ y, FW.successor pos next_node x v = Ok (Some y) ∧ S y.

Lemma loop_cycles pos next_node v S :
  cycles_within pos next_node v S →
  ∀ fuel u path, S u → FW.loop pos next_node v fuel u path = None.
Proof.
  intros Hc. induction fuel as [|fuel IH]; intros u path Hu;
    destruct (Hc u Hu) as (Hne & y & Hy & HSy); simpl;
    rewrite decide_False by done; first done.
  rewrite Hy. by apply IH.
Qed.

Lemma reconstruct_path_cycles pos next_node vertices u v S fuel :
  cycles_within pos next_node v S → S u →
  FW.reconstruct_path fuel u v vertices pos next_node = None.
Proof.
  intros Hc Hu. unfold FW.reconstruct_path.
  destruct (Hc u Hu) as (_ & y & -> & _). by apply (loop_cycles _ _ _ S).
Qed.

(** C4 as the code has it: on a graph without negative cycle, whenever
    [floyd_warshall] and [bellman_ford] for the source [i] both return, the
    row of [i] in the distance matrix is the distance table of
    [bellman_ford]; and both return on every graph of small weights. *)
Theorem floyd_warshall_bellman_ford
    (vertices : list string) (edges : list edge) :
  NoDup vertices → closed_edges vertices edges → ¬ negative_cycle edges →
  (float_small vertices edges →
   (∃ r, FW.floyd_warshall vertices edges = Ok r)
   ∧ ∀ i, i ∈ vertices → ∃ r, BF.bellman_ford vertices edges i = Ok r)
  ∧ ∀ dist pos next_node i bf_dist bf_parent,
      FW.floyd_warshall vertices edges = Ok (dist, pos, next_node) →
      i ∈ vertices →
      BF.bellman_ford vertices edges i = Ok (bf_dist, bf_parent) →
      ∀ j, j ∈ vertices →
        ∃ pi pj d, pos !! i = Some pi ∧ pos !! j = Some pj
                   ∧ mlookup dist pi pj = Some d
                   ∧ bf_dist !! j = Some d.
Proof.
  intros Hnd Hclosed Hno.
  assert (∀ i, ¬ negative_cycle_from edges i) as Hnoi.
  { intros i Hn. by apply Hno, (negative_cycle_from_any edges i). }
  split.
  { intros Hsm. split; first by apply floyd_warshall_small.
    intros i Hi.
    destruct (bellman_ford_ok vertices edges i Hclosed
                (float_small_weights _ _ Hsm) Hi (Hnoi i)) as (st & ? & _).
    by exists st. }
  intros dist pos next_node i bf_dist bf_parent Hfw Hi Hbf.
  destruct (floyd_warshall_good vertices edges _ _ _ Hnd Hclosed Hno Hfw)
    as (c & P & -> & Hrepr & Hg).
  destruct (bellman_ford_returned vertices edges i _ Hclosed Hbf)
    as [Hinv Hst].
  intros j Hj.
  destruct (repr_cell vertices Hnd c dist next_node Hrepr i j Hi Hj)
    as (pi & pj & Hpi & Hpj & Hd & _).
  exists pi, pj, (c i j).1. split_and!; try done.
  destruct (inv_keys _ _ _ _ Hinv j Hj) as [d Hbd]. simpl in Hbd.
  rewrite Hbd. f_equal.
  apply (min_walk_weight_unique edges i j).
  - by apply (stable_min_walk_weight vertices edges i (bf_dist, bf_parent)).
  - by apply (good_min_walk_weight vertices edges Hclosed c P Hg).
Qed.

(** C5: on a graph without negative cycle, for a pair at a finite
    distance in the matrix that [floyd_warshall] returns,
    [reconstruct_path] returns a sequence of vertices from [u] to [v] whose
    edges weigh [dist[pos[u]][pos[v]]] together; with unit weights its
    number of edges is this distance.  [floyd_warshall] returns on every
    graph of small weights. *)
Theorem reconstruct_path_weight
    (vertices : list string) (edges : list edge) :
  NoDup vertices → closed_edges vertices edges → ¬ negative_cycle edges →
  (float_small vertices edges →
   ∃ r, FW.floyd_warshall vertices edges = Ok r)
  ∧ ∀ dist pos next_node,
      FW.floyd_warshall vertices edges = Ok (dist, pos, next_node) →
      ∀ u v i j d,
        pos !! u = Some i → pos !! v = Some j →
        mlookup dist i j = Some (Int d) →
        ∃ path,
          (∀ fuel, (length vertices - 1 ≤ fuel)%nat →
             FW.reconstruct_path fuel u v vertices pos next_node
             = Some (Ok path))
          ∧ head path = Some u ∧ last path = Some v
          ∧ path_weight edges path = Int d
          ∧ (Forall (fun e => wt e = 1) edges →
             Z.of_nat (length path - 1) = d).
Proof.
  intros Hnd Hclosed Hno.
  split; first by apply floyd_warshall_small.
  intros dist pos next_node Hfw.
  destruct (floyd_warshall_good vertices edges _ _ _ Hnd Hclosed Hno Hfw)
    as (c & P & -> & Hrepr & Hg).
  intros u v i j d Hi Hj Hd.
  apply make_pos_lookup in Hi; last done.
  apply make_pos_lookup in Hj; last done.
  assert (u ∈ vertices) as Hu by (by eapply list_elem_of_lookup_2).
  assert (v ∈ vertices) as Hv by (by eapply list_elem_of_lookup_2).
  destruct Hrepr as (Hs1 & Hs2 & Hc).
  destruct (Hc i j u v Hi Hj) as [Hd' _]. simpl in Hd'.
  rewrite Hd in Hd'. injection Hd' as Hcd. symmetry in Hcd.
  destruct (good_path _ _ _ _ _ Hg u v d Hu Hv Hcd) as (Hw & Hwt & _).
  exists (verts u (P u v)). split_and!.
  - intros fuel Hfuel.
    by apply (reconstruct_path_good vertices edges Hnd Hclosed c P Hg
                dist next_node (conj Hs1 (conj Hs2 Hc)) u v d).
  - done.
  - by eapply walk_last.
  - by apply (good_path_weight vertices edges Hclosed c P Hg v
                (length (P u v))).
  - intros Hone. rewrite <- Hwt, (unit_weight edges u _ v Hone Hw).
    unfold verts. simpl. rewrite length_map. f_equal. lia.
Qed.

(** C7 as the code has it: the walk of [reconstruct_path] has no guard
    against a cycle.  On the matrices that [floyd_warshall] returns for a
    graph without negative cycle, and it returns them on small weights, the
    walk ends within [n - 1] iterations, with at most [n] vertices.  On any
    matrices where the successors from [u] towards [v] stay within a set
    of labels other than [v], which is to go round a cycle, the walk does
    not end and raises nothing: no fuel is enough. *)
Theorem reconstruct_path_terminates
    (vertices : list string) (edges : list edge) :
  NoDup vertices → closed_edges vertices edges → ¬ negative_cycle edges →
  (float_small vertices edges →
   ∃ r, FW.floyd_warshall vertices edges = Ok r)
  ∧ (∀ dist pos next_node,
       FW.floyd_warshall vertices edges = Ok (dist, pos, next_node) →
       ∀ u v, u ∈ vertices → v ∈ vertices →
         ∃ path,
           (∀ fuel, (length vertices - 1 ≤ fuel)%nat →
              FW.reconstruct_path fuel u v vertices pos next_node
              = Some (Ok path))
           ∧ (length path ≤ length vertices)%nat)
  ∧ (∀ pos next_node u v (S : string → Prop),
       S u →
       (∀ x, S x →
          x ≠ v ∧ ∃ y, FW.successor pos next_node x v = Ok (Some y) ∧ S y) →
       ∀ fuel, FW.reconstruct_path fuel u v vertices pos next_node = None).
Proof.
  intros Hnd Hclosed Hno.
  split; first by apply floyd_warshall_small.
  split.
  2:{ intros pos next_node u v S Hu Hc fuel.
      by apply (reconstruct_path_cycles _ _ _ _ _ S). }
  intros dist pos next_node Hfw.
  destruct (floyd_warshall_good vertices edges _ _ _ Hnd Hclosed Hno Hfw)
    as (c & P & -> & Hrepr & Hg).
  intros u v Hu Hv. destruct (c u v).1 as [d|] eqn:Hd.
  - exists (verts u (P u v)). split.
    + intros fuel Hfuel.
      by apply (reconstruct_path_good vertices edges Hnd Hclosed c P Hg
                  dist next_node Hrepr u v d).
    + pose proof (good_length vertices edges Hclosed c P Hg u v d Hu Hv Hd).
      unfold verts. simpl. rewrite length_map.
      assert (0 < length vertices)%nat.
      { destruct vertices; simpl; [by apply elem_of_nil in Hu | lia]. }
      lia.
  - exists []. split; last (simpl; lia).
    intros fuel _.
    by apply (reconstruct_path_none vertices edges Hnd c P Hg
                dist next_node Hrepr u v).
Qed.

(** ** Undirected graphs and spanning trees *)

Definition rev_edge (e : edge) : edge := (tgt e, src e, wt e).

(** Every edge of [X], read in both directions. *)
Definition sym (X : list edge) : list edge := X ++ map rev_edge X.

(** The edge list holds every undirected edge in both directions. *)
Definition symmetric (edges : list edge) : Prop :=
  Forall (fun e => rev_edge e ∈ edges) edges.

Definition connects (vertices : list string) (X : list edge) : Prop :=
  ∀ u v, u ∈ vertices → v ∈ vertices → reachable (sym X) u v.

(** A spanning tree: [|V| - 1] edges of the graph that connect [V]. *)
Definition spanning_tree (vertices : list string) (edges T : list edge)
  : Prop :=
  T ⊆ edges ∧ length T = (length vertices - 1)%nat ∧ connects vertices T.

Lemma rev_edge_involutive e : rev_edge (rev_edge e) = e.
Proof. by destruct e as [[a b] w]. Qed.

Lemma elem_of_sym X d : d ∈ sym X ↔ d ∈ X ∨ rev_edge d ∈ X.
Proof.
  unfold sym. rewrite elem_of_app, list_elem_of_fmap. split.
  - intros [?|(x & -> & Hx)]; first by left.
    right. by rewrite rev_edge_involutive.
  - intros [?|Hr]; first by left.
    right. exists (rev_edge d). by rewrite rev_edge_involutive.
Qed.

Lemma sym_rev X d : d ∈ sym X → rev_edge d ∈ sym X.
Proof.
  rewrite !elem_of_sym, rev_edge_involutive. intros [?|?]; [by right|by left].
Qed.

Lemma walk_incl G G' a es b :
  walk G a es b → (∀ d, d ∈ es → d ∈ G') → walk G' a es b.
Proof.
  revert a. induction es as [|e es IH]; intros a Hw Hin; first done.
  destruct Hw as (He & Hs & Hw). split_and!; try done.
  - apply Hin, list_elem_of_here.
  - apply IH; first done. intros d Hd. by apply Hin, list_elem_of_further.
Qed.

Lemma walk_edges_in G a es b : walk G a es b → ∀ d, d ∈ es → d ∈ G.
Proof.
  revert a. induction es as [|e es IH]; intros a Hw d Hd.
  - by apply elem_of_nil in Hd.
  - destruct Hw as (He & Hs & Hw).
    apply elem_of_cons in Hd as [->|Hd]; first done. by eapply IH.
Qed.

Lemma walk_ends_in_verts G a es b :
  walk G a es b → ∀ d, d ∈ es → src d ∈ verts a es ∧ tgt d ∈ verts a es.
Proof.
  revert a. induction es as [|e es IH]; intros a Hw d Hd.
  - by apply elem_of_nil in Hd.
  - destruct Hw as (He & Hs & Hw). unfold verts in *. simpl.
    apply elem_of_cons in Hd as [->|Hd].
    + split; first (rewrite Hs; apply list_elem_of_here).
      apply list_elem_of_further, list_elem_of_here.
    + destruct (IH _ Hw d Hd). split; by apply list_elem_of_further.
Qed.

Lemma verts_app a es1 e es2 :
  verts a (es1 ++ e :: es2) = verts a es1 ++ verts (tgt e) es2.
Proof. unfold verts. by rewrite map_app. Qed.

Lemma reachable_sym X a b :
  reachable (sym X) a b → reachable (sym X) b a.
Proof.
  intros [es Hw]. revert a Hw.
  induction es as [|e es IH]; intros a Hw.
  - simpl in Hw. subst. apply reachable_refl.
  - destruct Hw as (He & Hs & Hw).
    eapply reachable_trans; first by apply IH.
    exists [rev_edge e]. simpl. split_and!; try done. by apply sym_rev.
Qed.

Lemma reachable_edge G e : e ∈ G → reachable G (src e) (tgt e).
Proof. intros He. exists [e]. by apply walk_edge. Qed.

(** Cutting the cycles of a walk leaves a walk that repeats no vertex. *)
Lemma walk_nodup G a es b :
  walk G a es b →
  ∃ es', walk G a es' b ∧ NoDup (verts a es') ∧ ∀ d, d ∈ es' → d ∈ es.
Proof.
  revert a. induction es as [|e es IH]; intros a Hw.
  - exists []. split_and!; try done. apply NoDup_singleton.
  - destruct Hw as (He & Hs & Hw).
    destruct (IH _ Hw) as (es' & Hw' & Hnd & Hsub).
    destruct (decide (a ∈ verts (tgt e) es')) as [Hin|Hin].
    + destruct (walk_split G _ _ _ _ Hw' Hin)
        as (p & q & pre & -> & Hp & Hq & Hv).
      exists q. split_and!; try done.
      * rewrite Hv in Hnd. by apply NoDup_app in Hnd as (_ & _ & ?).
      * intros d Hd. apply list_elem_of_further, Hsub, elem_of_app. by right.
    + exists (e :: es'). split_and!.
      * simpl. done.
      * unfold verts in *. simpl. by apply NoDup_cons.
      * intros d [->|Hd]%elem_of_cons; first apply list_elem_of_here.
        by apply list_elem_of_further, Hsub.
Qed.

(** The first edge of a walk that leaves the set [S]. *)
Lemma first_cross G (S : gset string) es : ∀ p u,
  walk G p es u → p ∈ S → u ∉ S →
  ∃ es1 e es2, es = es1 ++ e :: es2 ∧ src e ∈ S ∧ (tgt e ∉ S)
               ∧ walk G p es1 (src e) ∧ e ∈ G ∧ walk G (tgt e) es2 u.
Proof.
  induction es as [|e es IH]; intros p u Hw Hp Hu.
  - simpl in Hw. by subst.
  - destruct Hw as (He & Hs & Hw).
    destruct (decide (tgt e ∈ S)) as [Ht|Ht].
    + destruct (IH _ _ Hw Ht Hu)
        as (es1 & e0 & es2 & -> & Hs0 & Ht0 & Hw1 & He0 & Hw2).
      exists (e :: es1), e0, es2. split_and!; try done.
    + exists [], e, es. subst p. split_and!; try done.
Qed.

Lemma walk_end_in_verts G a es b : walk G a es b → b ∈ verts a es.
Proof.
  revert a. induction es as [|e es IH]; intros a Hw.
  - simpl in Hw. subst. apply list_elem_of_here.
  - destruct Hw as (_ & _ & Hw). unfold verts in *. simpl.
    apply list_elem_of_further. by apply IH.
Qed.

(** An edge [e'] of [X] that joins [a] and [b], taken out of [X]: the
    edges that miss [a] or [b] stay. *)
Lemma sym_without X1 e' X2 a b d :
  ((src e' = a ∧ tgt e' = b) ∨ (src e' = b ∧ tgt e' = a)) →
  d ∈ sym (X1 ++ e' :: X2) →
  (src d ≠ b ∧ tgt d ≠ b) ∨ (src d ≠ a ∧ tgt d ≠ a) →
  d ∈ sym (X1 ++ X2).
Proof.
  intros He' Hd Hmiss. rewrite elem_of_sym in *.
  assert (∀ y, y ∈ X1 ++ e' :: X2 → y ≠ e' → y ∈ X1 ++ X2) as Hkeep.
  { intros y Hy Hne. rewrite elem_of_app in *. rewrite elem_of_cons in Hy.
    destruct Hy as [?|[?|?]]; [by left | done | by right]. }
  destruct Hd as [Hd|Hd]; [left|right]; apply Hkeep; try done.
  - intros ->. destruct He' as [[? ?]|[? ?]], Hmiss as [[? ?]|[? ?]]; done.
  - intros Heq. rewrite <- Heq in He'. unfold rev_edge, src, tgt in He'.
    simpl in He'. unfold src, tgt in Hmiss.
    destruct He' as [[? ?]|[? ?]], Hmiss as [[? ?]|[? ?]]; done.
Qed.

(** The exchange step: [F ++ R] connects the vertices, [F] lies inside
    [S], and [(p, u, w)] leaves [S].  Some edge of [R] leaves [S] too, and
    with the new edge in its place the vertices stay connected. *)
Lemma exchange vertices (S : gset string) F R p u w :
  connects vertices (F ++ R) →
  (∀ e, e ∈ F → src e ∈ S ∧ tgt e ∈ S) →
  p ∈ vertices → u ∈ vertices → p ∈ S → u ∉ S →
  ∃ e' R1 R2,
    R = R1 ++ e' :: R2
    ∧ ((src e' ∈ S ∧ tgt e' ∉ S) ∨ (tgt e' ∈ S ∧ src e' ∉ S))
    ∧ connects vertices ((p, u, w) :: F ++ R1 ++ R2).
Proof.
  intros Hconn HF Hpv Huv Hp Hu.
  destruct (Hconn p u Hpv Huv) as [es0 Hw0].
  destruct (walk_nodup _ _ _ _ Hw0) as (es & Hw & Hnd & _).
  destruct (first_cross _ S es p u Hw Hp Hu)
    as (es1 & e & es2 & -> & Ha & Hb & Hw1 & He & Hw2).
  set (a := src e) in *. set (b := tgt e) in *.
  assert (a ≠ b) as Hab by (intros Heq; rewrite Heq in Ha; done).
  (* the edge of [X] behind the crossing edge *)
  assert (∃ e', e' ∈ F ++ R
                ∧ ((src e' = a ∧ tgt e' = b) ∨ (src e' = b ∧ tgt e' = a)))
    as (e' & He' & Hends).
  { apply elem_of_sym in He as [He|He].
    - exists e. split; first done. by left.
    - exists (rev_edge e). split; first done. right. done. }
  assert (e' ∈ R) as HeR.
  { apply elem_of_app in He' as [HeF|?]; last done.
    destruct (HF _ HeF) as [? ?].
    destruct Hends as [[Hs Ht]|[Hs Ht]]; rewrite ?Hs, ?Ht in *; done. }
  apply list_elem_of_split in HeR as (R1 & R2 & ->).
  exists e', R1, R2. split; first done. split.
  { destruct Hends as [[-> ->]|[-> ->]]; [by left | by right]. }
  set (X' := (p, u, w) :: F ++ R1 ++ R2).
  assert (∀ d, d ∈ sym (F ++ R1 ++ e' :: R2) →
            (src d ≠ b ∧ tgt d ≠ b) ∨ (src d ≠ a ∧ tgt d ≠ a) →
            d ∈ sym X') as Hkeep.
  { intros d Hd Hmiss.
    rewrite app_assoc in Hd.
    pose proof (sym_without _ _ _ a b d Hends Hd Hmiss) as Hd'.
    rewrite <- app_assoc in Hd'.
    apply elem_of_sym in Hd'. apply elem_of_sym. unfold X'.
    destruct Hd'; [left|right]; by apply list_elem_of_further. }
  rewrite verts_app in Hnd. apply NoDup_app in Hnd as (_ & Hdis & _).
  assert (walk (sym X') p es1 a) as Hw1'.
  { apply (walk_incl _ _ _ _ _ Hw1). intros d Hd. apply Hkeep.
    - apply (walk_edges_in _ _ _ _ Hw1 d Hd).
    - left. destruct (walk_ends_in_verts _ _ _ _ Hw1 d Hd) as [Hsd Htd].
      split; intros Heq; rewrite Heq in *.
      + apply (Hdis b Hsd). apply list_elem_of_here.
      + apply (Hdis b Htd). apply list_elem_of_here. }
  assert (walk (sym X') b es2 u) as Hw2'.
  { apply (walk_incl _ _ _ _ _ Hw2). intros d Hd. apply Hkeep.
    - apply (walk_edges_in _ _ _ _ Hw2 d Hd).
    - right. destruct (walk_ends_in_verts _ _ _ _ Hw2 d Hd) as [Hsd Htd].
      pose proof (walk_end_in_verts _ _ _ _ Hw1) as Hain.
      split; intros Heq; rewrite Heq in *; by apply (Hdis a Hain). }
  assert (reachable (sym X') a b) as Hrab.
  { eapply reachable_trans.
    { apply reachable_sym. by exists es1. }
    eapply reachable_trans.
    { apply (reachable_edge (sym X') (p, u, w)). apply elem_of_sym. left.
      apply list_elem_of_here. }
    apply reachable_sym. by exists es2. }
  assert (∀ d, d ∈ sym (F ++ R1 ++ e' :: R2) →
            reachable (sym X') (src d) (tgt d)) as Hedge.
  { intros d Hd.
    destruct (decide (src d = b)) as [Hsb|Hsb];
      destruct (decide (tgt d = b)) as [Htb|Htb];
      destruct (decide (src d = a)) as [Hsa|Hsa];
      destruct (decide (tgt d = a)) as [Hta|Hta];
      try congruence;
      try (apply reachable_edge, Hkeep; [done | tauto]).
    rewrite Hsb, Hta. by apply reachable_sym. }
  intros x y Hx Hy. destruct (Hconn x y Hx Hy) as [path Hpath].
  clear -Hpath Hedge. revert x Hpath.
  induction path as [|d path IH]; intros x Hpath.
  - simpl in Hpath. subst. apply reachable_refl.
  - destruct Hpath as (Hd & Hs & Hpath). subst x.
    eapply reachable_trans; first by apply Hedge. by apply IH.
Qed.

(** ** The tree that Prim grows *)

(** [a] and [b] are joined by an edge of weight [w], in either direction. *)
Definition nbr (edges : list edge) (a b : string) (w : Z) : Prop :=
  (a, b, w) ∈ edges ∨ (b, a, w) ∈ edges.

(** The trees grown from [root] by adding, each time, a lightest edge that
    leaves the set of the vertices reached so far. *)
Inductive prim_tree (vertices : list string) (edges : list edge)
    (root : string) : gset string → list edge → Prop :=
| prim_start : prim_tree vertices edges root {[root]} []
| prim_grow S F p u w :
    prim_tree vertices edges root S F →
    p ∈ S → u ∉ S → u ∈ vertices → nbr edges p u w →
    (∀ x y w', x ∈ S → y ∉ S → y ∈ vertices → nbr edges x y w' → w ≤ w') →
    prim_tree vertices edges root ({[u]} ∪ S) ((p, u, w) :: F).

Section PrimTree.
Context (vertices : list string) (edges : list edge) (root : string).
Hypothesis Hnd : NoDup vertices.
Hypothesis Hroot : root ∈ vertices.
Hypothesis Hclosed : closed_edges vertices edges.
Hypothesis Hsym : symmetric edges.

Lemma nbr_edge a b w : nbr edges a b w → (a, b, w) ∈ edges.
Proof.
  intros [?|Hr]; first done. unfold symmetric in Hsym.
  rewrite Forall_forall in Hsym. by apply (Hsym _ Hr).
Qed.

Lemma prim_tree_inside S F :
  prim_tree vertices edges root S F →
  root ∈ S ∧ (∀ x, x ∈ S → x ∈ vertices)
  ∧ (∀ e, e ∈ F → src e ∈ S ∧ tgt e ∈ S)
  ∧ size S = Datatypes.S (length F)
  ∧ (∀ x, x ∈ S → reachable (sym F) root x).
Proof.
  induction 1 as [|S F p u w Ht (Hr & Hin & HF & Hsize & Hreach)
                    Hp Hu Huv Hn Hmin].
  - split_and!.
    + by apply elem_of_singleton.
    + intros x ->%elem_of_singleton. done.
    + intros e He. by apply elem_of_nil in He.
    + by rewrite size_singleton.
    + intros x ->%elem_of_singleton. apply reachable_refl.
  - split_and!.
    + apply elem_of_union. by right.
    + intros x [->%elem_of_singleton|?]%elem_of_union; [done | by apply Hin].
    + intros e [->|He]%elem_of_cons.
      * unfold src, tgt. simpl. split_and!.
        -- apply elem_of_union. by right.
        -- apply elem_of_union. left. by apply elem_of_singleton.
      * destruct (HF e He) as (? & ?).
        split_and!; apply elem_of_union; by right.
    + rewrite size_union.
      * rewrite size_singleton, Hsize. simpl. lia.
      * intros x ->%elem_of_singleton. done.
    + assert (∀ x, x ∈ S → reachable (sym ((p, u, w) :: F)) root x) as Hold.
      { intros x Hx. destruct (Hreach x Hx) as [es Hes]. exists es.
        apply (walk_incl _ _ _ _ _ Hes). intros d Hd.
        apply (walk_edges_in _ _ _ _ Hes) in Hd.
        apply elem_of_sym in Hd. apply elem_of_sym.
        destruct Hd; [left|right]; by apply list_elem_of_further. }
      intros x [->%elem_of_singleton|Hx]%elem_of_union; last by apply Hold.
      eapply reachable_trans; first by apply (Hold p).
      apply (reachable_edge _ (p, u, w)). apply elem_of_sym. left.
      apply list_elem_of_here.
Qed.

Lemma prim_tree_edges S F :
  prim_tree vertices edges root S F → ∀ e, e ∈ F → e ∈ edges.
Proof.
  induction 1 as [|S F p u w Ht IH Hp Hu Huv Hn Hmin]; intros e He.
  - by apply elem_of_nil in He.
  - apply elem_of_cons in He as [->|He]; [by apply nbr_edge | by apply IH].
Qed.

(** Whatever spanning tree [T] is given, the tree grown so far extends to
    a set of edges that connects the graph, has the size of a spanning
    tree, and is not heavier than [T]. *)
Lemma prim_tree_extends T S F :
  spanning_tree vertices edges T → prim_tree vertices edges root S F →
  ∃ R, connects vertices (F ++ R)
       ∧ length (F ++ R) = (length vertices - 1)%nat
       ∧ (∀ e, e ∈ R → e ∈ edges)
       ∧ weight (F ++ R) ≤ weight T.
Proof.
  intros (HT & HlenT & HconnT).
  induction 1 as [|S F p u w Ht IH Hp Hu Huv Hn Hmin].
  - exists T. simpl. by split_and!.
  - destruct IH as (R & Hconn & Hlen & HR & Hwt).
    destruct (prim_tree_inside S F Ht) as (_ & Hin & HF & _ & _).
    destruct (exchange vertices S F R p u w Hconn) as
      (e' & R1 & R2 & -> & Hcross & Hconn'); try done.
    { by apply Hin. }
    exists (R1 ++ R2). split_and!.
    + done.
    + rewrite !length_app in Hlen. simpl in *. rewrite !length_app. lia.
    + intros e He. apply HR. rewrite elem_of_app in *. rewrite elem_of_cons.
      destruct He; [by left | by right; right].
    + assert (e' ∈ edges) as He'.
      { apply HR. apply elem_of_app. right. apply list_elem_of_here. }
      destruct (closed_edges_elem _ _ _ Hclosed He') as [Hs' Ht'].
      assert (w ≤ wt e') as Hle.
      { destruct e' as [[a b] w']. unfold src, tgt, wt in *. simpl in *.
        destruct Hcross as [[Ha Hb]|[Hb Ha]].
        - apply (Hmin a b w'); try done. by left.
        - apply (Hmin b a w'); try done. by right. }
      rewrite !weight_app in Hwt. simpl in Hwt. simpl.
      rewrite !weight_app. lia.
Qed.

(** When every vertex is reached, the tree is a spanning tree of least
    weight. *)
Lemma prim_tree_minimum S F :
  prim_tree vertices edges root S F → (∀ v, v ∈ vertices → v ∈ S) →
  spanning_tree vertices edges F
  ∧ ∀ T, spanning_tree vertices edges T → weight F ≤ weight T.
Proof.
  intros Ht Hall.
  destruct (prim_tree_inside S F Ht) as (_ & Hin & HF & Hsize & Hreach).
  assert (S = list_to_set vertices) as HS.
  { apply set_eq. intros x. rewrite elem_of_list_to_set. split; auto. }
  assert (length F = (length vertices - 1)%nat) as Hlen.
  { rewrite HS, size_list_to_set in Hsize by done. lia. }
  split.
  - split_and!; try done.
    + intros e He. by apply (prim_tree_edges S F Ht).
    + intros a b Ha Hb. eapply reachable_trans.
      * apply reachable_sym. by apply Hreach, Hall.
      * by apply Hreach, Hall.
  - intros T HT.
    destruct (prim_tree_extends T S F HT Ht) as (R & _ & HlenR & _ & Hwt).
    rewrite length_app in HlenR. destruct R; simpl in HlenR; last lia.
    by rewrite app_nil_r in Hwt.
Qed.
End PrimTree.

(** ** Prim: the adjacency table and the heap *)

Lemma adj_get_append adj x y u :
  Prim.adj_get (Prim.adj_append adj x y) u
  = if decide (u = x) then Prim.adj_get adj u ++ [y] else Prim.adj_get adj u.
Proof.
  unfold Prim.adj_append, Prim.adj_get at 1.
  destruct (decide (u = x)) as [->|Hne].
  - by rewrite lookup_insert_eq.
  - by rewrite lookup_insert_ne.
Qed.

Lemma adj_step adj a b w0 u v w :
  (v, w) ∈ Prim.adj_get
             (Prim.adj_append (Prim.adj_append adj a (b, w0)) b (a, w0)) u
  ↔ (v, w) ∈ Prim.adj_get adj u
    ∨ (u = a ∧ v = b ∧ w = w0) ∨ (u = b ∧ v = a ∧ w = w0).
Proof.
  rewrite !adj_get_append.
  destruct (decide (u = b)) as [->|Hub]; destruct (decide (b = a)) as [->|Hba];
    try destruct (decide (u = a)) as [->|Hua];
    rewrite ?elem_of_app, ?list_elem_of_singleton; naive_solver.
Qed.

Lemma adj_foldl_spec (l : list edge) : ∀ adj u v w,
  (v, w) ∈ Prim.adj_get
             (foldl (fun adj '(a, b, w0) =>
                       Prim.adj_append (Prim.adj_append adj a (b, w0))
                                       b (a, w0)) adj l) u
  ↔ (v, w) ∈ Prim.adj_get adj u ∨ nbr l u v w.
Proof.
  induction l as [|[[a b] w0] l IH]; intros adj u v w.
  - simpl. unfold nbr. split; first by left.
    intros [?|[Hn|Hn]]; [done | by apply elem_of_nil in Hn
                              | by apply elem_of_nil in Hn].
  - simpl. rewrite IH, adj_step. unfold nbr. rewrite !elem_of_cons.
    naive_solver.
Qed.

Lemma adj_spec edges u v w :
  (v, w) ∈ Prim.adj_get (Prim.build_adj edges) u ↔ nbr edges u v w.
Proof.
  unfold Prim.build_adj. rewrite adj_foldl_spec. unfold Prim.adj_get.
  rewrite lookup_empty. simpl. split; last by right.
  intros [Hn|?]; [by apply elem_of_nil in Hn | done].
Qed.

Lemma pop_min_spec pq : ∀ x m r,
  Prim.pop_min x pq = (m, r) →
  x :: pq ≡ₚ m :: r ∧ ∀ y, y ∈ x :: pq → m.1 ≤ y.1.
Proof.
  induction pq as [|y pq IH]; intros x m r Hpop; simpl in Hpop.
  - injection Hpop as <- <-. split; first done.
    intros y ->%list_elem_of_singleton. lia.
  - destruct (Prim.entry_ltb y x) eqn:Hlt.
    + destruct (Prim.pop_min y pq) as [m' r'] eqn:Hrec.
      injection Hpop as <- <-. destruct (IH _ _ _ Hrec) as [Hperm Hmin].
      split.
      * rewrite Hperm. apply Permutation_swap.
      * assert (m'.1 ≤ y.1) as Hy by (apply Hmin, list_elem_of_here).
        intros z [->|Hz]%elem_of_cons; last by apply Hmin.
        unfold Prim.entry_ltb in Hlt.
        apply orb_true_iff in Hlt as [Hlt|Hlt].
        -- apply Z.ltb_lt in Hlt. lia.
        -- apply andb_true_iff in Hlt as [Heq _]. apply Z.eqb_eq in Heq. lia.
    + destruct (Prim.pop_min x pq) as [m' r'] eqn:Hrec.
      injection Hpop as <- <-. destruct (IH _ _ _ Hrec) as [Hperm Hmin].
      split.
      * rewrite (Permutation_swap y x pq), Hperm. apply Permutation_swap.
      * assert (m'.1 ≤ x.1) as Hx by (apply Hmin, list_elem_of_here).
        intros z [->|[->|Hz]%elem_of_cons]%elem_of_cons.
        -- done.
        -- unfold Prim.entry_ltb in Hlt.
           apply orb_false_iff in Hlt as [Hlt _]. apply Z.ltb_ge in Hlt. lia.
        -- apply Hmin. by apply list_elem_of_further.
Qed.

Lemma heappop_spec pq m r :
  Prim.heappop pq = Some (m, r) →
  pq ≡ₚ m :: r ∧ ∀ y, y ∈ pq → m.1 ≤ y.1.
Proof.
  destruct pq as [|x pq]; simpl; first done.
  intros [= Hpop]. by apply pop_min_spec.
Qed.

(** ** Prim: the invariant of the loop *)

Section PrimRun.
Context (vertices : list string) (edges : list edge) (root : string).
Hypothesis Hnd : NoDup vertices.
Hypothesis Hroot : root ∈ vertices.
Hypothesis Hclosed : closed_edges vertices edges.

Lemma nbr_vertex u v w : nbr edges u v w → u ∈ vertices ∧ v ∈ vertices.
Proof.
  intros [He|He]; destruct (closed_edges_elem _ _ _ Hclosed He); done.
Qed.

(** [F] is the tree grown so far, on the vertices of [in_tree]; the heap
    holds, for every vertex outside the tree with a finite [min_weight],
    the entry of this weight; [cov] are the edges relaxed so far. *)
Record pinv (cov : string → string → Z → Prop) (F : list edge)
    (st : Prim.state) : Prop := PInv {
  pi_tree : prim_tree vertices edges root (Prim.in_tree st) F;
  pi_keys : ∀ v, v ∈ vertices →
              is_Some (Prim.min_weight st !! v)
              ∧ is_Some (Prim.parent st !! v);
  pi_root : Prim.parent st !! root = Some None;
  pi_in : ∀ v, v ∈ Prim.in_tree st → v ≠ root →
            ∃ p w, Prim.parent st !! v = Some (Some p)
                   ∧ Prim.min_weight st !! v = Some (Int w)
                   ∧ (p, v, w) ∈ F;
  pi_F : ∀ e, e ∈ F →
           Prim.parent st !! tgt e = Some (Some (src e))
           ∧ Prim.min_weight st !! tgt e = Some (Int (wt e));
  pi_out : ∀ v w, v ∈ vertices → v ∉ Prim.in_tree st →
             Prim.min_weight st !! v = Some (Int w) →
             ∃ p, Prim.parent st !! v = Some (Some p)
                  ∧ p ∈ Prim.in_tree st ∧ nbr edges p v w
                  ∧ (w, v) ∈ Prim.pq st;
  pi_pq : ∀ k v, (k, v) ∈ Prim.pq st →
            v ∈ vertices
            ∧ (v ∉ Prim.in_tree st →
               ∃ w, Prim.min_weight st !! v = Some (Int w) ∧ w ≤ k);
  pi_cov : ∀ x v w, cov x v w →
             v ∈ Prim.in_tree st
             ∨ ∃ w', Prim.min_weight st !! v = Some (Int w') ∧ w' ≤ w;
  pi_par : ∀ v p, Prim.parent st !! v = Some (Some p) →
             ∃ w, Prim.min_weight st !! v = Some (Int w)
}.

Lemma pinv_cov_mono (cov cov' : string → string → Z → Prop) F st :
  (∀ x v w, cov' x v w → cov x v w) → pinv cov F st → pinv cov' F st.
Proof.
  intros Hsub [H1 H2 H3 H4 H5 H6 H7 H8 H9]. split; try done.
  intros x v w Hc. by apply (H8 x), Hsub.
Qed.

Lemma prim_relax_spec cov F st u v w :
  pinv cov F st → u ∈ Prim.in_tree st → nbr edges u v w →
  ∃ st', Prim.relax u st (v, w) = Ok st'
    ∧ pinv (fun x y z => cov x y z ∨ (x = u ∧ y = v ∧ z = w)) F st'
    ∧ Prim.in_tree st' = Prim.in_tree st
    ∧ (length (Prim.pq st') ≤ Datatypes.S (length (Prim.pq st)))%nat.
Proof.
  intros Hinv Hu Hn. destruct (nbr_vertex _ _ _ Hn) as [Huv Hvv].
  destruct (prim_tree_inside vertices edges root Hroot _ _
              (pi_tree _ _ _ Hinv))
    as (HrS & HSv & HFS & _ & _).
  unfold Prim.relax.
  destruct (decide (v ∈ Prim.in_tree st)) as [Hv|Hv].
  { exists st. split_and!; try done; last lia.
    destruct Hinv as [H1 H2 H3 H4 H5 H6 H7 H8 H9]. split; try done.
    intros x y z [Hc|(-> & -> & ->)]; [by apply (H8 x) | by left]. }
  destruct (pi_keys _ _ _ Hinv v Hvv) as [[mv Hmv] _].
  rewrite (getitem_Some _ _ _ Hmv). cbv [mbind result_bind].
  destruct (num_ltb (Int w) mv) eqn:Hlt.
  - eexists. split; first done. simpl. split; last (split; [done | lia]).
    assert (v ≠ root) as Hvr by (intros ->; done).
    destruct Hinv as [H1 H2 H3 H4 H5 H6 H7 H8 H9]. split; simpl.
    + done.
    + intros y Hy. destruct (H2 y Hy) as [? ?].
      destruct (decide (v = y)) as [->|Hne].
      * rewrite !lookup_insert_eq. eauto.
      * by rewrite !lookup_insert_ne.
    + by rewrite lookup_insert_ne.
    + intros y Hy Hyr. rewrite !lookup_insert_ne by (intros ->; done).
      by apply H4.
    + intros e He. destruct (HFS e He) as (_ & Ht).
      rewrite !lookup_insert_ne by (intros ->; done). by apply H5.
    + intros y z Hy HyS. destruct (decide (v = y)) as [->|Hne].
      * rewrite !lookup_insert_eq. intros [= <-]. exists u.
        split_and!; try done. apply list_elem_of_here.
      * rewrite !lookup_insert_ne by done. intros Hz.
        destruct (H6 y z Hy HyS Hz) as (p & ? & ? & ? & ?).
        exists p. split_and!; try done. by apply list_elem_of_further.
    + intros k y [[= -> ->]|Hin]%elem_of_cons.
      * split; first done. intros _. exists w.
        rewrite lookup_insert_eq. split; [done | lia].
      * destruct (H7 k y Hin) as [Hyv Hk]. split; first done. intros HyS.
        destruct (Hk HyS) as (w0 & Hw0 & Hle).
        destruct (decide (v = y)) as [->|Hne].
        -- exists w. rewrite lookup_insert_eq. split; first done.
           rewrite Hmv in Hw0. injection Hw0 as ->.
           simpl in Hlt. apply Z.ltb_lt in Hlt. lia.
        -- exists w0. by rewrite lookup_insert_ne.
    + intros x y z Hc. destruct (decide (v = y)) as [->|Hne].
      * right. exists w. rewrite lookup_insert_eq. split; first done.
        destruct Hc as [Hc|(_ & _ & ->)]; last lia.
        destruct (H8 x y z Hc) as [?|(w0 & Hw0 & Hle)]; first done.
        rewrite Hmv in Hw0. injection Hw0 as ->.
        simpl in Hlt. apply Z.ltb_lt in Hlt. lia.
      * rewrite lookup_insert_ne by done.
        destruct Hc as [Hc|(_ & -> & _)]; [by apply (H8 x) | done].
    + intros y p. destruct (decide (v = y)) as [->|Hne].
      * rewrite !lookup_insert_eq. eauto.
      * rewrite !lookup_insert_ne by done. apply H9.
  - exists st. split_and!; try done; last lia.
    destruct Hinv as [H1 H2 H3 H4 H5 H6 H7 H8 H9]. split; try done.
    intros x y z [Hc|(-> & -> & ->)]; first by apply (H8 x).
    right. destruct mv as [w0|]; last done.
    exists w0. split; first done. simpl in Hlt. apply Z.ltb_ge in Hlt. lia.
Qed.

Lemma prim_relax_fold F u : ∀ l st (cov : string → string → Z → Prop),
  pinv cov F st → u ∈ Prim.in_tree st →
  (∀ v w, (v, w) ∈ l → nbr edges u v w) →
  ∃ st', foldM (Prim.relax u) st l = Ok st'
    ∧ pinv (fun x y z => cov x y z ∨ (x = u ∧ (y, z) ∈ l)) F st'
    ∧ Prim.in_tree st' = Prim.in_tree st
    ∧ (length (Prim.pq st') ≤ length (Prim.pq st) + length l)%nat.
Proof.
  induction l as [|[v w] l IH]; intros st cov Hinv Hu Hl.
  - exists st. simpl. split_and!; try done; last lia.
    eapply pinv_cov_mono; last done.
    intros x y z [?|[_ Hn]]; [done | by apply elem_of_nil in Hn].
  - destruct (prim_relax_spec cov F st u v w Hinv Hu)
      as (st1 & Hr & Hinv1 & HS1 & Hlen1).
    { apply Hl, list_elem_of_here. }
    destruct (IH st1 _ Hinv1) as (st2 & Hf & Hinv2 & HS2 & Hlen2).
    { by rewrite HS1. }
    { intros y z Hyz. by apply Hl, list_elem_of_further. }
    exists st2. rewrite foldM_cons, Hr. split_and!; try done.
    + eapply pinv_cov_mono; last done. simpl.
      intros x y z [?|[-> [[= -> ->]|?]%elem_of_cons]].
      * by left; left.
      * left. by right.
      * right. done.
    + by rewrite HS2.
    + simpl. lia.
Qed.

Definition deg (u : string) : nat :=
  length (Prim.adj_get (Prim.build_adj edges) u).

(** The adjacency entries of the vertices outside [S]. *)
Definition rem_deg (S : gset string) (l : list string) : nat :=
  sum_list (map (fun x => if decide (x ∈ S) then 0%nat else deg x) l).

Lemma rem_deg_mono S u l : (rem_deg ({[u]} ∪ S) l ≤ rem_deg S l)%nat.
Proof.
  unfold rem_deg. induction l as [|x l IH]; simpl; first done.
  destruct (decide (x ∈ S)) as [Hx|Hx].
  - rewrite decide_True; first lia. apply elem_of_union. by right.
  - destruct (decide (x ∈ {[u]} ∪ S)); lia.
Qed.

Lemma rem_deg_add S u l :
  u ∈ l → u ∉ S → (rem_deg ({[u]} ∪ S) l + deg u ≤ rem_deg S l)%nat.
Proof.
  intros Hu HuS. induction l as [|x l IH]; first by apply elem_of_nil in Hu.
  unfold rem_deg in *. simpl.
  destruct (decide (x = u)) as [->|Hne].
  - rewrite decide_True by (apply elem_of_union; left;
                            by apply elem_of_singleton).
    rewrite decide_False by done.
    pose proof (rem_deg_mono S u l) as Hm. unfold rem_deg in Hm. lia.
  - apply elem_of_cons in Hu as [?|Hu]; first done.
    specialize (IH Hu).
    destruct (decide (x ∈ S)) as [Hx|Hx].
    + rewrite decide_True; first lia. apply elem_of_union. by right.
    + rewrite decide_False; first lia.
      intros [?%elem_of_singleton|?]%elem_of_union; done.
Qed.

Definition mu (st : Prim.state) : nat :=
  (length (Prim.pq st) + rem_deg (Prim.in_tree st) vertices)%nat.

(** The invariant at the head of the loop: every edge at a vertex of the
    tree has been relaxed. *)
Definition outer (F : list edge) (st : Prim.state) : Prop :=
  pinv (fun x v w => x ∈ Prim.in_tree st ∧ nbr edges x v w) F st.

Lemma prim_add_vertex F st0 S0 u :
  pinv (fun x v w => x ∈ S0 ∧ nbr edges x v w) F st0 →
  Prim.in_tree st0 = {[u]} ∪ S0 →
  ∃ st', foldM (Prim.relax u) st0
               (Prim.adj_get (Prim.build_adj edges) u) = Ok st'
    ∧ outer F st' ∧ Prim.in_tree st' = {[u]} ∪ S0
    ∧ (length (Prim.pq st') ≤ length (Prim.pq st0) + deg u)%nat.
Proof.
  intros Hinv HS.
  destruct (prim_relax_fold F u (Prim.adj_get (Prim.build_adj edges) u)
              st0 _ Hinv) as (st' & Hf & Hinv' & HS' & Hlen).
  { rewrite HS. apply elem_of_union. left. by apply elem_of_singleton. }
  { intros v w Hvw. by apply adj_spec. }
  exists st'. split_and!; try done; last by rewrite HS', HS.
  unfold outer. eapply pinv_cov_mono; last done. simpl.
  intros x v w [Hx Hn]. rewrite HS', HS in Hx.
  apply elem_of_union in Hx as [->%elem_of_singleton|Hx].
  - right. split; first done. by apply adj_spec.
  - by left.
Qed.

Lemma pinv_pop_stale cov F st k u pq' :
  pinv cov F st → Prim.pq st ≡ₚ (k, u) :: pq' → u ∈ Prim.in_tree st →
  pinv cov F (Prim.State (Prim.min_weight st) (Prim.parent st) pq'
                         (Prim.in_tree st)).
Proof.
  intros [H1 H2 H3 H4 H5 H6 H7 H8 H9] Hperm Hu. split; simpl; try done.
  - intros v w Hv HvS Hw. destruct (H6 v w Hv HvS Hw) as (p & ? & ? & ? & Hin).
    exists p. split_and!; try done. rewrite Hperm in Hin.
    apply elem_of_cons in Hin as [[= -> ->]|?]; done.
  - intros k' v Hin. apply H7. rewrite Hperm. by apply list_elem_of_further.
Qed.

Lemma pinv_pop_fresh F st k u pq' :
  outer F st → Prim.pq st ≡ₚ (k, u) :: pq' →
  (∀ y, y ∈ Prim.pq st → k ≤ y.1) → u ∉ Prim.in_tree st →
  u ∈ vertices
  ∧ ∃ p, pinv (fun x v w => x ∈ Prim.in_tree st ∧ nbr edges x v w)
              ((p, u, k) :: F)
              (Prim.State (Prim.min_weight st) (Prim.parent st) pq'
                          ({[u]} ∪ Prim.in_tree st)).
Proof.
  intros [H1 H2 H3 H4 H5 H6 H7 H8 H9] Hperm Hmin Hu.
  destruct (prim_tree_inside vertices edges root Hroot _ _ H1)
    as (HrS & HSv & HFS & _ & _).
  assert ((k, u) ∈ Prim.pq st) as Hku.
  { rewrite Hperm. apply list_elem_of_here. }
  destruct (H7 k u Hku) as [Huv Hk]. destruct (Hk Hu) as (w0 & Hw0 & Hle).
  destruct (H6 u w0 Huv Hu Hw0) as (p & Hp & HpS & Hn & Hin).
  assert (w0 = k) as ->.
  { specialize (Hmin _ Hin). simpl in Hmin. lia. }
  split; first done. exists p. split; simpl.
  - apply prim_grow; try done.
    intros x y w' Hx Hy Hyv Hxy.
    destruct (H8 x y w' (conj Hx Hxy)) as [?|(w'' & Hw'' & Hle'')];
      first done.
    destruct (H6 y w'' Hyv Hy Hw'') as (_ & _ & _ & _ & Hyin).
    specialize (Hmin _ Hyin). simpl in Hmin. lia.
  - done.
  - done.
  - intros v [->%elem_of_singleton|Hv]%elem_of_union Hvr.
    + exists p, k. split_and!; try done. apply list_elem_of_here.
    + destruct (H4 v Hv Hvr) as (p' & w' & ? & ? & ?).
      exists p', w'. split_and!; try done. by apply list_elem_of_further.
  - intros e [->|He]%elem_of_cons; last by apply H5. done.
  - intros v w Hv HvS Hw.
    assert (v ≠ u) as Hne.
    { intros ->. apply HvS, elem_of_union. left. by apply elem_of_singleton. }
    assert (v ∉ Prim.in_tree st) as HvS'.
    { intros ?. apply HvS, elem_of_union. by right. }
    destruct (H6 v w Hv HvS' Hw) as (p' & ? & ? & ? & Hin').
    exists p'. split_and!; try done.
    + apply elem_of_union. by right.
    + rewrite Hperm in Hin'.
      apply elem_of_cons in Hin' as [[= -> ->]|?]; done.
  - intros k' v Hin'.
    assert ((k', v) ∈ Prim.pq st) as Hin''.
    { rewrite Hperm. by apply list_elem_of_further. }
    destruct (H7 k' v Hin'') as [? Hk']. split; first done.
    intros HvS. apply Hk'. intros ?. apply HvS, elem_of_union. by right.
  - intros x v w Hc. destruct (H8 x v w Hc) as [?|?]; last by right.
    left. apply elem_of_union. by right.
  - done.
Qed.

Lemma prim_loop_spec : ∀ fuel st F,
  outer F st → (mu st ≤ fuel)%nat →
  ∃ st' F', Prim.loop (Prim.build_adj edges) fuel st = Some (Ok st')
            ∧ outer F' st' ∧ Prim.pq st' = [].
Proof.
  induction fuel as [|fuel IH]; intros st F Hinv Hmu.
  - exists st, F. unfold mu in Hmu.
    destruct (Prim.pq st) as [|x pq0] eqn:Hpq; simpl in Hmu; last lia.
    simpl. by rewrite Hpq.
  - destruct (Prim.heappop (Prim.pq st)) as [[[k u] pq']|] eqn:Hpop.
    2:{ exists st, F. simpl. rewrite Hpop. split_and!; try done.
        by destruct (Prim.pq st). }
    destruct (heappop_spec _ _ _ Hpop) as [Hperm Hmin].
    pose proof (Permutation_length Hperm) as Hlen. simpl in Hlen.
    simpl. rewrite Hpop.
    destruct (decide (u ∈ Prim.in_tree st)) as [Hu|Hu].
    + apply (IH _ F).
      * unfold outer in *. simpl.
        by apply (pinv_pop_stale _ _ _ k u).
      * unfold mu in *. simpl. lia.
    + destruct (pinv_pop_fresh F st k u pq' Hinv Hperm Hmin Hu)
        as (Huv & p & Hinv0).
      destruct (prim_add_vertex _ _ (Prim.in_tree st) u Hinv0 eq_refl)
        as (st1 & Hf & Hinv1 & HS1 & Hlen1).
      rewrite Hf. apply (IH _ ((p, u, k) :: F)); first done.
      unfold mu in *. rewrite HS1. simpl in Hlen1.
      pose proof (rem_deg_add (Prim.in_tree st) u vertices Huv Hu). lia.
Qed.

(** The number of iterations that make the loop of [prim] stop. *)
Definition prim_fuel : nat :=
  Datatypes.S (rem_deg ∅ vertices).

Lemma prim_loop_init fuel :
  (prim_fuel ≤ fuel)%nat →
  ∃ st' F', Prim.loop (Prim.build_adj edges) fuel (Prim.init vertices root)
            = Some (Ok st')
            ∧ outer F' st' ∧ Prim.pq st' = [].
Proof.
  intros Hfuel. unfold prim_fuel in Hfuel.
  destruct fuel as [|fuel]; first lia. simpl.
  set (st0 := Prim.State (<[root := Int 0]> (dict_const vertices inf))
                         (dict_const vertices None) [] ({[root]} ∪ ∅)).
  assert (pinv (fun x v w => x ∈ (∅ : gset string) ∧ nbr edges x v w) [] st0)
    as Hinv0.
  { split; simpl.
    - rewrite (right_id_L ∅ (∪)). apply prim_start.
    - intros v Hv. rewrite lookup_dict_const, decide_True by done.
      split; last eauto. destruct (decide (root = v)) as [->|Hne].
      + rewrite lookup_insert_eq. eauto.
      + rewrite lookup_insert_ne, lookup_dict_const, decide_True by done.
        eauto.
    - by rewrite lookup_dict_const, decide_True.
    - intros v Hv Hvr. rewrite (right_id_L ∅ (∪)) in Hv.
      by apply elem_of_singleton in Hv.
    - intros e He. by apply elem_of_nil in He.
    - intros v w Hv HvS.
      rewrite lookup_insert_ne.
      + rewrite lookup_dict_const. by case_decide.
      + intros ->. apply HvS, elem_of_union. left.
        by apply elem_of_singleton.
    - intros k v Hin. by apply elem_of_nil in Hin.
    - intros x v w [Hx _]. by apply not_elem_of_empty in Hx.
    - intros v p. rewrite lookup_dict_const. by case_decide. }
  destruct (prim_add_vertex [] st0 ∅ root Hinv0 eq_refl)
    as (st1 & Hf & Hinv1 & HS1 & Hlen1).
  fold st0. rewrite Hf.
  apply (prim_loop_spec fuel st1 []); first done.
  unfold mu. rewrite HS1. simpl in Hlen1.
  pose proof (rem_deg_add ∅ root vertices Hroot (not_elem_of_empty root)).
  lia.
Qed.

Lemma prim_all_reached F st :
  outer F st → Prim.pq st = [] → connects vertices edges →
  ∀ v, v ∈ vertices → v ∈ Prim.in_tree st.
Proof.
  intros Hinv Hpq Hconn.
  destruct (prim_tree_inside vertices edges root Hroot _ _
              (pi_tree _ _ _ Hinv)) as (HrS & _).
  assert (∀ es a b, walk (sym edges) a es b → a ∈ Prim.in_tree st →
                    b ∈ Prim.in_tree st) as Hwalk.
  { induction es as [|d es IH]; intros a b Hw Ha.
    - simpl in Hw. by subst.
    - destruct Hw as (Hd & Hs & Hw). apply (IH _ _ Hw).
      assert (nbr edges a (tgt d) (wt d)) as Hn.
      { subst a. destruct d as [[x y] z]. unfold src, tgt, wt. simpl.
        apply elem_of_sym in Hd as [?|?]; [by left | by right]. }
      destruct (pi_cov _ _ _ Hinv a (tgt d) (wt d) (conj Ha Hn))
        as [?|(w' & Hw' & _)]; first done.
      destruct (decide (tgt d ∈ Prim.in_tree st)) as [?|Hout]; first done.
      destruct (pi_out _ _ _ Hinv (tgt d) w' (proj2 (nbr_vertex _ _ _ Hn))
                  Hout Hw') as (_ & _ & _ & _ & Hin).
      rewrite Hpq in Hin. by apply elem_of_nil in Hin. }
  intros v Hv. destruct (Hconn root v Hroot Hv) as [es Hes].
  by apply (Hwalk es root v).
Qed.
End PrimRun.

Lemma prim_loop_mono adj : ∀ fuel st r,
  Prim.loop adj fuel st = Some r →
  ∀ fuel', (fuel ≤ fuel')%nat → Prim.loop adj fuel' st = Some r.
Proof.
  induction fuel as [|fuel IH]; intros st r Hl fuel' Hle.
  - simpl in Hl. destruct (Prim.heappop (Prim.pq st)) as [[[k u] pq']|] eqn:Hp;
      first done.
    destruct fuel'; simpl; by rewrite Hp.
  - destruct fuel' as [|fuel']; first lia. simpl in *.
    destruct (Prim.heappop (Prim.pq st)) as [[[k u] pq']|]; last done.
    destruct (decide (u ∈ Prim.in_tree st)).
    + apply (IH _ _ Hl). lia.
    + destruct (foldM _ _ _); last done. apply (IH _ _ Hl). lia.
Qed.

(** The entries of [mst_edges] as edges of the graph. *)
Definition num_edge (e : edge) : string * string * num :=
  (src e, tgt e, Int (wt e)).

Lemma weight_perm es es' : es ≡ₚ es' → weight es = weight es'.
Proof. induction 1; simpl; lia. Qed.

Lemma spanning_tree_perm vertices edges T T' :
  T ≡ₚ T' → spanning_tree vertices edges T → spanning_tree vertices edges T'.
Proof.
  intros Hperm (Hsub & Hlen & Hconn). split_and!.
  - intros e He. apply Hsub. by rewrite Hperm.
  - by rewrite <- Hperm.
  - intros u v Hu Hv. destruct (Hconn u v Hu Hv) as [es Hes]. exists es.
    apply (walk_incl _ _ _ _ _ Hes). intros d Hd.
    apply (walk_edges_in _ _ _ _ Hes) in Hd.
    apply elem_of_sym in Hd. apply elem_of_sym. by rewrite <- Hperm.
Qed.

Lemma prim_tree_nodup vertices edges root S F :
  root ∈ vertices →
  prim_tree vertices edges root S F → NoDup (map tgt F).
Proof.
  intros Hroot. induction 1 as [|S F p u w Ht IH Hp Hu Huv Hn Hmin].
  - apply NoDup_nil. done.
  - simpl. apply NoDup_cons. split; last done.
    destruct (prim_tree_inside vertices edges root Hroot S F Ht)
      as (_ & _ & HF & _ & _).
    intros (e & Heq & He)%list_elem_of_fmap. unfold tgt at 1 in Heq.
    simpl in Heq. destruct (HF e He) as (_ & Ht'). by rewrite <- Heq in Ht'.
Qed.

(** The two comprehensions at the end of [prim]. *)
Lemma mst_of_spec st (l : list string) :
  (∀ v, v ∈ l →
     Prim.parent st !! v = Some None
     ∨ ∃ p w, Prim.parent st !! v = Some (Some p)
              ∧ Prim.min_weight st !! v = Some (Int w)) →
  ∃ M : list edge,
    (∀ acc,
       foldM (fun acc v =>
                p ← getitem (Prim.parent st) v;
                match p with
                | None => Ok acc
                | Some pv =>
                    mv ← getitem (Prim.min_weight st) v;
                    Ok (acc ++ [(pv, v, mv)])
                end) acc l = Ok (acc ++ map num_edge M))
    ∧ (∀ a,
         foldM (fun acc v =>
                  p ← getitem (Prim.parent st) v;
                  match p with
                  | None => Ok acc
                  | Some _ =>
                      mv ← getitem (Prim.min_weight st) v;
                      num_add acc mv
                  end) (Int a) l = Ok (Int (a + weight M)))
    ∧ (∀ e, e ∈ M ↔
            tgt e ∈ l ∧ Prim.parent st !! tgt e = Some (Some (src e))
            ∧ Prim.min_weight st !! tgt e = Some (Int (wt e)))
    ∧ sublist (map tgt M) l.
Proof.
  induction l as [|v l IH]; intros Hl.
  - exists []. split_and!; simpl.
    + intros acc. by rewrite app_nil_r.
    + intros a. do 2 f_equal. lia.
    + intros e. split; first by intros ?%elem_of_nil.
      intros [?%elem_of_nil _]. done.
    + constructor.
  - destruct IH as (M & Hmst & Htot & Hmem & Hsub).
    { intros y Hy. by apply Hl, list_elem_of_further. }
    destruct (Hl v (list_elem_of_here _ _)) as [Hp|(p & w & Hp & Hw)].
    + exists M. split_and!.
      * intros acc. rewrite foldM_cons, (getitem_Some _ _ _ Hp). simpl.
        apply Hmst.
      * intros a. rewrite foldM_cons, (getitem_Some _ _ _ Hp). simpl.
        apply Htot.
      * intros e. rewrite Hmem, elem_of_cons. split; first naive_solver.
        intros [[Heq|?] [Hpe ?]]; last done. rewrite Heq, Hp in Hpe. done.
      * by apply sublist_cons.
    + exists ((p, v, w) :: M). split_and!.
      * intros acc. rewrite foldM_cons, (getitem_Some _ _ _ Hp). simpl.
        rewrite (getitem_Some _ _ _ Hw). simpl. rewrite Hmst.
        by rewrite <- app_assoc.
      * intros a. rewrite foldM_cons, (getitem_Some _ _ _ Hp). simpl.
        rewrite (getitem_Some _ _ _ Hw). simpl. rewrite Htot.
        do 2 f_equal. lia.
      * intros e. rewrite !elem_of_cons, Hmem. split.
        -- intros [->|(? & ? & ?)]; [by split_and!; try left | by split_and!; try right].
        -- intros [[Heq|?] [Hpe Hwe]]; last (right; done). left.
           rewrite Heq, Hp in Hpe. rewrite Heq, Hw in Hwe.
           destruct e as [[a b] c]. unfold src, tgt, wt in *. simpl in *.
           congruence.
      * simpl. by apply sublist_skip.
Qed.

(** ** Prim: the run as a whole *)

Lemma prim_run vertices edges root rest :
  vertices = root :: rest → closed_edges vertices edges →
  ∃ st F M,
    (∀ fuel, (prim_fuel vertices edges ≤ fuel)%nat →
       Prim.prim fuel vertices edges
       = Some (Ok (Prim.Tree (map num_edge M) (Int (weight M)))))
    ∧ outer vertices edges root F st ∧ Prim.pq st = []
    ∧ (∀ e, e ∈ M ↔
            tgt e ∈ vertices
            ∧ Prim.parent st !! tgt e = Some (Some (src e))
            ∧ Prim.min_weight st !! tgt e = Some (Int (wt e)))
    ∧ sublist (map tgt M) vertices.
Proof.
  intros Hv Hclosed.
  assert (root ∈ vertices) as Hroot by (rewrite Hv; apply list_elem_of_here).
  destruct (prim_loop_init vertices edges root Hroot Hclosed
              (prim_fuel vertices edges) (le_n _))
    as (st & F & Hloop & Hout & Hpq).
  destruct (mst_of_spec st vertices) as (M & Hmst & Htot & Hmem & Hsub).
  { intros v Hvv. destruct (pi_keys _ _ _ _ _ _ Hout v Hvv) as [_ [[p|] Hp]].
    - right. destruct (pi_par _ _ _ _ _ _ Hout v p Hp) as [w Hw]. eauto.
    - by left. }
  exists st, F, M. split_and!; try done.
  intros fuel Hfuel.
  pose proof (prim_loop_mono _ _ _ _ Hloop fuel Hfuel) as Hloop'.
  unfold Prim.prim. rewrite Hv. rewrite Hv in Hloop'. rewrite Hloop'.
  unfold Prim.mst_of, Prim.total_of. rewrite <- Hv.
  rewrite (Hmst []), (Htot 0). simpl. done.
Qed.

(** C1: on a connected undirected graph, given with both directions of
    every edge, [prim] returns [|V| - 1] edges that form a spanning tree,
    and their total weight is the least weight of a spanning tree. *)
Theorem prim_minimum_spanning_tree
    (vertices : list string) (edges : list edge) :
  NoDup vertices → vertices ≠ [] → closed_edges vertices edges →
  symmetric edges → connects vertices edges →
  ∃ M,
    (∀ fuel, (prim_fuel vertices edges ≤ fuel)%nat →
       Prim.prim fuel vertices edges
       = Some (Ok (Prim.Tree (map num_edge M) (Int (weight M)))))
    ∧ length (map num_edge M) = (length vertices - 1)%nat
    ∧ spanning_tree vertices edges M
    ∧ ∀ T, spanning_tree vertices edges T → weight M ≤ weight T.
Proof.
  intros Hnd Hne Hclosed Hsym Hconn.
  destruct vertices as [|root rest] eqn:Hv; first done. rewrite <- Hv in *.
  assert (root ∈ vertices) as Hroot by (rewrite Hv; apply list_elem_of_here).
  destruct (prim_run vertices edges root rest Hv Hclosed)
    as (st & F & M & Hprim & Hout & Hpq & Hmem & Hsub).
  pose proof (prim_all_reached vertices edges root Hroot Hclosed F st
                Hout Hpq Hconn) as Hall.
  pose proof (pi_tree _ _ _ _ _ _ Hout) as Htree.
  destruct (prim_tree_minimum vertices edges root Hnd Hroot Hclosed Hsym
              _ F Htree Hall) as [Hspan Hmin].
  destruct (prim_tree_inside vertices edges root Hroot _ F Htree)
    as (_ & HSv & HFS & _ & _).
  assert (M ≡ₚ F) as Hperm.
  { apply NoDup_Permutation.
    - apply (NoDup_fmap_1 tgt). by eapply sublist_NoDup.
    - apply (NoDup_fmap_1 tgt). by eapply prim_tree_nodup.
    - intros e. rewrite Hmem. split.
      + intros (Ht & Hp & Hw).
        assert (tgt e ≠ root) as Hr.
        { intros Heq. rewrite Heq, (pi_root _ _ _ _ _ _ Hout) in Hp. done. }
        destruct (pi_in _ _ _ _ _ _ Hout (tgt e) (Hall _ Ht) Hr)
          as (p & w & Hp' & Hw' & HinF).
        rewrite Hp in Hp'. rewrite Hw in Hw'.
        injection Hp' as <-. injection Hw' as <-. by destruct e as [[a b] z].
      + intros He. destruct (pi_F _ _ _ _ _ _ Hout e He) as [Hp Hw].
        split_and!; try done. apply HSv. by apply (HFS e He). }
  exists M. split_and!.
  - done.
  - rewrite length_map, Hperm. by destruct Hspan as (_ & ? & _).
  - by apply (spanning_tree_perm _ _ F).
  - intros T HT. rewrite (weight_perm _ _ Hperm). by apply Hmin.
Qed.

(** ** The claims on the graphs of the specification *)

Lemma abc_closed : closed_edges abc_vertices abc_edges.
Proof. unfold closed_edges. compute_done. Qed.

Lemma abc_no_negative_cycle : ¬ negative_cycle abc_edges.
Proof. apply nonneg_no_negative_cycle. compute_done. Qed.

Lemma abc_float_small : float_small abc_vertices abc_edges.
Proof. unfold float_small. by vm_compute. Qed.

Lemma abc_float_weights : float_weights abc_edges.
Proof. apply (float_small_weights abc_vertices), abc_float_small. Qed.

Lemma bellman_ford_shortest_witness :
  ∃ dist parent,
    BF.bellman_ford abc_vertices abc_edges "A" = Ok (dist, parent)
    ∧ dist !! "A"%string = Some (Int 0)
    ∧ ∀ v, v ∈ abc_vertices →
        ∃ d, dist !! v = Some d
             ∧ min_walk_weight abc_edges "A" v d
             ∧ (d = inf ↔ ¬ reachable abc_edges "A" v)
             ∧ (d = inf → parent !! v = Some None).
Proof.
  apply (bellman_ford_shortest abc_vertices abc_edges "A").
  - apply abc_closed.
  - apply abc_float_weights.
  - compute_done.
  - intros Hn. apply abc_no_negative_cycle.
    by apply (negative_cycle_from_any abc_edges "A").
Defined.

(** A weight that does not convert to a float. *)
Definition huge : Z := 10 ^ 400.

(** One edge, of a huge weight, that leads into the source. *)
Definition huge_vertices : list string := ["A"; "B"]%string.
Definition huge_edges : list edge := [("B", "A", huge)]%string.

(** C2 as stated fails: on a graph without negative cycle, from a source
    of the graph, [bellman_ford] raises [OverflowError] when it adds a
    weight that does not convert to a float to the distance [inf]. *)
Lemma bellman_ford_shortest_overflow :
  closed_edges huge_vertices huge_edges
  ∧ "A"%string ∈ huge_vertices
  ∧ ¬ negative_cycle_from huge_edges "A"
  ∧ BF.bellman_ford huge_vertices huge_edges "A" = Raise OverflowError.
Proof.
  split_and!.
  - unfold closed_edges. compute_done.
  - compute_done.
  - intros Hn. apply (negative_cycle_from_any huge_edges "A") in Hn.
    revert Hn. apply nonneg_no_negative_cycle. compute_done.
  - vm_compute. reflexivity.
Qed.

Lemma bellman_ford_negative_cycle_witness :
  BF.bellman_ford abc_vertices neg_edges "A"
  = Raise (ValueError BF.negative_cycle_msg).
Proof.
  apply (bellman_ford_negative_cycle abc_vertices neg_edges "A").
  - unfold closed_edges. compute_done.
  - unfold float_weights. compute_done.
  - compute_done.
  - exists "A"%string, neg_edges. split_and!.
    + apply reachable_refl.
    + simpl. split_and!; try done; compute_done.
    + done.
Defined.

(** A negative cycle between [A] and [B], after an edge of a huge weight
    from [C]. *)
Definition huge_neg_edges : list edge :=
  [("C", "A", huge); ("A", "B", 1); ("B", "A", -2)]%string.

(** C3 as stated fails: with a negative cycle in reach of the source,
    [bellman_ford] raises [OverflowError], not the error of the negative
    cycle, when a weight does not convert to a float. *)
Lemma bellman_ford_negative_cycle_overflow :
  closed_edges abc_vertices huge_neg_edges
  ∧ "A"%string ∈ abc_vertices
  ∧ negative_cycle_from huge_neg_edges "A"
  ∧ BF.bellman_ford abc_vertices huge_neg_edges "A" = Raise OverflowError.
Proof.
  split_and!.
  - unfold closed_edges. compute_done.
  - compute_done.
  - exists "A"%string, [("A", "B", 1); ("B", "A", -2)]%string. split_and!.
    + apply reachable_refl.
    + simpl. split_and!; try done; compute_done.
    + done.
  - vm_compute. reflexivity.
Qed.

Lemma bellman_ford_unknown_source_witness :
  BF.bellman_ford abc_vertices abc_edges "Z"
  = Ok (<["Z"%string := Int 0]> (dict_const abc_vertices inf),
        dict_const abc_vertices None).
Proof.
  apply (bellman_ford_unknown_source abc_vertices abc_edges "Z").
  - apply abc_closed.
  - apply abc_float_weights.
  - compute_done.
Defined.

(** C9 as stated fails: a source outside the graph raises no error. *)
Lemma bellman_ford_unknown_source_returns :
  ("Z"%string ∉ abc_vertices)
  ∧ ∃ st, BF.bellman_ford abc_vertices abc_edges "Z" = Ok st.
Proof.
  split; first compute_done.
  eexists. vm_compute. reflexivity.
Qed.

Lemma floyd_warshall_next_defined_witness :
  float_small abc_vertices abc_edges
  ∧ (float_small abc_vertices abc_edges →
     ∃ r, FW.floyd_warshall abc_vertices abc_edges = Ok r)
  ∧ ∀ dist pos next_node,
      FW.floyd_warshall abc_vertices abc_edges = Ok (dist, pos, next_node) →
      ∀ i j, (i < length abc_vertices)%nat → (j < length abc_vertices)%nat →
        ∃ d s, mlookup dist i j = Some d ∧ mlookup next_node i j = Some s
               ∧ (s ≠ None ↔ d ≠ inf)
               ∧ (i = j → s ≠ None).
Proof.
  split; first apply abc_float_small.
  apply (floyd_warshall_next_defined abc_vertices abc_edges).
  - compute_done.
  - apply abc_closed.
Defined.

Lemma reconstruct_path_trivial_witness :
  float_small abc_vertices abc_edges
  ∧ (float_small abc_vertices abc_edges →
     ∃ r, FW.floyd_warshall abc_vertices abc_edges = Ok r)
  ∧ ∀ dist pos next_node,
      FW.floyd_warshall abc_vertices abc_edges = Ok (dist, pos, next_node) →
      (∀ fuel u, u ∈ abc_vertices →
         FW.reconstruct_path fuel u u abc_vertices pos next_node
         = Some (Ok [u]))
      ∧ (∀ fuel u v, u ∈ abc_vertices → v ∈ abc_vertices →
           ∃ i j d s, pos !! u = Some i ∧ pos !! v = Some j
             ∧ mlookup dist i j = Some d ∧ mlookup next_node i j = Some s
             ∧ (d = inf ↔ s = None)
             ∧ (d = inf →
                FW.reconstruct_path fuel u v abc_vertices pos next_node
                = Some (Ok []))).
Proof.
  split; first apply abc_float_small.
  apply (reconstruct_path_trivial abc_vertices abc_edges).
  - compute_done.
  - apply abc_closed.
Defined.

Lemma floyd_warshall_bellman_ford_witness :
  float_small abc_vertices abc_edges
  ∧ (float_small abc_vertices abc_edges →
     (∃ r, FW.floyd_warshall abc_vertices abc_edges = Ok r)
     ∧ ∀ i, i ∈ abc_vertices →
         ∃ r, BF.bellman_ford abc_vertices abc_edges i = Ok r)
  ∧ ∀ dist pos next_node i bf_dist bf_parent,
      FW.floyd_warshall abc_vertices abc_edges = Ok (dist, pos, next_node) →
      i ∈ abc_vertices →
      BF.bellman_ford abc_vertices abc_edges i = Ok (bf_dist, bf_parent) →
      ∀ j, j ∈ abc_vertices →
        ∃ pi pj d, pos !! i = Some pi ∧ pos !! j = Some pj
                   ∧ mlookup dist pi pj = Some d
                   ∧ bf_dist !! j = Some d.
Proof.
  split; first apply abc_float_small.
  apply (floyd_warshall_bellman_ford abc_vertices abc_edges).
  - compute_done.
  - apply abc_closed.
  - apply abc_no_negative_cycle.
Defined.

(** Two vertices joined in both directions, one edge of a huge weight. *)
Definition huge_pair_edges : list edge :=
  [("A", "B", huge); ("B", "A", 1)]%string.

(** C4 as stated fails: on a graph without negative cycle
    [floyd_warshall] returns its matrices, and [bellman_ford] from [B]
    raises [OverflowError]: there is no distance table for the row of
    [B]. *)
Lemma floyd_warshall_bellman_ford_overflow :
  NoDup huge_vertices
  ∧ closed_edges huge_vertices huge_pair_edges
  ∧ ¬ negative_cycle huge_pair_edges
  ∧ "B"%string ∈ huge_vertices
  ∧ FW.floyd_warshall huge_vertices huge_pair_edges
    = Ok ([[Int 0; Int huge]; [Int 1; Int 0]], FW.make_pos huge_vertices,
          [[Some "A"; Some "B"]; [Some "A"; Some "B"]]%string)
  ∧ BF.bellman_ford huge_vertices huge_pair_edges "B" = Raise OverflowError.
Proof.
  split_and!.
  - compute_done.
  - unfold closed_edges. compute_done.
  - apply nonneg_no_negative_cycle. compute_done.
  - compute_done.
  - vm_compute. reflexivity.
  - vm_compute. reflexivity.
Qed.

Lemma reconstruct_path_weight_witness :
  float_small abc_vertices abc_edges
  ∧ (float_small abc_vertices abc_edges →
     ∃ r, FW.floyd_warshall abc_vertices abc_edges = Ok r)
  ∧ ∀ dist pos next_node,
      FW.floyd_warshall abc_vertices abc_edges = Ok (dist, pos, next_node) →
      ∀ u v i j d,
        pos !! u = Some i → pos !! v = Some j →
        mlookup dist i j = Some (Int d) →
        ∃ path,
          (∀ fuel, (length abc_vertices - 1 ≤ fuel)%nat →
             FW.reconstruct_path fuel u v abc_vertices pos next_node
             = Some (Ok path))
          ∧ head path = Some u ∧ last path = Some v
          ∧ path_weight abc_edges path = Int d
          ∧ (Forall (fun e => wt e = 1) abc_edges →
             Z.of_nat (length path - 1) = d).
Proof.
  split; first apply abc_float_small.
  apply (reconstruct_path_weight abc_vertices abc_edges).
  - compute_done.
  - apply abc_closed.
  - apply abc_no_negative_cycle.
Defined.

(** A successor matrix with a cycle: from [A] towards [B] the successor
    of [A] is [A]. *)
Definition cyclic_vertices : list string := ["A"; "B"]%string.
Definition cyclic_next : list (list (option string)) :=
  [[Some "A"; Some "A"]; [Some "B"; Some "B"]]%string.

Lemma reconstruct_path_terminates_witness :
  float_small abc_vertices abc_edges
  ∧ (float_small abc_vertices abc_edges →
     ∃ r, FW.floyd_warshall abc_vertices abc_edges = Ok r)
  ∧ (∀ dist pos next_node,
       FW.floyd_warshall abc_vertices abc_edges = Ok (dist, pos, next_node) →
       ∀ u v, u ∈ abc_vertices → v ∈ abc_vertices →
         ∃ path,
           (∀ fuel, (length abc_vertices - 1 ≤ fuel)%nat →
              FW.reconstruct_path fuel u v abc_vertices pos next_node
              = Some (Ok path))
           ∧ (length path ≤ length abc_vertices)%nat)
  ∧ (∀ pos next_node u v (S : string → Prop),
       S u →
       (∀ x, S x →
          x ≠ v ∧ ∃ y, FW.successor pos next_node x v = Ok (Some y) ∧ S y) →
       ∀ fuel, FW.reconstruct_path fuel u v abc_vertices pos next_node = None).
Proof.
  split; first apply abc_float_small.
  apply (reconstruct_path_terminates abc_vertices abc_edges).
  - compute_done.
  - apply abc_closed.
  - apply abc_no_negative_cycle.
Defined.

Lemma cyclic_walk fuel : ∀ path,
  FW.loop (FW.make_pos cyclic_vertices) cyclic_next "B" fuel "A" path = None.
Proof. induction fuel as [|fuel IH]; intros path; first done. apply IH. Qed.

(** C7 as stated fails: on a successor matrix with a cycle the walk of
    [reconstruct_path] neither ends nor raises, whatever the fuel. *)
Lemma reconstruct_path_cycle_diverges :
  shape (length cyclic_vertices) cyclic_next
  ∧ ∀ fuel,
      FW.reconstruct_path fuel "A" "B" cyclic_vertices
        (FW.make_pos cyclic_vertices) cyclic_next = None.
Proof.
  split.
  - split; first done. by repeat constructor.
  - intros fuel. apply cyclic_walk.
Qed.

Lemma connects_star vertices X r :
  (∀ v, v ∈ vertices → v = r ∨ ∃ w, (r, v, w) ∈ X) → connects vertices X.
Proof.
  intros Hstar.
  assert (∀ v, v ∈ vertices → reachable (sym X) r v) as Hr.
  { intros v Hv. destruct (Hstar v Hv) as [->|[w Hw]].
    - apply reachable_refl.
    - apply (reachable_edge _ (r, v, w)). apply elem_of_sym. by left. }
  intros u v Hu Hv. eapply reachable_trans.
  - apply reachable_sym. by apply Hr.
  - by apply Hr.
Qed.

Lemma abc_connects : connects abc_vertices abc_edges.
Proof.
  apply (connects_star _ _ "A"%string). intros v Hv.
  repeat (apply elem_of_cons in Hv as [->|Hv]).
  - by left.
  - right. exists 1. compute_done.
  - right. exists 4. compute_done.
  - by apply elem_of_nil in Hv.
Qed.

Lemma prim_minimum_spanning_tree_witness :
  ∃ M,
    (∀ fuel, (prim_fuel abc_vertices abc_edges ≤ fuel)%nat →
       Prim.prim fuel abc_vertices abc_edges
       = Some (Ok (Prim.Tree (map num_edge M) (Int (weight M)))))
    ∧ length (map num_edge M) = (length abc_vertices - 1)%nat
    ∧ spanning_tree abc_vertices abc_edges M
    ∧ ∀ T, spanning_tree abc_vertices abc_edges T → weight M ≤ weight T.
Proof.
  apply (prim_minimum_spanning_tree abc_vertices abc_edges).
  - compute_done.
  - done.
  - apply abc_closed.
  - unfold symmetric. compute_done.
  - apply abc_connects.
Defined.

(** The scenario of the specification, run on the embedding: vertices
    [A], [B], [C] with the undirected edges [A-B] (1), [B-C] (2) and
    [A-C] (4). *)
Example scenario_prim :
  Prim.prim (prim_fuel abc_vertices abc_edges) abc_vertices abc_edges
  = Some (Ok (Prim.Tree [("A", "B", Int 1); ("B", "C", Int 2)]%string
                        (Int 3))).
Proof. vm_compute. reflexivity. Qed.

Example scenario_bellman_ford :
  (st ← BF.bellman_ford abc_vertices abc_edges "A";
   Ok (st.1 !! "A"%string, st.1 !! "B"%string, st.1 !! "C"%string))
  = Ok (Some (Int 0), Some (Int 1), Some (Int 3)).
Proof. vm_compute. reflexivity. Qed.

Example scenario_floyd_warshall :
  ∃ dist pos next_node,
    FW.floyd_warshall abc_vertices abc_edges = Ok (dist, pos, next_node)
    ∧ mlookup dist 0 2 = Some (Int 3)
    ∧ FW.reconstruct_path 2 "A" "C" abc_vertices pos next_node
      = Some (Ok ["A"; "B"; "C"]%string).
Proof. eexists _, _, _. split_and!; vm_compute; reflexivity. Qed.

(** * Further properties of the code *)

(** ** Bellman-Ford: the table of parents *)

(** The [k]-th ancestor of [v] in the table [parent]. *)
Fixpoint up (parent : gmap string (option string)) (k : nat) (v : string)
  : option string :=
  match k with
  | O => Some v
  | S k' =>
      match parent !! v with
      | Some (Some u) => up parent k' u
      | _ => None
      end
  end.

(** [v] and its ancestors, at most [k] of them. *)
Fixpoint ancestors (parent : gmap string (option string)) (k : nat)
  (v : string) : list string :=
  v :: match k with
       | O => []
       | S k' =>
           match parent !! v with
           | Some (Some u) => ancestors parent k' u
           | _ => []
           end
       end.

Lemma up_add parent a : ∀ b x,
  up parent (a + b) x = up parent a x ≫= up parent b.
Proof.
  induction a as [|a IH]; intros b x; first done.
  simpl. destruct (parent !! x) as [[u|]|]; [apply IH | done | done].
Qed.

(** A chain of ancestors in the table updated at [v] is a chain of the old
    table until it meets [v]. *)
Lemma up_insert_split parent v p n : ∀ x y,
  up (<[v := p]> parent) n x = Some y →
  up parent n x = Some y
  ∨ ∃ j, (j < n)%nat ∧ up (<[v := p]> parent) j x = Some v
         ∧ up (<[v := p]> parent) (n - j) v = Some y.
Proof.
  induction n as [|n IH]; intros x y Hup; first by left.
  destruct (decide (x = v)) as [->|Hne].
  { right. exists 0%nat. split; first lia. split; first done.
    by rewrite Nat.sub_0_r. }
  simpl in Hup. rewrite lookup_insert_ne in Hup by done. simpl.
  destruct (parent !! x) as [[u|]|] eqn:Hx; try done.
  destruct (IH u y Hup) as [Hold|(j & Hj & Hv & Hy)]; first by left.
  right. exists (Datatypes.S j). split; first lia.
  split; last done. simpl. rewrite lookup_insert_ne by done. by rewrite Hx.
Qed.

Lemma up_insert_old parent v p k : ∀ x,
  up (<[v := p]> parent) k x = Some v →
  ∃ j, (j ≤ k)%nat ∧ up parent j x = Some v.
Proof.
  induction k as [|k IH]; intros x Hup.
  - exists 0%nat. done.
  - destruct (decide (x = v)) as [->|Hne].
    { exists 0%nat. split; [lia | done]. }
    simpl in Hup. rewrite lookup_insert_ne in Hup by done.
    destruct (parent !! x) as [[u|]|] eqn:Hx; try done.
    destruct (IH u Hup) as (j & Hj & Hv).
    exists (Datatypes.S j). split; first lia. simpl. by rewrite Hx.
Qed.

Lemma ancestors_length parent k : ∀ v x,
  up parent k v = Some x → length (ancestors parent k v) = Datatypes.S k.
Proof.
  induction k as [|k IH]; intros v x Hup; first done.
  simpl in *. destruct (parent !! v) as [[u|]|]; try done.
  by rewrite (IH u x).
Qed.

Lemma ancestors_up parent k : ∀ v y,
  y ∈ ancestors parent k v → ∃ j, (j ≤ k)%nat ∧ up parent j v = Some y.
Proof.
  induction k as [|k IH]; intros v y Hy.
  - apply list_elem_of_singleton in Hy as ->. by exists 0%nat.
  - simpl in Hy. apply elem_of_cons in Hy as [->|Hy].
    { exists 0%nat. split; [lia | done]. }
    destruct (parent !! v) as [[u|]|] eqn:Hv;
      try by apply elem_of_nil in Hy.
    destruct (IH u y Hy) as (j & Hj & Hup).
    exists (Datatypes.S j). split; first lia. simpl. by rewrite Hv.
Qed.

Lemma ancestors_nodup parent k : ∀ v,
  (∀ x j, up parent (Datatypes.S j) x ≠ Some x) →
  NoDup (ancestors parent k v).
Proof.
  induction k as [|k IH]; intros v Hacyc.
  - apply NoDup_singleton.
  - simpl. apply NoDup_cons. split.
    + destruct (parent !! v) as [[u|]|] eqn:Hv;
        try by intros ?%elem_of_nil.
      intros (j & _ & Hup)%ancestors_up.
      apply (Hacyc v j). simpl. by rewrite Hv.
    + destruct (parent !! v) as [[u|]|]; try apply NoDup_nil_2.
      by apply IH.
Qed.

Section BellmanFordTree.
Context (vertices : list string) (edges : list edge) (source : string).
Hypothesis Hclosed : closed_edges vertices edges.
Hypothesis Hno : ¬ negative_cycle_from edges source.

(** Every parent is the tail of an edge that the distances respect; the
    source has no parent, every other vertex at a finite distance has one,
    and no vertex is its own ancestor. *)
Record tinv (st : BF.tables) : Prop := TInv {
  t_edge : ∀ v u, st.2 !! v = Some (Some u) →
             ∃ w du dv, (u, v, w) ∈ edges
                        ∧ st.1 !! u = Some (Int du) ∧ st.1 !! v = Some (Int dv)
                        ∧ du + w ≤ dv;
  t_src : ∀ u, st.2 !! source ≠ Some (Some u);
  t_fin : ∀ v d, v ≠ source → st.1 !! v = Some (Int d) →
            ∃ u, st.2 !! v = Some (Some u);
  t_acyc : ∀ v k, up st.2 (Datatypes.S k) v ≠ Some v
}.

Lemma tinv_init :
  tinv (<[source := Int 0]> (dict_const vertices inf),
        dict_const vertices None).
Proof.
  assert (∀ v u, dict_const vertices (@None string) !! v ≠ Some (Some u))
    as Hnone.
  { intros v u. rewrite lookup_dict_const. by case_decide. }
  split; simpl.
  - intros v u Hp. by destruct (Hnone v u).
  - intros u. apply Hnone.
  - intros v d Hne. rewrite lookup_insert_ne, lookup_dict_const by done.
    by case_decide.
  - intros v k. simpl.
    destruct (dict_const vertices None !! v) as [[u|]|] eqn:Hv; try done.
    by destruct (Hnone v u).
Qed.

(** The chain of the ancestors of [u], read as a walk of the graph. *)
Lemma up_walk (st : BF.tables) j : ∀ u a zu,
  tinv st → up st.2 j u = Some a → st.1 !! u = Some (Int zu) →
  ∃ es za, walk edges a es u ∧ st.1 !! a = Some (Int za)
           ∧ za + weight es ≤ zu ∧ length es = j
           ∧ Forall (fun e => st.2 !! tgt e = Some (Some (src e))) es.
Proof.
  induction j as [|j IH]; intros u a zu Ht Hup Hu.
  - injection Hup as <-. exists [], zu. split_and!; try done. simpl. lia.
  - simpl in Hup. destruct (st.2 !! u) as [[p|]|] eqn:Hp; try done.
    destruct (t_edge _ Ht u p Hp) as (w & dp & du & He & Hdp & Hdu & Hle).
    rewrite Hu in Hdu. injection Hdu as <-.
    destruct (IH p a dp Ht Hup Hdp) as (es & za & Hw & Ha & Hwt & Hlen & Hall).
    exists (es ++ [(p, u, w)]), za. split_and!.
    + by apply (walk_snoc edges a es p (p, u, w)).
    + done.
    + rewrite weight_app. simpl. unfold wt. simpl. lia.
    + rewrite length_app. simpl. lia.
    + apply Forall_app. split; first done.
      apply Forall_singleton. done.
Qed.

Lemma relax_tree st b e st' b' :
  inv vertices edges source st → tinv st → e ∈ edges →
  BF.relax (st, b) e = Ok (st', b') → tinv st'.
Proof.
  intros Hinv Ht He Hr. destruct e as [[u v] w]. destruct st as [dist parent].
  unfold BF.relax, getitem in Hr. simpl in Hr.
  destruct (dist !! u) as [du|] eqn:Hdu; simpl in Hr; last done.
  destruct (num_add_weight du w) as [Hsum|[Hsum _]]; rewrite Hsum in Hr;
    simpl in Hr; last done.
  clear Hsum.
  destruct (dist !! v) as [dv|] eqn:Hdv; simpl in Hr; last done.
  destruct (num_ltb (num_plus du (Int w)) dv) eqn:Hlt;
    last by (injection Hr as <- <-).
  injection Hr as <- <-.
  destruct du as [zu|]; simpl in Hlt; last done.
  destruct (inv_sound _ _ _ _ Hinv u zu Hdu) as (pu & Hpu & Hwpu).
  assert (∀ cyc, walk edges u cyc u → 0 ≤ weight cyc) as Hcyc.
  { intros cyc Hc.
    apply (no_negative_cycle_from_weight edges source Hno u cyc); last done.
    by exists pu. }
  assert (u ≠ v) as Huv.
  { intros <-. rewrite Hdu in Hdv. injection Hdv as <-.
    simpl in Hlt. apply Z.ltb_lt in Hlt.
    pose proof (Hcyc [(u, u, w)]) as Hc. simpl in Hc. unfold wt in Hc.
    simpl in Hc. specialize (Hc (conj He (conj eq_refl eq_refl))). lia. }
  assert (v ≠ source) as Hvs.
  { intros ->. pose proof (inv_source _ _ _ _ Hinv) as Hs.
    unfold dget in Hs. simpl in Hs. rewrite Hdv in Hs. simpl in Hs.
    pose proof (no_negative_cycle_from_weight edges source Hno source
                  (pu ++ [(u, source, w)]) (reachable_refl edges source)) as Hc.
    rewrite weight_app in Hc. simpl in Hc. unfold wt in Hc. simpl in Hc.
    specialize (Hc (walk_snoc edges source pu u (u, source, w) Hpu He
                      eq_refl)).
    destruct dv; num_cases. }
  split; simpl.
  - intros x p. destruct (decide (v = x)) as [->|Hne].
    + rewrite lookup_insert_eq. intros [= <-].
      exists w, zu, (zu + w). rewrite lookup_insert_ne by done.
      rewrite lookup_insert_eq. split_and!; try done; lia.
    + rewrite lookup_insert_ne by done. intros Hp.
      destruct (t_edge _ Ht x p Hp) as (w0 & dp & dx & He0 & Hdp & Hdx & Hle).
      simpl in Hdp, Hdx. rewrite (lookup_insert_ne _ v x) by done.
      destruct (decide (v = p)) as [->|Hnp].
      * rewrite lookup_insert_eq. exists w0, (zu + w), dx.
        split_and!; try done. rewrite Hdv in Hdp. injection Hdp as ->.
        simpl in Hlt. apply Z.ltb_lt in Hlt. lia.
      * rewrite lookup_insert_ne by done. by exists w0, dp, dx.
  - intros p. rewrite lookup_insert_ne by done. apply (t_src _ Ht).
  - intros x d Hxs. destruct (decide (v = x)) as [->|Hne].
    + rewrite !lookup_insert_eq. eauto.
    + rewrite !lookup_insert_ne by done. by apply (t_fin _ Ht).
  - intros x k Hup.
    change (up (<[v := Some u]> parent) (Datatypes.S k) x = Some x) in Hup.
    destruct (up_insert_split parent v (Some u) _ x x Hup)
      as [Hold|(j & Hj & Hxv & Hvx)].
    { by apply (t_acyc _ Ht x k). }
    assert (up (<[v := Some u]> parent) (Datatypes.S k) v = Some v) as Hcycle.
    { replace (Datatypes.S k) with ((Datatypes.S k - j) + j)%nat by lia.
      rewrite up_add, Hvx. simpl. done. }
    simpl in Hcycle. rewrite lookup_insert_eq in Hcycle.
    destruct (up_insert_old parent v (Some u) k u Hcycle) as (i & _ & Hanc).
    destruct (up_walk (dist, parent) i u v zu Ht Hanc Hdu)
      as (es & zv & Hes & Hzv & Hwt & _ & _).
    simpl in Hzv. rewrite Hdv in Hzv. injection Hzv as ->.
    simpl in Hlt. apply Z.ltb_lt in Hlt.
    pose proof (Hcyc ((u, v, w) :: es)) as Hc. simpl in Hc. unfold wt in Hc.
    simpl in Hc. specialize (Hc (conj He (conj eq_refl Hes))). lia.
Qed.

Lemma pass_tree l : ∀ st b st' b',
  inv vertices edges source st → tinv st → l ⊆ edges →
  foldM BF.relax (st, b) l = Ok (st', b') → tinv st'.
Proof.
  induction l as [|e l IH]; intros st b st' b' Hinv Ht Hsub Hf.
  - simpl in Hf. by injection Hf as <- <-.
  - assert (e ∈ edges) as He by (apply Hsub; apply list_elem_of_here).
    assert (l ⊆ edges) as Hl.
    { intros x Hx. apply Hsub. by apply list_elem_of_further. }
    destruct (relax_cases vertices edges source Hclosed st b e Hinv He)
      as [(st1 & b1 & Hr & Hinv1 & _)|[Hr _]];
      last by rewrite foldM_cons, Hr in Hf.
    rewrite foldM_cons, Hr in Hf. simpl in Hf.
    apply (IH st1 b1 st' b'); try done.
    by apply (relax_tree st b e st1 b1).
Qed.

Lemma passes_tree k : ∀ st st',
  inv vertices edges source st → tinv st →
  BF.passes edges k st = Ok st' → tinv st'.
Proof.
  induction k as [|k IH]; intros st st' Hinv Ht Hp.
  - simpl in Hp. by injection Hp as <-.
  - simpl in Hp.
    destruct (pass_cases vertices edges source Hclosed edges st false Hinv
                (reflexivity _))
      as [(st1 & b1 & Hf & Hinv1 & _)|[Hf _]]; last by rewrite Hf in Hp.
    rewrite Hf in Hp.
    pose proof (pass_tree edges st false st1 b1 Hinv Ht (reflexivity _) Hf)
      as Ht1.
    destruct b1.
    + by apply (IH st1 st').
    + by injection Hp as <-.
Qed.

(** With no vertex its own ancestor, a chain of ancestors is no longer
    than the list of the vertices. *)
Lemma up_bound (st : BF.tables) k v x :
  tinv st → v ∈ vertices → up st.2 k v = Some x →
  (Datatypes.S k ≤ length vertices)%nat.
Proof.
  intros Ht Hv Hup.
  rewrite <- (ancestors_length st.2 k v x Hup).
  apply submseteq_length, NoDup_submseteq.
  - apply ancestors_nodup. intros y j. apply (t_acyc _ Ht).
  - intros y (j & _ & Hy)%ancestors_up. clear Hup.
    revert v Hv Hy. induction j as [|j IH]; intros v Hv Hy.
    + by injection Hy as <-.
    + simpl in Hy. destruct (st.2 !! v) as [[p|]|] eqn:Hp; try done.
      apply (IH p); last done.
      destruct (t_edge _ Ht v p Hp) as (w & _ & _ & He & _).
      by destruct (closed_edges_elem _ _ _ Hclosed He).
Qed.

Lemma up_reaches (st : BF.tables) k : ∀ v d,
  tinv st → st.1 !! v = Some (Int d) →
  (∃ j, (j ≤ k)%nat ∧ up st.2 j v = Some source)
  ∨ ∃ x, up st.2 k v = Some x.
Proof.
  induction k as [|k IH]; intros v d Ht Hd; first by right; exists v.
  destruct (decide (v = source)) as [->|Hne].
  { left. exists 0%nat. split; [lia | done]. }
  destruct (t_fin _ Ht v d Hne Hd) as [p Hp].
  destruct (t_edge _ Ht v p Hp) as (w & dp & _ & _ & Hdp & _).
  destruct (IH p dp Ht Hdp) as [(j & Hj & Hup)|[x Hx]].
  - left. exists (Datatypes.S j). split; first lia. simpl. by rewrite Hp.
  - right. exists x. simpl. by rewrite Hp.
Qed.
End BellmanFordTree.

(** The tables that [bellman_ford] returns keep the invariants of the
    relaxation, no edge can be relaxed further, and the parents form a
    tree. *)
Lemma bellman_ford_tinv vertices edges source st :
  closed_edges vertices edges →
  BF.bellman_ford vertices edges source = Ok st →
  inv vertices edges source st ∧ stable_on edges st.1
  ∧ tinv edges source st ∧ st.1 !! source = Some (Int 0).
Proof.
  intros Hclosed Hbf. unfold BF.bellman_ford in Hbf.
  pose proof (inv_init vertices edges source) as Hinit.
  destruct (passes_cases vertices edges source Hclosed
              (length vertices - 1) _ 0%nat Hinit
              (lower_init vertices edges source _ Hinit))
    as [(st' & Hp & Hinv & _)|[Hp _]]; last by rewrite Hp in Hbf.
  rewrite Hp in Hbf. simpl in Hbf.
  destruct (check_cases vertices edges Hclosed st'.1 edges
              (inv_keys _ _ _ _ Hinv) (reflexivity _))
    as [[Hok Hst]|[[Herr _]|[Herr _]]]; try by rewrite Herr in Hbf.
  rewrite Hok in Hbf. simpl in Hbf. injection Hbf as ->.
  pose proof (stable_no_negative_cycle _ _ _ _ Hinv Hst) as Hno.
  pose proof (passes_tree vertices edges source Hclosed Hno _ _ _ Hinit
                (tinv_init vertices edges source) Hp) as Ht.
  split_and!; try done.
  pose proof (inv_source _ _ _ _ Hinv) as Hs. unfold dget in Hs.
  destruct (st.1 !! source) as [[z|]|] eqn:Hz; try done.
  destruct (inv_sound _ _ _ _ Hinv source z Hz) as (es & Hw & Hwt).
  pose proof (no_negative_cycle_from_weight edges source Hno source es
                (reachable_refl edges source) Hw).
  simpl in Hs. apply Z.ltb_ge in Hs. do 2 f_equal. lia.
Qed.

(** From a vertex at a finite distance the parents lead back to the
    source, along a shortest walk. *)
Lemma bellman_ford_parent_walk vertices edges source dist parent :
  closed_edges vertices edges →
  BF.bellman_ford vertices edges source = Ok (dist, parent) →
  ∀ v d, dist !! v = Some (Int d) →
    ∃ es, walk edges source es v ∧ weight es = d
          ∧ (length es ≤ length vertices - 1)%nat
          ∧ up parent (length es) v = Some source
          ∧ Forall (fun e => parent !! tgt e = Some (Some (src e))) es.
Proof.
  intros Hclosed Hbf.
  destruct (bellman_ford_tinv vertices edges source _ Hclosed Hbf)
    as (Hinv & Hst & Ht & Hsrc).
  simpl in Hst, Hsrc.
  intros v d Hd.
  assert (∃ j, (j ≤ length vertices - 1)%nat ∧ up parent j v = Some source)
    as (j & Hj & Hup).
  { destruct (decide (v = source)) as [->|Hne].
    { exists 0%nat. split; [lia | done]. }
    destruct (t_fin _ _ _ Ht v d Hne Hd) as [p Hp'].
    destruct (t_edge _ _ _ Ht v p Hp') as (w & _ & _ & He & _).
    destruct (closed_edges_elem _ _ _ Hclosed He) as [_ Hv].
    unfold tgt in Hv. simpl in Hv.
    destruct (up_reaches edges source (dist, parent)
                (length vertices) v d Ht Hd) as [(j & _ & Hup)|[x Hx]].
    - exists j. split; last done.
      pose proof (up_bound vertices edges source Hclosed (dist, parent)
                    j v source Ht Hv Hup). lia.
    - pose proof (up_bound vertices edges source Hclosed (dist, parent)
                    _ v x Ht Hv Hx). lia. }
  destruct (up_walk edges source (dist, parent) j v source d
              Ht Hup Hd) as (es & za & Hw & Hza & Hwt & Hlen & Hall).
  simpl in Hza. rewrite Hsrc in Hza. injection Hza as <-.
  pose proof (stable_lower _ _ _ (dist, parent) v es Hinv Hst Hw)
    as Hlow.
  unfold dget in Hlow. simpl in Hlow. rewrite Hd in Hlow. simpl in Hlow.
  apply Z.ltb_ge in Hlow.
  exists es. rewrite Hlen. split_and!; try done. lia.
Qed.

(** X1: the table [parent] that [bellman_ford] returns is a tree of
    shortest paths.  The parent [u] of [v] is the tail of an edge [(u, v, w)]
    with [dist[v] = dist[u] + w]; the source has no parent and every other
    vertex at a finite distance has one; and from every vertex at a finite
    distance the parents lead back to the source, along a walk of the graph
    that weighs [dist[v]] and has at most [n - 1] edges. *)
Theorem bellman_ford_parent_tree
    (vertices : list string) (edges : list edge) (source : string)
    (dist : gmap string num) (parent : gmap string (option string)) :
  closed_edges vertices edges →
  BF.bellman_ford vertices edges source = Ok (dist, parent) →
  (∀ v u, parent !! v = Some (Some u) →
     ∃ w du, (u, v, w) ∈ edges ∧ dist !! u = Some (Int du)
             ∧ dist !! v = Some (Int (du + w)))
  ∧ (∀ u, parent !! source ≠ Some (Some u))
  ∧ (∀ v d, v ≠ source → dist !! v = Some (Int d) →
       ∃ u, parent !! v = Some (Some u))
  ∧ (∀ v d, dist !! v = Some (Int d) →
       ∃ es, walk edges source es v ∧ weight es = d
             ∧ (length es ≤ length vertices - 1)%nat
             ∧ up parent (length es) v = Some source
             ∧ Forall (fun e => parent !! tgt e = Some (Some (src e))) es).
Proof.
  intros Hclosed Hbf.
  destruct (bellman_ford_tinv vertices edges source _ Hclosed Hbf)
    as (Hinv & Hst & Ht & Hsrc).
  simpl in Hst, Hsrc.
  split_and!.
  - intros v u Hvu.
    destruct (t_edge _ _ _ Ht v u Hvu) as (w & du & dv & He & Hdu & Hdv & Hle).
    simpl in Hdu, Hdv. exists w, du. split_and!; try done.
    specialize (Hst _ He). unfold relaxable, dget, src, tgt, wt in Hst.
    simpl in Hst. rewrite Hdu, Hdv in Hst. simpl in Hst.
    apply Z.ltb_ge in Hst. rewrite Hdv. do 2 f_equal. lia.
  - apply (t_src _ _ _ Ht).
  - apply (t_fin _ _ _ Ht).
  - by apply (bellman_ford_parent_walk vertices edges source dist parent).
Qed.

(** ** Bellman-Ford: an edge with an endpoint outside the table *)

(** The keys of the table [dist]: the vertices and the source. *)
Definition known (vertices : list string) (source : string) (x : string)
  : Prop :=
  x ∈ vertices ∨ x = source.

(** The endpoint whose lookup fails: [dist[u]] is read before [dist[v]]. *)
Definition first_unknown (vertices : list string) (source : string)
  (e : edge) : string :=
  if decide (known vertices source (src e)) then tgt e else src e.

Section BellmanFordKeys.
Context (vertices : list string) (source : string).

Definition keyed (dist : gmap string num) : Prop :=
  ∀ x, is_Some (dist !! x) ↔ known vertices source x.

Lemma keyed_init : keyed (<[source := Int 0]> (dict_const vertices inf)).
Proof.
  intros x. unfold known. destruct (decide (source = x)) as [->|Hne].
  - rewrite lookup_insert_eq. split; [by right | eauto].
  - rewrite lookup_insert_ne, lookup_dict_const by done.
    case_decide; split; eauto.
    + intros [? ?]. done.
    + intros [?|?]; done.
Qed.

Lemma relax_known st b e :
  keyed st.1 → known vertices source (src e) → known vertices source (tgt e) →
  fits (wt e) = true →
  ∃ st' b', BF.relax (st, b) e = Ok (st', b') ∧ keyed st'.1.
Proof.
  intros Hk Hu Hv Hw. destruct e as [[u v] w]. unfold src, tgt, wt in *.
  simpl in *.
  destruct (proj2 (Hk u) Hu) as [du Hdu].
  destruct (proj2 (Hk v) Hv) as [dv Hdv].
  unfold BF.relax.
  rewrite (getitem_Some _ _ _ Hdu). cbv [mbind result_bind].
  rewrite (num_add_fits du w Hw), (getitem_Some _ _ _ Hdv).
  destruct (num_ltb (num_plus du (Int w)) dv); last by eexists _, _.
  eexists _, _. split; first done. simpl. intros x.
  destruct (decide (v = x)) as [->|Hne].
  - rewrite lookup_insert_eq. split; eauto.
  - rewrite lookup_insert_ne by done. apply Hk.
Qed.

Lemma relax_unknown st b e :
  keyed st.1 →
  ¬ (known vertices source (src e) ∧ known vertices source (tgt e)) →
  fits (wt e) = true →
  BF.relax (st, b) e
  = Raise (KeyError (Some (first_unknown vertices source e))).
Proof.
  intros Hk Hno Hw. destruct e as [[u v] w].
  unfold first_unknown, src, tgt, wt in *.
  simpl in *. unfold BF.relax, getitem. simpl.
  destruct (decide (known vertices source u)) as [Hu|Hu].
  - destruct (proj2 (Hk u) Hu) as [du ->]. simpl.
    rewrite (num_add_fits du w Hw). simpl.
    destruct (st.1 !! v) as [dv|] eqn:Hdv; last done.
    destruct Hno. split; first done. apply Hk. eauto.
  - destruct (st.1 !! u) as [du|] eqn:Hdu; last done.
    destruct Hu. apply Hk. eauto.
Qed.

Lemma pass_unknown l1 e l2 : ∀ st b,
  keyed st.1 →
  Forall (fun e' => known vertices source (src e')
                    ∧ known vertices source (tgt e')) l1 →
  ¬ (known vertices source (src e) ∧ known vertices source (tgt e)) →
  float_weights (l1 ++ [e]) →
  foldM BF.relax (st, b) (l1 ++ e :: l2)
  = Raise (KeyError (Some (first_unknown vertices source e))).
Proof.
  induction l1 as [|e1 l1 IH]; intros st b Hk Hl1 Hno Hfl.
  - rewrite app_nil_l, foldM_cons. rewrite relax_unknown; try done.
    by apply Forall_cons in Hfl as [? _].
  - apply Forall_cons in Hl1 as [[Hu Hv] Hl1].
    apply Forall_cons in Hfl as [Hw Hfl].
    destruct (relax_known st b e1 Hk Hu Hv Hw) as (st1 & b1 & Hr & Hk1).
    rewrite <- app_comm_cons, foldM_cons, Hr. simpl. by apply IH.
Qed.

Lemma check_unknown dist l1 e l2 :
  keyed dist →
  Forall (fun e' => known vertices source (src e')
                    ∧ known vertices source (tgt e')) l1 →
  ¬ (known vertices source (src e) ∧ known vertices source (tgt e)) →
  float_weights (l1 ++ [e]) →
  foldM (BF.check dist) tt (l1 ++ e :: l2)
  = Raise (KeyError (Some (first_unknown vertices source e)))
  ∨ foldM (BF.check dist) tt (l1 ++ e :: l2)
    = Raise (ValueError BF.negative_cycle_msg).
Proof.
  intros Hk Hl1 Hno Hfl. induction l1 as [|e1 l1 IH].
  - left. rewrite app_nil_l, foldM_cons.
    apply Forall_cons in Hfl as [Hw _].
    destruct e as [[u v] w]. unfold first_unknown, src, tgt, wt in *.
    simpl in *. unfold BF.check, getitem. simpl.
    destruct (decide (known vertices source u)) as [Hu|Hu].
    + destruct (proj2 (Hk u) Hu) as [du ->]. simpl.
      rewrite (num_add_fits du w Hw). simpl.
      destruct (dist !! v) as [dv|] eqn:Hdv; last done.
      destruct Hno. split; first done. apply Hk. eauto.
    + destruct (dist !! u) as [du|] eqn:Hdu; last done.
      destruct Hu. apply Hk. eauto.
  - apply Forall_cons in Hl1 as [[Hu Hv] Hl1].
    apply Forall_cons in Hfl as [Hw Hfl].
    rewrite <- app_comm_cons, foldM_cons.
    destruct e1 as [[u v] w]. unfold src, tgt, wt in Hu, Hv, Hw.
    simpl in Hu, Hv, Hw.
    destruct (proj2 (Hk u) Hu) as [du Hdu].
    destruct (proj2 (Hk v) Hv) as [dv Hdv].
    assert (BF.check dist tt (u, v, w)
            = if num_ltb (num_plus du (Int w)) dv
              then Raise (ValueError BF.negative_cycle_msg) else Ok tt) as ->.
    { unfold BF.check. rewrite (getitem_Some _ _ _ Hdu).
      cbv [mbind result_bind].
      by rewrite (num_add_fits du w Hw), (getitem_Some _ _ _ Hdv). }
    destruct (num_ltb (num_plus du (Int w)) dv); first by right.
    by apply IH.
Qed.
End BellmanFordKeys.

(** X2: [bellman_ford] looks the endpoints of every edge up in [dist],
    whose keys are the vertices and the source.  When the weights convert
    to a float, an edge with an endpoint outside makes the call fail: with
    two vertices or more the first pass raises [KeyError] for the first
    such endpoint; with fewer the loop of the passes is empty and the final
    check raises, [KeyError] for this endpoint or the error of the negative
    cycle at an edge before it. *)
Theorem bellman_ford_unknown_endpoint
    (vertices : list string) (edges : list edge) (source : string)
    (l1 : list edge) (e : edge) (l2 : list edge) :
  edges = l1 ++ e :: l2 →
  Forall (fun e' => known vertices source (src e')
                    ∧ known vertices source (tgt e')) l1 →
  ¬ (known vertices source (src e) ∧ known vertices source (tgt e)) →
  float_weights edges →
  ((2 ≤ length vertices)%nat →
   BF.bellman_ford vertices edges source
   = Raise (KeyError (Some (first_unknown vertices source e))))
  ∧ (BF.bellman_ford vertices edges source
     = Raise (KeyError (Some (first_unknown vertices source e)))
     ∨ BF.bellman_ford vertices edges source
       = Raise (ValueError BF.negative_cycle_msg)).
Proof.
  intros -> Hl1 Hno Hfl.
  assert (float_weights (l1 ++ [e])) as Hfl1.
  { unfold float_weights in *. rewrite Forall_app in Hfl.
    destruct Hfl as [Hf1 [He _]%Forall_cons].
    apply Forall_app. split; first done. by apply Forall_singleton. }
  pose proof (keyed_init vertices source) as Hk.
  assert ((2 ≤ length vertices)%nat →
          BF.bellman_ford vertices (l1 ++ e :: l2) source
          = Raise (KeyError (Some (first_unknown vertices source e)))) as H2.
  { intros Hlen. unfold BF.bellman_ford.
    destruct (length vertices - 1)%nat as [|k] eqn:Hk'; first lia.
    simpl.
    match goal with
    | |- context [foldM BF.relax ?s ?l] =>
        replace (foldM BF.relax s l)
          with (@Raise (BF.tables * bool)
                  (KeyError (Some (first_unknown vertices source e))))
    end; first done.
    symmetry. by apply pass_unknown. }
  split; first done.
  destruct (decide (2 ≤ length vertices)%nat) as [Hlen|Hlen];
    first by left; apply H2.
  unfold BF.bellman_ford.
  replace (length vertices - 1)%nat with 0%nat by lia. simpl.
  destruct (check_unknown vertices source _ l1 e l2 Hk Hl1 Hno Hfl1)
    as [Hc|Hc]; rewrite Hc; [by left | by right].
Qed.

(** ** Floyd-Warshall: an endpoint that is no vertex *)

Lemma init_edge_unknown vertices st e :
  ¬ (src e ∈ vertices ∧ tgt e ∈ vertices) →
  FW.init_edge (FW.make_pos vertices) st e
  = Raise (KeyError (Some (if decide (src e ∈ vertices) then tgt e
                           else src e))).
Proof.
  intros Hno. destruct e as [[u v] w]. unfold src, tgt in *. simpl in *.
  unfold FW.init_edge, getitem.
  destruct (decide (u ∈ vertices)) as [Hu|Hu].
  - destruct (proj2 (make_pos_is_Some vertices u) Hu) as [pu ->]. simpl.
    destruct (FW.make_pos vertices !! v) as [pv|] eqn:Hpv; last done.
    destruct Hno. split; first done. apply make_pos_is_Some. eauto.
  - destruct (FW.make_pos vertices !! u) as [pu|] eqn:Hpu; last done.
    destruct Hu. apply make_pos_is_Some. eauto.
Qed.

Lemma foldM_inv_overflow {A S : Type} (P : S → Prop)
    (f : S → A → result S) (l : list A) (s : S) :
  P s →
  (∀ s x, x ∈ l → P s →
     (∃ s', f s x = Ok s' ∧ P s') ∨ f s x = Raise OverflowError) →
  (∃ s', foldM f s l = Ok s' ∧ P s') ∨ foldM f s l = Raise OverflowError.
Proof.
  revert s. induction l as [|x l IH]; intros s Hs Hstep;
    first by left; exists s.
  rewrite foldM_cons.
  destruct (Hstep s x (list_elem_of_here _ _) Hs) as [(s1 & Hf & Hs1)|Hf];
    rewrite Hf; simpl; last by right.
  apply IH; first done.
  intros s' y Hy. apply Hstep. by apply list_elem_of_further.
Qed.

Lemma step_shaped n st k i j :
  shaped n st → (k < n)%nat → (i < n)%nat → (j < n)%nat →
  (∃ st', FW.step k i st j = Ok st' ∧ shaped n st')
  ∨ FW.step k i st j = Raise OverflowError.
Proof.
  intros [H1 H2] Hk Hi Hj.
  destruct (mget_shape _ st.1 i j H1 Hi Hj) as [dij Hdij].
  destruct (mget_shape _ st.1 i k H1 Hi Hk) as [dik Hdik].
  destruct (mget_shape _ st.1 k j H1 Hk Hj) as [dkj Hdkj].
  destruct (mget_shape _ st.2 i k H2 Hi Hk) as [nik Hnik].
  unfold FW.step. rewrite Hdij, Hdik, Hdkj. simpl.
  destruct (num_add_cases dik dkj) as [Hs|Hs]; rewrite Hs; simpl;
    last by right.
  left. destruct (num_ltb (num_plus dik dkj) dij); last by exists st.
  destruct (mset_spec _ st.1 i j (num_plus dik dkj) H1 Hi Hj)
    as (D & HD & HsD & _).
  destruct (mset_spec _ st.2 i j nik H2 Hi Hj) as (N & HN & HsN & _).
  exists (D, N). rewrite HD. simpl. rewrite Hnik. simpl. rewrite HN. done.
Qed.

Lemma mid_loop_shaped n st k :
  shaped n st → (k < n)%nat →
  (∃ st', FW.mid_loop n st k = Ok st' ∧ shaped n st')
  ∨ FW.mid_loop n st k = Raise OverflowError.
Proof.
  intros Hs Hk. unfold FW.mid_loop. apply foldM_inv_overflow; first done.
  intros st1 i Hi%elem_of_seq Hs1. unfold FW.row_loop.
  apply foldM_inv_overflow; first done.
  intros st2 j Hj%elem_of_seq Hs2. apply step_shaped; try done; lia.
Qed.

Lemma floyd_warshall_init_shaped vertices :
  ∃ st, foldM (FW.init_vertex (FW.make_pos vertices))
              (replicate (length vertices) (replicate (length vertices) inf),
               replicate (length vertices)
                         (replicate (length vertices) None))
              vertices = Ok st
        ∧ shaped (length vertices) st.
Proof.
  apply foldM_inv.
  - split; apply shape_replicate.
  - intros st v Hv Hs. by apply init_vertex_shaped.
Qed.

Lemma first_open_edge vertices (edges : list edge) :
  ¬ closed_edges vertices edges →
  ∃ l1 e l2, edges = l1 ++ e :: l2 ∧ closed_edges vertices l1
             ∧ ¬ (src e ∈ vertices ∧ tgt e ∈ vertices).
Proof.
  unfold closed_edges. induction edges as [|e l IH]; intros Hno.
  - destruct Hno. constructor.
  - destruct (decide (src e ∈ vertices ∧ tgt e ∈ vertices)) as [He|He].
    + destruct IH as (l1 & e' & l2 & -> & Hl1 & He').
      { intros Hl. apply Hno. by constructor. }
      exists (e :: l1), e', l2. split_and!; try done. by constructor.
    + exists [], e, l. split_and!; try done; constructor.
Qed.

(** X3: [floyd_warshall] looks the endpoints of every edge up in [pos],
    whose keys are the vertices.  With an endpoint that is no vertex it
    raises [KeyError] for the first such endpoint, so that it returns only
    when every endpoint is a vertex.  Then it returns two matrices of [n]
    rows of length [n], also when a label occurs twice in [vertices],
    unless a sum overflows; and no sum overflows on small weights. *)
Theorem floyd_warshall_unknown_endpoint
    (vertices : list string) (edges : list edge) :
  (∀ l1 e l2,
     edges = l1 ++ e :: l2 → closed_edges vertices l1 →
     ¬ (src e ∈ vertices ∧ tgt e ∈ vertices) →
     FW.floyd_warshall vertices edges
     = Raise (KeyError (Some (if decide (src e ∈ vertices) then tgt e
                              else src e))))
  ∧ ((∃ r, FW.floyd_warshall vertices edges = Ok r) →
     closed_edges vertices edges)
  ∧ (closed_edges vertices edges →
     (∃ dist next_node,
        FW.floyd_warshall vertices edges
        = Ok (dist, FW.make_pos vertices, next_node)
        ∧ shape (length vertices) dist ∧ shape (length vertices) next_node)
     ∨ FW.floyd_warshall vertices edges = Raise OverflowError)
  ∧ (closed_edges vertices edges → float_small vertices edges →
     ∃ dist next_node,
       FW.floyd_warshall vertices edges
       = Ok (dist, FW.make_pos vertices, next_node)
       ∧ shape (length vertices) dist ∧ shape (length vertices) next_node).
Proof.
  destruct (floyd_warshall_init_shaped vertices) as (st0 & Hf0 & Hs0).
  assert (∀ l, closed_edges vertices l →
            ∃ st, foldM (FW.init_edge (FW.make_pos vertices)) st0 l = Ok st
                  ∧ shaped (length vertices) st) as Hedges.
  { intros l Hl. apply foldM_inv; first done.
    intros st e He Hs.
    destruct (closed_edges_elem _ _ _ Hl He) as [Hu Hv].
    by apply init_edge_shaped. }
  assert (∀ l1 e l2,
            edges = l1 ++ e :: l2 → closed_edges vertices l1 →
            ¬ (src e ∈ vertices ∧ tgt e ∈ vertices) →
            FW.floyd_warshall vertices edges
            = Raise (KeyError (Some (if decide (src e ∈ vertices) then tgt e
                                     else src e)))) as Herr.
  { intros l1 e l2 -> Hl1 He. unfold FW.floyd_warshall. rewrite Hf0. simpl.
    assert (∀ st, shaped (length vertices) st →
              foldM (FW.init_edge (FW.make_pos vertices)) st (l1 ++ e :: l2)
              = Raise (KeyError (Some (if decide (src e ∈ vertices) then tgt e
                                       else src e)))) as Hfold.
    { clear Hedges. induction l1 as [|e1 l1 IH]; intros st Hs.
      - rewrite app_nil_l, foldM_cons. by rewrite init_edge_unknown.
      - apply Forall_cons in Hl1 as [[Hu Hv] Hl1].
        destruct (init_edge_shaped vertices st e1 Hu Hv Hs) as (st1 & Hr & Hs1).
        rewrite <- app_comm_cons, foldM_cons, Hr. simpl. by apply IH. }
    by rewrite Hfold. }
  split_and!.
  - done.
  - intros [r Hr].
    destruct (decide (closed_edges vertices edges)) as [?|Hno]; first done.
    destruct (first_open_edge vertices edges Hno)
      as (l1 & e & l2 & Hl & Hl1 & He).
    rewrite (Herr l1 e l2 Hl Hl1 He) in Hr. done.
  - intros Hclosed. unfold FW.floyd_warshall. rewrite Hf0. simpl.
    destruct (Hedges edges Hclosed) as (st1 & Hf1 & Hs1). rewrite Hf1. simpl.
    destruct (foldM_inv_overflow (shaped (length vertices))
                (FW.mid_loop (length vertices)) (seq 0 (length vertices)) st1
                Hs1) as [(st2 & Hf2 & Hs2a & Hs2b)|Hf2].
    { intros st k Hk%elem_of_seq Hs. apply mid_loop_shaped; [done | lia]. }
    + rewrite Hf2. simpl. left. by exists st2.1, st2.2.
    + rewrite Hf2. by right.
  - apply floyd_warshall_returns.
Qed.

(** ** Floyd-Warshall: the successor and the paths it spells *)

(** X4: on a graph without negative cycle, in the matrices that
    [floyd_warshall] returns, the successor of [u] towards [v] is the head
    of a shortest path: it is joined to [u] by an edge, the lightest one of
    the pair has some weight [w], and the distance from the successor to
    [v] is [dist[u][v] - w]. *)
Theorem floyd_warshall_successor
    (vertices : list string) (edges : list edge)
    (dist : list (list num)) (pos : gmap string nat)
    (next_node : list (list (option string))) :
  NoDup vertices → closed_edges vertices edges → ¬ negative_cycle edges →
  FW.floyd_warshall vertices edges = Ok (dist, pos, next_node) →
  ∀ u v i j d,
    pos !! u = Some i → pos !! v = Some j → u ≠ v →
    mlookup dist i j = Some (Int d) →
    ∃ x k w, mlookup next_node i j = Some (Some x)
             ∧ pos !! x = Some k
             ∧ (u, x, w) ∈ edges
             ∧ edge_weight edges u x = Int w
             ∧ mlookup dist k j = Some (Int (d - w)).
Proof.
  intros Hnd Hclosed Hno Hfw.
  destruct (floyd_warshall_good vertices edges _ _ _ Hnd Hclosed Hno Hfw)
    as (c & P & -> & Hrepr & Hg).
  intros u v i j d Hi Hj Hne Hd.
  apply make_pos_lookup in Hi; last done.
  apply make_pos_lookup in Hj; last done.
  assert (u ∈ vertices) as Hu by (by eapply list_elem_of_lookup_2).
  assert (v ∈ vertices) as Hv by (by eapply list_elem_of_lookup_2).
  destruct Hrepr as (Hs1 & Hs2 & Hc).
  destruct (Hc i j u v Hi Hj) as [Hd' Hn']. simpl in Hd', Hn'.
  rewrite Hd in Hd'. injection Hd' as Hcd. symmetry in Hcd.
  destruct (good_head vertices edges Hclosed _ _ _ _ _ _ Hg Hu Hv Hne Hcd)
    as (e & HP & Hn & Hx & He & Hs & Hxv & Hwx).
  destruct (repr_cell vertices Hnd c dist next_node (conj Hs1 (conj Hs2 Hc))
              (tgt e) v Hxv Hv) as (k & j' & Hk & Hj' & Hdk & _).
  apply make_pos_lookup in Hj'; last done.
  assert (j' = j) as -> by (eapply NoDup_lookup; eauto).
  assert (edge_weight edges (src e) (tgt e) = Int (wt e)) as Hew.
  { apply edge_weight_min; first done. intros e' He' Hs' Ht'.
    assert (num_le (c u v).1 (Int (weight (e' :: P (tgt e) v)))) as Hlow.
    { apply (good_lower _ _ _ _ _ Hg); try done.
      - simpl. rewrite Ht'. split_and!; try done. congruence.
      - intros y Hy. apply inter_verts with (a := u) in Hy.
        apply (walk_verts_closed edges vertices u (e' :: P (tgt e) v) v
                 Hclosed Hu); last done.
        simpl. rewrite Ht'. split_and!; try done. congruence. }
    rewrite Hcd in Hlow. simpl in Hlow.
    destruct (good_path _ _ _ _ _ Hg _ _ _ Hxv Hv Hx) as (_ & Hwt & _).
    rewrite Hwt in Hlow. apply Z.ltb_ge in Hlow. lia. }
  exists (tgt e), k, (wt e). rewrite Hn', Hn, Hdk, Hx.
  split_and!; try done.
  - rewrite <- Hs. by destruct e as [[a b] z].
  - by rewrite <- Hs.
Qed.

(** X5: on a graph without negative cycle, on the matrices that
    [floyd_warshall] returns, the path that [reconstruct_path] returns
    visits no vertex twice, and from any of its vertices on it is the path
    that [reconstruct_path] returns for this vertex and the same target. *)
Theorem reconstruct_path_suffix
    (vertices : list string) (edges : list edge)
    (dist : list (list num)) (pos : gmap string nat)
    (next_node : list (list (option string))) :
  NoDup vertices → closed_edges vertices edges → ¬ negative_cycle edges →
  FW.floyd_warshall vertices edges = Ok (dist, pos, next_node) →
  ∀ u v, u ∈ vertices → v ∈ vertices →
    ∃ path,
      (∀ fuel, (length vertices - 1 ≤ fuel)%nat →
         FW.reconstruct_path fuel u v vertices pos next_node
         = Some (Ok path))
      ∧ NoDup path
      ∧ ∀ y, y ∈ path →
          ∃ pre rest,
            path = pre ++ y :: rest
            ∧ ∀ fuel, (length vertices - 1 ≤ fuel)%nat →
                FW.reconstruct_path fuel y v vertices pos next_node
                = Some (Ok (y :: rest)).
Proof.
  intros Hnd Hclosed Hno Hfw.
  destruct (floyd_warshall_good vertices edges _ _ _ Hnd Hclosed Hno Hfw)
    as (c & P & -> & Hrepr & Hg).
  intros u v Hu Hv. destruct (c u v).1 as [d|] eqn:Hd.
  2:{ exists []. split_and!.
      - intros fuel _.
        by apply (reconstruct_path_none vertices edges Hnd c P Hg
                    dist next_node Hrepr u v).
      - apply NoDup_nil_2.
      - intros y Hy. by apply elem_of_nil in Hy. }
  exists (verts u (P u v)). split_and!.
  - intros fuel Hfuel.
    by apply (reconstruct_path_good vertices edges Hnd Hclosed c P Hg
                dist next_node Hrepr u v d).
  - by apply (good_simple vertices edges Hclosed c P Hg v (length (P u v))
                u d).
  - intros y Hy.
    destruct (good_suffix vertices edges Hclosed c P Hg v (length (P u v))
                u d (reflexivity _) Hu Hv Hd y Hy)
      as (pre & dy & Hpre & Hdy & Hyv).
    destruct (good_path _ _ _ _ _ Hg u v d Hu Hv Hd) as (Hw & _ & _).
    destruct (good_path _ _ _ _ _ Hg y v dy Hyv Hv Hdy) as (Hwy & _ & _).
    rewrite Hpre in Hw. apply walk_app_inv in Hw as (m & Hw1 & Hw2).
    assert (m = y) as ->.
    { destruct (P y v) as [|e q]; simpl in *; first congruence.
      destruct Hw2 as (_ & <- & _). by destruct Hwy as (_ & <- & _). }
    pose proof (walk_last edges u pre y Hw1) as Hlast.
    unfold verts in Hlast.
    destruct (last_Some (u :: map tgt pre) y) as [[pre0 Hpre0] _];
      first done.
    exists pre0, (map tgt (P y v)). split.
    + unfold verts. rewrite Hpre, map_app, app_comm_cons, Hpre0.
      by rewrite <- app_assoc.
    + intros fuel Hfuel.
      by apply (reconstruct_path_good vertices edges Hnd Hclosed c P Hg
                  dist next_node Hrepr y v dy).
Qed.

(** ** Floyd-Warshall on any graph: the diagonal and the negative cycles *)

(** Every finite entry is the weight of a walk. *)
Definition sound (edges : list edge) (c : cellfn) : Prop :=
  ∀ u v d, (c u v).1 = Int d → ∃ es, walk edges u es v ∧ weight es = d.

(** [c'] is below [c] in every cell. *)
Definition below (c' c : cellfn) : Prop :=
  ∀ u v, num_le (c' u v).1 (c u v).1.

(** The table is below the weight of every walk through [L]. *)
Definition lower_through (vertices : list string) (edges : list edge)
  (L : list string) (c : cellfn) : Prop :=
  ∀ u v es, u ∈ vertices → walk edges u es v → inter es ⊆ L →
            num_le (c u v).1 (Int (weight es)).

Lemma sound_diag edges : sound edges c_diag.
Proof.
  intros u v d. unfold c_diag. case_decide as Heq; last done.
  intros [= <-]. by exists [].
Qed.

Lemma sound_init_edge edges c e :
  e ∈ edges → sound edges c → sound edges (init_edge_fn c e).
Proof.
  intros He Hc u v d. unfold init_edge_fn.
  case_decide as Heq; last by apply Hc. destruct Heq as [-> ->]. simpl.
  unfold num_min. destruct (num_ltb _ _) eqn:Hlt; last by apply Hc.
  intros [= <-]. exists [e]. split; last (simpl; lia). by apply walk_edge.
Qed.

Lemma sound_step edges m u c v : sound edges c → sound edges (step_fn m u c v).
Proof.
  intros Hc. unfold step_fn. destruct (num_ltb _ _) eqn:Hlt; last done.
  intros u' v' d. case_decide as Heq; last by apply Hc.
  destruct Heq as [-> ->]. simpl.
  destruct (c u m).1 as [a|] eqn:Ha; last done.
  destruct (c m v).1 as [b|] eqn:Hb; last done.
  intros [= <-].
  destruct (Hc _ _ _ Ha) as (p & Hp & <-).
  destruct (Hc _ _ _ Hb) as (q & Hq & <-).
  exists (p ++ q). split; first by eapply walk_app. by rewrite weight_app.
Qed.

Lemma sound_fw vertices edges : sound edges (fw_fn vertices edges).
Proof.
  unfold fw_fn, init_fn, mid_fn, row_fn.
  apply foldl_inv.
  - apply (foldl_prefix_inv (fun _ c => sound edges c));
      first apply sound_diag.
    intros l1 e l2 c Hl Hc. apply sound_init_edge; last done.
    rewrite Hl. apply elem_of_app. right. apply list_elem_of_here.
  - intros c m _ Hc. apply foldl_inv; first done.
    intros c1 u _ Hc1. apply foldl_inv; first done.
    intros c2 v _. apply sound_step.
Qed.

Lemma below_refl c : below c c.
Proof. intros u v. apply num_le_refl. Qed.

Lemma below_trans c1 c2 c3 : below c1 c2 → below c2 c3 → below c1 c3.
Proof. intros H1 H2 u v. eapply num_le_trans; [apply H1 | apply H2]. Qed.

Lemma below_foldl {A : Type} (g : cellfn → A → cellfn) (l : list A) :
  (∀ c x, below (g c x) c) → ∀ c, below (foldl g c l) c.
Proof.
  intros Hg. induction l as [|x l IH]; intros c; first apply below_refl.
  simpl. eapply below_trans; [apply IH | apply Hg].
Qed.

Lemma below_step m u c v : below (step_fn m u c v) c.
Proof.
  unfold step_fn. destruct (num_ltb _ _) eqn:Hlt; last apply below_refl.
  intros u' v'. case_decide as Heq; last apply num_le_refl.
  destruct Heq as [-> ->]. simpl. by apply num_ltb_le.
Qed.

Lemma below_mid vertices c m : below (mid_fn vertices c m) c.
Proof.
  unfold mid_fn, row_fn. apply below_foldl. intros c1 u.
  apply below_foldl. intros c2 v. apply below_step.
Qed.

Lemma init_edge_le (edges : list edge) :
  ∀ e, e ∈ edges →
       num_le (init_fn edges (src e) (tgt e)).1 (Int (wt e)).
Proof.
  unfold init_fn.
  apply (foldl_prefix_inv
           (fun l c => ∀ e, e ∈ l → num_le (c (src e) (tgt e)).1 (Int (wt e)))).
  - intros e He. by apply elem_of_nil in He.
  - intros l1 e l2 c Hl Hc e' He'. unfold init_edge_fn.
    case_decide as Heq.
    + destruct Heq as [Hs Ht]. simpl.
      apply elem_of_app in He' as [He'|He'%list_elem_of_singleton].
      * specialize (Hc e' He'). rewrite Hs, Ht in Hc |- *. unfold num_min.
        destruct (num_ltb _ _) eqn:Hlt; last done.
        eapply num_le_trans; last done. by apply num_ltb_le.
      * subst e'. unfold num_min.
        destruct (num_ltb _ _) eqn:Hlt; first apply num_le_refl. done.
    + apply elem_of_app in He' as [He'|He'%list_elem_of_singleton];
        first by apply Hc.
      subst e'. by destruct Heq.
Qed.

Lemma coherent_init edges : coherent (init_fn edges).
Proof.
  unfold init_fn. apply foldl_inv; first apply coherent_diag.
  intros c e _. apply coherent_init_edge.
Qed.

Section FloydWarshallAny.
Context (vertices : list string) (edges : list edge).
Hypothesis Hnd : NoDup vertices.
Hypothesis Hclosed : closed_edges vertices edges.

Lemma lower_through_init : lower_through vertices edges [] (init_fn edges).
Proof.
  intros u v es _ Hw Hin. destruct es as [|e [|e' es]].
  - simpl in Hw. subst. apply (coherent_init edges).
  - destruct Hw as (He & <- & Ht). simpl in Ht. subst v.
    simpl. replace (wt e + 0) with (wt e) by lia. by apply init_edge_le.
  - rewrite inter_cons in Hin by done.
    specialize (Hin (tgt e) (list_elem_of_here _ _)).
    by apply elem_of_nil in Hin.
Qed.

(** Walks from [m] that come back to [m] are not lighter, as long as the
    entry of [m] on the diagonal is not negative. *)
Lemma lower_through_from L c m :
  lower_through vertices edges L c → m ∈ vertices →
  num_ltb (c m m).1 (Int 0) = false →
  ∀ k es v, (length es ≤ k)%nat → walk edges m es v → inter es ⊆ L ++ [m] →
            num_le (c m v).1 (Int (weight es)).
Proof.
  intros Hlow Hm Hmm. induction k as [|k IH]; intros es v Hlen Hw Hin.
  - destruct es; simpl in *; last lia. rewrite <- Hw.
    apply (Hlow m m []); try done. intros x Hx. by apply elem_of_nil in Hx.
  - destruct (decide (m ∈ inter es)) as [Hmi|Hmi].
    + destruct (inter_split edges _ _ _ _ Hw Hmi)
        as (p & q & -> & Hp & Hq & Hwp & Hwq & Hnp & Hip & Hiq).
      rewrite weight_app.
      assert (num_le (c m m).1 (Int (weight p))) as Hc.
      { apply Hlow; try done. intros x Hx.
        pose proof (Hin x (Hip x Hx)) as Hx'.
        apply elem_of_app in Hx' as [?|Heq%list_elem_of_singleton];
          first done.
        by subst. }
      assert (num_le (c m v).1 (Int (weight q))) as Hle.
      { apply IH; try done.
        - rewrite length_app in Hlen. destruct p; simpl in *; [done | lia].
        - intros x Hx. apply Hin. by apply Hiq. }
      destruct (c m v).1, (c m m).1; num_cases.
    + apply Hlow; try done.
      intros x Hx. specialize (Hin x Hx).
      apply elem_of_app in Hin as [?|Heq%list_elem_of_singleton]; first done.
      by subst.
Qed.

Lemma lower_through_upd L c m :
  lower_through vertices edges L c → m ∈ vertices →
  num_ltb (c m m).1 (Int 0) = false →
  lower_through vertices edges (L ++ [m]) (mid_fn vertices c m).
Proof.
  intros Hlow Hm Hmm u v es Hu Hw Hin.
  rewrite (mid_fn_upd vertices m c Hnd Hmm u v Hu)
    by (by eapply walk_end_closed).
  destruct (decide (m ∈ inter es)) as [Hmi|Hmi].
  - destruct (inter_split edges _ _ _ _ Hw Hmi)
      as (p & q & -> & Hp & Hq & Hwp & Hwq & Hnp & Hip & Hiq).
    assert (num_le (c u m).1 (Int (weight p))) as H1.
    { apply Hlow; try done.
      intros x Hx. pose proof (Hin x (Hip x Hx)) as Hx'.
      apply elem_of_app in Hx' as [?|Heq%list_elem_of_singleton]; first done.
      by subst. }
    assert (num_le (c m v).1 (Int (weight q))) as H2.
    { apply (lower_through_from L c m Hlow Hm Hmm (length q)); try done.
      intros x Hx. apply Hin. by apply Hiq. }
    pose proof (upd_le_via m c u v) as H3. rewrite weight_app.
    destruct (upd m c u v).1, (c u m).1, (c m v).1; num_cases.
  - eapply num_le_trans; first apply upd_le_old.
    apply Hlow; try done.
    intros x Hx. specialize (Hin x Hx).
    apply elem_of_app in Hin as [?|Heq%list_elem_of_singleton]; first done.
    by subst.
Qed.

(** When no entry of the diagonal is negative at the end, none was
    negative before, and the table is below the weight of every walk. *)
Lemma lower_through_fw :
  (∀ u, u ∈ vertices →
        num_ltb (fw_fn vertices edges u u).1 (Int 0) = false) →
  lower_through vertices edges vertices (fw_fn vertices edges).
Proof.
  intros Hdiag. unfold fw_fn.
  set (Q := fun (L : list string) (c : cellfn) =>
              lower_through vertices edges L c
              ∧ c = foldl (mid_fn vertices) (init_fn edges) L).
  assert (Q vertices (foldl (mid_fn vertices) (init_fn edges) vertices))
    as [H _]; last done.
  apply (foldl_prefix_inv Q).
  - split; [apply lower_through_init | done].
  - intros L m l2 c Hl [Hlow Hc]. split; last by rewrite foldl_snoc, <- Hc.
    assert (m ∈ vertices) as Hm.
    { rewrite Hl. apply elem_of_app. right. apply list_elem_of_here. }
    apply lower_through_upd; try done.
    assert (below (fw_fn vertices edges) c) as Hb.
    { unfold fw_fn. rewrite Hl at 2. rewrite foldl_app, <- Hc.
      apply below_foldl. intros c1 x. apply below_mid. }
    specialize (Hb m m). specialize (Hdiag m Hm).
    destruct (fw_fn vertices edges m m).1, (c m m).1; num_cases.
Qed.
End FloydWarshallAny.

(** X6: [floyd_warshall] has no error for a negative cycle; the distance
    matrix that it returns shows the cycle: the graph has a negative cycle
    exactly when some entry of the diagonal is negative. *)
Theorem floyd_warshall_negative_diagonal
    (vertices : list string) (edges : list edge)
    (dist : list (list num)) (pos : gmap string nat)
    (next_node : list (list (option string))) :
  NoDup vertices → closed_edges vertices edges →
  FW.floyd_warshall vertices edges = Ok (dist, pos, next_node) →
  negative_cycle edges ↔ ∃ i d, mlookup dist i i = Some (Int d) ∧ d < 0.
Proof.
  intros Hnd Hclosed Hfw.
  destruct (floyd_warshall_returned vertices edges Hnd Hclosed _ _ _ Hfw)
    as (_ & Hs1 & Hs2 & Hc).
  set (c := fw_fn vertices edges) in *. split.
  - intros (a & cyc & Hcyc & Hneg).
    assert (a ∈ vertices) as Ha.
    { destruct cyc as [|e cyc]; first (simpl in Hneg; lia).
      destruct Hcyc as (He & <- & _).
      by destruct (closed_edges_elem _ _ _ Hclosed He). }
    destruct (Forall_Exists_dec
                (fun u => num_ltb (c u u).1 (Int 0) = false)
                (fun u => num_ltb (c u u).1 (Int 0) = true)
                (fun u => match num_ltb (c u u).1 (Int 0) as b
                                return {b = false} + {b = true} with
                          | true => right eq_refl
                          | false => left eq_refl
                          end) vertices) as [Hall|Hex].
    + exfalso. rewrite Forall_forall in Hall.
      pose proof (lower_through_fw vertices edges Hnd Hclosed Hall a a cyc Ha
                    Hcyc) as Hlow.
      specialize (Hall a Ha). fold c in Hlow.
      assert (inter cyc ⊆ vertices) as Hin.
      { intros x Hx. apply inter_verts with (a := a) in Hx.
        by apply (walk_verts_closed edges vertices a cyc a Hclosed Ha). }
      specialize (Hlow Hin). destruct (c a a).1; num_cases.
    + apply Exists_exists in Hex as (u & Hu & Hlt).
      apply list_elem_of_lookup in Hu as [i Hi].
      destruct (Hc i i u u Hi Hi) as [Hd _]. simpl in Hd.
      destruct (c u u).1 as [d|] eqn:Hcu; last done.
      exists i, d. split; first done. simpl in Hlt. by apply Z.ltb_lt in Hlt.
  - intros (i & d & Hd & Hneg).
    assert (i < length vertices)%nat as Hi.
    { unfold mlookup in Hd. destruct (dist !! i) as [r|] eqn:Hr; last done.
      destruct Hs1 as [<- _]. by eapply lookup_lt_Some. }
    destruct (lookup_lt_is_Some_2 vertices i Hi) as [u Hu].
    destruct (Hc i i u u Hu Hu) as [Hd' _]. simpl in Hd'.
    rewrite Hd in Hd'. injection Hd' as Hcu. symmetry in Hcu.
    destruct (sound_fw vertices edges u u d Hcu) as (es & Hw & Hwt).
    exists u, es. split; [done | lia].
Qed.

(** ** Floyd-Warshall without negative cycle: the distances as a metric *)

Lemma walk_rev edges es : ∀ a b,
  symmetric edges → walk edges a es b →
  walk edges b (rev (map rev_edge es)) a
  ∧ weight (rev (map rev_edge es)) = weight es.
Proof.
  induction es as [|e es IH]; intros a b Hsym Hw.
  - simpl in *. by subst.
  - destruct Hw as (He & <- & Hw). destruct (IH _ _ Hsym Hw) as [Hr Hwt].
    simpl. split.
    + eapply walk_app; first done. simpl. split_and!; try done.
      unfold symmetric in Hsym. rewrite Forall_forall in Hsym. by apply Hsym.
    + rewrite weight_app, Hwt. simpl. unfold wt, rev_edge. simpl. lia.
Qed.

Lemma min_walk_weight_sym edges a b d :
  symmetric edges → min_walk_weight edges a b d → min_walk_weight edges b a d.
Proof.
  intros Hsym. destruct d as [z|]; simpl.
  - intros [(es & Hw & Hwt) Hmin]. split.
    + destruct (walk_rev edges es a b Hsym Hw) as [Hr Hwr].
      eexists. split; first done. lia.
    + intros es' Hw'. destruct (walk_rev edges es' b a Hsym Hw') as [Hr Hwr].
      specialize (Hmin _ Hr). lia.
  - intros Hnr [es Hw]. apply Hnr.
    destruct (walk_rev edges es b a Hsym Hw) as [Hr _]. by eexists.
Qed.

(** X7: on a graph without negative cycle the matrix [dist] that
    [floyd_warshall] returns is a metric on the vertices: [0] on the
    diagonal, with the triangle inequality through every vertex, where the
    two distances through a vertex are finite so is the direct one and it
    is at most their sum, and symmetric when every edge is listed in both
    directions. *)
Theorem floyd_warshall_metric
    (vertices : list string) (edges : list edge)
    (dist : list (list num)) (pos : gmap string nat)
    (next_node : list (list (option string))) :
  NoDup vertices → closed_edges vertices edges → ¬ negative_cycle edges →
  FW.floyd_warshall vertices edges = Ok (dist, pos, next_node) →
  ∀ i j k,
    (i < length vertices)%nat → (j < length vertices)%nat →
    (k < length vertices)%nat →
    ∃ dij dik dkj,
      mlookup dist i j = Some dij ∧ mlookup dist i k = Some dik
      ∧ mlookup dist k j = Some dkj
      ∧ mlookup dist i i = Some (Int 0)
      ∧ (∀ a b, dik = Int a → dkj = Int b →
           ∃ d, dij = Int d ∧ d ≤ a + b)
      ∧ (symmetric edges → mlookup dist j i = Some dij).
Proof.
  intros Hnd Hclosed Hno Hfw.
  destruct (floyd_warshall_good vertices edges _ _ _ Hnd Hclosed Hno Hfw)
    as (c & P & _ & (Hs1 & Hs2 & Hc) & Hg).
  intros i j k Hi Hj Hk.
  destruct (lookup_lt_is_Some_2 vertices i Hi) as [u Hu].
  destruct (lookup_lt_is_Some_2 vertices j Hj) as [v Hv].
  destruct (lookup_lt_is_Some_2 vertices k Hk) as [m Hm].
  assert (u ∈ vertices) as Huv by (by eapply list_elem_of_lookup_2).
  assert (v ∈ vertices) as Hvv by (by eapply list_elem_of_lookup_2).
  assert (m ∈ vertices) as Hmv by (by eapply list_elem_of_lookup_2).
  destruct (Hc i j u v Hu Hv) as [Hij _].
  destruct (Hc i k u m Hu Hm) as [Hik _].
  destruct (Hc k j m v Hm Hv) as [Hkj _].
  destruct (Hc i i u u Hu Hu) as [Hii _].
  destruct (Hc j i v u Hv Hu) as [Hji _].
  simpl in *.
  pose proof (good_min_walk_weight vertices edges Hclosed c P Hg) as Hmin.
  exists (c u v).1, (c u m).1, (c m v).1. split_and!; try done.
  - by rewrite Hii, (proj1 (good_diag _ _ _ _ _ Hg u Huv)).
  - pose proof (Hmin u v Huv Hvv) as Huvm.
    pose proof (Hmin u m Huv Hmv) as Humm.
    pose proof (Hmin m v Hmv Hvv) as Hmvm.
    intros a b Ha Hb. rewrite Ha in Humm. rewrite Hb in Hmvm.
    simpl in Humm, Hmvm.
    destruct Humm as [(p & Hp & <-) _]. destruct Hmvm as [(q & Hq & <-) _].
    pose proof (walk_app edges _ _ _ _ _ Hp Hq) as Hpq.
    destruct (c u v).1 as [z|]; simpl in Huvm.
    + destruct Huvm as [_ Hle]. specialize (Hle _ Hpq).
      rewrite weight_app in Hle. exists z. split; [done | lia].
    + destruct Huvm. by eexists.
  - intros Hsym. rewrite Hji. f_equal.
    apply (min_walk_weight_unique edges v u); first by apply Hmin.
    apply min_walk_weight_sym; first done. by apply Hmin.
Qed.

(** ** Prim on a graph that need not be connected *)

Lemma prim_tree_nbr vertices edges root S F :
  prim_tree vertices edges root S F →
  (∀ e, e ∈ F → nbr edges (src e) (tgt e) (wt e))
  ∧ (∀ x, x ∈ S ↔ x = root ∨ x ∈ map tgt F).
Proof.
  induction 1 as [|S F p u w Ht [IH1 IH2] Hp Hu Huv Hn Hmin].
  - split.
    + intros e He. by apply elem_of_nil in He.
    + intros x. rewrite elem_of_singleton. simpl. split; first by left.
      intros [?|Hx]; [done | by apply elem_of_nil in Hx].
  - split.
    + intros e [->|He]%elem_of_cons; [done | by apply IH1].
    + intros x. rewrite elem_of_union, elem_of_singleton, IH2. simpl.
      rewrite elem_of_cons. unfold tgt at 1. simpl. tauto.
Qed.

(** When the heap is empty, no edge leaves the tree. *)
Lemma prim_tree_closed vertices edges root F st :
  root ∈ vertices → closed_edges vertices edges →
  outer vertices edges root F st → Prim.pq st = [] →
  ∀ es a b, walk (sym edges) a es b → a ∈ Prim.in_tree st →
            b ∈ Prim.in_tree st.
Proof.
  intros Hroot Hclosed Hinv Hpq.
  induction es as [|d es IH]; intros a b Hw Ha.
  - simpl in Hw. by subst.
  - destruct Hw as (Hd & Hs & Hw). apply (IH _ _ Hw).
    assert (nbr edges a (tgt d) (wt d)) as Hn.
    { subst a. destruct d as [[x y] z]. unfold src, tgt, wt. simpl.
      apply elem_of_sym in Hd as [?|?]; [by left | by right]. }
    destruct (pi_cov _ _ _ _ _ _ Hinv a (tgt d) (wt d) (conj Ha Hn))
      as [?|(w' & Hw' & _)]; first done.
    destruct (decide (tgt d ∈ Prim.in_tree st)) as [?|Hout]; first done.
    destruct (pi_out _ _ _ _ _ _ Hinv (tgt d) w'
                (proj2 (nbr_vertex vertices edges Hclosed _ _ _ Hn))
                Hout Hw') as (_ & _ & _ & _ & Hin).
    rewrite Hpq in Hin. by apply elem_of_nil in Hin.
Qed.

(** The edges that [prim] returns are those of the tree that the loop has
    grown, listed in the order of the vertices. *)
Lemma prim_run_tree vertices edges root rest :
  NoDup vertices → vertices = root :: rest → closed_edges vertices edges →
  ∃ st F M,
    (∀ fuel, (prim_fuel vertices edges ≤ fuel)%nat →
       Prim.prim fuel vertices edges
       = Some (Ok (Prim.Tree (map num_edge M) (Int (weight M)))))
    ∧ outer vertices edges root F st ∧ Prim.pq st = []
    ∧ M ≡ₚ F ∧ NoDup (map tgt M).
Proof.
  intros Hnd Hv Hclosed.
  assert (root ∈ vertices) as Hroot by (rewrite Hv; apply list_elem_of_here).
  destruct (prim_run vertices edges root rest Hv Hclosed)
    as (st & F & M & Hprim & Hout & Hpq & Hmem & Hsub).
  pose proof (pi_tree _ _ _ _ _ _ Hout) as Htree.
  destruct (prim_tree_inside vertices edges root Hroot _ F Htree)
    as (HrS & HSv & HFS & _ & Hreach).
  exists st, F, M. split_and!; try done; last by eapply sublist_NoDup.
  apply NoDup_Permutation.
  - apply (NoDup_fmap_1 tgt). by eapply sublist_NoDup.
  - apply (NoDup_fmap_1 tgt). by eapply prim_tree_nodup.
  - intros e. rewrite Hmem. split.
    + intros (Ht & Hp & Hw).
      assert (tgt e ≠ root) as Hr.
      { intros Heq. rewrite Heq, (pi_root _ _ _ _ _ _ Hout) in Hp. done. }
      assert (tgt e ∈ Prim.in_tree st) as Hin.
      { destruct (decide (tgt e ∈ Prim.in_tree st)) as [?|Hno]; first done.
        destruct (pi_out _ _ _ _ _ _ Hout (tgt e) (wt e) Ht Hno Hw)
          as (_ & _ & _ & _ & Hq).
        rewrite Hpq in Hq. by apply elem_of_nil in Hq. }
      destruct (pi_in _ _ _ _ _ _ Hout (tgt e) Hin Hr)
        as (p & w & Hp' & Hw' & HinF).
      rewrite Hp in Hp'. rewrite Hw in Hw'.
      injection Hp' as <-. injection Hw' as <-. by destruct e as [[a b] z].
    + intros He. destruct (pi_F _ _ _ _ _ _ Hout e He) as [Hp Hw].
      split_and!; try done. apply HSv. by apply (HFS e He).
Qed.

(** X8: on any graph whose edges have their endpoints among the vertices,
    connected or not, [prim] returns a tree on the vertices that the first
    vertex reaches.  Every returned edge joins two vertices that an edge of
    this weight joins in the graph; every vertex within reach of the first
    one, and no other vertex, is the second endpoint of exactly one returned
    edge, the first vertex of none; the returned edges connect these
    vertices; and the total is the sum of their weights. *)
Theorem prim_spans_component
    (vertices : list string) (edges : list edge) (root : string)
    (rest : list string) :
  NoDup vertices → vertices = root :: rest → closed_edges vertices edges →
  ∃ M,
    (∀ fuel, (prim_fuel vertices edges ≤ fuel)%nat →
       Prim.prim fuel vertices edges
       = Some (Ok (Prim.Tree (map num_edge M) (Int (weight M)))))
    ∧ (∀ e, e ∈ M → nbr edges (src e) (tgt e) (wt e))
    ∧ NoDup (map tgt M)
    ∧ (∀ v, v ∈ map tgt M ↔ v ≠ root ∧ reachable (sym edges) root v)
    ∧ (∀ v, reachable (sym edges) root v → reachable (sym M) root v).
Proof.
  intros Hnd Hv Hclosed.
  assert (root ∈ vertices) as Hroot by (rewrite Hv; apply list_elem_of_here).
  destruct (prim_run_tree vertices edges root rest Hnd Hv Hclosed)
    as (st & F & M & Hprim & Hout & Hpq & Hperm & Hndt).
  pose proof (pi_tree _ _ _ _ _ _ Hout) as Htree.
  destruct (prim_tree_inside vertices edges root Hroot _ F Htree)
    as (HrS & HSv & HFS & _ & Hreach).
  destruct (prim_tree_nbr vertices edges root _ F Htree) as [Hnbr HS].
  pose proof (prim_tree_closed vertices edges root F st Hroot Hclosed Hout Hpq)
    as Hcl.
  assert (∀ x, x ∈ Prim.in_tree st → reachable (sym edges) root x) as Hin.
  { intros x Hx. destruct (Hreach x Hx) as [es Hes]. exists es.
    apply (walk_incl _ _ _ _ _ Hes). intros d Hd.
    apply (walk_edges_in _ _ _ _ Hes) in Hd.
    apply elem_of_sym in Hd as [Hd|Hd]; apply Hnbr in Hd;
      destruct d as [[a b] z]; unfold src, tgt, wt, rev_edge in Hd;
      simpl in Hd; apply elem_of_sym; unfold rev_edge, src, tgt, wt; simpl;
      destruct Hd; tauto. }
  exists M. split_and!.
  - done.
  - intros e He. apply Hnbr. by rewrite <- Hperm.
  - done.
  - intros v. split.
    + intros Hvm.
      assert (v ∈ map tgt F) as HvF.
      { apply list_elem_of_fmap in Hvm as (e & -> & He).
        apply list_elem_of_fmap_2. by rewrite <- Hperm. }
      split.
      * intros ->. apply list_elem_of_fmap in HvF as (e & Heq & He).
        destruct (pi_F _ _ _ _ _ _ Hout e He) as [Hp _].
        rewrite <- Heq, (pi_root _ _ _ _ _ _ Hout) in Hp. done.
      * apply Hin, HS. by right.
    + intros [Hne [es Hes]].
      assert (v ∈ Prim.in_tree st) as HvS by (by apply (Hcl es root v)).
      apply HS in HvS as [?|HvF]; first done.
      apply list_elem_of_fmap in HvF as (e & -> & He).
      apply list_elem_of_fmap_2. by rewrite Hperm.
  - intros v [es Hes].
    assert (v ∈ Prim.in_tree st) as HvS by (by apply (Hcl es root v)).
    destruct (Hreach v HvS) as [p Hp]. exists p.
    apply (walk_incl _ _ _ _ _ Hp). intros d Hd.
    apply (walk_edges_in _ _ _ _ Hp) in Hd.
    apply elem_of_sym in Hd. apply elem_of_sym. by rewrite Hperm.
Qed.

(** ** The order of the input *)

Lemma walk_perm edges edges' a es b :
  edges ≡ₚ edges' → walk edges a es b ↔ walk edges' a es b.
Proof.
  intros Hp. split; intros Hw; apply (walk_incl _ _ _ _ _ Hw); intros d Hd;
    apply (walk_edges_in _ _ _ _ Hw) in Hd; [by rewrite <- Hp|by rewrite Hp].
Qed.

Lemma reachable_perm edges edges' a b :
  edges ≡ₚ edges' → reachable edges a b ↔ reachable edges' a b.
Proof.
  intros Hp. unfold reachable. by setoid_rewrite (walk_perm _ _ _ _ _ Hp).
Qed.

Lemma min_walk_weight_perm edges edges' a b d :
  edges ≡ₚ edges' → min_walk_weight edges a b d → min_walk_weight edges' a b d.
Proof.
  intros Hp. destruct d as [z|]; simpl.
  - intros [(es & Hw & Hz) Hle]. split.
    + exists es. split; last done. by apply (walk_perm _ _ _ _ _ Hp).
    + intros es' Hw'. apply Hle. by apply (walk_perm _ _ _ _ _ Hp).
  - intros Hnr Hr. apply Hnr. by apply (reachable_perm _ _ _ _ Hp).
Qed.

Lemma closed_edges_perm vertices vertices' edges edges' :
  vertices ≡ₚ vertices' → edges ≡ₚ edges' →
  closed_edges vertices edges → closed_edges vertices' edges'.
Proof.
  intros Hv He Hc. unfold closed_edges in *. rewrite <- He.
  eapply Forall_impl; first done. intros e [? ?]. by rewrite <- !Hv.
Qed.

Lemma sym_perm X X' : X ≡ₚ X' → sym X ≡ₚ sym X'.
Proof. intros Hp. unfold sym. by rewrite Hp. Qed.

Lemma connects_perm vertices vertices' X X' :
  vertices ≡ₚ vertices' → X ≡ₚ X' → connects vertices X → connects vertices' X'.
Proof.
  intros Hv HX Hc u v Hu Hvv.
  apply (reachable_perm _ _ _ _ (sym_perm _ _ HX)).
  apply Hc; by rewrite Hv.
Qed.

Lemma spanning_tree_order vertices vertices' edges edges' T :
  vertices ≡ₚ vertices' → edges ≡ₚ edges' →
  spanning_tree vertices edges T → spanning_tree vertices' edges' T.
Proof.
  intros Hv He (Hsub & Hlen & Hc). split_and!.
  - intros e Hin. rewrite <- He. by apply Hsub.
  - by rewrite <- Hv.
  - by apply (connects_perm vertices _ T).
Qed.

(** What [prim] returns on a connected undirected graph. *)
Lemma prim_run_minimum vertices edges :
  NoDup vertices → vertices ≠ [] → closed_edges vertices edges →
  symmetric edges → connects vertices edges →
  ∃ M,
    (∀ fuel, (prim_fuel vertices edges ≤ fuel)%nat →
       Prim.prim fuel vertices edges
       = Some (Ok (Prim.Tree (map num_edge M) (Int (weight M)))))
    ∧ spanning_tree vertices edges M
    ∧ ∀ T, spanning_tree vertices edges T → weight M ≤ weight T.
Proof.
  intros Hnd Hne Hclosed Hsym Hconn.
  destruct vertices as [|root rest] eqn:Hv; first done. rewrite <- Hv in *.
  assert (root ∈ vertices) as Hroot by (rewrite Hv; apply list_elem_of_here).
  destruct (prim_run_tree vertices edges root rest Hnd Hv Hclosed)
    as (st & F & M & Hprim & Hout & Hpq & Hperm & _).
  pose proof (prim_all_reached vertices edges root Hroot Hclosed F st
                Hout Hpq Hconn) as Hall.
  destruct (prim_tree_minimum vertices edges root Hnd Hroot Hclosed Hsym
              _ F (pi_tree _ _ _ _ _ _ Hout) Hall) as [Hspan Hmin].
  exists M. split_and!; first done.
  - by apply (spanning_tree_perm _ _ F).
  - intros T HT. rewrite (weight_perm _ _ Hperm). by apply Hmin.
Qed.

Lemma relax_dist_keys st b e st' b' :
  BF.relax (st, b) e = Ok (st', b') →
  ∀ x, is_Some (st'.1 !! x) ↔ is_Some (st.1 !! x).
Proof.
  destruct e as [[u v] w]. unfold BF.relax. simpl.
  destruct (getitem st.1 u) as [du|]; simpl; last done.
  destruct (num_add_weight du w) as [Hs|[Hs _]]; rewrite Hs; simpl;
    last done.
  unfold getitem. destruct (st.1 !! v) as [dv|] eqn:Hv; simpl; last done.
  destruct (num_ltb (num_plus du (Int w)) dv).
  - intros [= <- <-] x. simpl. destruct (decide (v = x)) as [->|Hne].
    + rewrite lookup_insert_eq, Hv. split; eauto.
    + by rewrite lookup_insert_ne.
  - by intros [= <- <-].
Qed.

Lemma pass_dist_keys l : ∀ st b st' b',
  foldM BF.relax (st, b) l = Ok (st', b') →
  ∀ x, is_Some (st'.1 !! x) ↔ is_Some (st.1 !! x).
Proof.
  induction l as [|e l IH]; intros st b st' b' Hf.
  - simpl in Hf. by injection Hf as <- <-.
  - rewrite foldM_cons in Hf.
    destruct (BF.relax (st, b) e) as [[st1 b1]|] eqn:Hr; last done.
    simpl in Hf. intros x. rewrite (IH _ _ _ _ Hf).
    by apply (relax_dist_keys _ _ _ _ _ Hr).
Qed.

Lemma passes_dist_keys edges k : ∀ st st',
  BF.passes edges k st = Ok st' →
  ∀ x, is_Some (st'.1 !! x) ↔ is_Some (st.1 !! x).
Proof.
  induction k as [|k IH]; intros st st' Hp.
  - simpl in Hp. by injection Hp as <-.
  - simpl in Hp.
    destruct (foldM BF.relax (st, false) edges) as [[st1 b1]|] eqn:Hf;
      last done.
    pose proof (pass_dist_keys _ _ _ _ _ Hf) as H1. destruct b1.
    + intros x. by rewrite (IH _ _ Hp).
    + by injection Hp as <-.
Qed.

(** The keys of the distances that [bellman_ford] returns are the vertices
    and the source. *)
Lemma bellman_ford_dist_keys vertices edges source st :
  BF.bellman_ford vertices edges source = Ok st →
  ∀ x, is_Some (st.1 !! x) ↔ known vertices source x.
Proof.
  unfold BF.bellman_ford. intros Hbf.
  destruct (BF.passes edges (length vertices - 1) _) as [st1|] eqn:Hp;
    last done.
  simpl in Hbf. destruct (foldM (BF.check st1.1) tt edges); last done.
  simpl in Hbf. injection Hbf as <-. intros x.
  rewrite (passes_dist_keys _ _ _ _ Hp). simpl.
  apply (keyed_init vertices source).
Qed.

(** X16: on a connected undirected graph the total weight that [prim]
    returns does not depend on the order of the vertices, so not on the
    root, nor on the order of the edges. *)
Theorem prim_total_weight_order
    (vertices vertices' : list string) (edges edges' : list edge) :
  NoDup vertices → vertices ≠ [] → closed_edges vertices edges →
  symmetric edges → connects vertices edges →
  vertices ≡ₚ vertices' → edges ≡ₚ edges' →
  ∃ M M',
    (∀ fuel, (prim_fuel vertices edges ≤ fuel)%nat →
       Prim.prim fuel vertices edges
       = Some (Ok (Prim.Tree (map num_edge M) (Int (weight M)))))
    ∧ (∀ fuel, (prim_fuel vertices' edges' ≤ fuel)%nat →
       Prim.prim fuel vertices' edges'
       = Some (Ok (Prim.Tree (map num_edge M') (Int (weight M')))))
    ∧ weight M = weight M'.
Proof.
  intros Hnd Hne Hclosed Hsym Hconn Hv He.
  destruct (prim_run_minimum vertices edges Hnd Hne Hclosed Hsym Hconn)
    as (M & Hprim & Hspan & Hmin).
  destruct (prim_run_minimum vertices' edges')
    as (M' & Hprim' & Hspan' & Hmin').
  - by rewrite <- Hv.
  - intros ->. apply Permutation_nil_r in Hv. done.
  - by apply (closed_edges_perm vertices _ edges).
  - unfold symmetric in *. rewrite <- He.
    eapply Forall_impl; first done. intros e Hin. by rewrite <- He.
  - by apply (connects_perm vertices _ edges).
  - exists M, M'. split_and!; try done.
    apply Z.le_antisymm.
    + apply Hmin. by apply (spanning_tree_order vertices' _ edges').
    + apply Hmin'. by apply (spanning_tree_order vertices _ edges).
Qed.

Lemma max_abs_least edges M :
  0 ≤ M → (∀ e, e ∈ edges → Z.abs (wt e) ≤ M) → max_abs edges ≤ M.
Proof.
  intros HM. induction edges as [|e l IH]; intros Hall; simpl; first done.
  apply Z.max_lub.
  - apply Hall, list_elem_of_here.
  - apply IH. intros x Hx. by apply Hall, list_elem_of_further.
Qed.

Lemma float_small_perm vertices vertices' edges edges' :
  vertices ≡ₚ vertices' → edges ≡ₚ edges' →
  float_small vertices edges → float_small vertices' edges'.
Proof.
  unfold float_small. intros Hv He Hsm.
  rewrite <- (Permutation_length Hv).
  assert (max_abs edges' ≤ max_abs edges) as Hle.
  { apply max_abs_least; first apply max_abs_nonneg.
    intros e Hin. apply max_abs_elem. by rewrite He. }
  pose proof (pow6_pos (length vertices)). nia.
Qed.

Lemma float_weights_perm edges edges' :
  edges ≡ₚ edges' → float_weights edges → float_weights edges'.
Proof. unfold float_weights. by intros ->. Qed.

(** X17: the distances that [bellman_ford] returns do not depend on the
    order of the vertices nor on the order of the edges: two runs that
    return agree on them.  When the weights convert to a float and no
    negative cycle is in reach of the source, which is a vertex, both runs
    return. *)
Theorem bellman_ford_order
    (vertices vertices' : list string) (edges edges' : list edge)
    (source : string) :
  closed_edges vertices edges →
  vertices ≡ₚ vertices' → edges ≡ₚ edges' →
  (float_weights edges → source ∈ vertices →
   ¬ negative_cycle_from edges source →
   (∃ st, BF.bellman_ford vertices edges source = Ok st)
   ∧ ∃ st', BF.bellman_ford vertices' edges' source = Ok st')
  ∧ ∀ dist parent dist' parent',
      BF.bellman_ford vertices edges source = Ok (dist, parent) →
      BF.bellman_ford vertices' edges' source = Ok (dist', parent') →
      dist = dist'.
Proof.
  intros Hclosed Hv He.
  assert (closed_edges vertices' edges') as Hclosed'
    by (by apply (closed_edges_perm vertices _ edges)).
  split.
  { intros Hfl Hsrc Hno.
    destruct (bellman_ford_ok _ _ _ Hclosed Hfl Hsrc Hno) as (st & Hok & _).
    destruct (bellman_ford_ok vertices' edges' source) as (st' & Hok' & _);
      try done.
    - by apply (float_weights_perm edges).
    - by rewrite <- Hv.
    - intros (c & es & Hr & Hw & Hneg). apply Hno. exists c, es. split_and!.
      + by apply (reachable_perm edges edges').
      + by apply (walk_perm edges edges').
      + done.
    - eauto. }
  intros dist parent dist' parent' Hok Hok'.
  destruct (bellman_ford_returned _ _ _ _ Hclosed Hok) as [Hinv Hst].
  destruct (bellman_ford_returned _ _ _ _ Hclosed' Hok') as [Hinv' Hst'].
  apply map_eq. intros v.
  destruct (dist !! v) as [d|] eqn:Hd, (dist' !! v) as [d'|] eqn:Hd'.
  - f_equal. apply (min_walk_weight_unique edges' source v).
    + apply (min_walk_weight_perm edges); first done.
      by apply (stable_min_walk_weight vertices edges source (dist, parent)).
    + by apply (stable_min_walk_weight vertices' edges' source
                  (dist', parent')).
  - assert (is_Some (dist' !! v)) as [? ?]; last congruence.
    apply (bellman_ford_dist_keys _ _ _ _ Hok').
    assert (is_Some (dist !! v)) as Hs by eauto.
    apply (bellman_ford_dist_keys _ _ _ _ Hok) in Hs.
    destruct Hs as [?|?]; [left; by rewrite <- Hv | by right].
  - assert (is_Some (dist !! v)) as [? ?]; last congruence.
    apply (bellman_ford_dist_keys _ _ _ _ Hok).
    assert (is_Some (dist' !! v)) as Hs by eauto.
    apply (bellman_ford_dist_keys _ _ _ _ Hok') in Hs.
    destruct Hs as [?|?]; [left; by rewrite Hv | by right].
  - done.
Qed.

(** X18: on a graph without negative cycle, the distance that
    [floyd_warshall] returns for a pair of vertices does not depend on the
    order of the vertices, which only moves its cell in the matrix, nor on
    the order of the edges: two runs that return agree on it.  On small
    weights both runs return. *)
Theorem floyd_warshall_order
    (vertices vertices' : list string) (edges edges' : list edge) :
  NoDup vertices → closed_edges vertices edges → ¬ negative_cycle edges →
  vertices ≡ₚ vertices' → edges ≡ₚ edges' →
  (float_small vertices edges →
   (∃ r, FW.floyd_warshall vertices edges = Ok r)
   ∧ ∃ r', FW.floyd_warshall vertices' edges' = Ok r')
  ∧ ∀ dist pos next_node dist' pos' next_node',
      FW.floyd_warshall vertices edges = Ok (dist, pos, next_node) →
      FW.floyd_warshall vertices' edges' = Ok (dist', pos', next_node') →
      ∀ u v, u ∈ vertices → v ∈ vertices →
        ∃ i j i' j' d,
          pos !! u = Some i ∧ pos !! v = Some j
          ∧ pos' !! u = Some i' ∧ pos' !! v = Some j'
          ∧ mlookup dist i j = Some d ∧ mlookup dist' i' j' = Some d.
Proof.
  intros Hnd Hclosed Hno Hv He.
  assert (NoDup vertices') as Hnd' by (by rewrite <- Hv).
  assert (closed_edges vertices' edges') as Hclosed'
    by (by apply (closed_edges_perm vertices _ edges)).
  assert (¬ negative_cycle edges') as Hno'.
  { intros (c & es & Hw & Hneg). apply Hno. exists c, es. split; last done.
    by apply (walk_perm edges edges'). }
  split.
  { intros Hsm. split; first by apply floyd_warshall_small.
    apply floyd_warshall_small; first done.
    by apply (float_small_perm vertices _ edges). }
  intros dist pos next_node dist' pos' next_node' Hfw Hfw'.
  destruct (floyd_warshall_good vertices edges _ _ _ Hnd Hclosed Hno Hfw)
    as (c & P & -> & Hrepr & Hg).
  destruct (floyd_warshall_good vertices' edges' _ _ _ Hnd' Hclosed' Hno' Hfw')
    as (c' & P' & -> & Hrepr' & Hg').
  intros u v Hu Hvv.
  destruct (repr_cell vertices Hnd c dist next_node Hrepr u v Hu Hvv)
    as (i & j & Hi & Hj & Hd & _).
  assert (u ∈ vertices') as Hu' by (by rewrite <- Hv).
  assert (v ∈ vertices') as Hv' by (by rewrite <- Hv).
  destruct (repr_cell vertices' Hnd' c' dist' next_node' Hrepr' u v Hu' Hv')
    as (i' & j' & Hi' & Hj' & Hd' & _).
  exists i, j, i', j', (c u v).1. split_and!; try done.
  rewrite Hd'. f_equal.
  apply (min_walk_weight_unique edges' u v).
  - by apply (good_min_walk_weight vertices' edges' Hclosed' c' P' Hg').
  - apply (min_walk_weight_perm edges); first done.
    by apply (good_min_walk_weight vertices edges Hclosed c P Hg).
Qed.

(** X19: [reconstruct_path] does not check its vertices.  With the
    positions of [floyd_warshall], a source that is no vertex raises
    [KeyError] for it.  With a source that is a vertex and a target that is
    none, the row of the source is read first: [IndexError] when
    [next_node] has no such row, otherwise [KeyError] for the target, as on
    every matrix of [n] rows. *)
Theorem reconstruct_path_unknown_vertex
    (fuel : nat) (u v : string) (vertices : list string)
    (next_node : list (list (option string))) :
  ¬ (u ∈ vertices ∧ v ∈ vertices) →
  FW.reconstruct_path fuel u v vertices (FW.make_pos vertices) next_node
  = Some (Raise (match FW.make_pos vertices !! u with
                 | None => KeyError (Some u)
                 | Some i =>
                     if decide (i < length next_node)%nat
                     then KeyError (Some v) else IndexError
                 end))
  ∧ (u ∉ vertices → FW.make_pos vertices !! u = None)
  ∧ (u ∈ vertices →
     ∃ i, FW.make_pos vertices !! u = Some i ∧ (i < length vertices)%nat).
Proof.
  intros Hno. split_and!.
  - unfold FW.reconstruct_path, FW.successor, getitem, list_get.
    destruct (FW.make_pos vertices !! u) as [i|] eqn:Hi; last done.
    assert (u ∈ vertices) as Hu by (apply make_pos_is_Some; eauto).
    simpl. destruct (decide (i < length next_node)%nat) as [Hlt|Hge].
    + destruct (lookup_lt_is_Some_2 next_node i Hlt) as [row ->]. simpl.
      destruct (FW.make_pos vertices !! v) as [j|] eqn:Hj; last done.
      destruct Hno. split; first done. apply make_pos_is_Some. eauto.
    + rewrite lookup_ge_None_2 by lia. done.
  - intros Hu. destruct (FW.make_pos vertices !! u) as [i|] eqn:Hi;
      last done.
    destruct Hu. apply make_pos_is_Some. eauto.
  - intros Hu. destruct (proj2 (make_pos_is_Some vertices u) Hu) as [i Hi].
    exists i. split; first done.
    by apply (lookup_lt_Some vertices i u), make_pos_Some.
Qed.

(** ** The reader: one line *)

Lemma foldO_cons {A S : Type} (f : S → A → outcome S) s x l :
  foldO f s (x :: l) = f s x ≫= fun s' => foldO f s' l.
Proof. done. Qed.

Lemma foldO_app {A S : Type} (f : S → A → outcome S) l1 : ∀ s l2,
  foldO f s (l1 ++ l2) = foldO f s l1 ≫= fun s' => foldO f s' l2.
Proof.
  induction l1 as [|x l1 IH]; intros s l2; first done.
  simpl. destruct (f s x) as [s1|e]; simpl; [apply IH | done].
Qed.

(** A line gives no edge when it has no delimiter, one edge when it has
    one, and fails on its second edge when it has more. *)
Lemma line_edges_cases delimiter edges line :
  Dot.line_edges delimiter edges line
  = match line with
    | [] | [_] => Done edges
    | [a; b] =>
        Done (edges ++ [(Str.strip a, delimiter, (Dot.label_of b).1,
                         (Dot.label_of b).2)])
    | _ :: _ :: _ :: _ => Fail AttributeError
    end.
Proof.
  destruct line as [|a [|b [|c rest]]]; try done.
  - unfold Dot.line_edges. simpl. unfold Dot.edge_step. simpl.
    by destruct (Dot.label_of b).
  - unfold Dot.line_edges. cbn [length map]. 
    replace (Datatypes.S (Datatypes.S (Datatypes.S (length rest))) - 1)%nat
      with (Datatypes.S (Datatypes.S (length rest))) by lia.
    cbn [seq]. rewrite !foldO_cons. unfold Dot.edge_step. simpl.
    destruct (Dot.label_of b). simpl. by destruct (Dot.label_of c).
Qed.

(** The type that an edge carries is the delimiter of the file. *)
Definition typed (delimiter : string) (r : Dot.raw_edge) : Prop :=
  r.1.1.2 = delimiter.

Lemma lines_edges delimiter lines : ∀ edges,
  Forall (typed delimiter) edges →
  (∃ edges', foldO (Dot.line_edges delimiter) edges lines = Done edges'
             ∧ Forall (typed delimiter) edges')
  ∨ foldO (Dot.line_edges delimiter) edges lines = Fail AttributeError.
Proof.
  induction lines as [|line lines IH]; intros edges He; first by left; eauto.
  rewrite foldO_cons, line_edges_cases.
  destruct line as [|a [|b [|c rest]]]; simpl; try by apply IH.
  - apply IH. apply Forall_app. split; first done. by apply Forall_singleton.
  - by right.
Qed.

Lemma lines_chain delimiter lines line : ∀ edges,
  line ∈ lines → (3 ≤ length line)%nat →
  foldO (Dot.line_edges delimiter) edges lines = Fail AttributeError.
Proof.
  induction lines as [|l lines IH]; intros edges Hin Hlen.
  - by apply elem_of_nil in Hin.
  - rewrite foldO_cons, line_edges_cases.
    apply elem_of_cons in Hin as [<-|Hin].
    + destruct line as [|a [|b [|c rest]]]; simpl in *; try lia. done.
    + destruct l as [|a [|b [|c rest]]]; simpl; try by apply IH. done.
Qed.

Lemma lines_skip delimiter l1 line l2 edges :
  (length line ≤ 1)%nat →
  foldO (Dot.line_edges delimiter) edges (l1 ++ line :: l2)
  = foldO (Dot.line_edges delimiter) edges (l1 ++ l2).
Proof.
  intros Hlen. rewrite !foldO_app.
  destruct (foldO (Dot.line_edges delimiter) edges l1) as [e1|]; last done.
  simpl. rewrite line_edges_cases.
  destruct line as [|a [|b rest]]; simpl in *; try done. lia.
Qed.

(** ** The reader: the edges and the set of the vertices *)

Section ReaderFacts.
Context (int : string → result Z) (is_directed : bool).

Definition delimiter_of : string :=
  (if is_directed then "->" else "--")%string.

Lemma collect_typed st u v w :
  Dot.collect int is_directed st (u, delimiter_of, v, w)
  = match Dot.int_of int w with
    | Raise e => Fail (Algo e)
    | Ok z =>
        Done (st.1 ++ (u, v, z) :: (if is_directed then [] else [(v, u, z)]),
              {[u]} ∪ {[v]} ∪ st.2)
    end.
Proof.
  unfold Dot.collect, delimiter_of.
  destruct (Dot.int_of int w) as [z|e]; last done.
  destruct is_directed; simpl; first done.
  by rewrite <- app_assoc.
Qed.

(** The invariant of the second loop. *)
Definition collected (st : list edge * gset string) : Prop :=
  (∀ e, e ∈ st.1 → src e ∈ st.2 ∧ tgt e ∈ st.2)
  ∧ (∀ x, x ∈ st.2 → ∃ e, e ∈ st.1 ∧ (src e = x ∨ tgt e = x))
  ∧ (is_directed = false → ∀ e, e ∈ st.1 → rev_edge e ∈ st.1).

Lemma collected_step st u v z :
  collected st →
  collected (st.1 ++ (u, v, z) :: (if is_directed then [] else [(v, u, z)]),
             {[u]} ∪ {[v]} ∪ st.2).
Proof.
  intros (Hc & Hv & Hs). split_and!; simpl.
  - intros e [He|He]%elem_of_app.
    + destruct (Hc e He). set_solver.
    + destruct is_directed.
      * apply list_elem_of_singleton in He as ->. unfold src, tgt. simpl.
        set_solver.
      * apply elem_of_cons in He as [He|He%list_elem_of_singleton];
          subst e; unfold src, tgt; simpl; set_solver.
  - intros x [[Hx|Hx]%elem_of_union|Hx]%elem_of_union;
      try apply elem_of_singleton in Hx as ->.
    + exists (u, v, z). split; last by left.
      apply elem_of_app. right. apply list_elem_of_here.
    + exists (u, v, z). split; last by right.
      apply elem_of_app. right. apply list_elem_of_here.
    + destruct (Hv x Hx) as (e & He & Hx'). exists e. split; last done.
      apply elem_of_app. by left.
  - intros -> e [He|He]%elem_of_app.
    + apply elem_of_app. left. by apply Hs.
    + apply elem_of_app. right.
      apply elem_of_cons in He as [He|He%list_elem_of_singleton];
        subst e; unfold rev_edge, src, tgt, wt; simpl.
      * apply list_elem_of_further, list_elem_of_here.
      * apply list_elem_of_here.
Qed.

Lemma collect_fold edges : ∀ st,
  Forall (typed delimiter_of) edges → collected st →
  (∃ st', foldO (Dot.collect int is_directed) st edges = Done st'
          ∧ collected st')
  ∨ ∃ s x, int s = Raise x
           ∧ foldO (Dot.collect int is_directed) st edges = Fail (Algo x).
Proof.
  induction edges as [|[[[u ty] v] w] edges IH]; intros st Ht Hst;
    first by left; eauto.
  apply Forall_cons in Ht as [Hty Ht]. unfold typed in Hty. simpl in Hty.
  subst ty. rewrite foldO_cons, collect_typed.
  destruct (Dot.int_of int w) as [z|e] eqn:Hw; simpl.
  - apply IH; first done. by apply collected_step.
  - right. destruct w as [s|z]; simpl in Hw; last done. by exists s, e.
Qed.
End ReaderFacts.

(** ** The reader: the sorted list of the vertices *)

#[global] Instance str_le_total : Total Str.le.
Proof. intros a b. apply String.leb_total. Qed.

Lemma sorted_elem_of (V : gset string) x : x ∈ Str.sorted V ↔ x ∈ V.
Proof.
  unfold Str.sorted. rewrite (merge_sort_Permutation Str.le).
  apply elem_of_elements.
Qed.

Lemma sorted_NoDup (V : gset string) : NoDup (Str.sorted V).
Proof.
  unfold Str.sorted. rewrite (merge_sort_Permutation Str.le).
  apply NoDup_elements.
Qed.

(** Strictly increasing in the order of [str]. *)
Definition increasing (l : list string) : Prop :=
  Sorted (fun a b => String.ltb a b = true) l.

Lemma le_ne_lt a b : Str.le a b → a ≠ b → String.ltb a b = true.
Proof.
  unfold Str.le, String.leb, String.ltb. intros Hle Hne.
  destruct (String.compare a b) eqn:Hc; try done.
  by apply String.compare_eq_iff in Hc.
Qed.

Lemma sorted_increasing (V : gset string) : increasing (Str.sorted V).
Proof.
  pose proof (sorted_NoDup V) as Hnd.
  pose proof (Sorted_merge_sort Str.le (elements V)) as Hs.
  fold (Str.sorted V) in Hs. unfold increasing.
  induction Hs as [|x l Hl IH Hhd]; first constructor.
  apply NoDup_cons in Hnd as [Hx Hnd]. constructor; first by apply IH.
  destruct Hhd as [|y l Hxy]; constructor.
  apply le_ne_lt; first done. intros ->. apply Hx, list_elem_of_here.
Qed.

(** ** The reader: the file as a whole *)

(** The lines between the first and the last one. *)
Lemma body_lines (header : string) (body : list string) (last : string) :
  take (length (header :: body ++ [last]) - 2) (tail (header :: body ++ [last]))
  = body.
Proof.
  simpl. rewrite length_app. simpl.
  replace (length body + 1 - 1)%nat with (length body) by lia.
  by rewrite take_app_length.
Qed.

Lemma read_dot_file_run int header rest :
  let d := Str.contains "digraph" header in
  ∀ edges,
    foldO (Dot.line_edges (delimiter_of d)) []
          (map (fun line => Str.split (delimiter_of d) (Dot.clean line))
               (take (length (header :: rest) - 2) rest)) = edges →
    Dot.read_dot_file int (header :: rest)
    = (edges ← edges;
       st ← foldO (Dot.collect int d) ([], ∅) edges;
       Done (d, st.1, Str.sorted st.2)).
Proof. intros d edges <-. unfold Dot.read_dot_file, delimiter_of. done. Qed.

(** How a run of [read_dot_file] ends. *)
Lemma read_dot_file_cases int header rest :
  let d := Str.contains "digraph" header in
  (∃ st, Dot.read_dot_file int (header :: rest)
         = Done (d, st.1, Str.sorted st.2)
         ∧ collected d st)
  ∨ Dot.read_dot_file int (header :: rest) = Fail AttributeError
  ∨ ∃ s x, int s = Raise x
           ∧ Dot.read_dot_file int (header :: rest) = Fail (Algo x).
Proof.
  intros d. rewrite (read_dot_file_run int header rest _ eq_refl). fold d.
  destruct (lines_edges (delimiter_of d)
              (map (fun line => Str.split (delimiter_of d) (Dot.clean line))
                   (take (length (header :: rest) - 2) rest)) [])
    as [(edges & -> & Hty)|Hf]; first constructor;
    last by (rewrite Hf; right; left).
  simpl.
  destruct (collect_fold int d edges ([], ∅) Hty)
    as [(st & -> & Hst)|(s & x & Hs & ->)].
  - split_and!; simpl.
    + intros e He. by apply elem_of_nil in He.
    + intros x Hx. by apply not_elem_of_empty in Hx.
    + intros _ e He. by apply elem_of_nil in He.
  - left. by exists st.
  - right. right. by exists s, x.
Qed.

(** What [read_dot_file] returns is what its second loop has collected. *)
Lemma read_dot_file_collected int content is_directed edges vertices :
  Dot.read_dot_file int content = Done (is_directed, edges, vertices) →
  ∃ st, edges = st.1 ∧ vertices = Str.sorted st.2 ∧ collected is_directed st.
Proof.
  destruct content as [|header rest]; first done. intros Hr.
  destruct (read_dot_file_cases int header rest)
    as [(st & Hd & Hc)|[Hf|(s & x & _ & Hf)]];
    rewrite Hr in *; try done.
  injection Hd as -> -> ->. by exists st.
Qed.

Lemma read_dot_file_graph int content is_directed edges vertices :
  Dot.read_dot_file int content = Done (is_directed, edges, vertices) →
  NoDup vertices ∧ closed_edges vertices edges
  ∧ (edges = [] → vertices = []).
Proof.
  intros Hr.
  destruct (read_dot_file_collected int content _ _ _ Hr)
    as (st & -> & -> & Hc & Hv & _).
  split_and!.
  - apply sorted_NoDup.
  - apply Forall_forall. intros e He. rewrite !sorted_elem_of. by apply Hc.
  - intros He. destruct (Str.sorted st.2) as [|v l] eqn:Hs; first done.
    assert (v ∈ Str.sorted st.2) as Hin
      by (rewrite Hs; apply list_elem_of_here).
    apply sorted_elem_of, Hv in Hin as (e & Hin & _).
    rewrite He in Hin. by apply elem_of_nil in Hin.
Qed.

(** X9: what [read_dot_file] returns is a graph as the three algorithms
    expect it.  The vertices are in strictly increasing order, so none is
    repeated; the endpoints of every edge are vertices; every vertex is an
    endpoint of an edge, so that a vertex which the file names in no edge
    is lost; and for a file that is not directed every edge is followed by
    its reverse. *)
Theorem read_dot_file_well_formed
    (int : string → result Z) (content : list string)
    (is_directed : bool) (edges : list edge) (vertices : list string) :
  Dot.read_dot_file int content = Done (is_directed, edges, vertices) →
  NoDup vertices ∧ increasing vertices
  ∧ closed_edges vertices edges
  ∧ (∀ v, v ∈ vertices → ∃ e, e ∈ edges ∧ (src e = v ∨ tgt e = v))
  ∧ (is_directed = false → symmetric edges).
Proof.
  intros Hr.
  destruct (read_dot_file_collected int content _ _ _ Hr)
    as (st & -> & -> & Hc & Hv & Hs).
  split_and!.
  - apply sorted_NoDup.
  - apply sorted_increasing.
  - apply Forall_forall. intros e He. rewrite !sorted_elem_of. by apply Hc.
  - intros v Hvv. apply Hv. by apply sorted_elem_of.
  - intros Hd. apply Forall_forall. by apply Hs.
Qed.

(** X10: [read_dot_file] fails with the error that [open] or [readlines]
    raises on the path, or on the lines of the file in three ways only:
    with [IndexError] on a file without lines, with [AttributeError], or
    with the error that [int] raises on a label.  The [AssertionError] of
    its last test is never raised: the type that every edge carries is the
    delimiter that the first line chose. *)
Theorem read_dot_file_failures
    (int : string → result Z) (file : outcome (list string)) (e : failure) :
  Dot.read_dot_path int file = Fail e →
  file = Fail e
  ∨ ∃ content,
      file = Done content
      ∧ ((content = [] ∧ e = Algo IndexError)
         ∨ e = AttributeError
         ∨ ∃ s x, int s = Raise x ∧ e = Algo x).
Proof.
  destruct file as [content|e']; simpl; last by intros [= ->]; left.
  intros Hr. right. exists content. split; first done.
  destruct content as [|header rest].
  { injection Hr as <-. by left. }
  destruct (read_dot_file_cases int header rest)
    as [(st & Hd & _)|[Hf|(s & x & Hs & Hf)]]; rewrite Hr in *; try done.
  - injection Hf as ->. right. by left.
  - injection Hf as ->. right. right. by exists s, x.
Qed.

(** X11: a line that holds the delimiter twice or more, as the chain
    [A -> B -> C], makes [read_dot_file] fail with [AttributeError]: the
    second edge of the line reads [line[1]], which the first edge has
    replaced by a list. *)
Theorem read_dot_file_chain
    (int : string → result Z) (header : string) (body : list string)
    (last line : string) :
  line ∈ body →
  (3 ≤ length (Str.split (delimiter_of (Str.contains "digraph" header))
                         (Dot.clean line)))%nat →
  Dot.read_dot_file int (header :: body ++ [last]) = Fail AttributeError.
Proof.
  intros Hin Hlen.
  rewrite (read_dot_file_run int header (body ++ [last]) _ eq_refl).
  pose proof (body_lines header body last) as Hb. simpl in Hb. simpl.
  rewrite Hb.
  rewrite (lines_chain _ _
             (Str.split (delimiter_of (Str.contains "digraph" header))
                        (Dot.clean line))); try done.
  apply list_elem_of_fmap. by exists line.
Qed.

Lemma split_go_none sep s :
  Str.contains sep s = false → Str.split_go sep 0 s = (s, []).
Proof.
  induction s as [|c s IH]; first done.
  cbn [Str.contains Str.split_go].
  intros [Hp Hc]%orb_false_iff. rewrite Hp. by rewrite (IH Hc).
Qed.

(** X12: a line of the body that does not hold the delimiter, once
    newlines and semicolons are removed, is passed over: a vertex on a line
    of its own, an attribute, a comment, or an edge written with the other
    delimiter.  The file reads as it does without the line. *)
Theorem read_dot_file_skips
    (int : string → result Z) (header : string) (l1 : list string)
    (line : string) (l2 : list string) (last : string) :
  Str.contains (delimiter_of (Str.contains "digraph" header))
               (Dot.clean line) = false →
  Dot.read_dot_file int (header :: l1 ++ line :: l2 ++ [last])
  = Dot.read_dot_file int (header :: l1 ++ l2 ++ [last]).
Proof.
  intros Hno.
  rewrite (read_dot_file_run int header (l1 ++ line :: l2 ++ [last]) _
             eq_refl).
  rewrite (read_dot_file_run int header (l1 ++ l2 ++ [last]) _ eq_refl).
  pose proof (body_lines header (l1 ++ line :: l2) last) as Hb1.
  pose proof (body_lines header (l1 ++ l2) last) as Hb2.
  rewrite <- !app_assoc in Hb1, Hb2. simpl in Hb1, Hb2. simpl.
  rewrite Hb1, Hb2, !map_app. simpl. rewrite lines_skip; first done.
  unfold Str.split. by rewrite split_go_none.
Qed.

(** X25: [read_dot_file] reads the first line for the word [digraph]
    only, and never reads the last line: two files with the same lines in
    between, whose first lines agree on this word, read alike, so that an
    edge written on the last line is lost.  A file of one line or two is
    the empty graph. *)
Theorem read_dot_file_first_last
    (int : string → result Z) (header header' : string)
    (body : list string) (last last' : string) :
  Str.contains "digraph" header = Str.contains "digraph" header' →
  Dot.read_dot_file int (header :: body ++ [last])
  = Dot.read_dot_file int (header' :: body ++ [last'])
  ∧ Dot.read_dot_file int [header]
    = Done (Str.contains "digraph" header, [], [])
  ∧ Dot.read_dot_file int [header; last]
    = Done (Str.contains "digraph" header, [], []).
Proof.
  intros Hd. split; last done.
  rewrite (read_dot_file_run int header _ _ eq_refl).
  rewrite (read_dot_file_run int header' _ _ eq_refl).
  pose proof (body_lines header body last) as H.
  pose proof (body_lines header' body last') as H'.
  simpl tail in H, H'. by rewrite H, H', Hd.
Qed.

(** ** The reader on the lines of an edge list *)

(** Every character of [s] satisfies [P]. *)
Fixpoint all_chars (P : ascii → bool) (s : string) : bool :=
  match s with
  | EmptyString => true
  | String c s' => P c && all_chars P s'
  end.

Lemma all_chars_app P s1 s2 :
  all_chars P (s1 ++ s2) = all_chars P s1 && all_chars P s2.
Proof.
  induction s1 as [|c s1 IH]; first done.
  simpl. rewrite IH. by rewrite andb_assoc.
Qed.

Lemma remove_app c s1 s2 :
  Str.remove c (s1 ++ s2) = (Str.remove c s1 ++ Str.remove c s2)%string.
Proof.
  induction s1 as [|x s1 IH]; first done.
  simpl. rewrite IH. by destruct (Ascii.eqb x c).
Qed.

Lemma remove_none c s :
  all_chars (fun x => negb (Ascii.eqb x c)) s = true → Str.remove c s = s.
Proof.
  induction s as [|x s IH]; first done.
  simpl. intros [Hx Hs]%andb_true_iff. apply negb_true_iff in Hx.
  rewrite Hx. by rewrite IH.
Qed.

Lemma rstrip_none s :
  all_chars (fun x => negb (Str.isspace x)) s = true → Str.rstrip s = s.
Proof.
  induction s as [|x s IH]; first done.
  simpl. intros [Hx Hs]%andb_true_iff. apply negb_true_iff in Hx.
  rewrite (IH Hs). destruct s; last done. by rewrite Hx.
Qed.

Lemma rstrip_snoc s c :
  Str.isspace c = false →
  Str.rstrip (s ++ String c EmptyString) = (s ++ String c EmptyString)%string.
Proof.
  intros Hc. induction s as [|x s IH]; first by simpl; rewrite Hc.
  simpl. rewrite IH. by destruct s.
Qed.

Lemma rstrip_space s c :
  Str.isspace c = true →
  Str.rstrip (s ++ String c EmptyString) = Str.rstrip s.
Proof.
  intros Hc. induction s as [|x s IH]; first by simpl; rewrite Hc.
  simpl. by rewrite IH.
Qed.

Lemma lstrip_none c s :
  Str.isspace c = false → Str.lstrip (String c s) = String c s.
Proof. intros Hc. simpl. by rewrite Hc. Qed.

Lemma drop_last_snoc s c :
  Str.drop_last (s ++ String c EmptyString) = s.
Proof.
  induction s as [|x s IH]; first done.
  simpl. rewrite IH. by destruct s.
Qed.

Lemma prefix_app sep s : String.prefix sep (sep ++ s) = true.
Proof.
  induction sep as [|c sep IH]; first by destruct s.
  simpl. destruct (ascii_dec c c); [done | congruence].
Qed.

Lemma prefix_head c0 sep c s :
  c ≠ c0 → String.prefix (String c0 sep) (String c s) = false.
Proof. intros Hne. simpl. destruct (ascii_dec c0 c); [congruence | done]. Qed.

Lemma split_go_skip sep s1 : ∀ s2,
  Str.split_go sep (String.length s1) (s1 ++ s2) = Str.split_go sep 0 s2.
Proof.
  induction s1 as [|c s1 IH]; intros s2; simpl; last apply IH.
  by destruct s2.
Qed.

(** The first part ends at the first occurrence of the separator when its
    first character does not occur before. *)
Lemma split_go_first c0 sep x y :
  all_chars (fun c => negb (Ascii.eqb c c0)) x = true →
  Str.split_go (String c0 sep) 0 (x ++ String c0 sep ++ y)
  = (x, Str.split (String c0 sep) y).
Proof.
  intros Hx. induction x as [|c x IH].
  - change (EmptyString ++ String c0 sep ++ y)%string
      with (String c0 (sep ++ y)).
    unfold Str.split. cbn [Str.split_go].
    assert (String.prefix (String c0 sep) (String c0 (sep ++ y)) = true)
      as -> by apply (prefix_app (String c0 sep) y).
    replace (String.length (String c0 sep) - 1)%nat with (String.length sep)
      by (simpl; lia).
    by rewrite split_go_skip.
  - simpl in Hx. apply andb_true_iff in Hx as [Hc Hx].
    apply negb_true_iff, Ascii.eqb_neq in Hc.
    change (String c x ++ String c0 sep ++ y)%string
      with (String c (x ++ String c0 sep ++ y)).
    cbn [Str.split_go]. rewrite prefix_head by done.
    by rewrite (IH Hx).
Qed.

Lemma contains_head c0 sep s :
  all_chars (fun c => negb (Ascii.eqb c c0)) s = true →
  Str.contains (String c0 sep) s = false.
Proof.
  induction s as [|c s IH]; first done.
  simpl all_chars. intros [Hc Hs]%andb_true_iff.
  apply negb_true_iff, Ascii.eqb_neq in Hc.
  cbn [Str.contains]. rewrite prefix_head by done. by apply IH.
Qed.

Lemma contains_app_head c0 sep x y :
  all_chars (fun c => negb (Ascii.eqb c c0)) x = true →
  Str.contains (String c0 sep) (x ++ y) = Str.contains (String c0 sep) y.
Proof.
  induction x as [|c x IH]; first done.
  simpl all_chars. intros [Hc Hx]%andb_true_iff.
  apply negb_true_iff, Ascii.eqb_neq in Hc.
  change (String c x ++ y)%string with (String c (x ++ y)).
  cbn [Str.contains]. rewrite prefix_head by done. by apply IH.
Qed.

(** A separator of two characters does not occur in [w] followed by a
    character that is not its second one. *)
Lemma contains_snoc c0 c1 w x :
  x ≠ c1 →
  Str.contains (String c0 (String c1 EmptyString)) w = false →
  Str.contains (String c0 (String c1 EmptyString))
               (w ++ String x EmptyString) = false.
Proof.
  intros Hx. induction w as [|c w IH].
  - intros _. simpl. destruct (ascii_dec c0 x); done.
  - change (String c w ++ String x EmptyString)%string
      with (String c (w ++ String x EmptyString)).
    cbn [Str.contains]. intros [Hp Hc]%orb_false_iff.
    rewrite (IH Hc), orb_false_r. simpl. simpl in Hp.
    destruct (ascii_dec c0 c); last done.
    destruct w as [|c' w]; simpl.
    + destruct (ascii_dec c1 x); [congruence | done].
    + simpl in Hp. destruct (ascii_dec c1 c'); last done. by destruct w.
Qed.

(** A label: no blank, no semicolon, no hyphen, and not empty. *)
Definition plain (c : ascii) : bool :=
  negb (Str.isspace c) && negb (Ascii.eqb c ";") && negb (Ascii.eqb c "-").

Definition word (s : string) : Prop :=
  s ≠ EmptyString ∧ all_chars plain s = true.

(** The text of a weight: no blank, no semicolon, and no delimiter. *)
Definition weight_text (delimiter w : string) : Prop :=
  all_chars (fun c => negb (Str.isspace c) && negb (Ascii.eqb c ";")) w = true
  ∧ Str.contains delimiter w = false.

Lemma all_chars_impl (P Q : ascii → bool) s :
  (∀ c, P c = true → Q c = true) → all_chars P s = true →
  all_chars Q s = true.
Proof.
  intros HPQ. induction s as [|c s IH]; first done.
  simpl. intros [Hc Hs]%andb_true_iff. by rewrite (HPQ c Hc), IH.
Qed.

Lemma plain_facts c :
  plain c = true →
  Str.isspace c = false ∧ c ≠ ";"%char ∧ c ≠ "-"%char ∧ c ≠ " "%char
  ∧ c ≠ "010"%char.
Proof.
  unfold plain. intros [[H1 H2]%andb_true_iff H3]%andb_true_iff.
  apply negb_true_iff in H1. apply negb_true_iff, Ascii.eqb_neq in H2.
  apply negb_true_iff, Ascii.eqb_neq in H3.
  split_and!; try done; intros ->; done.
Qed.

Ltac chars_of H :=
  eapply all_chars_impl; [|exact H];
  let c := fresh "c" in
  let Hc := fresh "Hc" in
  intros c Hc; simpl;
  try (apply plain_facts in Hc as (? & ? & ? & ? & ?));
  try (apply andb_true_iff in Hc as [?%negb_true_iff ?%negb_true_iff]);
  rewrite ?negb_true_iff, ?Ascii.eqb_neq;
  first [ done
        | by apply Ascii.eqb_neq
        | by (intros ->) ].

Lemma sapp_cons c (s1 s2 : string) :
  (String c s1 ++ s2)%string = String c (s1 ++ s2).
Proof. done. Qed.

Lemma sapp_nil (s : string) : (EmptyString ++ s)%string = s.
Proof. done. Qed.

Lemma sapp_assoc (s1 s2 s3 : string) :
  ((s1 ++ s2) ++ s3 = s1 ++ s2 ++ s3)%string.
Proof.
  induction s1 as [|c s1 IH]; first done. by rewrite !sapp_cons, IH.
Qed.

Lemma sapp_nil_r (s : string) : (s ++ EmptyString)%string = s.
Proof.
  induction s as [|c s IH]; first done. by rewrite sapp_cons, IH.
Qed.

Lemma rstrip_app_none x s :
  s ≠ EmptyString →
  all_chars (fun c => negb (Str.isspace c)) s = true →
  Str.rstrip (x ++ s) = (x ++ s)%string.
Proof.
  intros Hne Hs. induction x as [|c x IH]; first by apply rstrip_none.
  rewrite sapp_cons. cbn [Str.rstrip]. rewrite IH.
  destruct (x ++ s)%string eqn:Hxs; last done.
  destruct x; [by rewrite sapp_nil in Hxs | by rewrite sapp_cons in Hxs].
Qed.

Lemma lstrip_blank s : Str.lstrip (String " " s) = Str.lstrip s.
Proof. done. Qed.

Lemma word_head s :
  word s → ∃ c s', s = String c s' ∧ Str.isspace c = false.
Proof.
  intros [Hne Hs]. destruct s as [|c s']; first done.
  simpl in Hs. apply andb_true_iff in Hs as [Hc _].
  apply plain_facts in Hc as (? & _). by exists c, s'.
Qed.

Lemma strip_word_blank a :
  word a → Str.strip (a ++ " ") = a.
Proof.
  intros Ha. destruct (word_head a Ha) as (c & a' & -> & Hc).
  unfold Str.strip. rewrite sapp_cons, lstrip_none by done.
  rewrite <- sapp_cons, rstrip_space by done. apply rstrip_none.
  destruct Ha as [_ Ha]. chars_of Ha.
Qed.

(** An edge of a file: its endpoints and the text of its label. *)
Definition entry : Type := string * string * option string.

Definition entry_ok (delimiter : string) (t : entry) : Prop :=
  word t.1.1 ∧ word t.1.2
  ∧ match t.2 with
    | Some w => weight_text delimiter w
    | None => True
    end.

(** The second label and, when the edge has one, its label. *)
Definition tail_text (t : entry) : string :=
  (t.1.2
   ++ match t.2 with
      | Some w => " [label=" ++ w ++ "]"
      | None => EmptyString
      end)%string.

(** The line of an edge: [  a -- b [label=w];] and the end of the line. *)
Definition edge_line (delimiter : string) (t : entry) : string :=
  ("  " ++ t.1.1 ++ " " ++ delimiter ++ " " ++ tail_text t
   ++ ";" ++ String "010" EmptyString)%string.

Definition field_of (t : entry) : Dot.field :=
  match t.2 with
  | Some w => Dot.FStr w
  | None => Dot.FInt 1
  end.

Section EdgeLine.
Context (is_directed : bool) (t : entry).
Hypothesis Hok : entry_ok (delimiter_of is_directed) t.

Lemma tail_text_head :
  ∃ c s', tail_text t = String c s' ∧ Str.isspace c = false.
Proof.
  destruct Hok as (_ & Hb & _). unfold tail_text.
  destruct (word_head _ Hb) as (c & b' & -> & Hc).
  rewrite sapp_cons. by eexists _, _.
Qed.

Lemma tail_text_last :
  ∃ x y, tail_text t = (x ++ y)%string ∧ y ≠ EmptyString
         ∧ all_chars (fun c => negb (Str.isspace c)) y = true.
Proof.
  destruct Hok as (_ & [Hne Hb] & Hw). unfold tail_text.
  destruct t as [[a b] [w|]]; simpl in *.
  - exists (b ++ " [label=" ++ w)%string, "]"%string.
    split_and!; try done. by rewrite !sapp_assoc.
  - exists EmptyString, b. rewrite sapp_nil_r. split_and!; try done.
    chars_of Hb.
Qed.

Lemma tail_text_chars c :
  c = ";"%char ∨ c = "010"%char →
  all_chars (fun x => negb (Ascii.eqb x c)) (tail_text t) = true.
Proof.
  intros Hc. destruct Hok as (_ & [_ Hb] & Hw). unfold tail_text.
  assert (all_chars (fun x => negb (Ascii.eqb x c)) t.1.2 = true) as Hb'.
  { destruct Hc as [->| ->]; chars_of Hb. }
  destruct t as [[a b] [w|]]; simpl in *.
  - destruct Hw as [Hw _].
    assert (all_chars (fun x => negb (Ascii.eqb x c)) w = true) as Hw'.
    { destruct Hc as [->| ->]; chars_of Hw. }
    rewrite !all_chars_app, Hb', Hw'. by destruct Hc as [->| ->].
  - by rewrite sapp_nil_r.
Qed.

Lemma delimiter_shape :
  ∃ c1, delimiter_of is_directed = String "-" (String c1 EmptyString)
        ∧ c1 ≠ "]"%char ∧ c1 ≠ ";"%char ∧ c1 ≠ "010"%char.
Proof. destruct is_directed; eexists; split_and!; done. Qed.

Lemma contains_tail :
  Str.contains (delimiter_of is_directed) (String " " (tail_text t)) = false.
Proof.
  destruct Hok as (_ & [_ Hb] & Hw). unfold tail_text.
  destruct delimiter_shape as (c1 & Hd & Hc1 & _). rewrite Hd in *.
  destruct t as [[a b] [w|]]; simpl in *.
  - destruct Hw as [_ Hw].
    replace (String " " (b ++ " [label=" ++ w ++ "]"))
      with ((String " " (b ++ " [label=")) ++ (w ++ "]"))%string
      by (by rewrite sapp_cons, !sapp_assoc).
    rewrite contains_app_head.
    + apply contains_snoc; [congruence | done].
    + chars_of Hb.
  - rewrite sapp_nil_r.
    apply (contains_head "-" (String c1 EmptyString) (String " " b)). simpl.
    chars_of Hb.
Qed.

Lemma label_of_tail :
  Dot.label_of (String " " (tail_text t)) = (t.1.2, field_of t).
Proof.
  destruct tail_text_head as (c & s' & Hcs & Hc).
  destruct tail_text_last as (x & y & Hxy & Hy & Hyc).
  assert (Str.strip (String " " (tail_text t)) = tail_text t) as Hstrip.
  { unfold Str.strip. rewrite lstrip_blank, Hcs, lstrip_none by done.
    rewrite <- Hcs, Hxy. by apply rstrip_app_none. }
  unfold Dot.label_of. rewrite Hstrip. unfold tail_text, field_of.
  destruct Hok as (_ & [_ Hb] & Hw).
  destruct t as [[a b] [w|]]; simpl in *.
  - destruct Hw as [Hw _].
    rewrite (split_go_first " " "[label=" b (w ++ "]")) by chars_of Hb.
    unfold Str.split. rewrite split_go_none.
    2:{ apply contains_head. rewrite all_chars_app. simpl.
        rewrite andb_true_r. chars_of Hw. }
    by rewrite drop_last_snoc.
  - rewrite sapp_nil_r. rewrite split_go_none; first done.
    apply (contains_head " " "[label="). chars_of Hb.
Qed.

Lemma clean_edge_line :
  Dot.clean (edge_line (delimiter_of is_directed) t)
  = ((t.1.1 ++ " ") ++ delimiter_of is_directed
     ++ String " " (tail_text t))%string.
Proof.
  pose proof Hok as (Ha & _).
  destruct tail_text_last as (x & y & Hxy & Hy & Hyc).
  destruct delimiter_shape as (c1 & Hd & _ & Hc1 & Hc1').
  assert (∀ c, c = ";"%char ∨ c = "010"%char →
            Str.remove c ("  " ++ t.1.1 ++ " " ++ delimiter_of is_directed
                          ++ " " ++ tail_text t)
            = ("  " ++ t.1.1 ++ " " ++ delimiter_of is_directed
               ++ " " ++ tail_text t)%string) as Hkeep.
  { intros c Hc. apply remove_none. rewrite Hd, !all_chars_app.
    rewrite (tail_text_chars c Hc).
    destruct Ha as [_ Ha].
    assert (all_chars (fun x => negb (Ascii.eqb x c)) t.1.1 = true) as ->.
    { destruct Hc as [->| ->]; chars_of Ha. }
    destruct Hc as [->| ->]; simpl; rewrite ?andb_true_r;
      apply negb_true_iff, Ascii.eqb_neq; done. }
  assert (Str.remove ";" (Str.remove "010"
            (edge_line (delimiter_of is_directed) t))
          = ("  " ++ t.1.1 ++ " " ++ delimiter_of is_directed
             ++ " " ++ tail_text t)%string) as Hrm.
  { unfold edge_line.
    replace ("  " ++ t.1.1 ++ " " ++ delimiter_of is_directed ++ " "
             ++ tail_text t ++ ";" ++ String "010" EmptyString)%string
      with (("  " ++ t.1.1 ++ " " ++ delimiter_of is_directed ++ " "
             ++ tail_text t) ++ ";" ++ String "010" EmptyString)%string
      by (by rewrite !sapp_assoc).
    rewrite remove_app, (Hkeep "010"%char) by (by right).
    rewrite remove_app, (Hkeep ";"%char) by (by left).
    simpl. by rewrite sapp_nil_r. }
  unfold Dot.clean. rewrite Hrm. unfold Str.strip.
  destruct (word_head _ Ha) as (c & a' & Hca & Hc).
  assert (Str.lstrip ("  " ++ t.1.1 ++ " " ++ delimiter_of is_directed
                      ++ " " ++ tail_text t)
          = (t.1.1 ++ " " ++ delimiter_of is_directed
             ++ " " ++ tail_text t)%string) as ->.
  { rewrite !sapp_cons, sapp_nil, !lstrip_blank, Hca, sapp_cons.
    by rewrite lstrip_none. }
  rewrite Hxy.
  replace (t.1.1 ++ " " ++ delimiter_of is_directed ++ " " ++ x ++ y)%string
    with ((t.1.1 ++ " " ++ delimiter_of is_directed ++ " " ++ x) ++ y)%string
    by (by rewrite !sapp_assoc).
  rewrite rstrip_app_none by done. by rewrite !sapp_assoc.
Qed.

Lemma split_edge_line :
  Str.split (delimiter_of is_directed)
            (Dot.clean (edge_line (delimiter_of is_directed) t))
  = [(t.1.1 ++ " ")%string; String " " (tail_text t)].
Proof.
  rewrite clean_edge_line. pose proof contains_tail as Hno.
  destruct Hok as ([_ Ha] & _).
  destruct delimiter_shape as (c1 & Hd & _). rewrite Hd in *.
  unfold Str.split at 1. rewrite split_go_first.
  - unfold Str.split. by rewrite split_go_none.
  - rewrite all_chars_app. simpl. rewrite andb_true_r. chars_of Ha.
Qed.
End EdgeLine.

(** The edges that the entries stand for, with their weights. *)
Definition entry_edges (is_directed : bool) (tz : entry * Z) : list edge :=
  (tz.1.1.1, tz.1.1.2, tz.2)
  :: (if is_directed then [] else [(tz.1.1.2, tz.1.1.1, tz.2)]).

Definition entry_ends (t : entry) : list string := [t.1.1; t.1.2].

Lemma lines_entries is_directed ts : ∀ edges,
  Forall (entry_ok (delimiter_of is_directed)) ts →
  foldO (Dot.line_edges (delimiter_of is_directed)) edges
        (map (fun line => Str.split (delimiter_of is_directed)
                                    (Dot.clean line))
             (map (edge_line (delimiter_of is_directed)) ts))
  = Done (edges ++ map (fun t => (t.1.1, delimiter_of is_directed, t.1.2,
                                  field_of t)) ts).
Proof.
  induction ts as [|t ts IH]; intros edges Hok.
  - simpl. by rewrite app_nil_r.
  - apply Forall_cons in Hok as [Ht Hok]. cbn [map].
    rewrite foldO_cons, split_edge_line, line_edges_cases by done.
    cbn [mbind outcome_bind]. rewrite (label_of_tail _ t Ht).
    rewrite strip_word_blank by apply Ht.
    rewrite IH by done. by rewrite <- app_assoc.
Qed.

Lemma collect_entries int is_directed ts : ∀ zs st,
  Forall2 (fun t z => Dot.int_of int (field_of t) = Ok z) ts zs →
  foldO (Dot.collect int is_directed) st
        (map (fun t => (t.1.1, delimiter_of is_directed, t.1.2, field_of t))
             ts)
  = Done (st.1 ++ flat_map (entry_edges is_directed) (zip ts zs),
          list_to_set (flat_map entry_ends ts) ∪ st.2).
Proof.
  induction ts as [|t ts IH]; intros zs st Hz.
  - apply Forall2_nil_inv_l in Hz as ->. simpl. rewrite app_nil_r.
    destruct st as [E V]. simpl. f_equal. f_equal. set_solver.
  - apply Forall2_cons_inv_l in Hz as (z & zs' & Ht & Hz & ->).
    cbn [map]. rewrite foldO_cons, collect_typed, Ht.
    cbn [mbind outcome_bind]. rewrite (IH zs' _ Hz). simpl. f_equal. f_equal.
    + by rewrite <- app_assoc.
    + apply set_eq. intros x. set_solver.
Qed.

(** X15: a file whose lines between the first and the last one are edges
    written as [  a -- b [label=w];] or [  a -- b;], with the delimiter of
    its first line, is read as these edges in this order: the weight is
    [int(w)], or [1] without a label; in a file that is not directed every
    edge is followed by its reverse; and the vertices are the labels, sorted.
    The labels are not empty and hold no blank, semicolon or hyphen; the
    text of a weight holds no blank, no semicolon and no delimiter. *)
Theorem read_dot_file_edge_lines
    (int : string → result Z) (header : string) (ts : list entry)
    (zs : list Z) (last : string) :
  Forall (entry_ok (delimiter_of (Str.contains "digraph" header))) ts →
  Forall2 (fun t z => Dot.int_of int (field_of t) = Ok z) ts zs →
  Dot.read_dot_file int
    (header
     :: map (edge_line (delimiter_of (Str.contains "digraph" header))) ts
     ++ [last])
  = Done (Str.contains "digraph" header,
          flat_map (entry_edges (Str.contains "digraph" header)) (zip ts zs),
          Str.sorted (list_to_set (flat_map entry_ends ts))).
Proof.
  intros Hok Hz.
  rewrite (read_dot_file_run int header _ _ eq_refl).
  pose proof (body_lines header
                (map (edge_line (delimiter_of (Str.contains "digraph" header)))
                     ts) last) as Hb.
  simpl in Hb. simpl. rewrite Hb.
  rewrite lines_entries by done. simpl.
  rewrite (collect_entries int _ ts zs ([], ∅) Hz). simpl.
  do 2 f_equal. f_equal. set_solver.
Qed.

(** ** The program after the reader *)

Lemma relax_parent_keys st b e st' b' :
  BF.relax (st, b) e = Ok (st', b') →
  ∀ v, is_Some (st.2 !! v) → is_Some (st'.2 !! v).
Proof.
  destruct e as [[u v] w]. unfold BF.relax. simpl.
  destruct (getitem st.1 u) as [du|]; simpl; last done.
  destruct (num_add_weight du w) as [Hs|[Hs _]]; rewrite Hs; simpl;
    last done.
  destruct (getitem st.1 v) as [dv|]; simpl; last done.
  destruct (num_ltb (num_plus du (Int w)) dv).
  - intros [= <- <-] x Hx. simpl. destruct (decide (v = x)) as [->|Hne].
    + rewrite lookup_insert_eq. eauto.
    + by rewrite lookup_insert_ne.
  - by intros [= <- <-].
Qed.

Lemma pass_parent_keys l : ∀ st b st' b',
  foldM BF.relax (st, b) l = Ok (st', b') →
  ∀ v, is_Some (st.2 !! v) → is_Some (st'.2 !! v).
Proof.
  induction l as [|e l IH]; intros st b st' b' Hf.
  - simpl in Hf. by injection Hf as <- <-.
  - rewrite foldM_cons in Hf.
    destruct (BF.relax (st, b) e) as [[st1 b1]|] eqn:Hr; last done.
    simpl in Hf. intros v Hv. apply (IH _ _ _ _ Hf).
    by apply (relax_parent_keys _ _ _ _ _ Hr).
Qed.

Lemma passes_parent_keys edges k : ∀ st st',
  BF.passes edges k st = Ok st' →
  ∀ v, is_Some (st.2 !! v) → is_Some (st'.2 !! v).
Proof.
  induction k as [|k IH]; intros st st' Hp.
  - simpl in Hp. by injection Hp as <-.
  - simpl in Hp.
    destruct (foldM BF.relax (st, false) edges) as [[st1 b1]|] eqn:Hf;
      last done.
    pose proof (pass_parent_keys _ _ _ _ _ Hf) as H1. destruct b1.
    + intros v Hv. apply (IH _ _ Hp). by apply H1.
    + by injection Hp as <-.
Qed.

(** The printing looks up every vertex in the tables that [bellman_ford]
    has returned, which hold them all. *)
Lemma print_paths_returns vertices edges source st :
  closed_edges vertices edges →
  BF.bellman_ford vertices edges source = Ok st →
  Main.print_paths vertices st = Ok tt.
Proof.
  intros Hclosed Hok.
  destruct (bellman_ford_returned vertices edges source st Hclosed Hok)
    as [Hinv _].
  assert (∀ v, v ∈ vertices → is_Some (st.2 !! v)) as Hpk.
  { intros v Hv. unfold BF.bellman_ford in Hok.
    destruct (BF.passes edges (length vertices - 1) _) as [st0|] eqn:Hp;
      last done.
    simpl in Hok. destruct (foldM (BF.check st0.1) tt edges); last done.
    simpl in Hok. injection Hok as ->.
    apply (passes_parent_keys _ _ _ _ Hp). simpl.
    rewrite lookup_dict_const, decide_True by done. eauto. }
  unfold Main.print_paths.
  assert (∀ l, l ⊆ vertices →
            foldM (fun _ v => _ ← getitem st.1 v; _ ← getitem st.2 v; Ok tt)
                  tt l = Ok tt) as Hl; last by apply Hl.
  induction l as [|v l IH]; intros Hsub; first done.
  rewrite foldM_cons.
  assert (v ∈ vertices) as Hv by (apply Hsub, list_elem_of_here).
  destruct (inv_keys _ _ _ _ Hinv v Hv) as [d Hd].
  destruct (Hpk v Hv) as [p Hp].
  rewrite (getitem_Some _ _ _ Hd), (getitem_Some _ _ _ Hp). simpl.
  apply IH. intros x Hx. by apply Hsub, list_elem_of_further.
Qed.

(** On weights that convert to a float, the [try] of [main] ends in one
    of two ways: with the tables of [bellman_ford], or with its error of
    the negative cycle, caught. *)
Lemma try_bellman_ford_returns vertices edges source :
  closed_edges vertices edges → float_weights edges →
  ∃ bf, Main.try_bellman_ford vertices edges source = Ok bf
        ∧ BF.bellman_ford vertices edges source
          = match bf with
            | Some st => Ok st
            | None => Raise (ValueError BF.negative_cycle_msg)
            end.
Proof.
  intros Hclosed Hfl. unfold Main.try_bellman_ford.
  destruct (bellman_ford_run vertices edges source Hclosed Hfl)
    as (st & Hinv & _ & [[Hok Hst]|[Herr _]]).
  2:{ rewrite Herr. simpl. by exists None. }
  rewrite Hok. simpl.
  rewrite (print_paths_returns vertices edges source st Hclosed Hok).
  by exists (Some st).
Qed.

Lemma print_matrix_returns vertices dist next_node c :
  NoDup vertices → repr vertices (dist, next_node) c →
  Main.print_matrix vertices dist (FW.make_pos vertices) = Ok tt.
Proof.
  intros Hnd (Hs1 & _ & Hc). unfold Main.print_matrix.
  assert (∀ li, li ⊆ seq 0 (length vertices) →
            foldM (fun _ i =>
                     foldM (fun _ v =>
                              row ← list_get dist i;
                              p ← getitem (FW.make_pos vertices) v;
                              _ ← list_get row p;
                              Ok tt) tt vertices) tt li = Ok tt) as Hrows;
    last by apply Hrows.
  induction li as [|i li IH]; intros Hsub; first done.
  rewrite foldM_cons.
  assert (i ∈ seq 0 (length vertices)) as Hi by (apply Hsub, list_elem_of_here).
  apply elem_of_seq in Hi.
  destruct (lookup_lt_is_Some_2 vertices i) as [u Hu]; first lia.
  assert (∀ l, l ⊆ vertices →
            foldM (fun _ v =>
                     row ← list_get dist i;
                     p ← getitem (FW.make_pos vertices) v;
                     _ ← list_get row p;
                     Ok tt) tt l = Ok tt) as Hcols.
  { induction l as [|v l IHl]; intros Hl; first done.
    rewrite foldM_cons.
    assert (v ∈ vertices) as Hv by (apply Hl, list_elem_of_here).
    apply list_elem_of_lookup in Hv as [j Hj].
    destruct (Hc i j u v Hu Hj) as [Hd _]. simpl in Hd.
    unfold mlookup in Hd. destruct (dist !! i) as [row|] eqn:Hrow; last done.
    simpl in Hd.
    assert (list_get dist i = Ok row) as Hg1
      by (unfold list_get; by rewrite Hrow).
    assert (list_get row j = Ok (c u v).1) as Hg2
      by (unfold list_get; by rewrite Hd).
    rewrite Hg1 at 1. simpl.
    rewrite (getitem_Some _ _ j) by (by apply make_pos_lookup). simpl.
    rewrite Hg2. simpl.
    apply IHl. intros x Hx. by apply Hl, list_elem_of_further. }
  rewrite Hcols by done. simpl.
  apply IH. intros x Hx. by apply Hsub, list_elem_of_further.
Qed.

(** The run of [main] on a graph with an edge, of small weights. *)
Lemma main_run int content is_directed edges vertices :
  Dot.read_dot_file int content = Done (is_directed, edges, vertices) →
  edges ≠ [] → float_small vertices edges →
  ∃ root rest M bf dist next_node,
    vertices = root :: rest
    ∧ NoDup vertices ∧ closed_edges vertices edges
    ∧ BF.bellman_ford vertices edges root
      = match bf with
        | Some st => Ok st
        | None => Raise (ValueError BF.negative_cycle_msg)
        end
    ∧ FW.floyd_warshall vertices edges
      = Ok (dist, FW.make_pos vertices, next_node)
    ∧ repr vertices (dist, next_node) (fw_fn vertices edges)
    ∧ ∀ fuel, (prim_fuel vertices edges ≤ fuel)%nat →
        Main.main int fuel content
        = Some (Done (Main.Summary is_directed vertices edges
                        (if is_directed then None
                         else Some (map num_edge M, Int (weight M)))
                        bf (dist, FW.make_pos vertices, next_node))).
Proof.
  intros Hr Hne Hsm.
  destruct (read_dot_file_graph int content _ _ _ Hr)
    as (Hnd & Hclosed & _).
  destruct vertices as [|root rest] eqn:Hv.
  { destruct edges as [|e edges]; first done.
    apply Forall_cons in Hclosed as [[Hs _] _]. by apply elem_of_nil in Hs. }
  rewrite <- Hv in *.
  destruct (prim_run vertices edges root rest Hv Hclosed)
    as (st & F & M & Hprim & _).
  destruct (try_bellman_ford_returns vertices edges root Hclosed
              (float_small_weights _ _ Hsm))
    as (bf & Hbf & Hbf').
  destruct (floyd_warshall_repr vertices edges Hnd Hclosed Hsm)
    as (dist & next_node & Hfw & Hrepr).
  pose proof (print_matrix_returns vertices dist next_node _ Hnd Hrepr) as Hpm.
  exists root, rest, M, bf, dist, next_node. split_and!; try done.
  intros fuel Hfuel. unfold Main.main. rewrite Hr.
  assert (Prim.main_prim fuel is_directed vertices edges
          = Some (Ok (if is_directed then None
                      else Some (map num_edge M, Int (weight M))))) as ->.
  { unfold Prim.main_prim. destruct is_directed; first done.
    by rewrite (Hprim fuel Hfuel). }
  assert (list_get vertices 0 = Ok root) as -> by (by rewrite Hv).
  simpl. rewrite Hbf. simpl. rewrite Hfw. simpl. rewrite Hpm. done.
Qed.

(** X13: once [read_dot_file] has returned a graph with an edge, of small
    weights, [main] runs to its end: Prim returns its tree when the graph
    is not directed, the error of a negative cycle is the only one that
    Bellman-Ford raises and it is caught, Floyd-Warshall returns, and no
    lookup of the printing fails. *)
Theorem main_returns
    (int : string → result Z) (content : list string)
    (is_directed : bool) (edges : list edge) (vertices : list string) :
  Dot.read_dot_file int content = Done (is_directed, edges, vertices) →
  edges ≠ [] → float_small vertices edges →
  ∃ mst bf fw,
    ∀ fuel, (prim_fuel vertices edges ≤ fuel)%nat →
      Main.main int fuel content
      = Some (Done (Main.Summary is_directed vertices edges mst bf fw)).
Proof.
  intros Hr Hne Hsm.
  destruct (main_run int content _ _ _ Hr Hne Hsm)
    as (root & rest & M & bf & dist & next_node & _ & _ & _ & _ & _ & _
        & Hmain).
  by eexists _, _, _.
Qed.

(** X14: a file that [read_dot_file] reads without finding an edge makes
    [main] fail.  The list of the vertices is empty; for a graph that is
    not directed [prim] returns [[]], which cannot be unpacked into two
    names, and for a directed graph [vertices[0]] is out of range. *)
Theorem main_fails_without_edge
    (int : string → result Z) (content : list string)
    (is_directed : bool) (vertices : list string) (fuel : nat) :
  Dot.read_dot_file int content = Done (is_directed, [], vertices) →
  vertices = []
  ∧ Main.main int fuel content
    = Some (Fail (Algo (if is_directed then IndexError
                        else ValueError Prim.unpack_msg))).
Proof.
  intros Hr.
  destruct (read_dot_file_graph int content _ _ _ Hr) as (_ & _ & Hv).
  assert (vertices = []) as -> by (by apply Hv).
  split; first done. unfold Main.main. rewrite Hr.
  by destruct is_directed.
Qed.

(** ** The pictures of the shortest paths *)

(** An edge of the graph as the pictures of the paths draw it. *)
Definition paint (color penwidth : string) (e : edge) : Viz.drawn :=
  Viz.Drawn (src e) (tgt e)
    [("label", pretty (wt e)); ("color", color); ("penwidth", penwidth)]%string.

Definition red : edge → Viz.drawn := paint "red" "2".
Definition green : edge → Viz.drawn := paint "green" "2".
Definition gray : edge → Viz.drawn := paint "gray" "1".

(** The pairs of the endpoints of a list of edges. *)
Definition arcs (es : list edge) : list (string * string) :=
  map (fun e => (src e, tgt e)) es.

Lemma used_of_spec parent u v :
  (u, v) ∈ Viz.used_of parent ↔ parent !! v = Some (Some u).
Proof.
  unfold Viz.used_of. revert u v.
  apply (map_fold_weak_ind
           (fun (r : gset (string * string))
                (m : gmap string (option string)) =>
              ∀ u v, (u, v) ∈ r ↔ m !! v = Some (Some u))).
  - intros u v. rewrite lookup_empty. set_solver.
  - intros i x m r Hi IH u v.
    destruct (decide (i = v)) as [->|Hne].
    + rewrite lookup_insert_eq. destruct x as [p|].
      * rewrite elem_of_union, elem_of_singleton, IH, Hi. split.
        -- intros [[= -> ]|?]; done.
        -- intros [= ->]. by left.
      * rewrite IH, Hi. split; done.
    + rewrite lookup_insert_ne by done. destruct x as [p|]; last by apply IH.
      rewrite elem_of_union, elem_of_singleton, IH. split.
      * intros [[= -> ->]|?]; done.
      * intros ?. by right.
Qed.

Lemma steps_verts G a es b :
  walk G a es b → Viz.steps (verts a es) = arcs es.
Proof.
  revert a. induction es as [|e es IH]; intros a Hw; first done.
  destruct Hw as (_ & <- & Hw). specialize (IH _ Hw).
  unfold Viz.steps, verts in *. simpl in *. by rewrite IH.
Qed.

Lemma paint_inj color penwidth e e' :
  paint color penwidth e' = paint color penwidth e → e' = e.
Proof.
  destruct e as [[u v] w], e' as [[u' v'] w'].
  unfold paint, src, tgt, wt. simpl. intros [= -> -> Hw].
  by apply (inj pretty) in Hw as ->.
Qed.

(** The edges that a picture draws in a colour. *)
Lemma paint_elem color penwidth (f : edge → bool) edges e :
  color ≠ "gray"%string →
  paint color penwidth e
    ∈ map (fun e' => if f e' then paint color penwidth e' else gray e') edges
  ↔ e ∈ edges ∧ f e = true.
Proof.
  intros Hc. rewrite list_elem_of_fmap. split.
  - intros (e' & Heq & He'). destruct (f e') eqn:Hf.
    + symmetry in Heq. by apply paint_inj in Heq as ->.
    + unfold gray, paint in Heq. by injection Heq as _ _ _ -> _.
  - intros [He Hf]. exists e. by rewrite Hf.
Qed.

Lemma visualize_bellman_paths_edges edges parent source name :
  Viz.visualize_bellman_paths true edges parent source name
  = Some (Viz.Picture Viz.Digraph []
            (map (fun e => if bool_decide (parent !! tgt e
                                           = Some (Some (src e)))
                           then red e else gray e) edges)
            name).
Proof.
  unfold Viz.visualize_bellman_paths. do 2 f_equal.
  apply map_ext. intros [[u v] w]. unfold src, tgt. simpl.
  case_bool_decide as Hp; rewrite <- used_of_spec in Hp.
  - by rewrite !decide_True.
  - by rewrite !decide_False.
Qed.

(** X20: the picture that [visualize_bellman_paths] draws from the
    parents of [bellman_ford] has one edge for each edge of the list, in
    this order, red when the parent of its head is its tail and gray
    otherwise.  Every vertex at a finite distance is joined to the source
    by a walk of red edges whose weights add up to its distance, and the
    red edges that enter a vertex all leave the same vertex. *)
Theorem visualize_bellman_paths_tree
    (vertices : list string) (edges : list edge) (source : string)
    (dist : gmap string num) (parent : gmap string (option string))
    (name : string) :
  closed_edges vertices edges →
  BF.bellman_ford vertices edges source = Ok (dist, parent) →
  ∃ pic,
    Viz.visualize_bellman_paths true edges parent source name = Some pic
    ∧ Viz.pic_kind pic = Viz.Digraph ∧ Viz.pic_file pic = name
    ∧ Forall2 (fun e d => d = red e ∨ d = gray e) edges (Viz.pic_edges pic)
    ∧ (∀ e, red e ∈ Viz.pic_edges pic
            ↔ e ∈ edges ∧ parent !! tgt e = Some (Some (src e)))
    ∧ (∀ v d, dist !! v = Some (Int d) →
         ∃ es, walk edges source es v ∧ weight es = d
               ∧ Forall (fun e => red e ∈ Viz.pic_edges pic) es)
    ∧ (∀ e e', red e ∈ Viz.pic_edges pic → red e' ∈ Viz.pic_edges pic →
         tgt e = tgt e' → src e = src e').
Proof.
  intros Hclosed Hbf. eexists. split.
  { apply visualize_bellman_paths_edges. }
  simpl.
  assert (∀ e, red e ∈ map (fun e => if bool_decide (parent !! tgt e
                                                     = Some (Some (src e)))
                                     then red e else gray e) edges
               ↔ e ∈ edges ∧ parent !! tgt e = Some (Some (src e))) as Hred.
  { intros e.
    pose proof (paint_elem "red" "2"
                  (fun e => bool_decide (parent !! tgt e
                                         = Some (Some (src e))))
                  edges e) as H.
    simpl in H. rewrite bool_decide_eq_true in H. by apply H. }
  split_and!; try done.
  - apply Forall2_fmap_r, Forall_Forall2_diag, Forall_forall.
    intros e _. simpl. case_bool_decide; [by left | by right].
  - intros v d Hd.
    destruct (bellman_ford_parent_walk vertices edges source dist parent
                Hclosed Hbf v d Hd) as (es & Hw & Hwt & _ & _ & Hall).
    exists es. split_and!; try done.
    apply Forall_forall. intros e He. apply Hred. split.
    + by apply (walk_edges_in _ _ _ _ Hw).
    + by apply (proj1 (Forall_forall _ _) Hall).
  - intros e e' He He' Heq. apply Hred in He as [_ He].
    apply Hred in He' as [_ He']. rewrite Heq in He. congruence.
Qed.

Lemma foldl_add_steps (l : list (string * string)) :
  ∀ U : gset (string * string),
  foldl (fun used p => {[ p ]} ∪ used) U l = list_to_set l ∪ U.
Proof.
  induction l as [|p l IH]; intros U; simpl.
  - apply set_eq. intros x. set_solver.
  - rewrite IH. apply set_eq. intros x. set_solver.
Qed.

Lemma foldF_cons {A S : Type} (f : S → A → option (result S)) s x l :
  Viz.foldF f s (x :: l)
  = match f s x with
    | None => None
    | Some (Raise e) => Some (Raise e)
    | Some (Ok s') => Viz.foldF f s' l
    end.
Proof. done. Qed.

(** [enumerate(vertices)] *)
Lemma enumerate_lookup (vertices : list string) :
  Forall (fun iv : nat * string => vertices !! iv.1 = Some iv.2)
         (zip (seq 0 (length vertices)) vertices)
  ∧ map snd (zip (seq 0 (length vertices)) vertices) = vertices.
Proof.
  split.
  - apply Forall_forall. intros [i v] Hin.
    apply list_elem_of_lookup in Hin as [k Hk].
    apply lookup_zip_with_Some in Hk as (i' & v' & [= <- <-] & Hi & Hv).
    apply lookup_seq in Hi as [-> _]. done.
  - apply snd_zip. by rewrite length_seq.
Qed.

Section FloydPictures.
Context (vertices : list string) (edges : list edge).
Hypothesis Hnd : NoDup vertices.
Hypothesis Hclosed : closed_edges vertices edges.
Context (c : cellfn) (P : string → string → list edge).
Hypothesis Hg : good vertices edges vertices c P.
Context (dist : list (list num)) (next_node : list (list (option string))).
Hypothesis Hrepr : repr vertices (dist, next_node) c.

(** The pairs that a target adds to [used_edges]. *)
Definition path_arcs (source target : string) : list (string * string) :=
  if decide (source = target) then []
  else match (c source target).1 with
       | Int _ => arcs (P source target)
       | inf => []
       end.

Definition used_edges_of (source : string) : gset (string * string) :=
  list_to_set (vertices ≫= path_arcs source).

Definition floyd_picture (name_prefix source : string) : Viz.picture :=
  Viz.Picture Viz.Digraph
    [Viz.Node source [("color", "red"); ("style", "filled");
                      ("fillcolor", "#ffcccc")]%string]
    (map (fun e => if bool_decide ((src e, tgt e) ∈ used_edges_of source)
                   then green e else gray e) edges)
    (name_prefix ++ "_" ++ source)%string.

Lemma used_step_spec fuel i source j target U :
  vertices !! i = Some source → vertices !! j = Some target →
  (length vertices - 1 ≤ fuel)%nat →
  Viz.used_step fuel vertices dist (FW.make_pos vertices) next_node i source
    U (j, target)
  = Some (Ok (list_to_set (path_arcs source target) ∪ U)).
Proof.
  intros Hi Hj Hfuel. unfold Viz.used_step, path_arcs.
  assert (∀ V : gset (string * string), list_to_set [] ∪ V = V) as Hempty.
  { intros V. apply set_eq. intros x. set_solver. }
  destruct (decide (source = target)) as [->|Hne]; first by rewrite Hempty.
  destruct Hrepr as (_ & _ & Hc). destruct (Hc i j _ _ Hi Hj) as [Hd _].
  simpl in Hd. rewrite (mget_lookup _ _ _ _ Hd).
  assert (source ∈ vertices) as Hs by (by eapply list_elem_of_lookup_2).
  assert (target ∈ vertices) as Ht by (by eapply list_elem_of_lookup_2).
  destruct (c source target).1 as [d|] eqn:Hcd; last by rewrite Hempty.
  rewrite (reconstruct_path_good vertices edges Hnd Hclosed c P Hg
             dist next_node Hrepr source target d fuel Hs Ht Hcd Hfuel).
  destruct (good_path _ _ _ _ _ Hg source target d Hs Ht Hcd) as (Hw & _).
  by rewrite (steps_verts _ _ _ _ Hw), foldl_add_steps.
Qed.

Lemma used_fold fuel i source l : ∀ U,
  vertices !! i = Some source →
  Forall (fun jt : nat * string => vertices !! jt.1 = Some jt.2) l →
  (length vertices - 1 ≤ fuel)%nat →
  Viz.foldF (Viz.used_step fuel vertices dist (FW.make_pos vertices)
               next_node i source) U l
  = Some (Ok (list_to_set (map snd l ≫= path_arcs source) ∪ U)).
Proof.
  induction l as [|[j target] l IH]; intros U Hi Hl Hfuel.
  - simpl. do 2 f_equal. apply set_eq. intros x. set_solver.
  - apply Forall_cons in Hl as [Hj Hl]. simpl in Hj.
    rewrite foldF_cons.
    rewrite (used_step_spec fuel i source j target U Hi Hj Hfuel).
    rewrite (IH _ Hi Hl Hfuel). simpl. do 2 f_equal.
    apply set_eq. intros x. rewrite list_to_set_app. set_solver.
Qed.

Lemma source_step_spec fuel name_prefix pics i source :
  vertices !! i = Some source → (length vertices - 1 ≤ fuel)%nat →
  Viz.source_step fuel vertices edges dist (FW.make_pos vertices) next_node
    name_prefix pics (i, source)
  = Some (Ok (pics ++ [floyd_picture name_prefix source])).
Proof.
  intros Hi Hfuel. unfold Viz.source_step.
  destruct (enumerate_lookup vertices) as [Hall Hsnd].
  rewrite (used_fold fuel i source _ ∅ Hi Hall Hfuel), Hsnd.
  assert (list_to_set (vertices ≫= path_arcs source) ∪ ∅
          = used_edges_of source) as ->.
  { apply set_eq. intros x. unfold used_edges_of. set_solver. }
  do 4 f_equal. unfold floyd_picture. f_equal.
  apply map_ext. intros [[u v] w]. unfold src, tgt. simpl.
  by case_bool_decide; [rewrite decide_True|rewrite decide_False].
Qed.

Lemma sources_fold fuel name_prefix l : ∀ pics,
  Forall (fun iv : nat * string => vertices !! iv.1 = Some iv.2) l →
  (length vertices - 1 ≤ fuel)%nat →
  Viz.foldF (Viz.source_step fuel vertices edges dist (FW.make_pos vertices)
               next_node name_prefix) pics l
  = Some (Ok (pics ++ map (floyd_picture name_prefix) (map snd l))).
Proof.
  induction l as [|[i source] l IH]; intros pics Hl Hfuel.
  - simpl. by rewrite app_nil_r.
  - apply Forall_cons in Hl as [Hi Hl]. simpl in Hi.
    rewrite foldF_cons.
    rewrite (source_step_spec fuel name_prefix pics i source Hi Hfuel).
    rewrite (IH _ Hl Hfuel). simpl. by rewrite <- app_assoc.
Qed.

(** The pictures of [visualize_floyd_paths_per_source], one for each
    vertex. *)
Lemma visualize_floyd_spec fuel name_prefix :
  (length vertices - 1 ≤ fuel)%nat →
  Viz.visualize_floyd_paths_per_source true fuel vertices edges dist
    (FW.make_pos vertices) next_node name_prefix
  = Some (Ok (map (floyd_picture name_prefix) vertices)).
Proof.
  intros Hfuel. unfold Viz.visualize_floyd_paths_per_source.
  destruct (enumerate_lookup vertices) as [Hall Hsnd].
  by rewrite (sources_fold fuel name_prefix _ [] Hall Hfuel), Hsnd.
Qed.

(** The pairs of [used_edges] are the steps of the paths from the source
    to the targets at a finite distance. *)
Lemma used_edges_of_spec source p :
  p ∈ used_edges_of source
  ↔ ∃ target d, target ∈ vertices ∧ source ≠ target
                ∧ (c source target).1 = Int d ∧ p ∈ arcs (P source target).
Proof.
  unfold used_edges_of. rewrite elem_of_list_to_set, list_elem_of_bind.
  split.
  - intros (target & Hp & Ht). unfold path_arcs in Hp.
    destruct (decide (source = target)) as [|Hne];
      first by apply elem_of_nil in Hp.
    destruct (c source target).1 as [d|] eqn:Hd;
      last by apply elem_of_nil in Hp.
    by exists target, d.
  - intros (target & d & Ht & Hne & Hd & Hp).
    exists target. split; last done.
    unfold path_arcs. by rewrite decide_False, Hd.
Qed.
End FloydPictures.

(** X21: on a graph without negative cycle, on the matrices that
    [floyd_warshall] returns and with fuel for [n - 1] steps of a path,
    [visualize_floyd_paths_per_source] returns with one picture for each
    vertex, in the order of the vertices.  The picture of a source has one
    edge for each edge of the list, green or gray; every vertex at a finite
    distance is joined to the source by a walk of green edges whose weights
    add up to this distance; and a green edge joins two consecutive
    vertices of the path that [reconstruct_path] returns from the source to
    some vertex. *)
Theorem visualize_floyd_paths_shortest
    (vertices : list string) (edges : list edge) (name_prefix : string)
    (dist : list (list num)) (pos : gmap string nat)
    (next_node : list (list (option string))) :
  NoDup vertices → closed_edges vertices edges → ¬ negative_cycle edges →
  FW.floyd_warshall vertices edges = Ok (dist, pos, next_node) →
  ∃ pics,
    (∀ fuel, (length vertices - 1 ≤ fuel)%nat →
         Viz.visualize_floyd_paths_per_source true fuel vertices edges dist
           pos next_node name_prefix
         = Some (Ok pics))
    ∧ map Viz.pic_file pics
      = map (fun v => (name_prefix ++ "_" ++ v)%string) vertices
    ∧ ∀ i source pic,
        vertices !! i = Some source → pics !! i = Some pic →
        Forall2 (fun e d => d = green e ∨ d = gray e) edges
                (Viz.pic_edges pic)
        ∧ (∀ j target d,
             vertices !! j = Some target →
             mlookup dist i j = Some (Int d) →
             ∃ es, walk edges source es target ∧ weight es = d
                   ∧ Forall (fun e => green e ∈ Viz.pic_edges pic) es)
        ∧ (∀ e, green e ∈ Viz.pic_edges pic →
             e ∈ edges
             ∧ ∃ target path,
                 target ∈ vertices
                 ∧ (∀ fuel, (length vertices - 1 ≤ fuel)%nat →
                      FW.reconstruct_path fuel source target vertices pos
                        next_node = Some (Ok path))
                 ∧ (src e, tgt e) ∈ Viz.steps path).
Proof.
  intros Hnd Hclosed Hno Hfw.
  destruct (floyd_warshall_good vertices edges _ _ _ Hnd Hclosed Hno Hfw)
    as (c & P & -> & Hrepr & Hg).
  exists (map (floyd_picture vertices edges c P name_prefix) vertices).
  split_and!; try done.
  - intros fuel Hfuel.
    by apply (visualize_floyd_spec vertices edges Hnd Hclosed c P Hg).
  - rewrite map_map. by apply map_ext.
  - intros i source pic Hi Hpic.
    rewrite list_lookup_fmap, Hi in Hpic. injection Hpic as <-. simpl.
    assert (source ∈ vertices) as Hs by (by eapply list_elem_of_lookup_2).
    assert (∀ e, green e
                 ∈ map (fun e => if bool_decide
                                      ((src e, tgt e)
                                       ∈ used_edges_of vertices c P source)
                                 then green e else gray e) edges
                 ↔ e ∈ edges
                   ∧ (src e, tgt e) ∈ used_edges_of vertices c P source)
      as Hgreen.
    { intros e.
      pose proof (paint_elem "green" "2"
                    (fun e => bool_decide
                                ((src e, tgt e)
                                 ∈ used_edges_of vertices c P source))
                    edges e) as H.
      simpl in H. rewrite bool_decide_eq_true in H. by apply H. }
    split_and!.
    + apply Forall2_fmap_r, Forall_Forall2_diag, Forall_forall.
      intros e _. simpl. case_bool_decide; [by left | by right].
    + intros j target d Hj Hd.
      assert (target ∈ vertices) as Ht by (by eapply list_elem_of_lookup_2).
      destruct Hrepr as (_ & _ & Hc). destruct (Hc i j _ _ Hi Hj) as [Hd' _].
      simpl in Hd'. rewrite Hd in Hd'. injection Hd' as Hd'.
      symmetry in Hd'.
      destruct (good_path _ _ _ _ _ Hg source target d Hs Ht Hd')
        as (Hw & Hwt & _).
      exists (P source target). split_and!; try done.
      apply Forall_forall. intros e He. apply Hgreen. split.
      * by apply (walk_edges_in _ _ _ _ Hw).
      * destruct (decide (source = target)) as [->|Hne].
        { rewrite (proj2 (good_diag _ _ _ _ _ Hg target Ht)) in He.
          by apply elem_of_nil in He. }
        apply used_edges_of_spec. exists target, d. split_and!; try done.
        by apply (list_elem_of_fmap_2 (fun e => (src e, tgt e))).
    + intros e He. apply Hgreen in He as [He Hu]. split; first done.
      apply used_edges_of_spec in Hu as (target & d & Ht & Hne & Hd & Hp).
      exists target, (verts source (P source target)). split_and!.
      * done.
      * intros fuel Hfuel.
        by apply (reconstruct_path_good vertices edges Hnd Hclosed c P Hg
                    dist next_node Hrepr source target d).
      * destruct (good_path _ _ _ _ _ Hg source target d Hs Ht Hd)
          as (Hw & _).
        by rewrite (steps_verts _ _ _ _ Hw).
Qed.

(** ** The program with its pictures *)

Lemma bellman_ford_no_cycle vertices edges source st :
  closed_edges vertices edges →
  BF.bellman_ford vertices edges source = Ok st →
  ¬ negative_cycle_from edges source.
Proof.
  intros Hclosed Hbf.
  destruct (bellman_ford_tinv vertices edges source st Hclosed Hbf)
    as (Hinv & Hst & _).
  by eapply stable_no_negative_cycle.
Qed.

(** What a run of [main] that returns has computed. *)
Lemma main_done int fuel content s :
  Main.main int fuel content = Some (Done s) →
  Dot.read_dot_file int content
  = Done (Main.is_directed s, Main.edges s, Main.vertices s)
  ∧ Prim.main_prim fuel (Main.is_directed s) (Main.vertices s) (Main.edges s)
    = Some (Ok (Main.mst s))
  ∧ ∃ source,
      list_get (Main.vertices s) 0 = Ok source
      ∧ Main.try_bellman_ford (Main.vertices s) (Main.edges s) source
        = Ok (Main.bf s).
Proof.
  unfold Main.main.
  destruct (Dot.read_dot_file int content) as [[[d es] vs]|]; last done.
  destruct (Prim.main_prim fuel d vs es) as [[mst|]|] eqn:Hp; try done.
  destruct (list_get vs 0) as [source|] eqn:Hs; simpl; last done.
  destruct (Main.try_bellman_ford vs es source) as [bf|] eqn:Hbf; simpl;
    last done.
  destruct (FW.floyd_warshall vs es) as [r|]; simpl; last done.
  destruct (Main.print_matrix vs r.1.1 r.1.2); simpl; last done.
  intros [= <-]. simpl. split_and!; try done. by exists source.
Qed.

Lemma main_fail int fuel content r e :
  Dot.read_dot_file int content = Done r →
  Main.main int fuel content = Some (Fail e) → ∃ x, e = Algo x.
Proof.
  unfold Main.main. intros ->. destruct r as [[d es] vs].
  destruct (Prim.main_prim fuel d vs es) as [[mst|x]|]; try done.
  - destruct (_ ← list_get vs 0; _) as [?|x]; simpl; first done.
    intros [= <-]. by exists x.
  - intros [= <-]. by exists x.
Qed.

Lemma main_prim_mst fuel is_directed vertices edges mst :
  Prim.main_prim fuel is_directed vertices edges = Some (Ok mst) →
  if is_directed then mst = None else is_Some mst.
Proof.
  unfold Prim.main_prim. destruct is_directed; first by intros [= <-].
  destruct (Prim.prim fuel vertices edges) as [[[|m t]|]|]; try done.
  intros [= <-]. eauto.
Qed.

(** Bellman-Ford raises the error that the [try] of [main] catches only
    with a negative cycle in reach of the source. *)
Lemma try_bellman_ford_caught vertices edges source :
  closed_edges vertices edges → source ∈ vertices →
  ¬ negative_cycle_from edges source →
  Main.try_bellman_ford vertices edges source ≠ Ok None.
Proof.
  intros Hclosed Hsrc Hno. unfold Main.try_bellman_ford.
  destruct (bellman_ford_cases vertices edges source Hclosed)
    as [(st & Hinv & Hres & [[Hok Hst]|[Herr Hst]])|[Herr _]].
  - rewrite Hok. simpl.
    by rewrite (print_paths_returns vertices edges source st Hclosed Hok).
  - destruct Hst. destruct Hres as [?|Hlow]; first done.
    by eapply lower_stable.
  - by rewrite Herr.
Qed.

Lemma forallb_all {A : Type} (f : A → bool) (l : list A) :
  (∀ x, f x = true) → forallb f l = true.
Proof. intros Hf. induction l as [|x l IH]; simpl; [done | by rewrite Hf]. Qed.

(** When every picture is rendered, the loop of [main] over the sources
    gives the pictures of [visualize_floyd_paths_per_source]. *)
Lemma plot_floyd_rendered w graphviz fuel vertices edges dist pos next_node
    name_prefix :
  (∀ pic, Main.renders w pic = true) →
  Main.plot_floyd w graphviz fuel vertices edges dist pos next_node
    name_prefix
  = match Viz.visualize_floyd_paths_per_source graphviz fuel vertices edges
            dist pos next_node name_prefix with
    | None => None
    | Some r => Some (lift r)
    end.
Proof.
  intros Hr. unfold Main.plot_floyd, Viz.visualize_floyd_paths_per_source.
  destruct graphviz; last done.
  generalize (@nil Viz.picture) as pics.
  induction (zip (seq 0 (length vertices)) vertices) as [|ix l IH];
    intros pics; first done.
  simpl.
  destruct (Viz.source_step fuel vertices edges dist pos next_node
              name_prefix pics ix) as [[pics'|e]|]; try done.
  rewrite forallb_all by done. apply IH.
Qed.

(** The loop over the sources raises no [UnboundLocalError]. *)
Lemma plot_floyd_bound w graphviz fuel vertices edges dist pos next_node
    name_prefix name :
  Main.plot_floyd w graphviz fuel vertices edges dist pos next_node
    name_prefix
  ≠ Some (Fail (UnboundLocalError name)).
Proof.
  unfold Main.plot_floyd. destruct graphviz; last done.
  generalize (@nil Viz.picture) as pics.
  induction (zip (seq 0 (length vertices)) vertices) as [|ix l IH];
    intros pics; first done.
  simpl.
  destruct (Viz.source_step fuel vertices edges dist pos next_node
              name_prefix pics ix) as [[pics'|e]|]; try done.
  destruct (forallb _ _); [apply IH | done].
Qed.

Lemma rendered_bound w p name :
  Main.rendered w p ≠ Fail (UnboundLocalError name).
Proof.
  unfold Main.rendered. destruct p as [pic|]; last done.
  by destruct (Main.renders w pic).
Qed.

Lemma rendered_all w p :
  (∀ pic, Main.renders w pic = true) →
  Main.rendered w p = Done (option_list p).
Proof.
  intros Hr. unfold Main.rendered. destruct p as [pic|]; last done.
  by rewrite Hr.
Qed.

(** [plot] raises [UnboundLocalError] only for the name [parent], when
    Bellman-Ford has raised; it does when the directory of the output is
    entered and the pictures before are rendered. *)
Lemma plot_unbound w graphviz fuel base s source rest :
  Main.vertices s = source :: rest →
  (if Main.is_directed s then Main.mst s = None else is_Some (Main.mst s)) →
  (Main.bf s = None → Main.enters w = true →
   (∀ pic, Main.renders w pic = true) →
   Main.plot w graphviz fuel base s
   = Some (Fail (UnboundLocalError "parent")))
  ∧ (is_Some (Main.bf s) →
     ∀ name, Main.plot w graphviz fuel base s
             ≠ Some (Fail (UnboundLocalError name))).
Proof.
  intros Hv Hmst. unfold Main.plot. rewrite Hv. simpl. split.
  - intros -> -> Hr. simpl. rewrite !rendered_all by done. simpl.
    destruct (Main.is_directed s); simpl; first done.
    destruct Hmst as [[m t] ->]. by rewrite rendered_all.
  - intros [[d parent] ->] name. destruct (Main.enters w); simpl; last done.
    pose proof (rendered_bound w
                  (Viz.generate_graph graphviz (Main.is_directed s)
                     (Main.edges s) base) name) as Hg.
    destruct (Main.rendered w
                (Viz.generate_graph graphviz (Main.is_directed s)
                   (Main.edges s) base)) as [graph|e]; simpl;
      last by intros [= ->].
    assert (∃ r, (if negb (Main.is_directed s)
                  then match Main.mst s with
                       | Some (mst_edges, _) =>
                           Main.rendered w
                             (Viz.visualize_mst graphviz mst_edges "mst_tree")
                       | None => Fail (UnboundLocalError "mst_edges")
                       end
                  else Done []) = r
                 ∧ r ≠ Fail (UnboundLocalError name)) as (r & -> & Hr).
    { destruct (Main.is_directed s); simpl; first by eexists.
      destruct Hmst as [[m t] ->]. eexists. split; first done.
      apply rendered_bound. }
    destruct r as [tree|e]; simpl; last by intros [= ->].
    pose proof (rendered_bound w
                  (Viz.visualize_bellman_paths graphviz (Main.edges s)
                     parent source "bellman_paths") name) as Hp.
    destruct (Main.rendered w
                (Viz.visualize_bellman_paths graphviz (Main.edges s)
                   parent source "bellman_paths")) as [paths|e]; simpl;
      last by intros [= ->].
    pose proof (plot_floyd_bound w graphviz fuel (Main.vertices s)
                  (Main.edges s) (Main.fw s).1.1 (Main.fw s).1.2 (Main.fw s).2
                  "floyd_paths" name) as Hf.
    rewrite Hv in Hf.
    by destruct (Main.plot_floyd _ _ _ _ _ _ _ _ _) as [[more|e]|].
Qed.

(** X22: with [--plot], on small weights, a negative cycle in reach of the
    first vertex makes [main] fail with [UnboundLocalError] when the
    directory of the output is entered and the pictures are rendered: the
    error of [bellman_ford] is caught and leaves [parent] without a value,
    which the call of [visualize_bellman_paths] then reads, with or without
    [graphviz].  Without such a cycle [main] never raises this error. *)
Theorem main_plot_unbound_parent
    (int : string → result Z) (w : Main.world) (graphviz : bool)
    (base : string) (content : list string) (is_directed : bool)
    (edges : list edge) (source : string) (rest : list string) :
  Dot.read_dot_file int content = Done (is_directed, edges, source :: rest) →
  (negative_cycle_from edges source →
   float_small (source :: rest) edges →
   Main.enters w = true → (∀ pic, Main.renders w pic = true) →
   ∀ fuel, (prim_fuel (source :: rest) edges ≤ fuel)%nat →
     Main.main_plot int w graphviz fuel base content
     = Some (Fail (UnboundLocalError "parent")))
  ∧ (¬ negative_cycle_from edges source →
     ∀ fuel name,
       Main.main_plot int w graphviz fuel base content
       ≠ Some (Fail (UnboundLocalError name))).
Proof.
  intros Hr. split.
  - intros Hneg Hsm Hen Hrn fuel Hfuel.
    assert (edges ≠ []) as Hne.
    { destruct Hneg as (x & es & _ & Hw & Hlt). intros ->.
      destruct es as [|e es]; first (simpl in Hlt; lia).
      destruct Hw as (He & _). by apply elem_of_nil in He. }
    destruct (main_run int content _ _ _ Hr Hne Hsm)
      as (root & rest' & M & bf & dist & next_node & [= <- <-] & _ & Hclosed
          & Hbf & _ & _ & Hmain).
    destruct bf as [st|].
    { by destruct (bellman_ford_no_cycle _ _ _ _ Hclosed Hbf). }
    unfold Main.main_plot. rewrite (Hmain fuel Hfuel).
    match goal with
    | |- context [Main.plot w graphviz fuel base ?s] =>
        destruct (plot_unbound w graphviz fuel base s source rest)
          as [Hp _]; [done | by destruct is_directed; simpl; eauto |]
    end.
    by rewrite Hp.
  - intros Hno fuel name. unfold Main.main_plot.
    destruct (Main.main int fuel content) as [[s|e]|] eqn:Hm; last done.
    2:{ destruct (main_fail int fuel content _ e Hr Hm) as [x ->]. done. }
    destruct (main_done int fuel content s Hm)
      as (Hr' & Hprim & src' & Hs & Hbf).
    rewrite Hr in Hr'. injection Hr' as Hd He Hv.
    rewrite <- Hv in Hs. injection Hs as <-.
    destruct (read_dot_file_graph int content _ _ _ Hr) as (_ & Hclosed & _).
    assert (is_Some (Main.bf s)) as Hsome.
    { destruct (Main.bf s) as [st|] eqn:Hbfs; first by eauto.
      rewrite <- Hv, <- He in Hbf.
      by destruct (try_bellman_ford_caught (source :: rest) edges source
                     Hclosed (list_elem_of_here _ _) Hno). }
    destruct (plot_unbound w graphviz fuel base s source rest)
      as [_ Hp]; [done | by apply (main_prim_mst _ _ _ _ _ Hprim) |].
    specialize (Hp Hsome name).
    destruct (Main.plot w graphviz fuel base s) as [[pics|e]|]; simpl;
      [done | | done].
    intros [= ->]. done.
Qed.

(** X23: with [--plot], on a file with an edge whose graph has small
    weights and no negative cycle, [main] runs to its end when the
    directory of the output is entered and the pictures are rendered.  With
    [graphviz] it renders, in this order, the graph, the tree of Prim when
    the graph is not directed, the paths of Bellman-Ford, and one picture
    of the paths of Floyd-Warshall for each vertex; without [graphviz] it
    renders nothing.  When the directory cannot be made or entered, [main]
    fails with the [OSError] of [os.mkdir] or [os.chdir]. *)
Theorem main_plot_returns
    (int : string → result Z) (w : Main.world) (graphviz : bool)
    (base : string) (content : list string) (is_directed : bool)
    (edges : list edge) (vertices : list string) :
  Dot.read_dot_file int content = Done (is_directed, edges, vertices) →
  edges ≠ [] → ¬ negative_cycle edges → float_small vertices edges →
  (Main.enters w = true → (∀ pic, Main.renders w pic = true) →
   ∃ s pics,
     (∀ fuel, (prim_fuel vertices edges ≤ fuel)%nat →
              (length vertices - 1 ≤ fuel)%nat →
        Main.main_plot int w graphviz fuel base content
        = Some (Done (s, pics)))
     ∧ map Viz.pic_file pics
       = if graphviz
         then base :: (if is_directed then [] else ["mst_tree"%string])
              ++ "bellman_paths"%string
              :: map (fun v => ("floyd_paths" ++ "_" ++ v)%string) vertices
         else [])
  ∧ (Main.enters w = false →
     ∀ fuel, (prim_fuel vertices edges ≤ fuel)%nat →
       Main.main_plot int w graphviz fuel base content
       = Some (Fail OSError)).
Proof.
  intros Hr Hne Hno Hsm.
  destruct (main_run int content _ _ _ Hr Hne Hsm)
    as (root & rest & M & bf & dist & next_node & Hv & Hnd & Hclosed
        & Hbf & Hfw & _ & Hmain).
  split.
  2:{ intros Hen fuel Hfuel. unfold Main.main_plot.
      rewrite (Hmain fuel Hfuel). unfold Main.plot. by rewrite Hen. }
  intros Hen Hrn.
  assert (root ∈ vertices) as Hroot by (rewrite Hv; apply list_elem_of_here).
  destruct bf as [[bf_dist parent]|].
  2:{ destruct (bellman_ford_ok vertices edges root Hclosed
                  (float_small_weights _ _ Hsm) Hroot)
        as (st & Hok & _); last congruence.
      intros Hn. by apply Hno, (negative_cycle_from_any edges root). }
  destruct (floyd_warshall_good vertices edges _ _ _ Hnd Hclosed Hno Hfw)
    as (c & P & _ & Hrepr & Hg).
  exists (Main.Summary is_directed vertices edges
            (if is_directed then None
             else Some (map num_edge M, Int (weight M)))
            (Some (bf_dist, parent))
            (dist, FW.make_pos vertices, next_node)),
         (option_list (Viz.generate_graph graphviz is_directed edges base)
              ++ (if is_directed then []
                  else option_list (Viz.visualize_mst graphviz
                                      (map num_edge M) "mst_tree"))
              ++ option_list (Viz.visualize_bellman_paths graphviz edges
                                parent root "bellman_paths")
              ++ (if graphviz
                  then map (floyd_picture vertices edges c P "floyd_paths")
                           vertices
                  else [])).
  split.
  - intros fuel Hfuel Hfuel'. unfold Main.main_plot.
    rewrite (Hmain fuel Hfuel). unfold Main.plot. rewrite Hen. simpl.
    assert (list_get vertices 0 = Ok root) as -> by (by rewrite Hv).
    rewrite plot_floyd_rendered by done.
    assert (Viz.visualize_floyd_paths_per_source graphviz fuel vertices
              edges dist (FW.make_pos vertices) next_node "floyd_paths"
            = Some (Ok (if graphviz
                        then map (floyd_picture vertices edges c P
                                    "floyd_paths") vertices
                        else []))) as Hviz.
    { destruct graphviz; last done.
      by apply (visualize_floyd_spec vertices edges Hnd Hclosed c P Hg). }
    rewrite !rendered_all by done.
    destruct is_directed; simpl; rewrite ?rendered_all by done; simpl;
      rewrite Hviz; simpl; by rewrite <- ?app_assoc.
  - destruct graphviz, is_directed; simpl; try done.
    + do 2 f_equal. rewrite map_map. by apply map_ext.
    + do 3 f_equal. rewrite map_map. by apply map_ext.
Qed.

(** ** The picture of the graph *)

(** An edge as [generate_graph] draws it. *)
Definition labelled (e : edge) : Viz.drawn :=
  Viz.Drawn (src e) (tgt e) [("label", pretty (wt e))]%string.

Definition both (e : edge) : list edge := [e; rev_edge e].

Lemma collect_fold_both int edges : ∀ st st',
  Forall (typed (delimiter_of false)) edges →
  foldO (Dot.collect int false) st edges = Done st' →
  (∃ es, st.1 = es ≫= both) → ∃ es, st'.1 = es ≫= both.
Proof.
  induction edges as [|[[[u ty] v] w] edges IH]; intros st st' Ht Hf Hst.
  - simpl in Hf. by injection Hf as <-.
  - apply Forall_cons in Ht as [Hty Ht]. unfold typed in Hty. simpl in Hty.
    subst ty. rewrite foldO_cons, collect_typed in Hf.
    destruct (Dot.int_of int w) as [z|e]; last done.
    simpl in Hf. apply (IH _ _ Ht Hf). simpl.
    destruct Hst as [es ->]. exists (es ++ [(u, v, z)]).
    by rewrite bind_app.
Qed.

(** In a file that is not directed, [read_dot_file] lists every edge with
    its reverse next to it. *)
Lemma read_dot_file_both int content edges vertices :
  Dot.read_dot_file int content = Done (false, edges, vertices) →
  ∃ es, edges = es ≫= both.
Proof.
  destruct content as [|header rest]; first done.
  rewrite (read_dot_file_run int header rest _ eq_refl).
  set (d := Str.contains "digraph" header).
  destruct (lines_edges (delimiter_of d)
              (map (fun line => Str.split (delimiter_of d) (Dot.clean line))
                   (take (length (header :: rest) - 2) rest)) [])
    as [(raw & -> & Hty)|Hf]; first constructor; last by rewrite Hf.
  simpl.
  destruct (foldO (Dot.collect int d) ([], ∅) raw) as [st|] eqn:Hc;
    last done.
  simpl. intros [= Hd <- _]. rewrite Hd in *.
  apply (collect_fold_both int raw _ st Hty Hc). by exists [].
Qed.

(** X24: the picture of a graph that is not directed draws every edge
    of the file twice.  [read_dot_file] lists every edge with its reverse
    next to it, and [generate_graph] draws one edge of an undirected
    [Graph] for each element of this list. *)
Theorem generate_graph_twice
    (int : string → result Z) (content : list string) (edges : list edge)
    (vertices : list string) (output_path : string) :
  Dot.read_dot_file int content = Done (false, edges, vertices) →
  ∃ es pic,
    edges = es ≫= both
    ∧ Viz.generate_graph true false edges output_path = Some pic
    ∧ Viz.pic_kind pic = Viz.Graph
    ∧ Viz.pic_file pic = output_path
    ∧ Viz.pic_edges pic = es ≫= (fun e => [labelled e; labelled (rev_edge e)])
    ∧ length (Viz.pic_edges pic) = (2 * length es)%nat.
Proof.
  intros Hr. destruct (read_dot_file_both int content _ _ Hr) as [es ->].
  assert (map (fun e : edge => let '(u, v, w) := e in
                               Viz.Drawn u v [("label"%string, pretty w)])
              (es ≫= both)
          = es ≫= (fun e => [labelled e; labelled (rev_edge e)])) as Hmap.
  { clear. induction es as [|[[u v] w] es IH]; first done.
    rewrite !bind_cons, map_app, IH. done. }
  exists es. eexists. split; first done. split; first done. simpl.
  rewrite Hmap. split_and!; try done.
  clear. induction es as [|e es IH]; first done.
  rewrite bind_cons, length_app, IH. simpl. lia.
Qed.

(** ** Prim without its preconditions *)

(** The adjacency lists do not keep the direction of an edge. *)
Lemma build_adj_rev edges :
  Prim.build_adj (map rev_edge edges) = Prim.build_adj edges.
Proof.
  unfold Prim.build_adj. generalize (∅ : Prim.adjacency) as adj.
  induction edges as [|[[u v] w] edges IH]; intros adj; first done.
  simpl. rewrite IH. f_equal. unfold rev_edge, src, tgt, wt. simpl.
  destruct (decide (u = v)) as [->|Hne]; first done.
  unfold Prim.adj_append, Prim.adj_get.
  rewrite !lookup_insert_ne by done.
  apply insert_insert_ne. congruence.
Qed.

(** The edges that [prim] returns join vertices that the graph joins. *)
Lemma prim_run_edges vertices edges root rest :
  vertices = root :: rest → closed_edges vertices edges →
  ∃ M,
    (∀ fuel, (prim_fuel vertices edges ≤ fuel)%nat →
       Prim.prim fuel vertices edges
       = Some (Ok (Prim.Tree (map num_edge M) (Int (weight M)))))
    ∧ ∀ e, e ∈ M → nbr edges (src e) (tgt e) (wt e).
Proof.
  intros Hv Hclosed.
  assert (root ∈ vertices) as Hroot by (rewrite Hv; apply list_elem_of_here).
  destruct (prim_run vertices edges root rest Hv Hclosed)
    as (st & F & M & Hprim & Hout & Hpq & Hmem & Hsub).
  pose proof (pi_tree _ _ _ _ _ _ Hout) as Htree.
  destruct (prim_tree_nbr vertices edges root _ F Htree) as [Hnbr _].
  exists M. split; first done.
  intros e He. apply Hmem in He as (Ht & Hp & Hw).
  assert (tgt e ≠ root) as Hr.
  { intros Heq. rewrite Heq, (pi_root _ _ _ _ _ _ Hout) in Hp. done. }
  assert (tgt e ∈ Prim.in_tree st) as Hin.
  { destruct (decide (tgt e ∈ Prim.in_tree st)) as [?|Hno]; first done.
    destruct (pi_out _ _ _ _ _ _ Hout (tgt e) (wt e) Ht Hno Hw)
      as (_ & _ & _ & _ & Hq).
    rewrite Hpq in Hq. by apply elem_of_nil in Hq. }
  destruct (pi_in _ _ _ _ _ _ Hout (tgt e) Hin Hr)
    as (p & w & Hp' & Hw' & HinF).
  rewrite Hp in Hp'. rewrite Hw in Hw'.
  injection Hp' as <-. injection Hw' as <-.
  apply Hnbr. by destruct e as [[a b] z].
Qed.

(** C8 as the code has it: [prim] has no precondition and raises no error
    of its own.  On an empty vertex list it returns the empty list.  On any
    other graph, directed or not, it returns its edges and the sum of
    their weights; every returned edge joins two vertices that an edge of
    this weight joins in the graph, in one direction or the other, and the
    result is the same when every edge is given in the opposite direction.
    [main] alone leaves Prim out for a directed graph: a run of [main]
    that returns holds no tree for a directed graph, and the result of
    [prim] for any other. *)
Theorem prim_no_precondition (vertices : list string) (edges : list edge) :
  closed_edges vertices edges →
  (∀ fuel, Prim.prim fuel [] edges = Some (Ok Prim.Empty))
  ∧ (vertices ≠ [] →
     ∃ M,
       (∀ fuel, (prim_fuel vertices edges ≤ fuel)%nat →
          Prim.prim fuel vertices edges
          = Some (Ok (Prim.Tree (map num_edge M) (Int (weight M)))))
       ∧ ∀ e, e ∈ M → nbr edges (src e) (tgt e) (wt e))
  ∧ (∀ fuel, Prim.prim fuel vertices (map rev_edge edges)
             = Prim.prim fuel vertices edges)
  ∧ (∀ fuel, Prim.main_prim fuel true vertices edges = Some (Ok None))
  ∧ (∀ int fuel content s,
       Main.main int fuel content = Some (Done s) →
       if Main.is_directed s then Main.mst s = None
       else ∃ mst_edges total_weight,
              Main.mst s = Some (mst_edges, total_weight)
              ∧ Prim.prim fuel (Main.vertices s) (Main.edges s)
                = Some (Ok (Prim.Tree mst_edges total_weight))).
Proof.
  intros Hclosed. split_and!; try done.
  - intros Hne. destruct vertices as [|root rest] eqn:Hv; first done.
    rewrite <- Hv in *. by apply (prim_run_edges vertices edges root rest).
  - intros fuel. unfold Prim.prim. by rewrite build_adj_rev.
  - intros int fuel content s Hm.
    destruct (main_done int fuel content s Hm) as (_ & Hprim & _).
    unfold Prim.main_prim in Hprim.
    destruct (Main.is_directed s); first by injection Hprim as <-.
    destruct (Prim.prim fuel (Main.vertices s) (Main.edges s))
      as [[[|mst_edges total_weight]|]|]; try done.
    injection Hprim as <-. by eexists _, _.
Qed.

(** ** The theorems on the scenarios *)

(** A directed graph: [A -> B -> C]. *)
Definition chain_edges : list edge :=
  [("A", "B", 1); ("B", "C", 2)]%string.

Lemma prim_no_precondition_witness :
  (∀ fuel, Prim.prim fuel [] chain_edges = Some (Ok Prim.Empty))
  ∧ (abc_vertices ≠ [] →
     ∃ M,
       (∀ fuel, (prim_fuel abc_vertices chain_edges ≤ fuel)%nat →
          Prim.prim fuel abc_vertices chain_edges
          = Some (Ok (Prim.Tree (map num_edge M) (Int (weight M)))))
       ∧ ∀ e, e ∈ M → nbr chain_edges (src e) (tgt e) (wt e))
  ∧ (∀ fuel, Prim.prim fuel abc_vertices (map rev_edge chain_edges)
             = Prim.prim fuel abc_vertices chain_edges)
  ∧ (∀ fuel, Prim.main_prim fuel true abc_vertices chain_edges
             = Some (Ok None))
  ∧ (∀ int fuel content s,
       Main.main int fuel content = Some (Done s) →
       if Main.is_directed s then Main.mst s = None
       else ∃ mst_edges total_weight,
              Main.mst s = Some (mst_edges, total_weight)
              ∧ Prim.prim fuel (Main.vertices s) (Main.edges s)
                = Some (Ok (Prim.Tree mst_edges total_weight))).
Proof.
  apply (prim_no_precondition abc_vertices chain_edges).
  unfold closed_edges. compute_done.
Defined.

(** C8 as stated fails: [prim] returns on an empty graph and on a directed
    graph. *)
Lemma prim_accepts_empty_and_directed :
  Prim.prim 0 [] [] = Some (Ok Prim.Empty)
  ∧ Prim.prim 5 abc_vertices chain_edges
    = Some (Ok (Prim.Tree [("A", "B", Int 1); ("B", "C", Int 2)]%string
                          (Int 3))).
Proof. split; vm_compute; reflexivity. Qed.

Lemma bellman_ford_parent_tree_witness :
  ∃ dist parent,
    BF.bellman_ford abc_vertices abc_edges "A" = Ok (dist, parent)
    ∧ (∀ v u, parent !! v = Some (Some u) →
         ∃ w du, (u, v, w) ∈ abc_edges ∧ dist !! u = Some (Int du)
                 ∧ dist !! v = Some (Int (du + w)))
    ∧ (∀ u, parent !! "A"%string ≠ Some (Some u))
    ∧ (∀ v d, v ≠ "A"%string → dist !! v = Some (Int d) →
         ∃ u, parent !! v = Some (Some u))
    ∧ (∀ v d, dist !! v = Some (Int d) →
         ∃ es, walk abc_edges "A" es v ∧ weight es = d
               ∧ (length es ≤ length abc_vertices - 1)%nat
               ∧ up parent (length es) v = Some "A"%string
               ∧ Forall (fun e => parent !! tgt e = Some (Some (src e))) es).
Proof.
  eexists _, _. split.
  - vm_compute. reflexivity.
  - apply (bellman_ford_parent_tree abc_vertices abc_edges "A").
    + apply abc_closed.
    + vm_compute. reflexivity.
Defined.

(** An edge to [Z], which is no vertex. *)
Definition stray_edges : list edge := [("A", "B", 1); ("B", "Z", 1)]%string.

Lemma bellman_ford_unknown_endpoint_witness :
  BF.bellman_ford abc_vertices stray_edges "A"
  = Raise (KeyError (Some "Z"%string)).
Proof.
  apply (bellman_ford_unknown_endpoint abc_vertices stray_edges "A"
           [("A", "B", 1)]%string ("B", "Z", 1)%string []).
  - reflexivity.
  - unfold known. compute_done.
  - unfold known. compute_done.
  - unfold float_weights. compute_done.
  - simpl. lia.
Defined.

Lemma floyd_warshall_unknown_endpoint_witness :
  FW.floyd_warshall abc_vertices stray_edges
  = Raise (KeyError (Some "Z"%string)).
Proof.
  destruct (floyd_warshall_unknown_endpoint abc_vertices stray_edges)
    as (Hraise & _).
  apply (Hraise [("A", "B", 1)]%string ("B", "Z", 1)%string []).
  - reflexivity.
  - unfold closed_edges. compute_done.
  - compute_done.
Defined.

Lemma floyd_warshall_successor_witness :
  ∃ dist pos next_node,
    FW.floyd_warshall abc_vertices abc_edges = Ok (dist, pos, next_node)
    ∧ ∀ u v i j d,
        pos !! u = Some i → pos !! v = Some j → u ≠ v →
        mlookup dist i j = Some (Int d) →
        ∃ x k w, mlookup next_node i j = Some (Some x)
                 ∧ pos !! x = Some k
                 ∧ (u, x, w) ∈ abc_edges
                 ∧ edge_weight abc_edges u x = Int w
                 ∧ mlookup dist k j = Some (Int (d - w)).
Proof.
  destruct (FW.floyd_warshall abc_vertices abc_edges)
    as [[[dist pos] next_node]|e] eqn:Hfw; last by vm_compute in Hfw.
  exists dist, pos, next_node. split; first done.
  apply (floyd_warshall_successor abc_vertices abc_edges dist pos next_node).
  - compute_done.
  - apply abc_closed.
  - apply abc_no_negative_cycle.
  - done.
Defined.

Lemma reconstruct_path_suffix_witness :
  ∃ dist pos next_node,
    FW.floyd_warshall abc_vertices abc_edges = Ok (dist, pos, next_node)
    ∧ ∀ u v, u ∈ abc_vertices → v ∈ abc_vertices →
        ∃ path,
          (∀ fuel, (length abc_vertices - 1 ≤ fuel)%nat →
             FW.reconstruct_path fuel u v abc_vertices pos next_node
             = Some (Ok path))
          ∧ NoDup path
          ∧ ∀ y, y ∈ path →
              ∃ pre rest,
                path = pre ++ y :: rest
                ∧ ∀ fuel, (length abc_vertices - 1 ≤ fuel)%nat →
                    FW.reconstruct_path fuel y v abc_vertices pos next_node
                    = Some (Ok (y :: rest)).
Proof.
  destruct (FW.floyd_warshall abc_vertices abc_edges)
    as [[[dist pos] next_node]|e] eqn:Hfw; last by vm_compute in Hfw.
  exists dist, pos, next_node. split; first done.
  apply (reconstruct_path_suffix abc_vertices abc_edges dist pos next_node).
  - compute_done.
  - apply abc_closed.
  - apply abc_no_negative_cycle.
  - done.
Defined.

Lemma floyd_warshall_negative_diagonal_witness :
  ∃ dist pos next_node,
    FW.floyd_warshall abc_vertices neg_edges = Ok (dist, pos, next_node)
    ∧ (negative_cycle neg_edges
       ↔ ∃ i d, mlookup dist i i = Some (Int d) ∧ d < 0).
Proof.
  destruct (FW.floyd_warshall abc_vertices neg_edges)
    as [[[dist pos] next_node]|e] eqn:Hfw; last by vm_compute in Hfw.
  exists dist, pos, next_node. split; first done.
  apply (floyd_warshall_negative_diagonal abc_vertices neg_edges dist pos
           next_node).
  - compute_done.
  - unfold closed_edges. compute_done.
  - done.
Defined.

Lemma floyd_warshall_metric_witness :
  ∃ dist pos next_node,
    FW.floyd_warshall abc_vertices abc_edges = Ok (dist, pos, next_node)
    ∧ ∀ i j k,
        (i < length abc_vertices)%nat → (j < length abc_vertices)%nat →
        (k < length abc_vertices)%nat →
        ∃ dij dik dkj,
          mlookup dist i j = Some dij ∧ mlookup dist i k = Some dik
          ∧ mlookup dist k j = Some dkj
          ∧ mlookup dist i i = Some (Int 0)
          ∧ (∀ a b, dik = Int a → dkj = Int b →
               ∃ d, dij = Int d ∧ d ≤ a + b)
          ∧ (symmetric abc_edges → mlookup dist j i = Some dij).
Proof.
  destruct (FW.floyd_warshall abc_vertices abc_edges)
    as [[[dist pos] next_node]|e] eqn:Hfw; last by vm_compute in Hfw.
  exists dist, pos, next_node. split; first done.
  apply (floyd_warshall_metric abc_vertices abc_edges dist pos next_node).
  - compute_done.
  - apply abc_closed.
  - apply abc_no_negative_cycle.
  - done.
Defined.

(** Two components: [A - B] and [C - D]. *)
Definition split_vertices : list string := ["A"; "B"; "C"; "D"]%string.
Definition split_edges : list edge :=
  [("A", "B", 1); ("B", "A", 1); ("C", "D", 2); ("D", "C", 2)]%string.

Lemma prim_spans_component_witness :
  ∃ M,
    (∀ fuel, (prim_fuel split_vertices split_edges ≤ fuel)%nat →
       Prim.prim fuel split_vertices split_edges
       = Some (Ok (Prim.Tree (map num_edge M) (Int (weight M)))))
    ∧ (∀ e, e ∈ M → nbr split_edges (src e) (tgt e) (wt e))
    ∧ NoDup (map tgt M)
    ∧ (∀ v, v ∈ map tgt M
            ↔ v ≠ "A"%string ∧ reachable (sym split_edges) "A" v)
    ∧ (∀ v, reachable (sym split_edges) "A" v → reachable (sym M) "A" v).
Proof.
  apply (prim_spans_component split_vertices split_edges "A"
           ["B"; "C"; "D"]%string).
  - compute_done.
  - reflexivity.
  - unfold closed_edges. compute_done.
Defined.

Lemma prim_total_weight_order_witness :
  ∃ M M',
    (∀ fuel, (prim_fuel abc_vertices abc_edges ≤ fuel)%nat →
       Prim.prim fuel abc_vertices abc_edges
       = Some (Ok (Prim.Tree (map num_edge M) (Int (weight M)))))
    ∧ (∀ fuel, (prim_fuel (rev abc_vertices) (rev abc_edges) ≤ fuel)%nat →
       Prim.prim fuel (rev abc_vertices) (rev abc_edges)
       = Some (Ok (Prim.Tree (map num_edge M') (Int (weight M')))))
    ∧ weight M = weight M'.
Proof.
  apply (prim_total_weight_order abc_vertices (rev abc_vertices)
           abc_edges (rev abc_edges)).
  - compute_done.
  - done.
  - apply abc_closed.
  - unfold symmetric. compute_done.
  - apply abc_connects.
  - apply Permutation_rev.
  - apply Permutation_rev.
Defined.

Lemma bellman_ford_order_witness :
  (float_weights abc_edges → "A"%string ∈ abc_vertices →
   ¬ negative_cycle_from abc_edges "A" →
   (∃ st, BF.bellman_ford abc_vertices abc_edges "A" = Ok st)
   ∧ ∃ st', BF.bellman_ford (rev abc_vertices) (rev abc_edges) "A" = Ok st')
  ∧ ∀ dist parent dist' parent',
      BF.bellman_ford abc_vertices abc_edges "A" = Ok (dist, parent) →
      BF.bellman_ford (rev abc_vertices) (rev abc_edges) "A"
      = Ok (dist', parent') →
      dist = dist'.
Proof.
  apply (bellman_ford_order abc_vertices (rev abc_vertices)
           abc_edges (rev abc_edges) "A").
  - apply abc_closed.
  - apply Permutation_rev.
  - apply Permutation_rev.
Defined.

Lemma floyd_warshall_order_witness :
  (float_small abc_vertices abc_edges →
   (∃ r, FW.floyd_warshall abc_vertices abc_edges = Ok r)
   ∧ ∃ r', FW.floyd_warshall (rev abc_vertices) (rev abc_edges) = Ok r')
  ∧ ∀ dist pos next_node dist' pos' next_node',
      FW.floyd_warshall abc_vertices abc_edges = Ok (dist, pos, next_node) →
      FW.floyd_warshall (rev abc_vertices) (rev abc_edges)
      = Ok (dist', pos', next_node') →
      ∀ u v, u ∈ abc_vertices → v ∈ abc_vertices →
        ∃ i j i' j' d,
          pos !! u = Some i ∧ pos !! v = Some j
          ∧ pos' !! u = Some i' ∧ pos' !! v = Some j'
          ∧ mlookup dist i j = Some d ∧ mlookup dist' i' j' = Some d.
Proof.
  apply (floyd_warshall_order abc_vertices (rev abc_vertices)
           abc_edges (rev abc_edges)).
  - compute_done.
  - apply abc_closed.
  - apply abc_no_negative_cycle.
  - apply Permutation_rev.
  - apply Permutation_rev.
Defined.

Lemma reconstruct_path_unknown_vertex_witness :
  FW.reconstruct_path 2 "A" "Z" abc_vertices (FW.make_pos abc_vertices) []
  = Some (Raise IndexError)
  ∧ FW.reconstruct_path 2 "A" "Z" abc_vertices (FW.make_pos abc_vertices)
      [[Some "A"; Some "B"; Some "B"]; [Some "A"; Some "B"; Some "C"];
       [Some "A"; Some "B"; Some "C"]]%string
    = Some (Raise (KeyError (Some "Z"%string)))
  ∧ FW.reconstruct_path 2 "Z" "A" abc_vertices (FW.make_pos abc_vertices) []
    = Some (Raise (KeyError (Some "Z"%string))).
Proof.
  split_and!.
  - destruct (reconstruct_path_unknown_vertex 2 "A" "Z" abc_vertices [])
      as [H _]; [compute_done | exact H].
  - destruct (reconstruct_path_unknown_vertex 2 "A" "Z" abc_vertices
                [[Some "A"; Some "B"; Some "B"];
                 [Some "A"; Some "B"; Some "C"];
                 [Some "A"; Some "B"; Some "C"]]%string)
      as [H _]; [compute_done | exact H].
  - destruct (reconstruct_path_unknown_vertex 2 "Z" "A" abc_vertices [])
      as [H _]; [compute_done | exact H].
Defined.

(** The edges and the vertices of [triangle_dot]. *)
Definition triangle_edges : list edge :=
  [("A", "B", 1); ("B", "A", 1); ("B", "C", 2); ("C", "B", 2);
   ("A", "C", 1); ("C", "A", 1)]%string.

Lemma triangle_read :
  Dot.read_dot_file int_decimal triangle_dot
  = Done (false, triangle_edges, abc_vertices).
Proof. vm_compute. reflexivity. Qed.

Lemma read_dot_file_well_formed_witness :
  NoDup abc_vertices ∧ increasing abc_vertices
  ∧ closed_edges abc_vertices triangle_edges
  ∧ (∀ v, v ∈ abc_vertices →
       ∃ e, e ∈ triangle_edges ∧ (src e = v ∨ tgt e = v))
  ∧ (false = false → symmetric triangle_edges).
Proof.
  apply (read_dot_file_well_formed int_decimal triangle_dot false
           triangle_edges abc_vertices).
  vm_compute. reflexivity.
Defined.

(** A chain, which DOT allows and the reader does not. *)
Definition chain_dot : list string :=
  ["digraph G {"; "  A -> B -> C;"; "}"]%string.

Lemma read_dot_file_failures_witness :
  Done chain_dot = Fail AttributeError
  ∨ ∃ content,
      Done chain_dot = Done content
      ∧ ((content = [] ∧ AttributeError = Algo IndexError)
         ∨ AttributeError = AttributeError
         ∨ ∃ s x, int_decimal s = Raise x ∧ AttributeError = Algo x).
Proof.
  apply (read_dot_file_failures int_decimal (Done chain_dot) AttributeError).
  vm_compute. reflexivity.
Defined.

Lemma read_dot_file_chain_witness :
  Dot.read_dot_file int_decimal chain_dot = Fail AttributeError.
Proof.
  apply (read_dot_file_chain int_decimal "digraph G {"
           ["  A -> B -> C;"]%string "}" "  A -> B -> C;").
  - compute_done.
  - vm_compute. lia.
Defined.

Lemma read_dot_file_skips_witness :
  Dot.read_dot_file int_decimal
    ["graph G {"; "  A -- B;"; "  C;"; "}"]%string
  = Dot.read_dot_file int_decimal ["graph G {"; "  A -- B;"; "}"]%string.
Proof.
  apply (read_dot_file_skips int_decimal "graph G {" ["  A -- B;"]%string
           "  C;" [] "}").
  vm_compute. reflexivity.
Defined.

Lemma read_dot_file_edge_lines_witness :
  Dot.read_dot_file int_decimal
    ("graph G {"%string
     :: map (edge_line "--")
            [("A", "B", Some "1"); ("B", "C", None)]%string
     ++ ["}"%string])
  = Done (false,
          [("A", "B", 1); ("B", "A", 1); ("B", "C", 1); ("C", "B", 1)]%string,
          abc_vertices).
Proof.
  apply (read_dot_file_edge_lines int_decimal "graph G {"
           [("A", "B", Some "1"); ("B", "C", None)]%string [1; 1] "}").
  - vm_compute. repeat constructor; done.
  - repeat constructor.
Defined.

Lemma main_returns_witness :
  ∃ mst bf fw,
    ∀ fuel, (prim_fuel abc_vertices triangle_edges ≤ fuel)%nat →
      Main.main int_decimal fuel triangle_dot
      = Some (Done (Main.Summary false abc_vertices triangle_edges
                                 mst bf fw)).
Proof.
  apply (main_returns int_decimal triangle_dot false triangle_edges
           abc_vertices).
  - vm_compute. reflexivity.
  - done.
  - unfold float_small. by vm_compute.
Defined.

Lemma main_fails_without_edge_witness :
  [] = @nil string
  ∧ Main.main int_decimal 0 ["graph G {"; "}"]%string
    = Some (Fail (Algo (ValueError Prim.unpack_msg))).
Proof.
  apply (main_fails_without_edge int_decimal ["graph G {"; "}"]%string
           false [] 0).
  vm_compute. reflexivity.
Defined.

Lemma visualize_bellman_paths_tree_witness :
  ∃ dist parent,
    BF.bellman_ford abc_vertices abc_edges "A" = Ok (dist, parent)
    ∧ ∃ pic,
        Viz.visualize_bellman_paths true abc_edges parent "A" "bellman_paths"
        = Some pic
        ∧ Viz.pic_kind pic = Viz.Digraph
        ∧ Viz.pic_file pic = "bellman_paths"%string
        ∧ Forall2 (fun e d => d = red e ∨ d = gray e) abc_edges
                  (Viz.pic_edges pic)
        ∧ (∀ e, red e ∈ Viz.pic_edges pic
                ↔ e ∈ abc_edges ∧ parent !! tgt e = Some (Some (src e)))
        ∧ (∀ v d, dist !! v = Some (Int d) →
             ∃ es, walk abc_edges "A" es v ∧ weight es = d
                   ∧ Forall (fun e => red e ∈ Viz.pic_edges pic) es)
        ∧ (∀ e e', red e ∈ Viz.pic_edges pic → red e' ∈ Viz.pic_edges pic →
             tgt e = tgt e' → src e = src e').
Proof.
  eexists _, _. split.
  - vm_compute. reflexivity.
  - apply (visualize_bellman_paths_tree abc_vertices abc_edges "A").
    + apply abc_closed.
    + vm_compute. reflexivity.
Defined.

Lemma visualize_floyd_paths_shortest_witness :
  ∃ dist pos next_node pics,
    FW.floyd_warshall abc_vertices abc_edges = Ok (dist, pos, next_node)
    ∧ (∀ fuel, (length abc_vertices - 1 ≤ fuel)%nat →
         Viz.visualize_floyd_paths_per_source true fuel abc_vertices
           abc_edges dist pos next_node "floyd_paths"
         = Some (Ok pics))
    ∧ map Viz.pic_file pics
      = map (fun v => ("floyd_paths" ++ "_" ++ v)%string) abc_vertices
    ∧ ∀ i source pic,
        abc_vertices !! i = Some source → pics !! i = Some pic →
        Forall2 (fun e d => d = green e ∨ d = gray e) abc_edges
                (Viz.pic_edges pic)
        ∧ (∀ j target d,
             abc_vertices !! j = Some target →
             mlookup dist i j = Some (Int d) →
             ∃ es, walk abc_edges source es target ∧ weight es = d
                   ∧ Forall (fun e => green e ∈ Viz.pic_edges pic) es)
        ∧ (∀ e, green e ∈ Viz.pic_edges pic →
             e ∈ abc_edges
             ∧ ∃ target path,
                 target ∈ abc_vertices
                 ∧ (∀ fuel, (length abc_vertices - 1 ≤ fuel)%nat →
                      FW.reconstruct_path fuel source target abc_vertices
                        pos next_node = Some (Ok path))
                 ∧ (src e, tgt e) ∈ Viz.steps path).
Proof.
  destruct (FW.floyd_warshall abc_vertices abc_edges)
    as [[[dist pos] next_node]|e] eqn:Hfw; last by vm_compute in Hfw.
  destruct (visualize_floyd_paths_shortest abc_vertices abc_edges
              "floyd_paths" dist pos next_node) as [pics Hpics].
  - compute_done.
  - apply abc_closed.
  - apply abc_no_negative_cycle.
  - done.
  - by exists dist, pos, next_node, pics.
Defined.

(** A world where the directories can be entered and every picture is
    rendered. *)
Definition fair_world : Main.world := Main.World true (fun _ => true).

Lemma main_plot_unbound_parent_witness :
  Main.main_plot int_signed fair_world true (prim_fuel abc_vertices neg_edges)
    "neg" neg_dot
  = Some (Fail (UnboundLocalError "parent")).
Proof.
  apply (main_plot_unbound_parent int_signed fair_world true "neg" neg_dot
           true neg_edges "A" ["B"; "C"]%string).
  - vm_compute. reflexivity.
  - exists "A"%string, neg_edges. split_and!.
    + apply reachable_refl.
    + simpl. split_and!; try done; compute_done.
    + done.
  - unfold float_small. by vm_compute.
  - done.
  - done.
  - done.
Defined.

Lemma triangle_no_negative_cycle : ¬ negative_cycle triangle_edges.
Proof. apply nonneg_no_negative_cycle. compute_done. Qed.

Lemma main_plot_returns_witness :
  ∃ s pics,
    (∀ fuel, (prim_fuel abc_vertices triangle_edges ≤ fuel)%nat →
             (length abc_vertices - 1 ≤ fuel)%nat →
       Main.main_plot int_decimal fair_world true fuel "triangle"
         triangle_dot
       = Some (Done (s, pics)))
    ∧ map Viz.pic_file pics
      = ["triangle"; "mst_tree"; "bellman_paths"; "floyd_paths_A";
         "floyd_paths_B"; "floyd_paths_C"]%string.
Proof.
  apply (main_plot_returns int_decimal fair_world true "triangle"
           triangle_dot false triangle_edges abc_vertices).
  - vm_compute. reflexivity.
  - done.
  - apply triangle_no_negative_cycle.
  - unfold float_small. by vm_compute.
  - done.
  - done.
Defined.

Lemma generate_graph_twice_witness :
  ∃ es pic,
    triangle_edges = es ≫= both
    ∧ Viz.generate_graph true false triangle_edges "triangle" = Some pic
    ∧ Viz.pic_kind pic = Viz.Graph
    ∧ Viz.pic_file pic = "triangle"%string
    ∧ Viz.pic_edges pic = es ≫= (fun e => [labelled e; labelled (rev_edge e)])
    ∧ length (Viz.pic_edges pic) = (2 * length es)%nat.
Proof.
  apply (generate_graph_twice int_decimal triangle_dot triangle_edges
           abc_vertices "triangle").
  vm_compute. reflexivity.
Defined.

Lemma read_dot_file_first_last_witness :
  Dot.read_dot_file int_decimal
    ["graph G {"; "  A -- B;"; "}"]%string
  = Dot.read_dot_file int_decimal
      ["graph H {"; "  A -- B;"; "  C -- D;"]%string
  ∧ Dot.read_dot_file int_decimal ["graph G {"%string]
    = Done (Str.contains "digraph" "graph G {", [], [])
  ∧ Dot.read_dot_file int_decimal ["graph G {"; "}"]%string
    = Done (Str.contains "digraph" "graph G {", [], []).
Proof.
  apply (read_dot_file_first_last int_decimal "graph G {" "graph H {"
           ["  A -- B;"]%string "}" "  C -- D;").
  vm_compute. reflexivity.
Defined.
